(** * Myelin (sling): shallow embedding of the transformer passes of
    [sling/myelin/kernel/arithmetic.cc] and of the runtime accessors of
    [myelin/compute.h], with the properties the specification states
    about them.

    Pointers of the C++ code are keys of finite maps (the object store);
    vectors of pointers ([flow->ops()], [op->inputs], ...) are lists of
    keys.  A failed [CHECK], a dereference of a dangling pointer and an
    out-of-range index are the [None] of the error monad. *)

From Stdlib Require Import ZArith Bool.
From Stdlib.Floats Require Import SpecFloat.
From Stdlib.Strings Require Import Byte Ascii String.
From stdpp Require Import base option list gmap strings.

Local Open Scope string_scope.
Local Open Scope list_scope.
Local Open Scope Z_scope.

(** ** Machine integers *)

(** [int] is a 32-bit two's complement integer. *)
Definition int_min : Z := - 2 ^ 31.
Definition int_max : Z := 2 ^ 31 - 1.

Definition wrap_int (z : Z) : Z := (z + 2 ^ 31) mod 2 ^ 32 - 2 ^ 31.

Definition int_range (z : Z) : Prop := int_min <= z <= int_max.

Definition int_mul (a b : Z) : Z := wrap_int (a * b).
Definition int_add (a b : Z) : Z := wrap_int (a + b).

(** ** State and error monad

    Code that mutates an object graph and may abort runs in [StErr S]:
    a computation takes the state, and returns a value and the new state,
    or fails. *)
Definition StErr (S A : Type) : Type := S -> option (A * S).

#[global] Instance StErr_ret {S} : MRet (StErr S) :=
  fun A a s => Some (a, s).
#[global] Instance StErr_bind {S} : MBind (StErr S) :=
  fun A B k m s => match m s with Some (a, s') => k a s' | None => None end.

Definition fail {S A} : StErr S A := fun _ => None.
Definition check {S} (b : bool) : StErr S unit :=
  if b then mret tt else fail.
Definition lift {S A} (o : option A) : StErr S A :=
  match o with Some a => mret a | None => fail end.
Definition gets {S A} (f : S -> A) : StErr S A := fun s => Some (f s, s).
Definition modify {S} (f : S -> S) : StErr S unit := fun s => Some (tt, f s).

(** ** Element types and shapes (declared in [flow.h]) *)

Inductive Type_ : Set :=
  | DT_INVALID | DT_FLOAT | DT_DOUBLE | DT_INT32 | DT_INT64 | DT_BOOL.

#[global] Instance Type_eq_dec : EqDecision Type_.
Proof. solve_decision. Defined.

(** A shape is the vector of its dimensions; -1 is an unbounded dimension. *)
Definition Shape := list Z.

Module Compute.

(** ** Tensors of a compiled network ([compute.h]) *)

(** [Tensor *] is a key of the tensor store of the network; [nullptr] is
    [None]. *)
Definition TensorPtr := nat.

Record Tensor := {
  offset_ : Z;                      (* offset in data instance block *)
  device_offset_ : Z;
  type_ : Type_;
  ref_ : bool;
  shape_ : Shape;
  stride_ : Shape;                  (* size of each dimension after alignment *)
  size_ : Z;
  shared_ : option TensorPtr;       (* tensor this one shares storage with *)
  link_ : option TensorPtr;
  data_ : option Z;                 (* value for constant tensor *)
  device_data_ : Z;                 (* DevicePtr, DEVICE_NULL = 0 *)
}.

Definition DEVICE_NULL : Z := 0.

Definition TensorStore := gmap TensorPtr Tensor.

(** [Shape::dim(d)]: indexing a vector; out of range has no value. *)
Definition dim (s : Shape) (d : nat) : option Z := s !! d.

Definition stride (t : Tensor) (d : nat) : option Z := dim (stride_ t) d.

(** [int offset() const { return offset_; }] *)
Definition offset (t : Tensor) : Z := offset_ t.

(** [int offset(int r) const { return r * stride(0); }] *)
Definition offset_r (t : Tensor) (r : Z) : option Z :=
  s0 ← stride t 0; Some (int_mul r s0).

(** [int offset(int r, int c) const
       { return r * stride(0) + c * stride(1); }] *)
Definition offset_rc (t : Tensor) (r c : Z) : option Z :=
  s0 ← stride t 0; s1 ← stride t 1;
  Some (int_add (int_mul r s0) (int_mul c s1)).

(** [bool IsConstant() const
       { return data_ != nullptr || device_data_ != DEVICE_NULL; }] *)
Definition IsConstant (t : Tensor) : bool :=
  bool_decide (data_ t ≠ None) || negb (device_data_ t =? DEVICE_NULL).

(** [bool SharedWith(Tensor *other) const
       { return shared_ == other || other->shared_ == this; }]
    The method runs on the tensor at [this]; [other] is dereferenced only
    when the first comparison fails. *)
Definition SharedWith (st : TensorStore) (this : TensorPtr)
    (other : option TensorPtr) : option bool :=
  t ← st !! this;
  if bool_decide (shared_ t = other) then Some true
  else o ← other; ot ← st !! o;
       Some (bool_decide (shared_ ot = Some this)).

(** ** Instances *)

(** The memory of the process: bytes at addresses. *)
Definition Memory := gmap Z byte.

Record Instance := {
  inst_data_ : Z;                   (* char *data_: the instance block *)
  inst_cell_ : nat;                 (* const Cell *cell_ *)
}.

(** A method of [Instance] runs on the instance and the memory and may
    fail. *)
Abbreviation M := (StErr (Instance * Memory)).

Definition DCHECK (b : bool) : M unit := check b.
Definition get_data : M Z := gets (fun s => inst_data_ (fst s)).
Definition store_bytes (a : Z) (bs : list byte) : M unit :=
  modify (fun s => (fst s,
    fold_right (fun ib m => <[a + Z.of_nat (fst ib) := snd ib]> m) (snd s)
               (imap (fun i b => (i, b)) bs))).

(** [template<typename T> T *Get(Tensor *param)]: the template argument
    is the element type [T]. *)
Definition Get (T : Type_) (st : TensorStore) (param : option TensorPtr) : M Z :=
  _ ← DCHECK (bool_decide (param ≠ None)) ;
  p ← lift (param ≫= (st !!.)) ;
  _ ← DCHECK (negb (IsConstant p)) ;
  _ ← DCHECK (bool_decide (T = type_ p)) ;
  d ← get_data ;
  mret (d + offset p).

(** [template<typename T> T *Get(Tensor *param, int r)] *)
Definition Get_r (T : Type_) (st : TensorStore) (param : option TensorPtr)
    (r : Z) : M Z :=
  _ ← DCHECK (bool_decide (param ≠ None)) ;
  p ← lift (param ≫= (st !!.)) ;
  _ ← DCHECK (negb (IsConstant p)) ;
  _ ← DCHECK (bool_decide (T = type_ p)) ;
  d ← get_data ;
  o ← lift (offset_r p r) ;
  mret (d + offset p + o).

(** [template<typename T> T *Get(Tensor *param, int r, int c)] *)
Definition Get_rc (T : Type_) (st : TensorStore) (param : option TensorPtr)
    (r c : Z) : M Z :=
  _ ← DCHECK (bool_decide (param ≠ None)) ;
  p ← lift (param ≫= (st !!.)) ;
  _ ← DCHECK (negb (IsConstant p)) ;
  _ ← DCHECK (bool_decide (T = type_ p)) ;
  d ← get_data ;
  o ← lift (offset_rc p r c) ;
  mret (d + offset p + o).

(** A pointer is stored as eight little-endian bytes. *)
Definition pointer_bytes (p : Z) : list byte :=
  map (fun i => default x00 (Byte.of_N (Z.to_N ((p / 2 ^ (8 * Z.of_nat i)) mod 256))))
      (seq 0 8).

(** [void Set(Tensor *param, Channel *channel, int index = 0)]: writes the
    address of the channel element into the instance block.  The address
    [channel->at(index)] is the argument [elem]. *)
Definition Set_ (st : TensorStore) (param : TensorPtr) (elem : Z) : M unit :=
  p ← lift (st !! param) ;
  d ← get_data ;
  store_bytes (d + offset p) (pointer_bytes elem).

End Compute.

(** ** IEEE 754 values of constants

    Constant data is a block of bytes; the code reads it through
    [reinterpret_cast<const float *>] and [<const double *>].  A value is
    a number, with the arithmetic of [spec_float] (binary32 has precision
    24 and maximal exponent 128, binary64 has 53 and 1024), or a NaN,
    which keeps its sign and its mantissa field.  The operations on a NaN
    are the ones of SSE2 on x86-64, which the code is compiled for: a
    conversion or a division returns its NaN operand with the quiet bit
    set, and an invalid division of two numbers the default NaN, which has
    the sign bit set. *)
Module Float.

Definition bits_of_bytes (bs : list byte) : Z :=
  fold_right (fun b acc => Z.of_N (Byte.to_N b) + 256 * acc) 0 bs.

Definition bytes_of_bits (n : nat) (w : Z) : list byte :=
  map (fun i => default x00 (Byte.of_N (Z.to_N ((w / 2 ^ (8 * Z.of_nat i)) mod 256))))
      (seq 0 n).

Inductive fp :=
| Zero (s : bool)
| Infinity (s : bool)
| NaN (s : bool) (m : Z)                (* sign and mantissa field *)
| Finite (s : bool) (m : positive) (e : Z).

(** Decoding of a word with [mw] mantissa bits and [ew] exponent bits. *)
Definition decode (mw ew : Z) (w : Z) : fp :=
  let s := Z.testbit w (mw + ew) in
  let e := Z.land (Z.shiftr w mw) (2 ^ ew - 1) in
  let m := Z.land w (2 ^ mw - 1) in
  let bias := 2 ^ (ew - 1) - 1 in
  if e =? 2 ^ ew - 1 then (if m =? 0 then Infinity s else NaN s m)
  else if e =? 0 then
    match m with Zpos p => Finite s p (1 - bias - mw) | _ => Zero s end
  else Finite s (Z.to_pos (m + 2 ^ mw)) (e - bias - mw).

Definition encode (mw ew : Z) (f : fp) : Z :=
  let bias := 2 ^ (ew - 1) - 1 in
  let sign (s : bool) := if s then 2 ^ (mw + ew) else 0 in
  match f with
  | Zero s => sign s
  | Infinity s => sign s + (2 ^ ew - 1) * 2 ^ mw
  | NaN s m => sign s + (2 ^ ew - 1) * 2 ^ mw + m
  | Finite s m e =>
      if Zpos m <? 2 ^ mw then sign s + Zpos m
      else sign s + (e + bias + mw) * 2 ^ mw + (Zpos m - 2 ^ mw)
  end.

(** [*reinterpret_cast<const float *>(data)] *)
Definition load_float (bs : list byte) : option fp :=
  if (4 <=? length bs)%nat then Some (decode 23 8 (bits_of_bytes (take 4 bs)))
  else None.

(** [*reinterpret_cast<const double *>(data)] *)
Definition load_double (bs : list byte) : option fp :=
  if (8 <=? length bs)%nat then Some (decode 52 11 (bits_of_bytes (take 8 bs)))
  else None.

(** [*reinterpret_cast<float *>(buffer) = f] *)
Definition store_float (f : fp) (bs : list byte) : option (list byte) :=
  if (4 <=? length bs)%nat then Some (bytes_of_bits 4 (encode 23 8 f) ++ drop 4 bs)
  else None.

(** The number of a value; a NaN is none. *)
Definition number (x : fp) : spec_float :=
  match x with
  | Zero s => S754_zero s
  | Infinity s => S754_infinity s
  | NaN _ _ => S754_nan
  | Finite s m e => S754_finite s m e
  end.

(** The result of an operation on numbers, in a format with [mw] mantissa
    bits: an invalid operation gives the default NaN. *)
Definition of_number (mw : Z) (x : spec_float) : fp :=
  match x with
  | S754_zero s => Zero s
  | S754_infinity s => Infinity s
  | S754_nan => NaN true (2 ^ (mw - 1))
  | S754_finite s m e => Finite s m e
  end.

(** The mantissa field of a NaN with the quiet bit set. *)
Definition quiet (mw : Z) (m : Z) : Z := Z.lor m (2 ^ (mw - 1)).

(** Conversion [float] to [double] (exact; the mantissa field of a NaN
    moves to the upper bits) and [double] to [float] (rounding to nearest
    even; the upper bits of the mantissa field of a NaN are kept). *)
Definition to_double (x : fp) : fp :=
  match x with
  | Finite s m e => of_number 52 (binary_round 53 1024 s m e)
  | NaN s m => NaN s (Z.shiftl (quiet 23 m) 29)
  | _ => x
  end.

Definition to_float (x : fp) : fp :=
  match x with
  | Finite s m e => of_number 23 (binary_round 24 128 s m e)
  | NaN s m => NaN s (quiet 23 (Z.shiftr m 29))
  | _ => x
  end.

(** The [double] literals of the code. *)
Definition d_zero : fp := Zero false.
Definition d_one : fp := Finite false (2 ^ 52) (-52).
Definition d_half : fp := Finite false (2 ^ 52) (-53).
Definition d_two : fp := Finite false (2 ^ 52) (-51).
Definition d_minus_one : fp := Finite true (2 ^ 52) (-52).

(** [x / y] in [double]: a NaN operand is the result, the first one when
    both are. *)
Definition ddiv (x y : fp) : fp :=
  match x, y with
  | NaN s m, _ => NaN s (quiet 52 m)
  | _, NaN s m => NaN s (quiet 52 m)
  | _, _ => of_number 52 (SFdiv 53 1024 (number x) (number y))
  end.

(** [x == y]: false when an operand is a NaN. *)
Definition deq (x y : fp) : bool := SFeqb (number x) (number y).

End Float.

(** ** Shapes

    Modelled from the spec: [Shape] is declared in [flow.h], which is not
    among the sources; a shape is an ordered sequence of dimensions, any
    of which may be -1 (unbounded), and fused operands must be broadcast
    compatible. *)
Module Shapes.

Definition rank (s : Shape) : Z := Z.of_nat (length s).

(** Number of elements; -1 when a dimension is unbounded. *)
Fixpoint elements (s : Shape) : Z :=
  match s with
  | [] => 1
  | d :: s' =>
      if d =? -1 then -1
      else let n := elements s' in if n =? -1 then -1 else int_mul d n
  end.

Definition defined (s : Shape) : bool := forallb (fun d => negb (d =? -1)) s.

(** Broadcast compatibility: aligned from the last dimension, two
    dimensions agree when they are equal or one of them is 1 or -1. *)
Fixpoint compatible_rev (a b : list Z) : bool :=
  match a, b with
  | d1 :: a', d2 :: b' =>
      ((d1 =? -1) || (d1 =? 1) || (d2 =? -1) || (d2 =? 1) || (d1 =? d2))
      && compatible_rev a' b'
  | _, _ => true
  end.

Definition IsCompatible (a b : Shape) : bool := compatible_rev (rev a) (rev b).

(** Common size: the product of the trailing dimensions on which the two
    shapes agree. *)
Fixpoint common_rev (a b : list Z) : Z :=
  match a, b with
  | d1 :: a', d2 :: b' => if d1 =? d2 then int_mul d1 (common_rev a' b') else 1
  | _, _ => 1
  end.

Definition CommonSize (a b : Shape) : Z := common_rev (rev a) (rev b).

End Shapes.

(** ** Expressions

    Modelled from the spec: the class [Express] is declared in
    [express.h], which is not among the sources.  An expression is a flat
    list of typed variables (input, output, const, number, temp) and of
    operations; its textual form, the recipe, is the [expr] attribute of
    an operation.  A [Var *] is a key; the keys of all expressions come
    from one allocator, so that variables moved from one expression to
    another keep their identity. *)
Module Express.

Inductive VarType : Set := INPUT | CONST | OUTPUT | TEMP | NUMBER.

#[global] Instance VarType_eq_dec : EqDecision VarType.
Proof. solve_decision. Defined.

Inductive OpType : Set :=
  | MOV | ADD | SUB | MUL | DIV | MINIMUM | MAXIMUM
  | LOG | EXP | SIGMOID | ERF
  | SIN | COS | TAN | COT | SEC | CSC
  | ASIN | ACOS | ATAN | ACOT | ASEC | ACSC
  | SINH | COSH | TANH | COTH | SECH | CSCH
  | ASINH | ACOSH | ATANH | ACOTH | ASECH | ACSCH
  | NEG | ABS | SIGN | RELU | SOFTSIGN | SOFTPLUS | LOGSIGMOID
  | RECIPROCAL | SQUARE | SQRT | RSQRT
  | CMPEQOQ | CMPNEUQ | CMPLTOQ | CMPLEOQ | CMPGTOQ | CMPGEOQ
  | COND | SELECT
  | AND | OR | XOR | ANDNOT | NOT
  | SUM | PRODUCT | MIN | MAX | ALL | ANY | COUNT
  | INVALID.

#[global] Instance OpType_eq_dec : EqDecision OpType.
Proof. solve_decision. Defined.

(** System constants: the identifiers of [NUMBER] variables. *)
Definition ZERO : Z := 0.
Definition ONE : Z := 1.
Definition TWO : Z := 2.
Definition HALF : Z := 3.
Definition N1 : Z := 4.

Definition VarId := nat.

Record Var := mkVar {
  type : VarType;
  id : Z;
  single : bool;
}.

Record Op := mkOp {
  op_type : OpType;
  result : option VarId;
  args : list VarId;
}.

Record t := mkExpress {
  vars_ : list (VarId * Var);       (* the variables, in order, by pointer *)
  ops_ : list Op;
}.

(** A recipe names variables by type and identifier: one statement
    [result = op(args)] per operation. *)
Definition VarRef : Set := VarType * Z.
Record Stmt := mkStmt { s_result : VarRef; s_op : OpType; s_args : list VarRef }.
Definition Recipe := list Stmt.

#[global] Instance Stmt_eq_dec : EqDecision Stmt.
Proof. solve_decision. Defined.

(** [recipe.empty()] *)
Definition empty (r : Recipe) : bool := match r with [] => true | _ => false end.

(** *** Operations on expressions *)

(** The allocator of variable keys. *)
Abbreviation EM := (StErr nat).

Definition new_key : EM VarId := fun n => Some (n, S n).

Fixpoint assoc (k : VarId) (l : list (VarId * Var)) : option Var :=
  match l with
  | [] => None
  | (k', v) :: l' => if bool_decide (k' = k) then Some v else assoc k l'
  end.

(** [*v] for a variable pointer [v] of the expression. *)
Definition var (e : t) (k : VarId) : option Var := assoc k (vars_ e).

Definition update_var (k : VarId) (g : Var -> Var) (e : t) : t :=
  mkExpress (map (fun kv => if bool_decide (fst kv = k) then (fst kv, g (snd kv)) else kv)
                 (vars_ e))
            (ops_ e).

Definition set_type (ty : VarType) (v : Var) : Var := mkVar ty (id v) (single v).
Definition set_id (i : Z) (v : Var) : Var := mkVar (type v) i (single v).
Definition set_single (b : bool) (v : Var) : Var := mkVar (type v) (id v) b.

(** [Lookup(type, id)]: the first variable with this type and identifier. *)
Definition Lookup (ty : VarType) (i : Z) (e : t) : option VarId :=
  fst <$> find (fun kv => bool_decide (type (snd kv) = ty) && (id (snd kv) =? i)) (vars_ e).

(** [Variable(type, id)]: the variable with this type and identifier; a
    new one when there is none, or when [id] is -1. *)
Definition Variable_ (ty : VarType) (i : Z) (e : t) : EM (VarId * t) :=
  match (if i =? -1 then None else Lookup ty i e) with
  | Some k => mret (k, e)
  | None =>
      k ← new_key;
      mret (k, mkExpress (vars_ e ++ [(k, mkVar ty i false)]) (ops_ e))
  end.

(** [Temp()] *)
Definition Temp (e : t) : EM (VarId * t) := Variable_ TEMP (-1) e.

(** The operation that assigns the variable, if any. *)
Definition producer (e : t) (k : VarId) : option Op :=
  find (fun o => bool_decide (result o = Some k)) (ops_ e).

(** [usages()]: the number of arguments of operations that are the
    variable. *)
Definition usages (e : t) (k : VarId) : Z :=
  Z.of_nat (length (filter (fun a => a = k) (concat (map args (ops_ e))))).

(** [reduction()] *)
Definition reduction (o : Op) : bool :=
  match op_type o with
  | SUM | PRODUCT | MIN | MAX | ALL | ANY | COUNT => true
  | _ => false
  end.

(** [Function(type, args)]: appends an operation with a new temporary as
    result; the operation is the last one of the expression. *)
Definition Function (ty : OpType) (a : list VarId) (e : t) : EM t :=
  r ← Temp e;
  mret (mkExpress (vars_ (snd r)) (ops_ (snd r) ++ [mkOp ty (Some (fst r)) a])).

(** [func->Assign(var)] for the last operation [func] of the expression;
    the variable must not be assigned already. *)
Definition Assign_last (k : VarId) (e : t) : option t :=
  match producer e k with
  | Some _ => None
  | None =>
      match reverse (ops_ e) with
      | o :: rest => Some (mkExpress (vars_ e)
                                      (reverse rest ++ [mkOp (op_type o) (Some k) (args o)]))
      | [] => None
      end
  end.

(** [CompactTempVars()]: numbers the temporaries from 0 in order. *)
Fixpoint compact (n : Z) (l : list (VarId * Var)) : list (VarId * Var) :=
  match l with
  | [] => []
  | (k, v) :: l' =>
      if bool_decide (type v = TEMP) then (k, set_id n v) :: compact (n + 1) l'
      else (k, v) :: compact n l'
  end.

Definition CompactTempVars (e : t) : t := mkExpress (compact 0 (vars_ e)) (ops_ e).

(** [Merge(other, varmap)]: the variables of [other] that are not mapped
    move to this expression; its operations move with their variables
    mapped. *)
Definition Merge (e other : t) (varmap : gmap VarId VarId) : t :=
  let moved := filter (fun kv => varmap !! fst kv = None) (vars_ other) in
  let temps_moved := existsb (fun kv => bool_decide (type (snd kv) = TEMP)) moved in
  let rename k := default k (varmap !! k) in
  let ops' := map (fun o => mkOp (op_type o) (rename <$> result o) (map rename (args o)))
                  (ops_ other) in
  let e' := mkExpress (vars_ e ++ moved) (ops_ e ++ ops') in
  if temps_moved then CompactTempVars e' else e'.

(** [EliminateRedundantMoves()]: a move into a temporary is removed, the
    uses of the temporary reading the source; a move out of a temporary
    that has no other use is removed, the producer of the temporary
    assigning the destination. *)
Definition redirect (from to : VarId) (o : Op) : Op :=
  mkOp (op_type o) (result o) (map (fun a => if bool_decide (a = from) then to else a) (args o)).

Fixpoint eliminate_move (e : t) (before after : list Op) : option (list Op) :=
  match after with
  | [] => None
  | o :: rest =>
      match op_type o, args o, result o with
      | MOV, [src], Some dst =>
          match var e dst, var e src with
          | Some dv, Some sv =>
              if bool_decide (type dv = TEMP)
              then Some (map (redirect dst src) (before ++ rest))
              else if bool_decide (type sv = TEMP) && (usages e src =? 1)
                      && bool_decide (producer e src ≠ None)
              then Some (map (fun p => if bool_decide (result p = Some src)
                                       then mkOp (op_type p) (Some dst) (args p) else p)
                             (before ++ rest))
              else eliminate_move e (before ++ [o]) rest
          | _, _ => eliminate_move e (before ++ [o]) rest
          end
      | _, _, _ => eliminate_move e (before ++ [o]) rest
      end
  end.

Fixpoint eliminate_moves (fuel : nat) (e : t) : t :=
  match fuel with
  | O => e
  | S n =>
      match eliminate_move e [] (ops_ e) with
      | Some ops' => eliminate_moves n (mkExpress (vars_ e) ops')
      | None => e
      end
  end.

Definition EliminateRedundantMoves (e : t) : t := eliminate_moves (length (ops_ e)) e.

(** [AsRecipe()] *)
Definition ref (e : t) (k : VarId) : option VarRef :=
  v ← var e k; Some (type v, id v).

Definition AsRecipe (e : t) : option Recipe :=
  mapM (fun o => r ← result o; rr ← ref e r; a ← mapM (ref e) (args o);
                 Some (mkStmt rr (op_type o) a))
       (ops_ e).

(** [Parse(recipe)] *)
Fixpoint parse_args (a : list VarRef) (e : t) : EM (list VarId * t) :=
  match a with
  | [] => mret ([], e)
  | (ty, i) :: a' =>
      r ← Variable_ ty i e;
      r' ← parse_args a' (snd r);
      mret (fst r :: fst r', snd r')
  end.

Fixpoint Parse (r : Recipe) (e : t) : EM t :=
  match r with
  | [] => mret e
  | s :: r' =>
      a ← parse_args (s_args s) e;
      d ← Variable_ (fst (s_result s)) (snd (s_result s)) (snd a);
      Parse r' (mkExpress (vars_ (snd d))
                          (ops_ (snd d) ++ [mkOp (s_op s) (Some (fst d)) (fst a)]))
  end.

Definition new : t := mkExpress [] [].

End Express.

(** ** Flows

    Modelled from the spec: the classes [Flow], [Flow::Variable] and
    [Flow::Operation] are declared in [flow.h] and implemented in
    [flow.cc], which are not among the sources.  The data model follows
    section 3 of the specification; the operations [Find], [Eliminate],
    [Fuse], [RemoveOperation] and [AllocateMemory] follow section 6. *)
Module Flow.

Definition VarPtr := nat.
Definition OpPtr := nat.
Definition Addr := nat.

(** [Flow::Variable] *)
Record Var := mkVariable {
  v_name : string;
  v_type : Type_;
  v_shape : Shape;
  v_data : option Addr;             (* constant data, owned by the flow or not *)
  v_size : Z;                       (* size of the data in bytes *)
  v_out : bool;                     (* externally visible *)
  v_producer : option OpPtr;
  v_consumers : list OpPtr;
}.

(** [Flow::Operation].  The attribute map of an operation is held in two
    fields: [o_expr] is the attribute [expr], which the code reads with
    [GetAttr("expr")] and writes with [SetAttr("expr", ...)], as the recipe
    that its string spells (the empty recipe when the attribute is not
    set or empty); [o_attrs] is the rest of the map, the attributes with
    any other name.  The attributes of an operation are both fields, and
    writing the attribute [expr] changes them. *)
Record Operation := mkOperation {
  o_name : string;
  o_type : string;
  o_inputs : list VarPtr;
  o_outputs : list VarPtr;
  o_attrs : list (string * string); (* the attributes other than [expr] *)
  o_expr : Express.Recipe;          (* the attribute [expr] *)
}.

Record t := mkFlow {
  vars_ : list VarPtr;              (* flow->vars() *)
  ops_ : list OpPtr;                (* flow->ops() *)
  var_at : gmap VarPtr Var;    (* the variable a pointer points to *)
  op_at : gmap OpPtr Operation;     (* the operation a pointer points to *)
  memory_ : list Addr;              (* data blocks owned by the flow *)
  heap : gmap Addr (list byte);     (* the content of the data blocks *)
}.

(** *** Field updates *)

Definition set_v_data (d : option Addr) (v : Var) : Var :=
  mkVariable (v_name v) (v_type v) (v_shape v) d (v_size v) (v_out v)
             (v_producer v) (v_consumers v).
Definition set_v_out (b : bool) (v : Var) : Var :=
  mkVariable (v_name v) (v_type v) (v_shape v) (v_data v) (v_size v) b
             (v_producer v) (v_consumers v).
Definition set_v_producer (p : option OpPtr) (v : Var) : Var :=
  mkVariable (v_name v) (v_type v) (v_shape v) (v_data v) (v_size v) (v_out v)
             p (v_consumers v).
Definition set_v_consumers (c : list OpPtr) (v : Var) : Var :=
  mkVariable (v_name v) (v_type v) (v_shape v) (v_data v) (v_size v) (v_out v)
             (v_producer v) c.

Definition set_o_type (ty : string) (o : Operation) : Operation :=
  mkOperation (o_name o) ty (o_inputs o) (o_outputs o) (o_attrs o) (o_expr o).
Definition set_o_inputs (i : list VarPtr) (o : Operation) : Operation :=
  mkOperation (o_name o) (o_type o) i (o_outputs o) (o_attrs o) (o_expr o).
Definition set_o_outputs (i : list VarPtr) (o : Operation) : Operation :=
  mkOperation (o_name o) (o_type o) (o_inputs o) i (o_attrs o) (o_expr o).
Definition set_o_attrs (a : list (string * string)) (o : Operation) : Operation :=
  mkOperation (o_name o) (o_type o) (o_inputs o) (o_outputs o) a (o_expr o).
Definition set_o_expr (r : Express.Recipe) (o : Operation) : Operation :=
  mkOperation (o_name o) (o_type o) (o_inputs o) (o_outputs o) (o_attrs o) r.

Definition set_vars (l : list VarPtr) (f : t) : t :=
  mkFlow l (ops_ f) (var_at f) (op_at f) (memory_ f) (heap f).
Definition set_ops (l : list OpPtr) (f : t) : t :=
  mkFlow (vars_ f) l (var_at f) (op_at f) (memory_ f) (heap f).
Definition set_var_at (m : gmap VarPtr Var) (f : t) : t :=
  mkFlow (vars_ f) (ops_ f) m (op_at f) (memory_ f) (heap f).
Definition set_op_at (m : gmap OpPtr Operation) (f : t) : t :=
  mkFlow (vars_ f) (ops_ f) (var_at f) m (memory_ f) (heap f).

(** The objects behind pointers, and assignments through pointers. *)
Definition var (f : t) (v : VarPtr) : option Var := var_at f !! v.
Definition op (f : t) (o : OpPtr) : option Operation := op_at f !! o.

Definition update_var (v : VarPtr) (g : Var -> Var) (f : t) : t :=
  set_var_at (alter g v (var_at f)) f.
Definition update_op (o : OpPtr) (g : Operation -> Operation) (f : t) : t :=
  set_op_at (alter g o (op_at f)) f.

(** *** Variables *)

Definition usages (v : Var) : Z := Z.of_nat (length (v_consumers v)).
Definition elements (v : Var) : Z := Shapes.elements (v_shape v).
Definition rank (v : Var) : Z := Shapes.rank (v_shape v).
Definition constant (v : Var) : bool := bool_decide (v_data v ≠ None).
Definition out (v : Var) : bool := v_out v.

(** *** Operations *)

Definition indegree (o : Operation) : Z := Z.of_nat (length (o_inputs o)).
Definition outdegree (o : Operation) : Z := Z.of_nat (length (o_outputs o)).

Definition IsInput (o : Operation) (v : VarPtr) : bool :=
  bool_decide (v ∈ o_inputs o).
Definition IsOutput (o : Operation) (v : VarPtr) : bool :=
  bool_decide (v ∈ o_outputs o).

(** Index of the first occurrence. *)
Fixpoint index_of (v : VarPtr) (l : list VarPtr) : option nat :=
  match l with
  | [] => None
  | x :: l' => if bool_decide (x = v) then Some 0%nat else S <$> index_of v l'
  end.

(** [InputIndex(var)]: the index of the variable among the inputs, or -1. *)
Definition InputIndex (o : Operation) (v : VarPtr) : Z :=
  match index_of v (o_inputs o) with
  | Some i => Z.of_nat i
  | None => -1
  end.

Fixpoint lookup_attr (name : string) (a : list (string * string)) : option string :=
  match a with
  | [] => None
  | (n, v) :: a' => if bool_decide (n = name) then Some v else lookup_attr name a'
  end.

(** [GetAttr(name, defval)] for a boolean attribute, whose name is not
    [expr]. *)
Definition GetAttrBool (o : Operation) (name : string) (defval : bool) : bool :=
  match lookup_attr name (o_attrs o) with
  | Some v => bool_decide (v = "1") || bool_decide (v = "T") || bool_decide (v = "true")
  | None => defval
  end.

(** [GetAttr("expr")] and [SetAttr("expr", recipe)] read and write the
    field [o_expr]. *)
Abbreviation GetAttr_expr := o_expr (only parsing).
Abbreviation SetAttr_expr := set_o_expr (only parsing).

(** Removal of the first occurrence from a vector. *)
Fixpoint remove_first (x : nat) (l : list nat) : list nat :=
  match l with
  | [] => []
  | y :: l' => if bool_decide (y = x) then l' else y :: remove_first x l'
  end.

(** *** Memory owned by the flow *)

(** [AllocateMemory(size)]: a new block of [size] bytes at an address no
    block has, recorded as owned by the flow. *)
Definition AllocateMemory (size : nat) (f : t) : Addr * t :=
  let a := fresh (dom (heap f)) in
  (a, mkFlow (vars_ f) (ops_ f) (var_at f) (op_at f) (memory_ f ++ [a])
             (<[a := replicate size x00]> (heap f))).

Definition set_heap (h : gmap Addr (list byte)) (f : t) : t :=
  mkFlow (vars_ f) (ops_ f) (var_at f) (op_at f) (memory_ f) h.

(** [GetData<float>(&value)]: the value of a single-element constant of
    type float. *)
Definition GetData_float (f : t) (v : Var) : option Float.fp :=
  a ← v_data v;
  if bool_decide (v_type v = DT_FLOAT) && (elements v =? 1)
  then bs ← heap f !! a; Float.load_float bs
  else None.

(** *** Edges *)

Definition DeleteVariable (v : VarPtr) (f : t) : t :=
  set_vars (filter (fun x => x ≠ v) (vars_ f)) (set_var_at (delete v (var_at f)) f).

Definition DeleteOperation (o : OpPtr) (f : t) : t :=
  set_ops (filter (fun x => x ≠ o) (ops_ f)) (set_op_at (delete o (op_at f)) f).

(** [op->RemoveInput(var)]: drops the edge from [var] to [op]. *)
Definition RemoveInput (o : OpPtr) (v : VarPtr) (f : t) : t :=
  update_var v (fun x => set_v_consumers (remove_first o (v_consumers x)) x)
    (update_op o (fun x => set_o_inputs (remove_first v (o_inputs x)) x) f).

(** [op->RemoveOutput(var)]: drops the edge from [op] to [var]. *)
Definition RemoveOutput (o : OpPtr) (v : VarPtr) (f : t) : t :=
  update_var v (set_v_producer None)
    (update_op o (fun x => set_o_outputs (remove_first v (o_outputs x)) x) f).

(** [op->ReplaceInput(var, replacement)]: every input edge from [var] is
    redirected to [replacement]. *)
Definition ReplaceInput (o : OpPtr) (v r : VarPtr) (f : t) : option t :=
  oo ← op f o;
  let n := length (filter (fun x => x = v) (o_inputs oo)) in
  Some (update_var r (fun x => set_v_consumers (v_consumers x ++ replicate n o) x)
         (update_var v (fun x => set_v_consumers
                                   (Nat.iter n (remove_first o) (v_consumers x)) x)
           (update_op o
              (fun x => set_o_inputs
                 (map (fun i => if bool_decide (i = v) then r else i) (o_inputs x)) x)
              f))).

(** [RemoveOperation(op)]: removes the operation and its edges. *)
Definition RemoveOperation (o : OpPtr) (f : t) : option t :=
  oo ← op f o;
  let f1 := fold_left (fun g v => RemoveInput o v g) (o_inputs oo) f in
  let f2 := fold_left (fun g v => RemoveOutput o v g) (o_outputs oo) f1 in
  Some (DeleteOperation o f2).

(** [Eliminate(op)]: removes an operation with one input and one output,
    bypassing it: the consumers of its output read its input instead. *)
Definition Eliminate (o : OpPtr) (f : t) : option t :=
  oo ← op f o;
  match o_inputs oo, o_outputs oo with
  | [], outs =>
      Some (DeleteOperation o
              (fold_left (fun g v => update_var v (set_v_producer None) g) outs f))
  | [input], [output] =>
      ov ← var f output;
      _ ← var f input;
      let f1 := if out ov then update_var input (set_v_out true) f else f in
      let f2 := set_op_at
                  ((fun x => set_o_inputs
                      (map (fun i => if bool_decide (i = output) then input else i)
                           (o_inputs x)) x) <$> op_at f1) f1 in
      let f3 := update_var input
                  (fun x => set_v_consumers
                              (remove_first o (v_consumers x) ++ v_consumers ov) x) f2 in
      Some (DeleteOperation o (DeleteVariable output f3))
  | _, _ => None
  end.

(** *** Prototype, dependencies and fusion *)

(** [GetPrototype()]: the representative variable of an operation, its
    first output, or its first input if the output has rank 0 (or there
    is no output). *)
Definition GetPrototype (f : t) (o : Operation) : option VarPtr :=
  match o_outputs o with
  | out0 :: _ =>
      ov ← var f out0;
      if rank ov =? 0 then Some (default out0 (o_inputs o !! 0%nat)) else Some out0
  | [] => o_inputs o !! 0%nat
  end.

(** [v->DependsOn(op)]: the operation is reached from the variable by
    going from a variable to its producer and from an operation to its
    inputs.  A path without repetition has at most as many variables as
    the flow, which is the fuel. *)
Fixpoint depends_on (fuel : nat) (f : t) (v : VarPtr) (target : OpPtr) : bool :=
  match fuel with
  | O => false
  | S n =>
      match var f v ≫= v_producer with
      | None => false
      | Some p =>
          bool_decide (p = target)
          || match op f p with
             | None => false
             | Some po => existsb (fun i => depends_on n f i target) (o_inputs po)
             end
      end
  end.

Definition DependsOn (f : t) (v : VarPtr) (target : OpPtr) : bool :=
  depends_on (S (size (var_at f))) f v target.

(** [second->MoveInput(v, first)] and [second->MoveOutput(v, first)] *)
Definition MoveInput (second first : OpPtr) (v : VarPtr) (f : t) : t :=
  update_var v (fun x => set_v_consumers (v_consumers x ++ [first]) x)
    (update_op first (fun x => set_o_inputs (o_inputs x ++ [v]) x)
       (RemoveInput second v f)).

Definition MoveOutput (second first : OpPtr) (v : VarPtr) (f : t) : t :=
  update_var v (set_v_producer (Some first))
    (update_op first (fun x => set_o_outputs (o_outputs x ++ [v]) x)
       (RemoveOutput second v f)).

(** One input [v] of the second operation of a fusion: an input of the
    first operation is unified; an output of the first operation
    disappears when it has no other use and is not visible; any other
    input is appended to the inputs of the first operation. *)
Definition fuse_input (first second : OpPtr) (merge_inputs : bool)
    (g : option t) (v : VarPtr) : option t :=
  f ← g;
  fo ← op f first;
  if merge_inputs && IsInput fo v then Some (RemoveInput second v f)
  else if IsOutput fo v then
    let f1 := RemoveInput second v f in
    vv ← var f1 v;
    if (usages vv =? 0) && negb (out vv)
    then Some (DeleteVariable v (RemoveOutput first v f1))
    else Some f1
  else Some (MoveInput second first v f).

(** One output [v] of the second operation of a fusion. *)
Definition fuse_output (first second : OpPtr) (g : option t) (v : VarPtr) : option t :=
  f ← g;
  fo ← op f first;
  vv ← var f v;
  if IsInput fo v then
    if (usages vv =? 1) && negb (out vv)
    then Some (DeleteVariable v (RemoveOutput second v (RemoveInput first v f)))
    else Some (MoveOutput second first v (RemoveInput first v f))
  else if IsOutput fo v then Some (RemoveOutput second v f)
  else Some (MoveOutput second first v f).

(** [Fuse(first, second, combined, merge_inputs)]: the second operation
    is merged into the first one, which gets the type [combined], and is
    deleted; the result is the first operation. *)
Definition Fuse (first second : OpPtr) (combined : string) (merge_inputs : bool)
    (f : t) : option (OpPtr * t) :=
  s ← op f second;
  _ ← op f first;
  f1 ← fold_left (fuse_input first second merge_inputs) (o_inputs s) (Some f);
  f2 ← fold_left (fuse_output first second) (o_outputs s) (Some f1);
  Some (first, DeleteOperation second (update_op first (set_o_type combined) f2)).

(** *** Paths *)

(** A node [input:type:output] of a path expression; both indices are
    optional and default to 0. *)
Record Node := mkNode { n_input : nat; n_type : string; n_output : nat }.

Fixpoint split_on (c : Ascii.ascii) (s : string) : list string :=
  match s with
  | EmptyString => [EmptyString]
  | String a s' =>
      if Ascii.eqb a c then EmptyString :: split_on c s'
      else match split_on c s' with
           | [] => [String a EmptyString]
           | w :: ws => String a w :: ws
           end
  end.

Definition digit (a : Ascii.ascii) : option nat :=
  let n := Ascii.nat_of_ascii a in
  if (48 <=? n)%nat && (n <=? 57)%nat then Some (n - 48)%nat else None.

Fixpoint parse_nat_acc (acc : nat) (s : string) : option nat :=
  match s with
  | EmptyString => Some acc
  | String a s' => d ← digit a; parse_nat_acc (10 * acc + d)%nat s'
  end.

Definition parse_nat (s : string) : option nat :=
  match s with EmptyString => None | _ => parse_nat_acc 0 s end.

Definition ParseNode (s : string) : Node :=
  match split_on ":"%char s with
  | [ty] => mkNode 0 ty 0
  | [a; b] =>
      match parse_nat a with
      | Some i => mkNode i b 0
      | None => mkNode 0 a (default 0%nat (parse_nat b))
      end
  | a :: b :: c :: _ =>
      mkNode (default 0%nat (parse_nat a)) b (default 0%nat (parse_nat c))
  | [] => mkNode 0 "" 0
  end.

Definition ParsePath (pathexpr : string) : list Node :=
  map ParseNode (split_on "|"%char pathexpr).

(** Walks the path backwards from [current]: input [input] of the current
    operation must be output [n_output] of an operation of the type of
    the previous node. *)
Fixpoint match_back (f : t) (prev : list Node) (input : nat) (current : Operation) : bool :=
  match prev with
  | [] => true
  | node :: rest =>
      match o_inputs current !! input with
      | None => false
      | Some v =>
          match var f v ≫= v_producer with
          | None => false
          | Some p =>
              match op f p with
              | None => false
              | Some po =>
                  bool_decide (o_type po = n_type node)
                  && bool_decide (o_outputs po !! n_output node = Some v)
                  && match_back f rest (n_input node) po
              end
          end
      end
  end.

Definition matches (f : t) (path : list Node) (o : OpPtr) : bool :=
  match rev path, op f o with
  | last :: prev, Some oo =>
      bool_decide (o_type oo = n_type last) && match_back f prev (n_input last) oo
  | _, _ => false
  end.

(** [Find(pathexpr)]: the operations, in flow order, at which a chain of
    operations matching the path ends. *)
Definition Find (f : t) (pathexpr : string) : list OpPtr :=
  filter (fun o => matches f (ParsePath pathexpr) o = true) (ops_ f).

End Flow.

(** ** Transformers of [arithmetic.cc]

    A transformer runs on the flow, which it mutates, and may abort: a
    computation in [StErr Flow.t]. *)
Module Transformers.
Import Flow.

Abbreviation FlowM := (StErr Flow.t).

(** [*o] for an operation pointer and [*v] for a variable pointer. *)
Definition get_op (o : OpPtr) : FlowM Operation := fun f => (fun x => (x, f)) <$> op f o.
Definition get_var (v : VarPtr) : FlowM Var := fun f => (fun x => (x, f)) <$> var f v.

Definition get_block (a : Addr) : FlowM (list byte) :=
  fun f => (fun x => (x, f)) <$> heap f !! a.
Definition set_block (a : Addr) (bs : list byte) : FlowM unit :=
  modify (fun f => set_heap (<[a := bs]> (heap f)) f).

(** A call of a method of the flow that may abort. *)
Definition call (g : Flow.t -> option Flow.t) : FlowM unit :=
  fun f => (fun x => (tt, x)) <$> g f.

(** [flow->AllocateMemory(size)] *)
Definition allocate (size : nat) : FlowM Addr := fun f => Some (AllocateMemory size f).

(** [for (x : l) body] with a counter threaded through the iterations. *)
Fixpoint for_each {A} (l : list A) (body : A -> Z -> FlowM Z) (acc : Z) : FlowM Z :=
  match l with
  | [] => mret acc
  | x :: l' => acc' ← body x acc; for_each l' body acc'
  end.

(** [while (again) { again = false; ... }]: the body returns the value of
    [again] after the pass.  The loop returns [false] when the fuel is
    used up before a pass leaves [again] false. *)
Fixpoint while_again {St} (fuel : nat) (body : StErr St bool) : StErr St bool :=
  match fuel with
  | O => mret false
  | S n => body ≫= fun again : bool => if again then while_again n body else mret true
  end.

(** *** DivTransformer *)

(** Body of the loop over [flow->ops()] (lines 341-368). *)
Definition DivTransformer_div (o : OpPtr) (updates : Z) : FlowM Z :=
  oo ← get_op o;
  if bool_decide (o_type oo ≠ "Div") && bool_decide (o_type oo ≠ "RealDiv")
  then mret updates
  else if negb (indegree oo =? 2) then mret updates
  else
    first ← lift (o_inputs oo !! 0%nat);
    second ← lift (o_inputs oo !! 1%nat);
    fv ← get_var first;
    sv ← get_var second;
    if bool_decide (v_type sv = DT_FLOAT) && (elements sv =? 1)
       && constant sv && (usages sv =? 1)
    then
      (* Change Div(x,c) to Mul(x,1/c). *)
      _ ← check (v_size sv =? 4);
      _ ← modify (update_op o (set_o_type "Mul"));
      a ← lift (v_data sv);
      bs ← get_block a;
      c ← lift (Float.load_float bs);
      let multiplier := Float.to_float (Float.ddiv Float.d_one (Float.to_double c)) in
      buffer ← allocate 4;
      blk ← get_block buffer;
      blk' ← lift (Float.store_float multiplier blk);
      _ ← set_block buffer blk';
      _ ← modify (update_var second (set_v_data (Some buffer)));
      mret (updates + 1)
    else if bool_decide (v_type fv = DT_FLOAT) && (elements fv =? 1) && constant fv
    then
      value ← gets (fun f => GetData_float f fv);
      match value with
      | Some x =>
          if Float.deq (Float.to_double x) Float.d_one then
            (* Change Div(1,x) to Reciprocal(x). *)
            _ ← modify (update_op o (set_o_type "Reciprocal"));
            _ ← modify (RemoveInput o first);
            mret (updates + 1)
          else mret updates
      | None => mret updates
      end
    else mret updates.

(** Body of the loop over [flow->Find("Sqrt|Reciprocal")] (lines 370-380). *)
Definition DivTransformer_rsqrt (rcp : OpPtr) (updates : Z) : FlowM Z :=
  r ← get_op rcp;
  i0 ← lift (o_inputs r !! 0%nat);
  iv ← get_var i0;
  sqrt ← lift (v_producer iv);
  s ← get_op sqrt;
  o0 ← lift (o_outputs s !! 0%nat);
  ov ← get_var o0;
  if usages ov >? 1 then mret updates
  else if out ov then mret updates
  else
    (* Convert Reciprocal(Sqrt(x)) to Rsqrt(x). *)
    _ ← call (Eliminate sqrt);
    _ ← modify (update_op rcp (set_o_type "Rsqrt"));
    mret (updates + 1).

(** The loop over [flow->ops()] (lines 341-368). *)
Definition DivTransformer_divs (updates : Z) : FlowM Z :=
  ops ← gets ops_;
  for_each ops DivTransformer_div updates.

(** The loop over [flow->Find("Sqrt|Reciprocal")] (lines 370-380). *)
Definition DivTransformer_rsqrts (updates : Z) : FlowM Z :=
  found ← gets (fun f => Find f "Sqrt|Reciprocal");
  for_each found DivTransformer_rsqrt updates.

(** [DivTransformer::Transform] *)
Definition DivTransformer_Transform : FlowM bool :=
  updates ← DivTransformer_divs 0;
  updates ← DivTransformer_rsqrts updates;
  mret (updates >? 0).

(** *** AddNegToSubTransformer *)

(** Body of the loop over [flow->Find("Neg|1:Add")] (lines 393-401). *)
Definition AddNegToSub_body (add : OpPtr) (updates : Z) : FlowM Z :=
  a ← get_op add;
  i1 ← lift (o_inputs a !! 1%nat);
  iv ← get_var i1;
  neg ← lift (v_producer iv);
  n ← get_op neg;
  o0 ← lift (o_outputs n !! 0%nat);
  ov ← get_var o0;
  if (usages ov =? 1) && negb (out ov) then
    _ ← call (Eliminate neg);
    _ ← modify (update_op add (set_o_type "Sub"));
    mret (updates + 1)
  else mret updates.

(** [AddNegToSubTransformer::Transform] *)
Definition AddNegToSubTransformer_Transform : FlowM bool :=
  found ← gets (fun f => Find f "Neg|1:Add");
  updates ← for_each found AddNegToSub_body 0;
  mret (updates >? 0).

(** *** LogicTransformer *)

(** [FoldNotCompare(flow, cmp, neg, replacement)] *)
Definition FoldNotCompare (cmp neg : OpPtr) (replacement : string) : FlowM bool :=
  c ← get_op cmp;
  o0 ← lift (o_outputs c !! 0%nat);
  ov ← get_var o0;
  (* Check that negation is the only consumer of the comparison. *)
  if negb (usages ov =? 1) then mret false
  else if out ov then mret false
  else
    (* Remove negation and invert comparison condition. *)
    _ ← call (Eliminate neg);
    _ ← modify (update_op cmp (set_o_type replacement));
    mret true.

(** [op->ReplaceInput(result, x)] for every [op] of a vector of consumers. *)
Fixpoint replace_in_consumers (cs : list OpPtr) (result x : VarPtr) : FlowM unit :=
  match cs with
  | [] => mret tt
  | c :: cs' => _ ← call (ReplaceInput c result x); replace_in_consumers cs' result x
  end.

(** [EliminateDoubleNegation(flow, neg1, neg2)] *)
Definition EliminateDoubleNegation (neg1 neg2 : OpPtr) : FlowM bool :=
  n2 ← get_op neg2;
  n1 ← get_op neg1;
  (* Bypass double negation. *)
  result ← lift (o_outputs n2 !! 0%nat);
  rv ← get_var result;
  x ← lift (o_inputs n1 !! 0%nat);
  _ ← replace_in_consumers (v_consumers rv) result x;
  (* Remove unused negations. *)
  rv ← get_var result;
  _ ← (if (usages rv =? 0) && negb (out rv) then call (RemoveOperation neg2)
       else mret tt);
  n1 ← get_op neg1;
  o1 ← lift (o_outputs n1 !! 0%nat);
  ov ← get_var o1;
  _ ← (if (usages ov =? 0) && negb (out ov) then call (RemoveOperation neg1)
       else mret tt);
  mret true.

(** Body of the loop over [flow->ops()] that folds negations (lines
    768-800), for one operation: the value assigned to [again]. *)
Definition LogicTransformer_fold (o : OpPtr) : FlowM bool :=
  oo ← get_op o;
  if bool_decide (o_type oo ≠ "Not") || negb (indegree oo =? 1) then mret false
  else
    i0 ← lift (o_inputs oo !! 0%nat);
    iv ← get_var i0;
    match v_producer iv with
    | None => mret false
    | Some producer =>
        p ← get_op producer;
        if bool_decide (o_type p = "Not") then EliminateDoubleNegation producer o
        else if bool_decide (o_type p = "Equal") then FoldNotCompare producer o "NotEqual"
        else if bool_decide (o_type p = "NotEqual") then FoldNotCompare producer o "Equal"
        else if bool_decide (o_type p = "Less") then FoldNotCompare producer o "GreaterEqual"
        else if bool_decide (o_type p = "LessEqual") then FoldNotCompare producer o "Greater"
        else if bool_decide (o_type p = "Greater") then FoldNotCompare producer o "LessEqual"
        else if bool_decide (o_type p = "GreaterEqual") then FoldNotCompare producer o "Less"
        else mret false
    end.

(** One pass of the [for] loop: it stops at the first operation that was
    folded. *)
Fixpoint LogicTransformer_pass (ops : list OpPtr) : FlowM bool :=
  match ops with
  | [] => mret false
  | o :: ops' =>
      LogicTransformer_fold o ≫= fun again : bool =>
      if again then mret true else LogicTransformer_pass ops'
  end.

(** Body of the loop over [flow->Find("Not|0:And")] (lines 804-812). *)
Definition LogicTransformer_and0 (logand : OpPtr) (num_updates : Z) : FlowM Z :=
  a ← get_op logand;
  i0 ← lift (o_inputs a !! 0%nat);
  iv ← get_var i0;
  logneg ← lift (v_producer iv);
  n ← get_op logneg;
  o0 ← lift (o_outputs n !! 0%nat);
  ov ← get_var o0;
  if (usages ov =? 1) && negb (out ov) then
    _ ← call (Eliminate logneg);
    _ ← modify (update_op logand (set_o_type "AndNot"));
    mret (num_updates + 1)
  else mret num_updates.

(** [std::swap(inputs[0], inputs[1])] *)
Definition swap01 (l : list VarPtr) : option (list VarPtr) :=
  match l with
  | a :: b :: l' => Some (b :: a :: l')
  | _ => None
  end.

(** Body of the loop over [flow->Find("Not|1:And")] (lines 813-822). *)
Definition LogicTransformer_and1 (logand : OpPtr) (num_updates : Z) : FlowM Z :=
  a ← get_op logand;
  i1 ← lift (o_inputs a !! 1%nat);
  iv ← get_var i1;
  logneg ← lift (v_producer iv);
  n ← get_op logneg;
  o0 ← lift (o_outputs n !! 0%nat);
  ov ← get_var o0;
  if (usages ov =? 1) && negb (out ov) then
    _ ← call (Eliminate logneg);
    _ ← modify (update_op logand (set_o_type "AndNot"));
    a' ← get_op logand;
    ins ← lift (swap01 (o_inputs a'));
    _ ← modify (update_op logand (set_o_inputs ins));
    mret (num_updates + 1)
  else mret num_updates.

(** The loop that folds negations (lines 765-801): the number of updates
    and whether the loop ended within the fuel. *)
Fixpoint LogicTransformer_negations (fuel : nat) (num_updates : Z) : FlowM (Z * bool) :=
  match fuel with
  | O => mret (num_updates, false)
  | S n =>
      ops ← gets ops_;
      LogicTransformer_pass ops ≫= fun again : bool =>
      if again then LogicTransformer_negations n (num_updates + 1)
      else mret (num_updates, true)
  end.

(** The merging of negations into logical and (lines 803-822). *)
Definition LogicTransformer_merge (num_updates : Z) : FlowM Z :=
  found ← gets (fun f => Find f "Not|0:And");
  num_updates ← for_each found LogicTransformer_and0 num_updates;
  found ← gets (fun f => Find f "Not|1:And");
  for_each found LogicTransformer_and1 num_updates.

(** [LogicTransformer::Transform]; it aborts when the first loop does
    not end within the fuel. *)
Definition LogicTransformer_Transform (fuel : nat) : FlowM bool :=
  r ← LogicTransformer_negations fuel 0;
  _ ← check (snd r);
  num_updates ← LogicTransformer_merge (fst r);
  mret (num_updates >? 0).

(** *** Expressions of operations *)

(** The table of [OpType(op)]: operations that can be fused into
    Calculate operations. *)
Definition ops : list (string * Express.OpType) :=
  [("Add", Express.ADD); ("Sub", Express.SUB); ("Mul", Express.MUL);
   ("Div", Express.DIV); ("RealDiv", Express.DIV);
   ("Minimum", Express.MINIMUM); ("Maximum", Express.MAXIMUM);
   ("Log", Express.LOG); ("Exp", Express.EXP); ("Sigmoid", Express.SIGMOID);
   ("Erf", Express.ERF);
   ("Sin", Express.SIN); ("Cos", Express.COS); ("Tan", Express.TAN);
   ("Cot", Express.COT); ("Sec", Express.SEC); ("Csc", Express.CSC);
   ("Asin", Express.ASIN); ("Acos", Express.ACOS); ("Atan", Express.ATAN);
   ("Acot", Express.ACOT); ("Asec", Express.ASEC); ("Acsc", Express.ACSC);
   ("Sinh", Express.SINH); ("Cosh", Express.COSH); ("Tanh", Express.TANH);
   ("Coth", Express.COTH); ("Sech", Express.SECH); ("Csch", Express.CSCH);
   ("Asinh", Express.ASINH); ("Acosh", Express.ACOSH); ("Atanh", Express.ATANH);
   ("Acoth", Express.ACOTH); ("Asech", Express.ASECH); ("Acsch", Express.ACSCH);
   ("Neg", Express.NEG); ("Abs", Express.ABS); ("Sign", Express.SIGN);
   ("Relu", Express.RELU); ("Softsign", Express.SOFTSIGN);
   ("Softplus", Express.SOFTPLUS); ("LogSigmoid", Express.LOGSIGMOID);
   ("Reciprocal", Express.RECIPROCAL); ("Square", Express.SQUARE);
   ("Sqrt", Express.SQRT); ("Rsqrt", Express.RSQRT);
   ("Equal", Express.CMPEQOQ); ("NotEqual", Express.CMPNEUQ);
   ("Less", Express.CMPLTOQ); ("LessEqual", Express.CMPLEOQ);
   ("Greater", Express.CMPGTOQ); ("GreaterEqual", Express.CMPGEOQ);
   ("Cond", Express.COND); ("Select", Express.SELECT);
   ("And", Express.AND); ("Or", Express.OR); ("Xor", Express.XOR);
   ("AndNot", Express.ANDNOT); ("Not", Express.NOT);
   ("Sum", Express.SUM); ("Product", Express.PRODUCT); ("Min", Express.MIN);
   ("Max", Express.MAX); ("All", Express.ALL); ("Any", Express.ANY);
   ("Count", Express.COUNT);
   ("Identity", Express.MOV)].

(** [OpType(op)] *)
Definition OpType (op : string) : Express.OpType :=
  match find (fun e => bool_decide (fst e = op)) ops with
  | Some e => snd e
  | None => Express.INVALID
  end.

(** [IsCalculateOp(op)] *)
Definition IsCalculateOp (o : Operation) : bool :=
  bool_decide (o_type o = "Calculate") || bool_decide (OpType (o_type o) ≠ Express.INVALID).

(** [IsAssignmentOp(op)] *)
Definition IsAssignmentOp (o : Operation) : bool := bool_decide (o_type o = "Assign").

(** The recipe ["@0=Id(%1)"]. *)
Definition assign_recipe : Express.Recipe :=
  [Express.mkStmt (Express.OUTPUT, 0) Express.MOV [(Express.INPUT, 1)]].

(** [expr->Variable(Express::INPUT, i)] for [i] from 0 to [n - 1]. *)
Fixpoint input_args (n : nat) (e : Express.t) : Express.EM (list Express.VarId * Express.t) :=
  match n with
  | O => mret ([], e)
  | S n' =>
      r ← input_args n' e;
      v ← Express.Variable_ Express.INPUT (Z.of_nat n') (snd r);
      mret (fst r ++ [fst v], snd v)
  end.

(** The expression of an operation of type [ty] with [indeg] inputs and
    [outdeg] outputs whose recipe attribute is [recipe]: the first part
    of both versions of [InitExpression]. *)
Definition build_expression (ty : string) (recipe : Express.Recipe)
    (indeg outdeg : nat) (expr : Express.t) : Express.EM Express.t :=
  if bool_decide (ty = "Calculate") then
    (* Build expression from expression recipe attribute on op. *)
    if Express.empty recipe then mret expr else Express.Parse recipe expr
  else if bool_decide (ty = "Assign") then
    Express.Parse (if Express.empty recipe then assign_recipe else recipe) expr
  else
    (* Add op with inputs and output. *)
    _ ← check (bool_decide (outdeg = 1%nat));
    a ← input_args indeg expr;
    e ← Express.Function (OpType ty) (fst a) (snd a);
    o ← Express.Variable_ Express.OUTPUT 0 e;
    e ← lift (Express.Assign_last (fst o) (snd o));
    mret (Express.CompactTempVars e).

(** The system constant with the value of a floating-point scalar. *)
Definition system_constant (value : Float.fp) : Z :=
  if Float.deq value Float.d_zero then Express.ZERO
  else if Float.deq value Float.d_one then Express.ONE
  else if Float.deq value Float.d_half then Express.HALF
  else if Float.deq value Float.d_two then Express.TWO
  else if Float.deq value Float.d_minus_one then Express.N1
  else -1.

(** [*reinterpret_cast<const float *>(input->data)] and the same for
    [double]. *)
Definition data_float (f : Flow.t) (v : Var) : option Float.fp :=
  a ← v_data v; bs ← heap f !! a; Float.load_float bs.
Definition data_double (f : Flow.t) (v : Var) : option Float.fp :=
  a ← v_data v; bs ← heap f !! a; Float.load_double bs.

(** Body of the loop that marks constant and scalar inputs (lines
    166-201), for input [i]. *)
Definition mark_input (f : Flow.t) (o : Operation) (expr : Express.t) (i : nat) :
    Express.EM Express.t :=
  input ← lift (o_inputs o !! i ≫= var f);
  if elements input =? 1 then
    const_id ←
      (if constant input then
         if bool_decide (v_type input = DT_FLOAT) then
           value ← lift (data_float f input);
           mret (system_constant (Float.to_double value))
         else if bool_decide (v_type input = DT_DOUBLE) then
           value ← lift (data_double f input);
           mret (system_constant value)
         else mret (-1)
       else mret (-1));
    v ← Express.Variable_ Express.INPUT (Z.of_nat i) expr;
    if negb (const_id =? -1) then
      mret (Express.update_var (fst v)
              (fun x => Express.set_id const_id (Express.set_type Express.NUMBER x)) (snd v))
    else if constant input then
      mret (Express.update_var (fst v) (Express.set_type Express.CONST) (snd v))
    else
      mret (Express.update_var (fst v) (Express.set_single true) (snd v))
  else mret expr.

Fixpoint mark_inputs (f : Flow.t) (o : Operation) (l : list nat) (expr : Express.t) :
    Express.EM Express.t :=
  match l with
  | [] => mret expr
  | i :: l' => e ← mark_input f o expr i; mark_inputs f o l' e
  end.

(** [InitExpression(Flow::Operation *op, Express *expr)] *)
Definition InitExpression (f : Flow.t) (o : Operation) (expr : Express.t) :
    Express.EM Express.t :=
  e ← build_expression (o_type o) (GetAttr_expr o) (length (o_inputs o))
        (length (o_outputs o)) expr;
  mark_inputs f o (seq 0 (length (o_inputs o))) e.

(** *** ExpressionTransformer *)

(** [InputType(var)] *)
Definition InputType (v : Var) : Express.VarType :=
  if constant v && (elements v =? 1) then Express.CONST else Express.INPUT.

(** [VarMap]: from flow variables to expression variables. *)
Definition VarMap := gmap VarPtr Express.VarId.

Fixpoint map_inputs (f : Flow.t) (vs : list VarPtr) (i : nat) (expr : Express.t)
    (varmap : gmap VarPtr Express.VarId) : Express.EM (gmap VarPtr Express.VarId * Express.t) :=
  match vs with
  | [] => mret (varmap, expr)
  | v :: vs' =>
      vv ← lift (var f v);
      r ← Express.Variable_ (InputType vv) (Z.of_nat i) expr;
      map_inputs f vs' (S i) (snd r) (<[v := fst r]> varmap)
  end.

Fixpoint map_outputs (vs : list VarPtr) (i : nat) (expr : Express.t)
    (varmap : gmap VarPtr Express.VarId) : Express.EM (gmap VarPtr Express.VarId * Express.t) :=
  match vs with
  | [] => mret (varmap, expr)
  | v :: vs' =>
      r ← Express.Variable_ Express.OUTPUT (Z.of_nat i) expr;
      map_outputs vs' (S i) (snd r) (<[v := fst r]> varmap)
  end.

(** [MapVars(op, expr, varmap)] *)
Definition MapVars (f : Flow.t) (o : Operation) (expr : Express.t) :
    Express.EM (gmap VarPtr Express.VarId * Express.t) :=
  r ← map_inputs f (o_inputs o) 0 expr ∅;
  map_outputs (o_outputs o) 0 (snd r) (fst r).

(** The local variables of [FuseExpressions] that its loops update. *)
Record FuseState := mkFuseState {
  expr1 : Express.t;
  expr2 : Express.t;
  mapping : gmap Express.VarId Express.VarId;
  next_input : Z;
  next_output : Z;
}.

(** [for (auto *o : vars) if (o->type == OUTPUT && o->id > id) o->id--;] *)
Definition renumber_outputs (i : Z) (e : Express.t) : Express.t :=
  Express.mkExpress
    (map (fun kv => if bool_decide (Express.type (snd kv) = Express.OUTPUT)
                       && (Express.id (snd kv) >? i)
                    then (fst kv, Express.set_id (Express.id (snd kv) - 1) (snd kv))
                    else kv)
         (Express.vars_ e))
    (Express.ops_ e).

Definition make_temp (x : Express.Var) : Express.Var :=
  Express.set_id (-1) (Express.set_type Express.TEMP x).

(** Body of the loop over [second->inputs] (lines 631-658). *)
Definition fuse_second_input (f : Flow.t) (fo : Operation)
    (vars1 vars2 : gmap VarPtr Express.VarId) (st : FuseState) (v : VarPtr) :
    Express.EM FuseState :=
  if IsInput fo v then
    (* Map input from second op to input from first op. *)
    a ← lift (vars2 !! v); b ← lift (vars1 !! v);
    mret (mkFuseState (expr1 st) (expr2 st) (<[a := b]> (mapping st))
                      (next_input st) (next_output st))
  else if IsOutput fo v then
    vv ← lift (var f v);
    st' ← (if (usages vv =? 1) && negb (out vv) then
             (* The input can be turned into a temporary variable. *)
             k ← lift (vars1 !! v);
             kv ← lift (Express.var (expr1 st) k);
             let i := Express.id kv in
             let e1 := Express.update_var k make_temp (expr1 st) in
             (* Adjust numbering of output variables from the first op. *)
             mret (mkFuseState (renumber_outputs i e1) (expr2 st) (mapping st)
                               (next_input st) (next_output st - 1))
           else mret st);
    (* Map input from second op to output from first op. *)
    a ← lift (vars2 !! v); b ← lift (vars1 !! v);
    mret (mkFuseState (expr1 st') (expr2 st') (<[a := b]> (mapping st'))
                      (next_input st') (next_output st'))
  else
    (* Map input from second op to a new input in the merged expression. *)
    vv ← lift (var f v);
    r ← Express.Variable_ (InputType vv) (next_input st) (expr1 st);
    a ← lift (vars2 !! v);
    mret (mkFuseState (snd r) (expr2 st) (<[a := fst r]> (mapping st))
                      (next_input st + 1) (next_output st)).

(** Body of the loop over [second->outputs] (lines 659-683). *)
Definition fuse_second_output (f : Flow.t) (fo : Operation)
    (vars1 vars2 : gmap VarPtr Express.VarId) (st : FuseState) (v : VarPtr) :
    Express.EM FuseState :=
  if IsInput fo v then
    vv ← lift (var f v);
    st' ← (if (usages vv =? 1) && negb (out vv) then
             (* The output can be turned into a temporary variable. *)
             k ← lift (vars1 !! v);
             kv ← lift (Express.var (expr1 st) k);
             let i := Express.id kv in
             let e1 := Express.update_var k make_temp (expr1 st) in
             (* Adjust numbering of output variables from the second op. *)
             mret (mkFuseState e1 (renumber_outputs i (expr2 st)) (mapping st)
                               (next_input st) (next_output st - 1))
           else mret st);
    (* Map output from second op to input to first op. *)
    a ← lift (vars2 !! v); b ← lift (vars1 !! v);
    mret (mkFuseState (expr1 st') (expr2 st') (<[a := b]> (mapping st'))
                      (next_input st') (next_output st'))
  else
    (* Map output from second op to a new output in the merged expression. *)
    r ← Express.Variable_ Express.OUTPUT (next_output st) (expr1 st);
    a ← lift (vars2 !! v);
    mret (mkFuseState (snd r) (expr2 st) (<[a := fst r]> (mapping st))
                      (next_input st) (next_output st + 1)).

Fixpoint fuse_loop (body : FuseState -> VarPtr -> Express.EM FuseState)
    (vs : list VarPtr) (st : FuseState) : Express.EM FuseState :=
  match vs with
  | [] => mret st
  | v :: vs' => st' ← body st v; fuse_loop body vs' st'
  end.

(** The merged expression of [FuseExpressions] (lines 607-688). *)
Definition merged_expression (f : Flow.t) (fo so : Operation) : Express.EM Express.t :=
  (* Build first expression. *)
  e1 ← InitExpression f fo Express.new;
  m1 ← MapVars f fo e1;
  (* Build second expression. *)
  let assign := IsAssignmentOp so in
  e2 ← InitExpression f so Express.new;
  m2 ← MapVars f so e2;
  (* Build expression variable mapping. *)
  let st := mkFuseState (snd m1) (snd m2) ∅ (indegree fo) (outdegree fo) in
  st ← (if assign && (outdegree so =? 0) then
          (* Add implicit output for assignment target. *)
          v2 ← Express.Variable_ Express.OUTPUT 0 (expr2 st);
          v1 ← Express.Variable_ Express.OUTPUT (next_output st) (expr1 st);
          mret (mkFuseState (snd v1) (snd v2) (<[fst v2 := fst v1]> (mapping st))
                            (next_input st) (next_output st + 1))
        else mret st);
  st ← fuse_loop (fuse_second_input f fo (fst m1) (fst m2)) (o_inputs so) st;
  st ← fuse_loop (fuse_second_output f fo (fst m1) (fst m2)) (o_outputs so) st;
  let e1 := Express.CompactTempVars (expr1 st) in
  let e2 := Express.CompactTempVars (expr2 st) in
  (* Merge second expression into the first one. *)
  mret (Express.Merge e1 e2 (mapping st)).

(** [op->reduction() && op->result->usages() > 0] *)
Definition consumed_reduction (e : Express.t) (o : Express.Op) : option bool :=
  if Express.reduction o then r ← Express.result o; Some (Express.usages e r >? 0)
  else Some false.

(** The guard of lines 690-694: whether some reduction is used as input
    to an operation of the expression. *)
Fixpoint reduction_consumed (e : Express.t) (l : list Express.Op) : option bool :=
  match l with
  | [] => Some false
  | o :: l' =>
      consumed_reduction e o ≫= fun b : bool =>
      if b then Some true else reduction_consumed e l'
  end.

(** The end of [FuseExpressions] (lines 690-698), on the merged
    expression. *)
Definition checked_recipe (e : Express.t) : option Express.Recipe :=
  reduction_consumed e (Express.ops_ e) ≫= fun b : bool =>
  if b then Some [] else Express.AsRecipe (Express.EliminateRedundantMoves e).

(** [FuseExpressions(first, second)]; the allocator of expression
    variables starts afresh. *)
Definition FuseExpressions (f : Flow.t) (first second : OpPtr) : option Express.Recipe :=
  fo ← op f first;
  so ← op f second;
  r ← merged_expression f fo so 0%nat;
  checked_recipe (fst r).

(** A loop over variables that returns [false] at the first variable that
    fails the test. *)
Fixpoint all_vars (vs : list VarPtr) (test : Var -> bool) : FlowM bool :=
  match vs with
  | [] => mret true
  | v :: vs' =>
      get_var v ≫= fun vv : Var =>
      if test vv then all_vars vs' test else mret false
  end.

(** [std::swap(inputs[0], inputs[i])] *)
Definition swap0 (i : nat) (l : list VarPtr) : option (list VarPtr) :=
  a ← l !! 0%nat; b ← l !! i; Some (<[i := a]> (<[0%nat := b]> l)).

(** The recipe after the exchange of the input variables 0 and
    [target_index] (lines 590-596). *)
Definition swap_target (fused_recipe : Express.Recipe) (target_index : Z) :
    option Express.Recipe :=
  fst <$> ((expr ← Express.Parse fused_recipe Express.new;
            vt ← Express.Variable_ Express.INPUT target_index expr;
            v0 ← Express.Variable_ Express.INPUT 0 (snd vt);
            let e := Express.update_var (fst vt) (Express.set_id 0) (snd v0) in
            let e := Express.update_var (fst v0) (Express.set_id target_index) e in
            lift (Express.AsRecipe e)) 0%nat).

(** The loops of lines 565-570: no input of one operation depends on the
    other operation other than directly. *)
Fixpoint no_indirect (f : Flow.t) (vs : list VarPtr) (other : OpPtr) : option bool :=
  match vs with
  | [] => Some true
  | v :: vs' =>
      vv ← var f v;
      if bool_decide (v_producer vv ≠ Some other) && DependsOn f v other then Some false
      else no_indirect f vs' other
  end.

(** The checks of [Combine] before the expressions are fused (lines
    530-570): whether the two operations pass them. *)
Definition can_combine (first second : OpPtr) : FlowM bool :=
  fo ← get_op first;
  (* Check if merging has been disabled. *)
  if GetAttrBool fo "nomerge" false then mret false else
  so ← get_op second;
  if GetAttrBool so "nomerge" false then mret false else
  (* Check that ops have the same types and output shapes. *)
  let assign := IsAssignmentOp so in
  if indegree fo <? 1 then mret false else
  if outdegree fo <? 1 then mret false else
  if indegree so <? 1 then mret false else
  if negb assign && (outdegree so <? 1) then mret false else
  prototype ← gets (fun f => GetPrototype f fo);
  prototype ← lift prototype;
  pv ← get_var prototype;
  let ty := v_type pv in
  let shape := v_shape pv in
  let input_ok (x : Var) :=
    bool_decide (v_type x = ty) && Shapes.defined (v_shape x)
    && Shapes.IsCompatible (v_shape x) shape in
  let output_ok (x : Var) :=
    bool_decide (v_type x = ty) && Shapes.defined (v_shape x)
    && negb (bool_decide (v_shape x ≠ shape) && negb (rank x =? 0)) in
  all_vars (o_inputs fo) input_ok ≫= fun ok : bool => if negb ok then mret false else
  all_vars (o_inputs so) input_ok ≫= fun ok : bool => if negb ok then mret false else
  all_vars (o_outputs fo) output_ok ≫= fun ok : bool => if negb ok then mret false else
  all_vars (o_outputs so) output_ok ≫= fun ok : bool => if negb ok then mret false else
  (* Check for indirect dependencies between ops. *)
  f ← gets (fun f : Flow.t => f);
  lift (no_indirect f (o_inputs fo) second) ≫= fun ok : bool =>
  if negb ok then mret false else
  lift (no_indirect f (o_inputs so) first) ≫= fun ok : bool =>
  if negb ok then mret false else mret true.

(** The fusion of the two operations once the fused recipe is known
    (lines 576-603). *)
Definition fuse_ops (first second : OpPtr) (assign : bool)
    (fused_recipe : Express.Recipe) : FlowM bool :=
  so ← get_op second;
  (* Fuse the two ops and set expression recipe for the fused op. *)
  target ← (if assign then lift (o_inputs so !! 0%nat) else mret 0%nat);
  fused ← (Fuse first second (if assign then "Assign" else "Calculate") true
             : FlowM OpPtr);
  fu ← get_op fused;
  (* Make sure that the assignment target is still the first input to the
     combined op. *)
  in0 ← (if assign then lift (o_inputs fu !! 0%nat) else mret 0%nat);
  fused_recipe ←
    (if assign && bool_decide (in0 ≠ target) then
       (* Get the input index of the target variable. *)
       let target_index := InputIndex fu target in
       _ ← check (negb (target_index =? -1));
       (* Swap target variable with first input. *)
       r ← lift (swap_target fused_recipe target_index);
       ins ← lift (swap0 (Z.to_nat target_index) (o_inputs fu));
       _ ← modify (update_op fused (set_o_inputs ins));
       mret r
     else mret fused_recipe);
  (* Set fused expression for combined op. *)
  _ ← get_op fused;
  _ ← modify (update_op fused (SetAttr_expr fused_recipe));
  mret true.

(** [ExpressionTransformer::Combine(flow, first, second)] *)
Definition Combine (first second : OpPtr) : FlowM bool :=
  can_combine first second ≫= fun ok : bool =>
  if negb ok then mret false else
  (* Compute fused expression. *)
  f ← gets (fun f : Flow.t => f);
  fused_recipe ← lift (FuseExpressions f first second);
  if Express.empty fused_recipe then mret false else
  so ← get_op second;
  fuse_ops first second (IsAssignmentOp so) fused_recipe.

(** A [while (again)] loop whose passes update local variables [c]: the
    final value of the local variables, and whether the loop ended
    within the fuel. *)
Fixpoint while_state {St C} (fuel : nat) (body : C -> StErr St (C * bool)) (c : C) :
    StErr St (C * bool) :=
  match fuel with
  | O => mret (c, false)
  | S n =>
      body c ≫= fun r : C * bool =>
      if snd r then while_state n body (fst r) else mret (fst r, true)
  end.

(** The list of candidates (lines 415-422). *)
Fixpoint candidates_of (f : Flow.t) (l : list OpPtr) : option (list (option OpPtr)) :=
  match l with
  | [] => Some []
  | o :: l' =>
      oo ← op f o;
      rest ← candidates_of f l';
      if (IsCalculateOp oo || IsAssignmentOp oo) && negb (GetAttrBool oo "strict" false)
      then Some (Some o :: rest) else Some rest
  end.

(** Whether the assignment [o] is the sole consumer of all the outputs
    [vs] of a producer (lines 443-449). *)
Fixpoint contained_in (o : OpPtr) (vs : list VarPtr) : FlowM bool :=
  match vs with
  | [] => mret true
  | v :: vs' =>
      get_var v ≫= fun vv : Var =>
      if negb (usages vv =? 1) || bool_decide (v_consumers vv !! 0%nat ≠ Some o) || out vv
      then mret false
      else contained_in o vs'
  end.

(** The loop over the inputs of an assignment (lines 435-460): whether
    the assignment was combined with a producer. *)
Fixpoint absorb_inputs (o : OpPtr) (inputs : list VarPtr) : FlowM bool :=
  match inputs with
  | [] => mret false
  | input :: rest =>
      iv ← get_var input;
      match v_producer iv with
      | None => absorb_inputs o rest
      | Some producer =>
          p ← get_op producer;
          if negb (IsCalculateOp p) then absorb_inputs o rest
          else if GetAttrBool p "strict" false then absorb_inputs o rest
          else
            contained_in o (o_outputs p) ≫= fun contained : bool =>
            if negb contained then absorb_inputs o rest
            else
              (* Try to combine op with producer. *)
              Combine producer o ≫= fun ok : bool =>
              if ok then mret true else absorb_inputs o rest
      end
  end.

(** The loop over the inputs of a calculate operation (lines 475-489). *)
Fixpoint merge_inputs (o : OpPtr) (inputs : list VarPtr) : FlowM bool :=
  match inputs with
  | [] => mret false
  | input :: rest =>
      iv ← get_var input;
      match v_producer iv with
      | None => merge_inputs o rest
      | Some producer =>
          p ← get_op producer;
          if negb (IsCalculateOp p) then merge_inputs o rest
          else if GetAttrBool p "strict" false then merge_inputs o rest
          else
            (* Try to combine op with producer. *)
            Combine producer o ≫= fun ok : bool =>
            if ok then mret true else merge_inputs o rest
      end
  end.

(** The local variables of the first two loops. *)
Record Locals := mkLocals {
  candidates : list (option OpPtr);
  num_combines : Z;
}.

(** One pass over the candidates (lines 429-461 and 469-490): [wanted]
    selects the operations, [attempt] is the loop over the inputs.  The
    candidates already visited are [visited]. *)
Fixpoint candidates_pass (wanted : Operation -> bool)
    (attempt : OpPtr -> list VarPtr -> FlowM bool)
    (visited todo : list (option OpPtr)) (n : Z) (again : bool) : FlowM (Locals * bool) :=
  match todo with
  | [] => mret (mkLocals visited n, again)
  | None :: todo' => candidates_pass wanted attempt (visited ++ [None]) todo' n again
  | Some o :: todo' =>
      oo ← get_op o;
      if negb (wanted oo) then candidates_pass wanted attempt (visited ++ [Some o]) todo' n again
      else
        attempt o (o_inputs oo) ≫= fun ok : bool =>
        if ok then
          (* Remove op from candidate list and try again. *)
          candidates_pass wanted attempt (visited ++ [None]) todo' (n + 1) true
        else candidates_pass wanted attempt (visited ++ [Some o]) todo' n again
  end.

(** The first two consumers of a variable that are calculate operations
    (lines 502-513). *)
Fixpoint sharing_pair (cs : list OpPtr) (first : option OpPtr) :
    FlowM (option OpPtr * option OpPtr) :=
  match cs with
  | [] => mret (first, None)
  | o :: cs' =>
      oo ← get_op o;
      if negb (IsCalculateOp oo) then sharing_pair cs' first
      else if GetAttrBool oo "strict" false then sharing_pair cs' first
      else match first with
           | None => sharing_pair cs' (Some o)
           | Some _ => mret (first, Some o)
           end
  end.

(** One pass over the variables of the flow (lines 498-523): whether two
    operations that share an input were combined. *)
Fixpoint sharing_pass (vs : list VarPtr) : FlowM bool :=
  match vs with
  | [] => mret false
  | v :: vs' =>
      vv ← get_var v;
      (* Find a pair of ops that share a non-trivial input. *)
      if usages vv <? 2 then sharing_pass vs'
      else if elements vv <? 2 then sharing_pass vs'
      else
        pr ← sharing_pair (v_consumers vv) None;
        match pr with
        | (Some first, Some second) =>
            (* Try to combine ops. *)
            Combine first second ≫= fun ok : bool =>
            if ok then mret true else sharing_pass vs'
        | _ => sharing_pass vs'
        end
  end.

(** [ExpressionTransformer::Transform]: the result, or [None] when one of
    the three loops did not end within the fuel. *)
Definition ExpressionTransformer_Transform (fuel : nat) : FlowM (option bool) :=
  (* Make list of ops that can potentially be included in Calculate or
     Assign op merging. *)
  f ← gets (fun f : Flow.t => f);
  cands ← lift (candidates_of f (ops_ f));
  (* Merge calculate ops into assignment. *)
  r1 ← while_state fuel
          (fun c => candidates_pass IsAssignmentOp absorb_inputs [] (candidates c)
                      (num_combines c) false)
          (mkLocals cands 0);
  if negb (snd r1) then mret None else
  (* Merge calculate ops. *)
  r2 ← while_state fuel
          (fun c => candidates_pass IsCalculateOp merge_inputs [] (candidates c)
                      (num_combines c) false)
          (fst r1);
  if negb (snd r2) then mret None else
  (* Merge calculate ops sharing a non-trivial input. *)
  r3 ← while_state fuel
          (fun n : Z =>
             vs ← gets Flow.vars_;
             sharing_pass vs ≫= fun ok : bool =>
             mret (if ok then n + 1 else n, ok))
          (num_combines (fst r2));
  if negb (snd r3) then mret None else
  mret (Some (fst r3 >? 0)).

End Transformers.

(** ** The Calculate kernel of [arithmetic.cc]

    Modelled from the spec: [Step::GetPrototype], [Step::GetAttr] and
    [Tensor::constant] belong to the version of [compute.h] that
    [arithmetic.cc] includes, which is not among the sources; the
    prototype is the representative tensor of a step, its first output,
    or its first input if the output has rank 0. *)
Module Kernel.
Import Compute.

Record Step := mkStep {
  s_type : string;                  (* step->type() *)
  s_inputs : list TensorPtr;
  s_outputs : list TensorPtr;
  s_expr : Express.Recipe;          (* the attribute [expr] *)
}.

Definition elements (t : Tensor) : Z := Shapes.elements (shape_ t).
Definition rank (t : Tensor) : Z := Shapes.rank (shape_ t).
Definition constant (t : Tensor) : bool := IsConstant t.

Definition GetPrototype (st : TensorStore) (step : Step) : option TensorPtr :=
  match s_outputs step with
  | out0 :: _ =>
      ov ← st !! out0;
      if rank ov =? 0 then Some (default out0 (s_inputs step !! 0%nat)) else Some out0
  | [] => s_inputs step !! 0%nat
  end.

(** Body of the loop that marks scalar and constant inputs (lines
    226-235), for input [i]. *)
Definition mark_input (st : TensorStore) (step : Step) (expr : Express.t) (i : nat) :
    Express.EM Express.t :=
  input ← lift (s_inputs step !! i ≫= (st !!.));
  if elements input =? 1 then
    v ← Express.Variable_ Express.INPUT (Z.of_nat i) expr;
    if constant input then
      mret (Express.update_var (fst v) (Express.set_type Express.CONST) (snd v))
    else
      mret (Express.update_var (fst v) (Express.set_single true) (snd v))
  else mret expr.

Fixpoint mark_inputs (st : TensorStore) (step : Step) (l : list nat) (expr : Express.t) :
    Express.EM Express.t :=
  match l with
  | [] => mret expr
  | i :: l' => e ← mark_input st step expr i; mark_inputs st step l' e
  end.

(** [InitExpression(const Step *step, Express *expr)] *)
Definition InitExpression (st : TensorStore) (step : Step) (expr : Express.t) :
    Express.EM Express.t :=
  e ← Transformers.build_expression (s_type step) (s_expr step)
        (length (s_inputs step)) (length (s_outputs step)) expr;
  mark_inputs st step (seq 0 (length (s_inputs step))) e.

(** The loop of lines 250-255: the common size of the prototype and the
    inputs that are not scalars. *)
Fixpoint common_elements (st : TensorStore) (prototype : Tensor)
    (inputs : list TensorPtr) (n : Z) : option Z :=
  match inputs with
  | [] => Some n
  | i :: inputs' =>
      input ← st !! i;
      if elements input =? 1 then common_elements st prototype inputs' n
      else
        let common := Shapes.CommonSize (shape_ prototype) (shape_ input) in
        common_elements st prototype inputs' (if common <? n then common else n)
  end.

(** [for (auto *v : expr.vars()) v->single = false;] *)
Definition clear_single (e : Express.t) : Express.t :=
  Express.mkExpress (map (fun kv => (fst kv, Express.set_single false (snd kv)))
                         (Express.vars_ e))
                    (Express.ops_ e).

(** The members of [struct Expression] that the constructor has set when
    it selects the expression generator (line 267), with the arguments
    of the selection. *)
Record Expression := mkExpression {
  prototype : TensorPtr;
  dtype : Type_;                    (* the local variable [type] *)
  elements_ : Z;                    (* the local variable [elements] *)
  expr : Express.t;
}.

(** [Expression::Expression(step, masm, spare_regs)] up to the selection
    of the generator (lines 243-264). *)
Definition Expression_init (st : TensorStore) (step : Step) : option Expression :=
  (* Determine output type and shape from the prototype. *)
  p ← GetPrototype st step;
  pt ← st !! p;
  (* Compute the maximum common size between inputs and outputs. *)
  n ← common_elements st pt (s_inputs step) (elements pt);
  (* Compile expression to be computed. *)
  r ← InitExpression st step Express.new 0%nat;
  (* Clear single flag for scalar ops. *)
  let e := if n =? 1 then clear_single (fst r) else fst r in
  Some (mkExpression p (type_ pt) n e).

End Kernel.

(** * Properties *)

(** Running a computation of [StErr] step by step. *)
Ltac run :=
  unfold mbind, mret, StErr_bind, StErr_ret, check, lift, gets, modify, fail in *;
  cbn in *.

Lemma wrap_int_id z : int_range z -> wrap_int z = z.
Proof.
  unfold int_range, int_min, int_max, wrap_int. intros H.
  rewrite Z.mod_small; lia.
Qed.

(** Inversion of the steps of a computation that succeeds. *)
Section Inversion.
Context {St : Type}.
Implicit Types s : St.

Lemma bind_inv {A B} (m : StErr St A) (k : A -> StErr St B) s r :
  (m ≫= k) s = Some r -> exists a s', m s = Some (a, s') /\ k a s' = Some r.
Proof.
  unfold mbind, StErr_bind. destruct (m s) as [[a s']|]; [|done]. eauto.
Qed.

Lemma bind_Some {A B} (m : StErr St A) (k : A -> StErr St B) s a s' :
  m s = Some (a, s') -> (m ≫= k) s = k a s'.
Proof. unfold mbind, StErr_bind. by intros ->. Qed.

Lemma ret_inv {A} (a : A) s r : (mret a : StErr St A) s = Some r -> r = (a, s).
Proof. by intros [= <-]. Qed.

Lemma lift_inv {A} (o : option A) s r : lift o s = Some r -> o = Some (fst r) /\ snd r = s.
Proof. destruct o; [|done]. by intros [= <-]. Qed.

Lemma check_inv (b : bool) s r : check b s = Some r -> b = true /\ snd r = s.
Proof. destruct b; [|done]. by intros [= <-]. Qed.

Lemma gets_inv {A} (f : St -> A) s r : gets f s = Some r -> r = (f s, s).
Proof. by intros [= <-]. Qed.

Lemma modify_inv (f : St -> St) s r : modify f s = Some r -> r = (tt, f s).
Proof. by intros [= <-]. Qed.
End Inversion.

(** [inv_bind H] splits the first step off a computation that succeeds. *)
Ltac inv_bind H a s H1 :=
  apply bind_inv in H as (a & s & H1 & H); cbv beta in H.

Ltac inv_ret H := apply ret_inv in H; simplify_eq/=.

Section Forward.
Context {St : Type}.

Lemma bind_ret {A B} (a : A) (k : A -> StErr St B) s : (mret a ≫= k) s = k a s.
Proof. reflexivity. Qed.

Lemma bind_gets {A B} (f : St -> A) (k : A -> StErr St B) s :
  (gets f ≫= k) s = k (f s) s.
Proof. reflexivity. Qed.

Lemma bind_modify {B} (f : St -> St) (k : unit -> StErr St B) s :
  (modify f ≫= k) s = k tt (f s).
Proof. reflexivity. Qed.

Lemma bind_lift {A B} (a : A) (k : A -> StErr St B) s :
  (lift (Some a) ≫= k) s = k a s.
Proof. reflexivity. Qed.

Lemma bind_check {B} (k : unit -> StErr St B) s : (check true ≫= k) s = k tt s.
Proof. reflexivity. Qed.
End Forward.

(** Computations that only read the state. *)
Section ReadOnly.
Context {St : Type}.

Definition readonly {A} (m : StErr St A) : Prop :=
  forall s r s', m s = Some (r, s') -> s' = s.

Lemma ro_ret {A} (a : A) : readonly (mret a : StErr St A).
Proof. intros s r s' H. by inv_ret H. Qed.

Lemma ro_bind {A B} (m : StErr St A) (k : A -> StErr St B) :
  readonly m -> (forall a, readonly (k a)) -> readonly (m ≫= k).
Proof.
  intros Hm Hk s r s' H. inv_bind H a s1 H1. apply Hm in H1. subst. by eapply Hk.
Qed.

Lemma ro_lift {A} (o : option A) : readonly (lift o : StErr St A).
Proof. intros s r s' H. by apply lift_inv in H as [_ ?]. Qed.

Lemma ro_gets {A} (f : St -> A) : readonly (gets f).
Proof. intros s r s' H. apply gets_inv in H. by simplify_eq. Qed.
End ReadOnly.


(** ** Runtime accessors of [compute.h] *)
Section ComputeProperties.
Import Compute.

Definition sample_tensor (off : Z) (sh : option TensorPtr) : Tensor :=
  {| offset_ := off; device_offset_ := -1; type_ := DT_FLOAT; ref_ := false;
     shape_ := [4; 8]; stride_ := [32; 4]; size_ := 128; shared_ := sh;
     link_ := None; data_ := None; device_data_ := DEVICE_NULL |}.

Definition sample_store : TensorStore :=
  <[1%nat := sample_tensor 64 (Some 2%nat)]> (<[2%nat := sample_tensor 64 None]> ∅).

(** C10. [SharedWith] is symmetric: for tensors [a] and [b] of the
    network, [a.SharedWith(b)] is true exactly when the shared pointer of
    [a] is [b] or the shared pointer of [b] is [a], and it is equal to
    [b.SharedWith(a)]. *)
Theorem SharedWith_symmetric (st : TensorStore) (a b : TensorPtr) (ta tb : Tensor) :
  st !! a = Some ta -> st !! b = Some tb ->
  SharedWith st a (Some b)
    = Some (bool_decide (shared_ ta = Some b) || bool_decide (shared_ tb = Some a))
  /\ SharedWith st a (Some b) = SharedWith st b (Some a).
Proof.
  intros Ha Hb. unfold SharedWith. rewrite Ha, Hb. simpl. rewrite Ha, Hb. simpl.
  repeat case_bool_decide; simpl; auto.
Qed.

Lemma SharedWith_symmetric_witness :
  SharedWith sample_store 1%nat (Some 2%nat) = Some true
  /\ SharedWith sample_store 2%nat (Some 1%nat) = Some true.
Proof.
  destruct (SharedWith_symmetric sample_store 1%nat 2%nat
              (sample_tensor 64 (Some 2%nat)) (sample_tensor 64 None)
              eq_refl eq_refl) as [H1 H2].
  split; [exact (eq_trans H1 eq_refl) | exact (eq_trans (eq_sym H2) (eq_trans H1 eq_refl))].
Defined.

(** C9. For a parameter tensor [t] that is not a constant, of any rank,
    [Get<T>(t)] is the address at byte offset [t.offset()] of the instance
    block; when [t] has a dimension 0, [Get<T>(t, r)] is the one at
    [t.offset() + r * t.stride(0)], as long as the product is in the range
    of [int]; when [t] has dimensions 0 and 1, [Get<T>(t, r, c)] is the one
    at [t.offset() + r * t.stride(0) + c * t.stride(1)], as long as the
    products and their sum are in the range of [int]; the accessors leave
    the instance and the memory as they are. *)
Theorem Instance_Get_offsets (st : TensorStore) (T : Type_) (inst : Instance)
    (mem : Memory) (p : TensorPtr) (t : Tensor) :
  st !! p = Some t -> IsConstant t = false -> T = type_ t ->
  Get T st (Some p) (inst, mem) = Some (inst_data_ inst + offset t, (inst, mem))
  /\ (forall r s0, stride t 0 = Some s0 -> int_range (r * s0) ->
        Get_r T st (Some p) r (inst, mem)
        = Some (inst_data_ inst + offset t + r * s0, (inst, mem)))
  /\ (forall r c s0 s1, stride t 0 = Some s0 -> stride t 1 = Some s1 ->
        int_range (r * s0) -> int_range (c * s1) -> int_range (r * s0 + c * s1) ->
        Get_rc T st (Some p) r c (inst, mem)
        = Some (inst_data_ inst + offset t + (r * s0 + c * s1), (inst, mem))).
Proof.
  intros Hp Hc HT.
  unfold Get, Get_r, Get_rc, DCHECK, get_data, offset_r, offset_rc, int_add, int_mul.
  split; [|split].
  - run. rewrite Hp. cbn. rewrite Hc. cbn.
    rewrite bool_decide_eq_true_2 by done. done.
  - intros r s0 H0 Hr. run. rewrite Hp. cbn. rewrite Hc. cbn.
    rewrite bool_decide_eq_true_2 by done. cbn.
    rewrite H0. cbn. by rewrite (wrap_int_id (r * s0)) by done.
  - intros r c s0 s1 H0 H1 Hr Hcs Hs. run. rewrite Hp. cbn. rewrite Hc. cbn.
    rewrite bool_decide_eq_true_2 by done. cbn.
    rewrite H0, H1. cbn.
    rewrite (wrap_int_id (r * s0)), (wrap_int_id (c * s1)), wrap_int_id by done.
    done.
Qed.

(** A scalar, with no stride at all, a vector and a matrix. *)
Definition scalar_tensor (off : Z) : Tensor :=
  {| offset_ := off; device_offset_ := -1; type_ := DT_FLOAT; ref_ := false;
     shape_ := []; stride_ := []; size_ := 4; shared_ := None;
     link_ := None; data_ := None; device_data_ := DEVICE_NULL |}.

Definition vector_tensor (off : Z) : Tensor :=
  {| offset_ := off; device_offset_ := -1; type_ := DT_FLOAT; ref_ := false;
     shape_ := [8]; stride_ := [4]; size_ := 32; shared_ := None;
     link_ := None; data_ := None; device_data_ := DEVICE_NULL |}.

Definition ranks_store : TensorStore :=
  <[0%nat := scalar_tensor 16]> (<[1%nat := vector_tensor 32]>
    (<[2%nat := sample_tensor 64 None]> ∅)).

Definition ranks_state : Instance * Memory :=
  ({| inst_data_ := 4096; inst_cell_ := 0 |}, ∅).

Lemma Instance_Get_offsets_witness :
  Get DT_FLOAT ranks_store (Some 0%nat) ranks_state = Some (4096 + 16, ranks_state)
  /\ Get_r DT_FLOAT ranks_store (Some 1%nat) 3 ranks_state
     = Some (4096 + 32 + 3 * 4, ranks_state)
  /\ Get_rc DT_FLOAT ranks_store (Some 2%nat) 3 5 ranks_state
     = Some (4096 + 64 + (3 * 32 + 5 * 4), ranks_state).
Proof.
  split; [|split].
  - exact (proj1 (Instance_Get_offsets ranks_store DT_FLOAT
            {| inst_data_ := 4096; inst_cell_ := 0 |} ∅ 0%nat
            (scalar_tensor 16) eq_refl eq_refl eq_refl)).
  - refine (proj1 (proj2 (Instance_Get_offsets ranks_store DT_FLOAT
              {| inst_data_ := 4096; inst_cell_ := 0 |} ∅ 1%nat
              (vector_tensor 32) eq_refl eq_refl eq_refl)) 3 4 eq_refl _);
      unfold int_range, int_min, int_max; lia.
  - refine (proj2 (proj2 (Instance_Get_offsets ranks_store DT_FLOAT
              {| inst_data_ := 4096; inst_cell_ := 0 |} ∅ 2%nat
              (sample_tensor 64 None) eq_refl eq_refl eq_refl))
              3 5 32 4 eq_refl eq_refl _ _ _);
      unfold int_range, int_min, int_max; lia.
Defined.

End ComputeProperties.

(** ** Expressions *)
Module ExpressFacts.
Import Express.

Definition keys (e : t) : list VarId := (vars_ e).*1.

(** The keys of an expression are distinct and come from the allocator. *)
Definition ok (n : nat) (e : t) : Prop :=
  NoDup (keys e) /\ Forall (fun k => (k < n)%nat) (keys e).

Definition matching (ty : VarType) (i : Z) (kv : VarId * Var) : bool :=
  bool_decide (type (snd kv) = ty) && (id (snd kv) =? i).

Lemma Lookup_find ty i e :
  Lookup ty i e = fst <$> find (matching ty i) (vars_ e).
Proof. reflexivity. Qed.

Lemma assoc_elem k v l : NoDup l.*1 -> (k, v) ∈ l -> assoc k l = Some v.
Proof.
  induction l as [|[k' v'] l IH]; simpl; intros Hnd Hin.
  - by apply elem_of_nil in Hin.
  - apply NoDup_cons in Hnd as [Hk Hnd]. apply elem_of_cons in Hin as [Heq|Hin].
    + inversion Heq; subst. by rewrite bool_decide_eq_true_2.
    + rewrite bool_decide_eq_false_2; [by apply IH|].
      intros ->. apply Hk. apply list_elem_of_fmap. by exists (k, v).
Qed.

Lemma find_elem {A} (P : A -> bool) l x : find P l = Some x -> x ∈ l /\ P x = true.
Proof.
  induction l as [|y l IH]; simpl; [done|].
  destruct (P y) eqn:HP.
  - intros [= ->]. split; [apply elem_of_cons; by left | done].
  - intros H. destruct (IH H). split; [apply elem_of_cons; by right | done].
Qed.

Lemma find_app_none {A} (P : A -> bool) l l' :
  find P (l ++ l') = match find P l with Some x => Some x | None => find P l' end.
Proof. induction l as [|y l IH]; simpl; [done|]. by destruct (P y). Qed.

Lemma ok_new n : ok n new.
Proof. split; [constructor | constructor]. Qed.

Lemma ok_snoc n e k v :
  ok n e -> ok (S n) (mkExpress (vars_ e ++ [(n, v)]) k).
Proof.
  intros [Hnd Hlt]. split; unfold keys; simpl; rewrite fmap_app; simpl.
  - apply NoDup_app. split; [done|]. split; [|apply NoDup_singleton].
    intros x Hx Hx'. apply list_elem_of_singleton in Hx'. subst.
    rewrite Forall_forall in Hlt. specialize (Hlt _ Hx). lia.
  - apply Forall_app. split; [eapply Forall_impl; [done|simpl; lia]|].
    constructor; [lia|constructor].
Qed.

(** [Variable_] returns an existing variable or appends a new one. *)
Lemma Variable_spec ty i e n k e' n' :
  ok n e -> Variable_ ty i e n = Some ((k, e'), n') ->
  ok n' e' /\ (n <= n')%nat /\ ops_ e' = ops_ e
  /\ ((vars_ e' = vars_ e /\ i <> -1 /\
       exists v, find (matching ty i) (vars_ e) = Some (k, v))
      \/ (vars_ e' = vars_ e ++ [(k, mkVar ty i false)]
          /\ (i = -1 \/ find (matching ty i) (vars_ e) = None))).
Proof.
  intros Hok. unfold Variable_.
  destruct (i =? -1) eqn:Hi.
  - apply Z.eqb_eq in Hi. intros [= <- <- <-].
    split; [by apply ok_snoc|].
    split; [lia|split; [done|right; split; [done|by left]]].
  - apply Z.eqb_neq in Hi. rewrite Lookup_find.
    destruct (find (matching ty i) (vars_ e)) as [[k0 v0]|] eqn:Hf; simpl.
    + intros [= <- <- <-].
      split; [done|split; [lia|split; [done|left; split; [done|split; [done|by exists v0]]]]].
    + intros [= <- <- <-].
      split; [by apply ok_snoc|].
      split; [lia|split; [done|right; split; [done|by right]]].
Qed.





Lemma ok_set_ops n e l : ok n e -> ok n (mkExpress (vars_ e) l).
Proof. by unfold ok, keys. Qed.








End ExpressFacts.

(** ** The marks of scalar inputs *)
Module KernelFacts.
Import Compute Express ExpressFacts Kernel.
















(** The loop takes the minimum of [n] and of the common sizes of the
    prototype and the inputs that are not scalars. *)
Lemma common_elements_min (st : TensorStore) (pt : Tensor) (inputs : list TensorPtr) :
  forall n m, common_elements st pt inputs n = Some m ->
    m <= n
    /\ (forall i input, i ∈ inputs -> st !! i = Some input -> elements input <> 1 ->
          m <= Shapes.CommonSize (shape_ pt) (shape_ input))
    /\ (m = n \/ exists i input, i ∈ inputs /\ st !! i = Some input /\ elements input <> 1
                   /\ m = Shapes.CommonSize (shape_ pt) (shape_ input)).
Proof.
  induction inputs as [|i inputs IH]; intros n m H; simpl in H.
  - injection H as <-. split; [lia|]. split; [|by left].
    intros i input Hi. by apply elem_of_nil in Hi.
  - destruct (st !! i) as [input|] eqn:Hi; [|done]. simpl in H.
    destruct (Z.eqb_spec (elements input) 1) as [Hel|Hel].
    + apply IH in H as (Hle & Hall & Hex). split; [done|]. split.
      * intros j input' [->|Hj]%elem_of_cons Hj' Hne; [congruence|by eapply Hall].
      * destruct Hex as [?|(j & input' & Hj & ?)]; [by left|].
        right. exists j, input'. split; [by apply elem_of_cons; right|done].
    + apply IH in H as (Hle & Hall & Hex).
      set (common := Shapes.CommonSize (shape_ pt) (shape_ input)) in *.
      destruct (Z.ltb_spec common n) as [Hlt|Hge].
      * split; [lia|]. split.
        -- intros j input' [->|Hj]%elem_of_cons Hj' Hne; [|by eapply Hall].
           assert (input' = input) as -> by congruence. done.
        -- destruct Hex as [->|(j & input' & Hj & ?)].
           ++ right. exists i, input. split; [by apply elem_of_cons; left|done].
           ++ right. exists j, input'. split; [by apply elem_of_cons; right|done].
      * split; [done|]. split.
        -- intros j input' [->|Hj]%elem_of_cons Hj' Hne; [|by eapply Hall].
           assert (input' = input) as -> by congruence. fold common. lia.
        -- destruct Hex as [?|(j & input' & Hj & ?)]; [by left|].
           right. exists j, input'. split; [by apply elem_of_cons; right|done].
Qed.

End KernelFacts.

Section KernelProperties.
Import Compute Express ExpressFacts Kernel KernelFacts.

Definition sample_step : Step :=
  mkStep "Calculate"%string [1%nat; 3%nat] [2%nat]
    [mkStmt (OUTPUT, 0) ADD [(INPUT, 0); (INPUT, 1)]].

Definition sample_tensors : TensorStore :=
  <[3%nat := {| offset_ := 0; device_offset_ := -1; type_ := DT_FLOAT; ref_ := false;
                shape_ := []; stride_ := []; size_ := 4; shared_ := None;
                link_ := None; data_ := None; device_data_ := DEVICE_NULL |}]>
    sample_store.






End KernelProperties.

(** ** Fusion of expressions *)
Module FusionFacts.
Import Flow Express ExpressFacts Transformers.

(** Every operation of the expression assigns a variable. *)
Definition results_ok (e : Express.t) : Prop :=
  Forall (fun o => is_Some (result o)) (Express.ops_ e).

Lemma Variable_ops ty i e n k e' n' :
  Variable_ ty i e n = Some ((k, e'), n') -> Express.ops_ e' = Express.ops_ e.
Proof.
  unfold Variable_. destruct (if i =? -1 then None else Lookup ty i e).
  - by intros [= <- <- <-].
  - by intros [= <- <- <-].
Qed.

Lemma parse_args_ops a : forall e n l e' n',
  parse_args a e n = Some ((l, e'), n') -> Express.ops_ e' = Express.ops_ e.
Proof.
  induction a as [|[ty i] a IH]; intros e n l e' n' H; simpl in H.
  - by inv_ret H.
  - inv_bind H r s HV. destruct r as [k e1]. apply Variable_ops in HV.
    inv_bind H r s' HP. destruct r as [l2 e2]. apply IH in HP.
    inv_ret H. congruence.
Qed.

Lemma Parse_results r : forall e n e' n',
  results_ok e -> Parse r e n = Some (e', n') -> results_ok e'.
Proof.
  induction r as [|st r IH]; intros e n e' n' Hok H; simpl in H.
  - by inv_ret H.
  - inv_bind H a s HA. destruct a as [l e1]. apply parse_args_ops in HA.
    inv_bind H d s' HV. destruct d as [k e2]. apply Variable_ops in HV.
    eapply IH; [|exact H]. unfold results_ok. simpl in *. rewrite HV, HA.
    apply Forall_app. split; [done|]. repeat constructor. by eexists.
Qed.

Lemma input_args_ops m : forall e n l e' n',
  input_args m e n = Some ((l, e'), n') -> Express.ops_ e' = Express.ops_ e.
Proof.
  induction m as [|m IH]; intros e n l e' n' H; simpl in H.
  - by inv_ret H.
  - inv_bind H r s HA. destruct r as [l1 e1]. apply IH in HA.
    inv_bind H v s' HV. destruct v as [k e2]. apply Variable_ops in HV.
    inv_ret H. simpl in *. congruence.
Qed.

Lemma build_expression_results ty r i o e n e' n' :
  results_ok e -> build_expression ty r i o e n = Some (e', n') -> results_ok e'.
Proof.
  intros Hok H. unfold build_expression in H.
  case_bool_decide.
  - destruct (empty r); [by inv_ret H | by eapply Parse_results].
  - case_bool_decide; [by eapply Parse_results|].
    inv_bind H u s Hc. apply check_inv in Hc as [_ ?]; simplify_eq/=.
    inv_bind H a s HA. destruct a as [l1 e1]. apply input_args_ops in HA.
    inv_bind H e2 s2 HF. unfold Function, Temp in HF.
    inv_bind HF tmp s1 HT. destruct tmp as [kt et]. apply Variable_ops in HT. inv_ret HF.
    inv_bind H v s3 HV. destruct v as [k e3]. apply Variable_ops in HV.
    inv_bind H e4 s4 HL. apply lift_inv in HL as [HL ?]; simplify_eq/=.
    inv_ret H. unfold results_ok, CompactTempVars. simpl.
    unfold Assign_last in HL. destruct (producer e3 k); [done|].
    destruct (reverse (Express.ops_ e3)) as [|lastop rest] eqn:Hrev; [done|].
    simplify_eq/=. apply Forall_app. split; [|repeat constructor; by eexists].
    rewrite HV in Hrev. simpl in Hrev. rewrite reverse_app in Hrev. simpl in Hrev.
    simplify_eq/=. rewrite reverse_involutive. by rewrite HT, HA.
Qed.

Lemma mark_input_ops f o e i n e' n' :
  mark_input f o e i n = Some (e', n') -> Express.ops_ e' = Express.ops_ e.
Proof.
  intros H. unfold mark_input in H.
  inv_bind H input s Hl. apply lift_inv in Hl as [Hl ?]; simplify_eq/=.
  destruct (elements input =? 1); [|by inv_ret H].
  inv_bind H c s1 Hc.
  assert (s1 = n) as ->.
  { destruct (constant input); [|by inv_ret Hc].
    case_bool_decide.
    - inv_bind Hc v s2 Hv. apply lift_inv in Hv as [_ ?]. by inv_ret Hc.
    - case_bool_decide; [|by inv_ret Hc].
      inv_bind Hc v s2 Hv. apply lift_inv in Hv as [_ ?]. by inv_ret Hc. }
  inv_bind H v s' HV. destruct v as [k e1]. apply Variable_ops in HV.
  destruct (negb (c =? -1)); [by inv_ret H|].
  destruct (constant input); by inv_ret H.
Qed.

Lemma mark_inputs_ops f o l : forall e n e' n',
  mark_inputs f o l e n = Some (e', n') -> Express.ops_ e' = Express.ops_ e.
Proof.
  induction l as [|j l IH]; intros e n e' n' H; simpl in H.
  - by inv_ret H.
  - inv_bind H e1 s H1. apply mark_input_ops in H1. apply IH in H. congruence.
Qed.

Lemma InitExpression_results f o e n e' n' :
  results_ok e -> InitExpression f o e n = Some (e', n') -> results_ok e'.
Proof.
  intros Hok H. unfold InitExpression in H.
  inv_bind H e1 s H1. apply build_expression_results in H1; [|done].
  apply mark_inputs_ops in H. unfold results_ok. by rewrite H.
Qed.

Lemma map_inputs_ops f vs : forall i e m n m' e' n',
  map_inputs f vs i e m n = Some ((m', e'), n') -> Express.ops_ e' = Express.ops_ e.
Proof.
  induction vs as [|v vs IH]; intros i e m n m' e' n' H; simpl in H.
  - by inv_ret H.
  - inv_bind H vv s Hl. apply lift_inv in Hl as [_ ?]; simplify_eq/=.
    inv_bind H r s' HV. destruct r as [k e1]. apply Variable_ops in HV.
    apply IH in H. simpl in H. congruence.
Qed.

Lemma map_outputs_ops vs : forall i e m n m' e' n',
  map_outputs vs i e m n = Some ((m', e'), n') -> Express.ops_ e' = Express.ops_ e.
Proof.
  induction vs as [|v vs IH]; intros i e m n m' e' n' H; simpl in H.
  - by inv_ret H.
  - inv_bind H r s' HV. destruct r as [k e1]. apply Variable_ops in HV.
    apply IH in H. simpl in H. congruence.
Qed.

Lemma MapVars_ops f o e n m' e' n' :
  MapVars f o e n = Some ((m', e'), n') -> Express.ops_ e' = Express.ops_ e.
Proof.
  intros H. unfold MapVars in H. inv_bind H r s H1. destruct r as [m1 e1].
  apply map_inputs_ops in H1. apply map_outputs_ops in H. simpl in H. congruence.
Qed.

(** The loops of [FuseExpressions] leave the operations of both
    expressions as they are. *)
Definition same_ops (st st' : FuseState) : Prop :=
  Express.ops_ (expr1 st') = Express.ops_ (expr1 st)
  /\ Express.ops_ (expr2 st') = Express.ops_ (expr2 st).

Lemma fuse_second_input_ops f fo m1 m2 st v n st' n' :
  fuse_second_input f fo m1 m2 st v n = Some (st', n') -> same_ops st st'.
Proof.
  intros H. unfold fuse_second_input in H.
  destruct (IsInput fo v).
  { inv_bind H a s Ha. inv_bind H b s' Hb. by inv_ret H. }
  destruct (IsOutput fo v).
  - inv_bind H vv s Hv. inv_bind H st1 s1 H1.
    assert (same_ops st st1) as [Ha Hb].
    { destruct ((Flow.usages vv =? 1) && negb (Flow.out vv)); [|by inv_ret H1].
      inv_bind H1 k s2 Hk. inv_bind H1 kv s3 Hkv. cbv zeta in H1. by inv_ret H1. }
    inv_bind H a s4 Ha'. inv_bind H b s5 Hb'. by inv_ret H.
  - inv_bind H vv s Hv. inv_bind H r s1 HV. destruct r as [k e1].
    apply Variable_ops in HV. inv_bind H a s2 Ha. by inv_ret H.
Qed.

Lemma fuse_second_output_ops f fo m1 m2 st v n st' n' :
  fuse_second_output f fo m1 m2 st v n = Some (st', n') -> same_ops st st'.
Proof.
  intros H. unfold fuse_second_output in H.
  destruct (IsInput fo v).
  - inv_bind H vv s Hv. inv_bind H st1 s1 H1.
    assert (same_ops st st1) as [Ha Hb].
    { destruct ((Flow.usages vv =? 1) && negb (Flow.out vv)); [|by inv_ret H1].
      inv_bind H1 k s2 Hk. inv_bind H1 kv s3 Hkv. cbv zeta in H1. by inv_ret H1. }
    inv_bind H a s4 Ha'. inv_bind H b s5 Hb'. by inv_ret H.
  - inv_bind H r s1 HV. destruct r as [k e1].
    apply Variable_ops in HV. inv_bind H a s2 Ha. by inv_ret H.
Qed.

Lemma fuse_loop_ops body vs :
  (forall st v n st' n', body st v n = Some (st', n') -> same_ops st st') ->
  forall st n st' n', fuse_loop body vs st n = Some (st', n') -> same_ops st st'.
Proof.
  intros Hbody. induction vs as [|v vs IH]; intros st n st' n' H; simpl in H.
  - by inv_ret H.
  - inv_bind H st1 s H1. apply Hbody in H1 as [? ?]. apply IH in H as [? ?].
    split; congruence.
Qed.

Lemma Merge_results e other m :
  results_ok e -> results_ok other -> results_ok (Merge e other m).
Proof.
  intros H1 H2. unfold Merge.
  match goal with |- results_ok (if ?b then _ else _) => destruct b end;
    unfold results_ok, CompactTempVars; simpl;
    (apply Forall_app; split; [done|]);
    apply Forall_fmap; (eapply Forall_impl; [exact H2|]);
    intros o [r Hr]; simpl; rewrite Hr; by eexists.
Qed.

Lemma merged_expression_results f fo so n e n' :
  merged_expression f fo so n = Some (e, n') -> results_ok e.
Proof.
  intros H. unfold merged_expression in H.
  inv_bind H e1 s1 H1. apply InitExpression_results in H1; [|by constructor].
  inv_bind H m1 s2 Hm1. destruct m1 as [vars1 e1']. apply MapVars_ops in Hm1.
  cbv zeta in H.
  inv_bind H e2 s3 H2. apply InitExpression_results in H2; [|by constructor].
  inv_bind H m2 s4 Hm2. destruct m2 as [vars2 e2']. apply MapVars_ops in Hm2.
  inv_bind H st0 s5 H0.
  assert (results_ok (expr1 st0) /\ results_ok (expr2 st0)) as [Ha0 Hb0].
  { unfold results_ok. simpl in H0.
    destruct (IsAssignmentOp so && (outdegree so =? 0)).
    - inv_bind H0 v2 t1 Hv2. destruct v2 as [k2 x2]. apply Variable_ops in Hv2.
      inv_bind H0 v1 t2 Hv1. destruct v1 as [k1 x1]. apply Variable_ops in Hv1.
      inv_ret H0. rewrite Hv1, Hv2, Hm1, Hm2. done.
    - inv_ret H0. by rewrite Hm1, Hm2. }
  inv_bind H st1 s6 Hl1.
  apply fuse_loop_ops in Hl1 as [Ha1 Hb1]; [|apply fuse_second_input_ops].
  inv_bind H st2 s7 Hl2.
  apply fuse_loop_ops in Hl2 as [Ha2 Hb2]; [|apply fuse_second_output_ops].
  inv_ret H. apply Merge_results; unfold results_ok, CompactTempVars in *; simpl in *.
  - by rewrite Ha2, Ha1.
  - by rewrite Hb2, Hb1.
Qed.

(** The guard of [FuseExpressions]. *)
Definition has_consumed_reduction (e : Express.t) : bool :=
  existsb (fun o => reduction o
                    && match result o with
                       | Some r => Express.usages e r >? 0
                       | None => false
                       end) (Express.ops_ e).

Lemma reduction_consumed_true e l :
  Forall (fun o => is_Some (result o)) l ->
  existsb (fun o => reduction o
                    && match result o with
                       | Some r => Express.usages e r >? 0
                       | None => false
                       end) l = true ->
  reduction_consumed e l = Some true.
Proof.
  induction l as [|o l IH]; simpl; [done|]. intros Hl Hex.
  apply Forall_cons in Hl as [[r Hr] Hl]. unfold consumed_reduction.
  rewrite Hr in *. destruct (reduction o); simpl in *.
  - destruct (Express.usages e r >? 0); simpl in *; [done|by apply IH].
  - by apply IH.
Qed.

End FusionFacts.

Module CombineFacts.
Import Flow Express ExpressFacts Transformers FusionFacts.

Lemma ro_get_op o : readonly (get_op o).
Proof.
  intros s r s'. unfold get_op. destruct (op s o); simpl; [|done]. by intros [= _ <-].
Qed.

Lemma ro_get_var v : readonly (get_var v).
Proof.
  intros s r s'. unfold get_var. destruct (Flow.var s v); simpl; [|done].
  by intros [= _ <-].
Qed.

Lemma ro_all_vars vs test : readonly (all_vars vs test).
Proof.
  induction vs as [|v vs IH]; simpl; [apply ro_ret|].
  apply ro_bind; [apply ro_get_var|]. intros vv.
  destruct (test vv); [done|apply ro_ret].
Qed.

Ltac ro :=
  repeat first
    [ apply ro_ret | apply ro_lift | apply ro_gets | apply ro_get_op
    | apply ro_get_var | apply ro_all_vars
    | apply ro_bind; [|intros ?]
    | match goal with |- readonly (if ?b then _ else _) => destruct b end
    | progress cbv zeta ].

Lemma ro_can_combine first second : readonly (can_combine first second).
Proof. unfold can_combine. ro. Qed.

End CombineFacts.

Section ReductionGuard.
Import Flow Express ExpressFacts Transformers FusionFacts CombineFacts.

(** The flow [s = Sum(x); y = Add(s, 1); z = Mul(y, x)] with [x] a vector
    of 8 floats: the variables are [x], [s], the constant 1, [y] and [z]
    (pointers 0 to 4), the operations [Sum], [Add] and [Mul] (pointers 0
    to 2). *)
Definition guard_flow : Flow.t :=
  let v ty sh d o p c := mkVariable "" ty sh d 4%Z o p c in
  mkFlow [0; 1; 2; 3; 4]%nat [0; 1; 2]%nat
    (list_to_map
       [(0, v DT_FLOAT [8%Z] None false None [0; 2]);
        (1, v DT_FLOAT [] None false (Some 0) [1]);
        (2, v DT_FLOAT [] (Some 7) false None [1]);
        (3, v DT_FLOAT [] None false (Some 1) [2]);
        (4, v DT_FLOAT [8%Z] None true (Some 2) [])]%nat)
    (list_to_map
       [(0, mkOperation "s" "Sum" [0] [1] [] []);
        (1, mkOperation "y" "Add" [1; 2] [3] [] []);
        (2, mkOperation "z" "Mul" [3; 0] [4] [] [])]%nat)
    [] (list_to_map [(7%nat, Float.bytes_of_bits 4 0x3f800000)]).

(** C1. For every attempted fusion of two operations, if the merged
    expression contains a reduction whose result is an argument of an
    operation of the merged expression, then [FuseExpressions] returns
    the empty recipe and [Combine] returns false and leaves the flow as
    it is.  In particular, in the flow [s = Sum(x); y = Add(s, 1);
    z = Mul(y, x)] the fusion of [Sum] into [Add] is rejected by this
    guard, the transformer combines nothing and the three operations
    remain. *)
Theorem reduction_guard :
  (forall (f : Flow.t) (first second : OpPtr) (fo so : Operation) (e : Express.t) (n : nat),
     op f first = Some fo -> op f second = Some so ->
     merged_expression f fo so 0%nat = Some (e, n) ->
     has_consumed_reduction e = true ->
     is_Some (can_combine first second f) ->
     FuseExpressions f first second = Some []
     /\ Combine first second f = Some (false, f))
  /\ (FuseExpressions guard_flow 0%nat 1%nat = Some []
      /\ ExpressionTransformer_Transform 4 guard_flow = Some (Some false, guard_flow)
      /\ Flow.ops_ guard_flow = [0; 1; 2]%nat
      /\ o_type <$> op guard_flow 0%nat = Some "Sum"%string
      /\ o_type <$> op guard_flow 1%nat = Some "Add"%string
      /\ o_type <$> op guard_flow 2%nat = Some "Mul"%string).
Proof.
  split.
  - intros f first second fo so e n Hfo Hso Hm Hred [[ok f'] Hcan].
    assert (FuseExpressions f first second = Some []) as Hfuse.
    { unfold FuseExpressions. rewrite Hfo, Hso. simpl. rewrite Hm. simpl.
      unfold checked_recipe.
      rewrite (reduction_consumed_true e (Express.ops_ e)); [done| |done].
      by eapply merged_expression_results. }
    split; [done|].
    pose proof (ro_can_combine _ _ _ _ _ Hcan) as ->.
    unfold Combine. rewrite (bind_Some _ _ _ _ _ Hcan).
    destruct ok; cbn [negb]; [|done].
    rewrite bind_gets, Hfuse, bind_lift. reflexivity.
  - vm_compute. repeat split; reflexivity.
Qed.

Lemma reduction_guard_witness :
  FuseExpressions guard_flow 0%nat 1%nat = Some []
  /\ Combine 0%nat 1%nat guard_flow = Some (false, guard_flow).
Proof.
  destruct (merged_expression guard_flow
              (mkOperation "s" "Sum" [0%nat] [1%nat] [] [])
              (mkOperation "y" "Add" [1; 2]%nat [3%nat] [] []) 0%nat)
    as [[e n]|] eqn:He; [|by vm_compute in He].
  refine (proj1 reduction_guard guard_flow 0%nat 1%nat _ _ e n eq_refl eq_refl He _ _).
  - vm_compute in He. injection He as <- _. reflexivity.
  - vm_compute. eauto.
Defined.

End ReductionGuard.

(** ** The target of a fused assignment *)
Module RecipeFacts.
Import Express ExpressFacts.

Lemma assoc_In k v l : assoc k l = Some v -> (k, v) ∈ l.
Proof.
  induction l as [|[k' v'] l IH]; simpl; [done|].
  case_bool_decide as Hk; [intros [= <-]; subst; apply elem_of_cons; by left|].
  intros Ha. apply elem_of_cons. right. by apply IH.
Qed.

Lemma assoc_app_l k v l l' : assoc k l = Some v -> assoc k (l ++ l') = Some v.
Proof.
  induction l as [|[k' v'] l IH]; simpl; [done|]. by case_bool_decide.
Qed.

Lemma assoc_map k g l :
  assoc k (map (fun kv => if bool_decide (fst kv = k) then (fst kv, g (snd kv)) else kv) l)
  = g <$> assoc k l.
Proof.
  induction l as [|[k' v'] l IH]; simpl; [done|].
  case_bool_decide; simpl; [by rewrite bool_decide_eq_true_2|].
  by rewrite bool_decide_eq_false_2.
Qed.

Lemma assoc_map_ne k k' g l : k <> k' ->
  assoc k' (map (fun kv => if bool_decide (fst kv = k) then (fst kv, g (snd kv)) else kv) l)
  = assoc k' l.
Proof.
  intros Hne. induction l as [|[k1 v1] l IH]; simpl; [done|].
  case_bool_decide; simpl.
  - subst. by rewrite bool_decide_eq_false_2.
  - by case_bool_decide.
Qed.

Lemma var_update_var k g e : var (update_var k g e) k = g <$> var e k.
Proof. apply assoc_map. Qed.

Lemma var_update_var_ne k k' g e : k <> k' -> var (update_var k g e) k' = var e k'.
Proof. apply assoc_map_ne. Qed.

Lemma mapM_cons {A B} (f : A -> option B) x l :
  mapM f (x :: l) = y ← f x; k ← mapM f l; Some (y :: k).
Proof. reflexivity. Qed.

Lemma mapM_snoc {A B} (f : A -> option B) l x ys y :
  mapM f l = Some ys -> f x = Some y -> mapM f (l ++ [x]) = Some (ys ++ [y]).
Proof.
  revert ys. induction l as [|a l IH]; intros ys.
  - intros [= <-] Hx. change ([] ++ [x]) with [x]. rewrite mapM_cons, Hx. done.
  - rewrite <- app_comm_cons, !mapM_cons. destruct (f a) as [b|]; simpl; [|done].
    destruct (mapM f l) as [bs|]; simpl; [|done]. intros [= <-] Hx.
    by rewrite (IH bs eq_refl Hx).
Qed.

(** Each variable with an identifier is the one that [Lookup] finds for
    its type and identifier. *)
Definition coherent (e : t) : Prop :=
  forall k v, var e k = Some v -> id v <> -1 ->
              find (matching (type v) (id v)) (vars_ e) = Some (k, v).

Definition stmt_of (e : t) (o : Op) : option Stmt :=
  r ← result o; rr ← ref e r; a ← mapM (ref e) (args o);
  Some (mkStmt rr (op_type o) a).

Lemma AsRecipe_stmts e : AsRecipe e = mapM (stmt_of e) (ops_ e).
Proof. reflexivity. Qed.

(** The variables of [e'] extend those of [e]. *)
Definition extends (e e' : t) : Prop :=
  forall k v, var e k = Some v -> var e' k = Some v.

Lemma extends_refl e : extends e e.
Proof. by intros k v. Qed.

Lemma extends_trans e1 e2 e3 : extends e1 e2 -> extends e2 e3 -> extends e1 e3.
Proof. intros H1 H2 k v H. eauto. Qed.

Lemma extends_ref e e' k r : extends e e' -> ref e k = Some r -> ref e' k = Some r.
Proof.
  intros He. unfold ref. destruct (var e k) as [v|] eqn:Hv; simpl; [|done].
  by rewrite (He _ _ Hv).
Qed.

Lemma extends_refs e e' l rs :
  extends e e' -> mapM (ref e) l = Some rs -> mapM (ref e') l = Some rs.
Proof.
  intros He. revert rs. induction l as [|k l IH]; intros rs; [done|].
  rewrite !mapM_cons.
  destruct (ref e k) as [r|] eqn:Hr; simpl; [|done].
  rewrite (extends_ref _ _ _ _ He Hr). simpl.
  destruct (mapM (ref e) l) as [rs'|]; simpl; [|done].
  by rewrite (IH rs' eq_refl).
Qed.

Lemma extends_stmt e e' o st : extends e e' -> stmt_of e o = Some st -> stmt_of e' o = Some st.
Proof.
  intros He. unfold stmt_of. destruct (result o) as [r|]; simpl; [|done].
  destruct (ref e r) as [rr|] eqn:Hr; simpl; [|done].
  rewrite (extends_ref _ _ _ _ He Hr). simpl.
  destruct (mapM (ref e) (args o)) as [a|] eqn:Ha; simpl; [|done].
  by rewrite (extends_refs _ _ _ _ He Ha).
Qed.

Lemma extends_stmts e e' l r :
  extends e e' -> mapM (stmt_of e) l = Some r -> mapM (stmt_of e') l = Some r.
Proof.
  intros He. revert r. induction l as [|o l IH]; intros r; [done|].
  rewrite !mapM_cons.
  destruct (stmt_of e o) as [st|] eqn:Hs; simpl; [|done].
  rewrite (extends_stmt _ _ _ _ He Hs). simpl.
  destruct (mapM (stmt_of e) l) as [r'|]; simpl; [|done].
  by rewrite (IH r' eq_refl).
Qed.

(** [Variable_] on a coherent expression. *)
Lemma Variable_coherent ty i e n k e' n' :
  ok n e -> coherent e -> Variable_ ty i e n = Some ((k, e'), n') ->
  ok n' e' /\ coherent e' /\ extends e e' /\ ops_ e' = ops_ e
  /\ ref e' k = Some (ty, i).
Proof.
  intros Hok Hco HV. pose proof HV as HV'.
  apply Variable_spec in HV as (Hok' & _ & Hops & Hcase); [|done].
  split; [done|].
  unfold coherent, extends, ref, var in *. destruct Hok as [Hnd Hlt].
  destruct Hok' as [Hnd' _]. unfold keys in *.
  destruct Hcase as [(Heq & _ & v & Hf)|(Heq & Hnone)]; rewrite Heq in *.
  - split; [done|]. split; [done|]. split; [done|].
    apply find_elem in Hf as [Hin Hm]. rewrite (assoc_elem _ _ _ Hnd Hin). simpl.
    unfold matching in Hm. simpl in Hm. apply andb_true_iff in Hm as [H1 H2].
    apply bool_decide_eq_true in H1. apply Z.eqb_eq in H2. by subst.
  - assert (assoc k (vars_ e ++ [(k, mkVar ty i false)]) = Some (mkVar ty i false)) as Hk.
    { apply assoc_elem; [done|]. apply elem_of_app. right. by apply list_elem_of_singleton. }
    split; [|split; [|split; [done|by rewrite Hk]]].
    + intros k1 v1 H1 Hid. apply assoc_In in H1 as Hin1.
      apply elem_of_app in Hin1 as [Hin1|Hin1].
      * rewrite find_app_none. 
        by rewrite (Hco k1 v1 (assoc_elem _ _ _ Hnd Hin1) Hid).
      * apply list_elem_of_singleton in Hin1. simplify_eq/=.
        destruct Hnone as [?|Hnone]; [done|]. rewrite find_app_none, Hnone. simpl.
        unfold matching. simpl. rewrite bool_decide_eq_true_2 by done.
        by rewrite Z.eqb_refl.
    + intros k1 v1 H1. by apply assoc_app_l.
Qed.

Lemma parse_args_coherent a : forall e n l e' n',
  ok n e -> coherent e -> parse_args a e n = Some ((l, e'), n') ->
  ok n' e' /\ coherent e' /\ extends e e' /\ ops_ e' = ops_ e
  /\ mapM (ref e') l = Some a.
Proof.
  induction a as [|[ty i] a IH]; intros e n l e' n' Hok Hco H; simpl in H.
  - inv_ret H. split; [done|]. split; [done|]. split; [apply extends_refl|done].
  - inv_bind H r s HV. destruct r as [k e1].
    apply Variable_coherent in HV as (Hok1 & Hco1 & Hex1 & Hops1 & Hr1); [|done..].
    inv_bind H r s' HP. destruct r as [l2 e2]. simpl in *.
    apply IH in HP as (Hok2 & Hco2 & Hex2 & Hops2 & Hr2); [|done..].
    apply ret_inv in H. simplify_eq. cbn [fst snd] in *.
    split; [done|]. split; [done|].
    split; [by eapply extends_trans|]. split; [congruence|].
    rewrite mapM_cons. rewrite (extends_ref _ _ _ _ Hex2 Hr1). simpl. by rewrite Hr2.
Qed.

(** [AsRecipe] after [Parse] gives the recipe back. *)
Lemma Parse_AsRecipe r : forall e n e' n' r0,
  ok n e -> coherent e -> AsRecipe e = Some r0 -> Parse r e n = Some (e', n') ->
  ok n' e' /\ coherent e' /\ AsRecipe e' = Some (r0 ++ r).
Proof.
  induction r as [|st r IH]; intros e n e' n' r0 Hok Hco Hr0 H; simpl in H.
  - inv_ret H. by rewrite app_nil_r.
  - inv_bind H a s HA. destruct a as [l e1].
    apply parse_args_coherent in HA as (Hok1 & Hco1 & Hex1 & Hops1 & Hl); [|done..].
    inv_bind H d s' HV. destruct d as [k e2]. simpl in *.
    apply Variable_coherent in HV as (Hok2 & Hco2 & Hex2 & Hops2 & Hk); [|done..].
    assert (AsRecipe (mkExpress (vars_ e2)
                        (ops_ e2 ++ [mkOp (s_op st) (Some k) l])) = Some (r0 ++ [st]))
      as Hr1.
    { rewrite AsRecipe_stmts in *. simpl.
      assert (extends e e2) as Hex by by eapply extends_trans.
      apply mapM_snoc.
      - rewrite Hops2, Hops1. by eapply extends_stmts.
      - unfold stmt_of. cbn [result args op_type].
        change (ref {| vars_ := vars_ e2;
                       ops_ := ops_ e2 ++ [mkOp (s_op st) (Some k) l] |})
          with (ref e2).
        cbn [mbind option_bind]. rewrite Hk.
        cbn [mbind option_bind].
        rewrite (extends_refs _ _ _ _ Hex2 Hl). cbn. by destruct st as [[]]. }
    eapply (IH _ _ _ _ (r0 ++ [st])) in H; [|by apply ok_set_ops|done|done].
    destruct H as (? & ? & ->). by rewrite <- app_assoc.
Qed.

(** The exchange of the input variables 0 and [i] in a recipe. *)
Definition exchange_ref (i : Z) (r : VarRef) : VarRef :=
  if bool_decide (r = (INPUT, 0)) then (INPUT, i)
  else if bool_decide (r = (INPUT, i)) then (INPUT, 0)
  else r.

Definition exchange_stmt (i : Z) (st : Stmt) : Stmt :=
  mkStmt (exchange_ref i (s_result st)) (s_op st) (map (exchange_ref i) (s_args st)).

Definition exchange_inputs (i : Z) (r : Recipe) : Recipe := map (exchange_stmt i) r.

Lemma renamed_refs (g : VarRef -> VarRef) e e' l rs :
  (forall k r, ref e k = Some r -> ref e' k = Some (g r)) ->
  mapM (ref e) l = Some rs -> mapM (ref e') l = Some (map g rs).
Proof.
  intros Hg. revert rs. induction l as [|k l IH]; intros rs.
  - by intros [= <-].
  - rewrite !mapM_cons. destruct (ref e k) as [r|] eqn:Hr; simpl; [|done].
    rewrite (Hg _ _ Hr). simpl. destruct (mapM (ref e) l) as [rs'|]; simpl; [|done].
    intros [= <-]. by rewrite (IH rs' eq_refl).
Qed.

Lemma renamed_stmt (g : VarRef -> VarRef) e e' o st :
  (forall k r, ref e k = Some r -> ref e' k = Some (g r)) ->
  stmt_of e o = Some st ->
  stmt_of e' o = Some (mkStmt (g (s_result st)) (s_op st) (map g (s_args st))).
Proof.
  intros Hg. unfold stmt_of. destruct (result o) as [r|]; [|done]. cbn [mbind option_bind].
  destruct (ref e r) as [rr|] eqn:Hr; [|done]. rewrite (Hg _ _ Hr).
  cbn [mbind option_bind].
  destruct (mapM (ref e) (args o)) as [a|] eqn:Ha; [|done].
  rewrite (renamed_refs g _ _ _ _ Hg Ha). by intros [= <-].
Qed.

Lemma renamed_stmts (g : VarRef -> VarRef) e e' l rs :
  (forall k r, ref e k = Some r -> ref e' k = Some (g r)) ->
  mapM (stmt_of e) l = Some rs ->
  mapM (stmt_of e') l
  = Some (map (fun st => mkStmt (g (s_result st)) (s_op st) (map g (s_args st))) rs).
Proof.
  intros Hg. revert rs. induction l as [|o l IH]; intros rs.
  - by intros [= <-].
  - rewrite !mapM_cons. destruct (stmt_of e o) as [st|] eqn:Hs; [|done].
    rewrite (renamed_stmt g _ _ _ _ Hg Hs). cbn [mbind option_bind].
    destruct (mapM (stmt_of e) l) as [rs'|]; [|done].
    rewrite (IH rs' eq_refl). by intros [= <-].
Qed.

Lemma ref_coherent e k ty i :
  coherent e -> i <> -1 -> ref e k = Some (ty, i) ->
  exists v, find (matching ty i) (vars_ e) = Some (k, v).
Proof.
  intros Hco Hi. unfold ref. destruct (var e k) as [v|] eqn:Hv; simpl; [|done].
  intros [= <- <-]. exists v. by apply Hco.
Qed.

(** The recipe that [Combine] stores after the exchange is the fused
    recipe with the input variables 0 and [i] exchanged. *)
Lemma swap_target_exchange recipe i r' :
  i <> 0 -> i <> -1 ->
  Transformers.swap_target recipe i = Some r' -> r' = exchange_inputs i recipe.
Proof.
  intros Hi0 Hi1. unfold Transformers.swap_target.
  match goal with |- fst <$> ?m = _ -> _ => destruct m as [[r n]|] eqn:H end; [|done].
  simpl. intros [= ->].
  inv_bind H e1 s1 HP.
  apply (Parse_AsRecipe _ _ _ _ _ []) in HP as (Hok1 & Hco1 & Hr1);
    [|apply ok_new|by intros k v|done].
  inv_bind H vt s2 HVt. destruct vt as [kt e2].
  apply Variable_coherent in HVt as (Hok2 & Hco2 & Hex2 & Hops2 & Hkt); [|done..].
  inv_bind H v0 s3 HV0. destruct v0 as [k0 e3]. cbn [fst snd] in *.
  apply Variable_coherent in HV0 as (Hok3 & Hco3 & Hex3 & Hops3 & Hk0); [|done..].
  cbv zeta in H. apply lift_inv in H as [H _]. cbn [fst snd] in H.
  pose proof (extends_ref _ _ _ _ Hex3 Hkt) as Hkt3.
  assert (kt <> k0) as Hne by (intros ->; congruence).
  rewrite AsRecipe_stmts in *. simpl in Hr1.
  assert (mapM (stmt_of e3) (ops_ e3) = Some recipe) as Hr3.
  { rewrite Hops3, Hops2. eapply extends_stmts; [|exact Hr1]. by eapply extends_trans. }
  erewrite (renamed_stmts (exchange_ref i)) in H; [| |exact Hr3].
  { by simplify_eq. }
  intros k r Hr.
  destruct (decide (k = k0)) as [->|Hnk0].
  { rewrite Hr in Hk0. simplify_eq. unfold ref in *.
    rewrite var_update_var, var_update_var_ne by done.
    destruct (var e3 k0) as [v|]; [|done]. cbn in *. simplify_eq.
    unfold exchange_ref. rewrite bool_decide_eq_true_2 by done. by rewrite Hr. }
  destruct (decide (k = kt)) as [->|Hkt'].
  { rewrite Hr in Hkt3. simplify_eq. unfold ref in *.
    rewrite var_update_var_ne, var_update_var by done.
    destruct (var e3 kt) as [v|]; [|done]. cbn in *. simplify_eq.
    unfold exchange_ref. rewrite bool_decide_eq_false_2 by congruence.
    rewrite bool_decide_eq_true_2 by done. by rewrite Hr. }
  unfold ref at 1. rewrite !var_update_var_ne by done. fold (ref e3 k). rewrite Hr. f_equal.
  unfold exchange_ref. destruct r as [ty j].
  case_bool_decide as Ha.
  { simplify_eq. apply ref_coherent in Hr as [v Hv]; [|done..].
    apply ref_coherent in Hk0 as [v' Hv']; [|done..]. congruence. }
  case_bool_decide as Hb; [|done].
  simplify_eq. apply ref_coherent in Hr as [v Hv]; [|done..].
  apply ref_coherent in Hkt3 as [v' Hv']; [|done..]. congruence.
Qed.

End RecipeFacts.

Section AssignTarget.
Import Flow Transformers CombineFacts RecipeFacts.

Lemma index_of_lookup v l i : index_of v l = Some i -> l !! i = Some v.
Proof.
  revert i. induction l as [|x l IH]; intros i; simpl; [done|].
  case_bool_decide; [by intros [= <-]; subst|].
  destruct (index_of v l) as [j|]; simpl; [|done]. intros [= <-]. by apply IH.
Qed.

Lemma swap0_head i l l' a :
  l !! i = Some a -> swap0 i l = Some l' -> l' !! 0%nat = Some a.
Proof.
  intros Hi. unfold swap0. destruct (l !! 0%nat) as [b|] eqn:H0; simpl; [|done].
  rewrite Hi. simpl. intros [= <-].
  destruct i as [|i].
  - rewrite list_lookup_insert_eq; [congruence|].
    rewrite length_insert. by eapply lookup_lt_Some.
  - rewrite list_lookup_insert_ne by done.
    rewrite list_lookup_insert_eq; [done|]. by eapply lookup_lt_Some.
Qed.

Lemma op_update_op o g f : op (update_op o g f) o = g <$> op f o.
Proof. unfold op, update_op. simpl. by rewrite lookup_alter_eq. Qed.

Lemma get_op_inv o f r f' : get_op o f = Some (r, f') -> op f o = Some r /\ f' = f.
Proof.
  unfold get_op. destruct (op f o); simpl; [|done]. by intros [= <- <-].
Qed.

(** The flow [c = Calculate(a, b)] with the recipe [@0=Add(%0,%1)]
    followed by [Assign(target, c)]: the variables are [a], [b], [c] and
    [target] (pointers 0 to 3). *)
Definition assign_flow : Flow.t :=
  let v ty sh d o p c := mkVariable "" ty sh d 128 o p c in
  mkFlow [0; 1; 2; 3]%nat [0; 1]%nat
    (list_to_map
       [(0, v DT_FLOAT [32%Z] None false None [0]);
        (1, v DT_FLOAT [32%Z] None false None [0]);
        (2, v DT_FLOAT [32%Z] None false (Some 0) [1]);
        (3, v DT_FLOAT [32%Z] None false None [1])]%nat)
    (list_to_map
       [(0%nat, mkOperation "c" "Calculate" [0; 1]%nat [2%nat] []
              [Express.mkStmt (Express.OUTPUT, 0) Express.ADD
                 [(Express.INPUT, 0); (Express.INPUT, 1)]]);
        (1%nat, mkOperation "assign" "Assign" [3; 2]%nat [] [] [])])
    [] ∅.

Definition assign_flow_combined : Flow.t :=
  Eval vm_compute in
    match Combine 0%nat 1%nat assign_flow with
    | Some (_, f) => f
    | None => assign_flow
    end.

(** C2. For every successful [Combine] whose second operation is an
    Assign, input 0 of the fused operation is the target of the
    assignment.  If [Fuse] left the target at input 0, the inputs and the
    fused recipe are stored as they are; otherwise the target is at
    another index [i], the inputs 0 and [i] are swapped and the stored
    recipe is the fused recipe with the input variables 0 and [i]
    exchanged. *)
Theorem assign_target_first (f f' : Flow.t) (first second : OpPtr) (so : Operation)
    (target : VarPtr) :
  op f second = Some so -> IsAssignmentOp so = true ->
  o_inputs so !! 0%nat = Some target ->
  Combine first second f = Some (true, f') ->
  exists recipe f1 fu1 fu,
    FuseExpressions f first second = Some recipe
    /\ Fuse first second "Assign" true f = Some (first, f1)
    /\ op f1 first = Some fu1
    /\ op f' first = Some fu
    /\ o_inputs fu !! 0%nat = Some target
    /\ (o_inputs fu1 !! 0%nat = Some target ->
        o_inputs fu = o_inputs fu1 /\ o_expr fu = recipe)
    /\ (o_inputs fu1 !! 0%nat <> Some target ->
        exists i, index_of target (o_inputs fu1) = Some i /\ i <> 0%nat
                  /\ swap0 i (o_inputs fu1) = Some (o_inputs fu)
                  /\ o_expr fu = exchange_inputs (Z.of_nat i) recipe).
Proof.
  intros Hso Hassign Htarget H. unfold Combine in H.
  inv_bind H ok s Hcan. pose proof (ro_can_combine _ _ _ _ _ Hcan) as ->.
  destruct ok; cbn [negb] in H; [|by inv_ret H].
  rewrite bind_gets in H. inv_bind H recipe s Hfuse.
  apply lift_inv in Hfuse as [Hfuse ?]. cbn [fst snd] in *. subst s.
  destruct (Express.empty recipe); [by inv_ret H|].
  inv_bind H so' s Hso'. apply get_op_inv in Hso' as [Hso' ->].
  rewrite Hso in Hso'. injection Hso' as <-. rewrite Hassign in H.
  unfold fuse_ops in H.
  inv_bind H so' s Hso'. apply get_op_inv in Hso' as [Hso' ->].
  rewrite Hso in Hso'. injection Hso' as <-.
  inv_bind H target' s Ht. apply lift_inv in Ht as [Ht ?]. cbn [fst snd] in *. subst s.
  rewrite Htarget in Ht. injection Ht as <-.
  inv_bind H fused f1 HF.
  assert (fused = first) as ->.
  { unfold Fuse in HF. destruct (op f second); [|done]. cbn in HF.
    destruct (op f first); [|done]. cbn in HF.
    destruct (fold_left _ _ _); [|done]. cbn in HF.
    destruct (fold_left _ _ _); [|done]. cbn in HF. by simplify_eq. }
  inv_bind H fu1 s Hfu1. apply get_op_inv in Hfu1 as [Hfu1 ->].
  inv_bind H in0 s Hin0. apply lift_inv in Hin0 as [Hin0 ?]. cbn [fst snd] in *. subst s.
  inv_bind H r f2 Hr.
  inv_bind H fu2 s Hfu2. apply get_op_inv in Hfu2 as [Hfu2 ->].
  rewrite bind_modify in H. apply ret_inv in H.
  assert (f' = update_op first (set_o_expr r) f2) as -> by congruence. clear H.
  exists recipe, f1, fu1. rewrite op_update_op, Hfu2. eexists.
  split; [done|]. split; [done|]. split; [done|]. split; [done|]. cbn.
  cbn [andb] in Hr.
  destruct (decide (in0 = target)) as [Heq|Hne].
  - rewrite bool_decide_eq_false_2 in Hr by (by intros ?).
    apply ret_inv in Hr. assert (r = recipe /\ f2 = f1) as [-> ->]
      by (split; congruence). clear Hr. rewrite Hfu1 in Hfu2. simplify_eq.
    split; [done|]. split; [done|]. intros Hcontra. by destruct Hcontra.
  - (* the target is not the first input of the fused operation *)
    rewrite bool_decide_eq_true_2 in Hr by done. cbv zeta in Hr.
    inv_bind Hr u s Hc. apply check_inv in Hc as [Hc ?]. cbn [fst snd] in *. subst s.
    inv_bind Hr r1 s Hsw. apply lift_inv in Hsw as [Hsw ?]. cbn [fst snd] in *. subst s.
    inv_bind Hr ins s Hins. apply lift_inv in Hins as [Hins ?]. cbn [fst snd] in *. subst s.
    rewrite bind_modify in Hr. apply ret_inv in Hr.
    assert (r = r1 /\ f2 = update_op first (set_o_inputs ins) f1) as [-> ->]
      by (split; congruence). clear Hr.
    rewrite op_update_op, Hfu1 in Hfu2. cbn in Hfu2. simplify_eq. cbn.
    unfold InputIndex in *.
    destruct (index_of target (o_inputs fu1)) as [i|] eqn:Hidx; [|done].
    rewrite Nat2Z.id in Hins. pose proof (index_of_lookup _ _ _ Hidx) as Hi.
    assert (i <> 0%nat) as Hi0 by (intros ->; congruence).
    split; [by eapply swap0_head|]. split; [congruence|].
    intros _. exists i. split; [done|]. split; [done|]. split; [done|].
    apply swap_target_exchange in Hsw; [done|lia..].
Qed.
Lemma assign_target_first_witness :
  exists recipe f1 fu1 fu,
    FuseExpressions assign_flow 0%nat 1%nat = Some recipe
    /\ Fuse 0%nat 1%nat "Assign" true assign_flow = Some (0%nat, f1)
    /\ op f1 0%nat = Some fu1
    /\ op assign_flow_combined 0%nat = Some fu
    /\ o_inputs fu !! 0%nat = Some 3%nat
    /\ (o_inputs fu1 !! 0%nat = Some 3%nat ->
        o_inputs fu = o_inputs fu1 /\ o_expr fu = recipe)
    /\ (o_inputs fu1 !! 0%nat <> Some 3%nat ->
        exists i, index_of 3%nat (o_inputs fu1) = Some i /\ i <> 0%nat
                  /\ swap0 i (o_inputs fu1) = Some (o_inputs fu)
                  /\ o_expr fu = exchange_inputs (Z.of_nat i) recipe).
Proof.
  apply (assign_target_first assign_flow assign_flow_combined 0%nat 1%nat
           (mkOperation "assign" "Assign" [3; 2]%nat [] [] []) 3%nat);
    [reflexivity | reflexivity | reflexivity | vm_compute; reflexivity].
Defined.

End AssignTarget.

(** ** Termination of the expression transformer *)
Module TerminationFacts.
Import Flow Transformers CombineFacts.

(** The operations of the flow: the domain of its operation store. *)
Definition live_ops (f : Flow.t) : gset OpPtr := dom (op_at f).

Definition num_ops (f : Flow.t) : nat := size (op_at f).

Lemma live_update_op o g f : live_ops (update_op o g f) = live_ops f.
Proof. unfold live_ops, update_op. simpl. apply dom_alter_L. Qed.

Lemma live_update_var v g f : live_ops (update_var v g f) = live_ops f.
Proof. done. Qed.

Lemma live_DeleteVariable v f : live_ops (DeleteVariable v f) = live_ops f.
Proof. done. Qed.

Lemma live_RemoveInput o v f : live_ops (RemoveInput o v f) = live_ops f.
Proof. unfold RemoveInput. by rewrite live_update_var, live_update_op. Qed.

Lemma live_RemoveOutput o v f : live_ops (RemoveOutput o v f) = live_ops f.
Proof. unfold RemoveOutput. by rewrite live_update_var, live_update_op. Qed.

Lemma live_MoveInput a b v f : live_ops (MoveInput a b v f) = live_ops f.
Proof.
  unfold MoveInput. by rewrite live_update_var, live_update_op, live_RemoveInput.
Qed.

Lemma live_MoveOutput a b v f : live_ops (MoveOutput a b v f) = live_ops f.
Proof.
  unfold MoveOutput. by rewrite live_update_var, live_update_op, live_RemoveOutput.
Qed.

Lemma live_fuse_input first second m g v f' :
  fuse_input first second m g v = Some f' ->
  exists f, g = Some f /\ live_ops f' = live_ops f.
Proof.
  unfold fuse_input. destruct g as [f|]; [|done]. cbn.
  destruct (op f first) as [fo|]; [|done]. cbn.
  destruct (m && IsInput fo v).
  { intros [= <-]. exists f. by rewrite live_RemoveInput. }
  destruct (IsOutput fo v).
  - destruct (var (RemoveInput second v f) v) as [vv|]; [|done]. cbn.
    destruct ((usages vv =? 0) && negb (out vv)); intros [= <-]; exists f.
    + by rewrite live_DeleteVariable, live_RemoveOutput, live_RemoveInput.
    + by rewrite live_RemoveInput.
  - intros [= <-]. exists f. by rewrite live_MoveInput.
Qed.

Lemma live_fuse_output first second g v f' :
  fuse_output first second g v = Some f' ->
  exists f, g = Some f /\ live_ops f' = live_ops f.
Proof.
  unfold fuse_output. destruct g as [f|]; [|done]. cbn.
  destruct (op f first) as [fo|]; [|done]. cbn.
  destruct (var f v) as [vv|]; [|done]. cbn.
  destruct (IsInput fo v).
  { destruct ((usages vv =? 1) && negb (out vv)); intros [= <-]; exists f.
    - by rewrite live_DeleteVariable, live_RemoveOutput, live_RemoveInput.
    - by rewrite live_MoveOutput, live_RemoveInput. }
  destruct (IsOutput fo v); intros [= <-]; exists f.
  - by rewrite live_RemoveOutput.
  - by rewrite live_MoveOutput.
Qed.

Lemma live_fold {A} (step : option Flow.t -> A -> option Flow.t) l :
  (forall g v f', step g v = Some f' -> exists f, g = Some f /\ live_ops f' = live_ops f) ->
  forall g f', fold_left step l g = Some f' ->
               exists f, g = Some f /\ live_ops f' = live_ops f.
Proof.
  intros Hstep. induction l as [|v l IH]; intros g f' H; simpl in H.
  - subst. by exists f'.
  - apply IH in H as (f1 & H1 & Hl). apply Hstep in H1 as (f & -> & Hl').
    exists f. split; [done|congruence].
Qed.

(** [Fuse] deletes the second operation and no other. *)
Lemma Fuse_live first second ty m f r f' :
  Fuse first second ty m f = Some (r, f') ->
  r = first /\ second ∈ live_ops f /\ live_ops f' = live_ops f ∖ {[second]}.
Proof.
  unfold Fuse. destruct (op f second) as [so|] eqn:Hso; [|done]. cbn.
  destruct (op f first) as [fo|]; [|done]. cbn.
  destruct (fold_left _ (o_inputs so) _) as [f1|] eqn:H1; [|done]. cbn.
  destruct (fold_left _ (o_outputs so) _) as [f2|] eqn:H2; [|done]. cbn.
  intros [= <- <-]. split; [done|].
  apply live_fold in H1 as (? & [= <-] & Hl1); [|apply live_fuse_input].
  apply live_fold in H2 as (? & [= <-] & Hl2); [|apply live_fuse_output].
  split; [apply elem_of_dom; by eexists|].
  unfold live_ops, DeleteOperation in *. simpl. rewrite dom_delete_L, dom_alter_L.
  congruence.
Qed.

Lemma num_ops_delete f f' o :
  o ∈ live_ops f -> live_ops f' = live_ops f ∖ {[o]} -> (num_ops f' + 1 = num_ops f)%nat.
Proof.
  unfold num_ops, live_ops. intros Ho Heq.
  assert ({[o]} ⊆ dom (op_at f)) as Hsub by by apply singleton_subseteq_l.
  rewrite <- !size_dom, Heq. rewrite size_difference by done.
  apply subseteq_size in Hsub. rewrite size_singleton in *. lia.
Qed.

(** A successful [Combine] deletes one operation; a rejected one leaves
    the flow as it is. *)
Definition combined (f : Flow.t) (ok : bool) (f' : Flow.t) : Prop :=
  if ok then (num_ops f' + 1 = num_ops f)%nat else f' = f.

Lemma Combine_combined first second f ok f' :
  Combine first second f = Some (ok, f') -> combined f ok f'.
Proof.
  intros H. unfold Combine in H.
  inv_bind H ok1 s Hcan. pose proof (ro_can_combine _ _ _ _ _ Hcan) as ->.
  destruct ok1; cbn [negb] in H; [|by inv_ret H].
  rewrite bind_gets in H. inv_bind H recipe s Hfuse.
  apply lift_inv in Hfuse as [Hfuse ?]. cbn [fst snd] in *. subst s.
  destruct (Express.empty recipe); [by inv_ret H|].
  inv_bind H so s Hso. apply ro_get_op in Hso as ->.
  unfold fuse_ops in H.
  inv_bind H so' s Hso'. apply ro_get_op in Hso' as ->.
  inv_bind H target s Ht.
  assert (s = f) as ->.
  { destruct (IsAssignmentOp so); [by apply ro_lift in Ht|by inv_ret Ht]. }
  inv_bind H fused f1 HF. apply Fuse_live in HF as (-> & Hin & Hlive).
  inv_bind H fu1 s Hfu1. apply ro_get_op in Hfu1 as ->.
  inv_bind H in0 s Hin0.
  assert (s = f1) as ->.
  { destruct (IsAssignmentOp so); [by apply ro_lift in Hin0|by inv_ret Hin0]. }
  inv_bind H r f2 Hr.
  assert (live_ops f2 = live_ops f1) as Hl2.
  { destruct (IsAssignmentOp so && bool_decide (in0 ≠ target)).
    - cbv zeta in Hr.
      inv_bind Hr u s Hc. apply check_inv in Hc as [_ ?]. cbn [fst snd] in *. subst s.
      inv_bind Hr r1 s Hsw. apply ro_lift in Hsw as ->.
      inv_bind Hr ins s Hins. apply ro_lift in Hins as ->.
      rewrite bind_modify in Hr. apply ret_inv in Hr.
      assert (f2 = update_op first (set_o_inputs ins) f1) as -> by congruence.
      apply live_update_op.
    - apply ret_inv in Hr. congruence. }
  inv_bind H fu2 s Hfu2. apply ro_get_op in Hfu2 as ->.
  rewrite bind_modify in H. apply ret_inv in H.
  assert (ok = true /\ f' = update_op first (set_o_expr r) f2) as [-> ->]
    by (split; congruence).
  unfold combined. eapply num_ops_delete; [exact Hin|].
  rewrite live_update_op. congruence.
Qed.

Lemma ro_contained_in o vs : readonly (contained_in o vs).
Proof.
  induction vs as [|v vs IH]; simpl; [apply ro_ret|].
  apply ro_bind; [apply ro_get_var|]. intros vv.
  match goal with |- readonly (if ?b then _ else _) => destruct b end;
    [apply ro_ret|done].
Qed.

Lemma absorb_inputs_combined o inputs : forall f ok f',
  absorb_inputs o inputs f = Some (ok, f') -> combined f ok f'.
Proof.
  induction inputs as [|input rest IH]; intros f ok f' H; simpl in H.
  - by inv_ret H.
  - inv_bind H iv s Hiv. apply ro_get_var in Hiv as ->.
    destruct (v_producer iv) as [producer|]; [|by apply IH].
    inv_bind H p s Hp. apply ro_get_op in Hp as ->.
    destruct (negb (IsCalculateOp p)); [by apply IH|].
    destruct (GetAttrBool p "strict" false); [by apply IH|].
    inv_bind H c s Hc. apply ro_contained_in in Hc as ->.
    destruct (negb c); [by apply IH|].
    inv_bind H b s Hb. apply Combine_combined in Hb.
    destruct b; [by inv_ret H|]. unfold combined in Hb. subst s. by apply IH.
Qed.

Lemma merge_inputs_combined o inputs : forall f ok f',
  merge_inputs o inputs f = Some (ok, f') -> combined f ok f'.
Proof.
  induction inputs as [|input rest IH]; intros f ok f' H; simpl in H.
  - by inv_ret H.
  - inv_bind H iv s Hiv. apply ro_get_var in Hiv as ->.
    destruct (v_producer iv) as [producer|]; [|by apply IH].
    inv_bind H p s Hp. apply ro_get_op in Hp as ->.
    destruct (negb (IsCalculateOp p)); [by apply IH|].
    destruct (GetAttrBool p "strict" false); [by apply IH|].
    inv_bind H b s Hb. apply Combine_combined in Hb.
    destruct b; [by inv_ret H|]. unfold combined in Hb. subst s. by apply IH.
Qed.

(** A pass does not add operations, and deletes one when it sets
    [again]. *)
Definition shrinks (f : Flow.t) (again : bool) (f' : Flow.t) : Prop :=
  (num_ops f' <= num_ops f)%nat /\ (again = true -> (num_ops f' < num_ops f)%nat).

Lemma candidates_pass_shrinks wanted attempt :
  (forall o inputs f ok f', attempt o inputs f = Some (ok, f') -> combined f ok f') ->
  forall todo visited n again f r f',
    candidates_pass wanted attempt visited todo n again f = Some (r, f') ->
    (num_ops f' <= num_ops f)%nat
    /\ (snd r = true -> again = true \/ (num_ops f' < num_ops f)%nat).
Proof.
  intros Hatt. induction todo as [|[o|] todo IH]; intros visited n again f r f' H;
    simpl in H.
  - inv_ret H. split; [lia|by left].
  - inv_bind H oo s Ho. apply ro_get_op in Ho as ->.
    destruct (negb (wanted oo)); [by eapply IH|].
    inv_bind H ok s Hok. apply Hatt in Hok. destruct ok; unfold combined in Hok.
    + apply IH in H as [Hle _]. split; [lia|]. intros _. right. lia.
    + subst s. by eapply IH.
  - by eapply IH.
Qed.

Lemma ro_sharing_pair cs : forall first, readonly (sharing_pair cs first).
Proof.
  induction cs as [|o cs IH]; intros first; simpl; [apply ro_ret|].
  apply ro_bind; [apply ro_get_op|]. intros oo.
  destruct (negb (IsCalculateOp oo)); [done|].
  destruct (GetAttrBool oo "strict" false); [done|].
  destruct first; [apply ro_ret|done].
Qed.

Lemma sharing_pass_combined vs : forall f ok f',
  sharing_pass vs f = Some (ok, f') -> combined f ok f'.
Proof.
  induction vs as [|v vs IH]; intros f ok f' H; simpl in H.
  - by inv_ret H.
  - inv_bind H vv s Hv. apply ro_get_var in Hv as ->.
    destruct (usages vv <? 2); [by apply IH|].
    destruct (elements vv <? 2); [by apply IH|].
    inv_bind H pr s Hpr. apply ro_sharing_pair in Hpr as ->.
    destruct pr as [[first|] [second|]]; try by apply IH.
    inv_bind H b s Hb. apply Combine_combined in Hb.
    destruct b; [by inv_ret H|]. unfold combined in Hb. subst s. by apply IH.
Qed.

(** A [while (again)] loop whose passes shrink the flow ends within as
    many passes as the flow has operations, plus one. *)
Lemma while_state_ends {C} (body : C -> StErr Flow.t (C * bool)) :
  (forall c f r f', body c f = Some (r, f') -> shrinks f (snd r) f') ->
  forall fuel c f r f',
    (num_ops f < fuel)%nat -> while_state fuel body c f = Some (r, f') ->
    snd r = true /\ (num_ops f' <= num_ops f)%nat.
Proof.
  intros Hbody. induction fuel as [|fuel IH]; intros c f r f' Hlt H; [lia|].
  simpl in H. inv_bind H r1 f1 H1. apply Hbody in H1 as [Hle Hdec].
  destruct (snd r1) eqn:Hagain.
  - specialize (Hdec eq_refl). apply IH in H as [? ?]; [|lia]. split; [done|lia].
  - by inv_ret H.
Qed.

End TerminationFacts.

Section Termination.
Import Flow Transformers CombineFacts TerminationFacts.

(** C8. [ExpressionTransformer::Transform] terminates on every flow:
    each successful [Combine] reduces the number of operations by one,
    so each of its three loops ends within as many passes as the flow has
    operations, plus one; with that much fuel, and in particular with the
    square of it, the model never runs out of fuel. *)
Theorem ExpressionTransformer_terminates :
  (forall (f f' : Flow.t) (first second : OpPtr),
     Combine first second f = Some (true, f') ->
     (num_ops f' + 1 = num_ops f)%nat)
  /\ (forall (f f' : Flow.t) (fuel : nat) (r : option bool),
        (num_ops f < fuel)%nat ->
        ExpressionTransformer_Transform fuel f = Some (r, f') ->
        is_Some r /\ (num_ops f' <= num_ops f)%nat)
  /\ (forall (f f' : Flow.t) (r : option bool),
        ExpressionTransformer_Transform ((num_ops f + 1) * (num_ops f + 1)) f
          = Some (r, f') ->
        is_Some r).
Proof.
  assert (forall (f f' : Flow.t) (fuel : nat) (r : option bool),
            (num_ops f < fuel)%nat ->
            ExpressionTransformer_Transform fuel f = Some (r, f') ->
            is_Some r /\ (num_ops f' <= num_ops f)%nat) as Hterm.
  { intros f f' fuel r Hfuel H. unfold ExpressionTransformer_Transform in H.
    rewrite bind_gets in H.
    inv_bind H cands s Hc. apply ro_lift in Hc as ->.
    inv_bind H r1 f1 H1.
    apply while_state_ends in H1 as [Hend1 Hle1]; [|  |done].
    2: { intros c g r0 g' Hp.
         apply (candidates_pass_shrinks _ _ absorb_inputs_combined) in Hp as [? Hp].
         split; [done|]. intros Ha. by destruct (Hp Ha). }
    rewrite Hend1 in H. cbn [negb] in H.
    inv_bind H r2 f2 H2.
    apply while_state_ends in H2 as [Hend2 Hle2]; [|  |lia].
    2: { intros c g r0 g' Hp.
         apply (candidates_pass_shrinks _ _ merge_inputs_combined) in Hp as [? Hp].
         split; [done|]. intros Ha. by destruct (Hp Ha). }
    rewrite Hend2 in H. cbn [negb] in H.
    inv_bind H r3 f3 H3.
    apply while_state_ends in H3 as [Hend3 Hle3]; [|  |lia].
    2: { intros c g r0 g' Hp. rewrite bind_gets in Hp.
         inv_bind Hp ok s Hs. apply sharing_pass_combined in Hs.
         apply ret_inv in Hp. assert (r0 = (if ok then c + 1 else c, ok) /\ g' = s)
           as [-> ->] by (split; congruence).
         destruct ok; unfold combined, shrinks in *; simpl; subst; split; (lia || done). }
    rewrite Hend3 in H. cbn [negb] in H. apply ret_inv in H.
    assert (r = Some (fst r3 >? 0) /\ f' = f3) as [-> ->] by (split; congruence).
    split; [by eexists|lia]. }
  split; [|split; [exact Hterm|]].
  - intros f f' first second H. by apply Combine_combined in H.
  - intros f f' r H. eapply Hterm; [|exact H]. nia.
Qed.

Lemma ExpressionTransformer_terminates_witness :
  (num_ops assign_flow_combined + 1 = num_ops assign_flow)%nat
  /\ is_Some (Some true).
Proof.
  split.
  - apply (proj1 ExpressionTransformer_terminates assign_flow assign_flow_combined
             0%nat 1%nat).
    vm_compute. reflexivity.
  - eapply (proj1 (proj2 ExpressionTransformer_terminates) assign_flow
              assign_flow_combined 3%nat (Some true)).
    + vm_compute. lia.
    + vm_compute. reflexivity.
Defined.

End Termination.

(** ** Pattern transformers

    [DivTransformer], [AddNegToSubTransformer] and [LogicTransformer]
    rewrite the operations that [Find] returns for a pattern; they are
    studied on well-formed flows, in which the edges of operations and of
    variables agree. *)
Module Graph.
Import Flow.

(** Number of occurrences in a vector. *)
Definition count (x : nat) (l : list nat) : nat := length (filter (fun y => y = x) l).

(** The edges of an operation agree with the consumers of its inputs. *)
Definition op_edges_ok (f : Flow.t) (o : OpPtr) (oo : Operation) : bool :=
  bool_decide (o ∈ ops_ f)
  && forallb (fun v => match var f v with
                       | Some vv => Nat.eqb (count o (v_consumers vv)) (count v (o_inputs oo))
                       | None => false
                       end) (o_inputs oo).

(** The consumers of a variable agree with the inputs of the operations. *)
Definition var_edges_ok (f : Flow.t) (v : VarPtr) (vv : Var) : bool :=
  forallb (fun o => match op f o with
                    | Some oo => Nat.eqb (count o (v_consumers vv)) (count v (o_inputs oo))
                    | None => true
                    end) (v_consumers vv).

(** Well-formed flows: the operations of the flow are distinct and are
    the ones of the store, the inputs of operations are variables of the
    flow, and an operation is a consumer of a variable as many times as
    the variable is among its inputs. *)
Definition well_formed (f : Flow.t) : bool :=
  bool_decide (NoDup (ops_ f))
  && forallb (fun o => bool_decide (is_Some (op f o))) (ops_ f)
  && forallb (fun e => op_edges_ok f (fst e) (snd e)) (map_to_list (op_at f))
  && forallb (fun e => var_edges_ok f (fst e) (snd e)) (map_to_list (var_at f)).

Record WF (f : Flow.t) : Prop := mkWF {
  wf_nodup : NoDup (ops_ f);
  wf_ops : forall o, o ∈ ops_ f <-> is_Some (op f o);
  wf_inputs : forall o oo v, op f o = Some oo -> v ∈ o_inputs oo -> is_Some (var f v);
  wf_edges : forall o oo v vv,
    op f o = Some oo -> var f v = Some vv ->
    count o (v_consumers vv) = count v (o_inputs oo);
}.

Lemma count_nil x : count x [] = 0%nat.
Proof. done. Qed.

Lemma count_cons x y l :
  count x (y :: l) = ((if bool_decide (y = x) then 1 else 0) + count x l)%nat.
Proof.
  unfold count. rewrite filter_cons. case_decide.
  - by rewrite bool_decide_eq_true_2.
  - by rewrite bool_decide_eq_false_2.
Qed.

Lemma count_app x l l' : count x (l ++ l') = (count x l + count x l')%nat.
Proof. unfold count. by rewrite filter_app, length_app. Qed.

Lemma count_pos x l : x ∈ l <-> (0 < count x l)%nat.
Proof.
  induction l as [|y l IH]; [rewrite count_nil; split; [by intros ?%elem_of_nil|lia]|].
  rewrite count_cons, elem_of_cons. case_bool_decide; [split; [lia|by left; subst]|].
  rewrite IH. split; [intros [?|?]; [congruence|lia]|intros ?; right; lia].
Qed.

Lemma count_zero x l : x ∉ l <-> count x l = 0%nat.
Proof. rewrite count_pos. lia. Qed.

Lemma count_le_length x l : (count x l <= length l)%nat.
Proof. unfold count. apply length_filter. Qed.

Lemma count_remove_first x y l :
  count x (remove_first y l)
  = if bool_decide (x = y) then Nat.pred (count x l) else count x l.
Proof.
  induction l as [|z l IH]; simpl; [by case_bool_decide|].
  destruct (decide (z = y)) as [->|Hz].
  - rewrite (bool_decide_eq_true_2 (y = y)) by done. rewrite count_cons.
    destruct (decide (x = y)) as [->|Hxy].
    + by rewrite !bool_decide_eq_true_2.
    + by rewrite !bool_decide_eq_false_2 by congruence.
  - rewrite (bool_decide_eq_false_2 (z = y)) by done. rewrite !count_cons, IH.
    destruct (decide (x = y)) as [->|Hxy].
    + rewrite (bool_decide_eq_true_2 (y = y)) by done.
      by rewrite bool_decide_eq_false_2.
    + by rewrite (bool_decide_eq_false_2 (x = y)).
Qed.

Lemma count_map_subst x w r l :
  count x (map (fun i => if bool_decide (i = w) then r else i) l)
  = if bool_decide (x = r)
    then (if bool_decide (r = w) then count r l else count r l + count w l)%nat
    else if bool_decide (x = w) then 0%nat else count x l.
Proof.
  induction l as [|z l IH]; simpl.
  { rewrite !count_nil. by repeat case_bool_decide. }
  rewrite !count_cons, IH. repeat case_bool_decide; subst; try congruence; lia.
Qed.

(** A singleton vector of consumers. *)
Lemma single_consumer c l : length l = 1%nat -> (0 < count c l)%nat -> l = [c].
Proof.
  destruct l as [|x [|y l]]; simpl; try done. intros _.
  rewrite count_cons, count_nil. case_bool_decide; [by subst|lia].
Qed.

Lemma map_subst_once w x l i :
  l !! i = Some w -> count w l = 1%nat ->
  map (fun j => if bool_decide (j = w) then x else j) l = <[i := x]> l.
Proof.
  revert i. induction l as [|z l IH]; intros i Hi Hc; [done|].
  rewrite count_cons in Hc. destruct i as [|i]; simpl in *.
  - simplify_eq. rewrite bool_decide_eq_true_2 in * by done. f_equal.
    assert (count w l = 0%nat) as Hz by lia. apply count_zero in Hz.
    clear -Hz. induction l as [|y l IH]; [done|]. simpl.
    apply not_elem_of_cons in Hz as [? ?].
    rewrite bool_decide_eq_false_2 by done. f_equal. by apply IH.
  - assert ((0 < count w l)%nat) as Hpos.
    { apply count_pos. by eapply list_elem_of_lookup_2. }
    case_bool_decide; [lia|]. f_equal. apply IH; [done|lia].
Qed.

Lemma map_subst_none w x l :
  count w l = 0%nat -> map (fun j => if bool_decide (j = w) then x else j) l = l.
Proof.
  intros Hz. apply count_zero in Hz. induction l as [|y l IH]; [done|]. simpl.
  apply not_elem_of_cons in Hz as [? ?].
  rewrite bool_decide_eq_false_2 by done. f_equal. by apply IH.
Qed.

(** The boolean test is sound. *)
Lemma well_formed_WF f : well_formed f = true -> WF f.
Proof.
  unfold well_formed. rewrite !andb_true_iff.
  intros [[[Hnd Hlive] Hops] Hvars].
  apply bool_decide_eq_true in Hnd.
  rewrite forallb_forall in Hlive, Hops, Hvars.
  assert (forall o oo, op f o = Some oo -> op_edges_ok f o oo = true) as Hop.
  { intros o oo Ho. apply (Hops (o, oo)). apply list_elem_of_In.
    by apply elem_of_map_to_list. }
  assert (forall v vv, var f v = Some vv -> var_edges_ok f v vv = true) as Hvar.
  { intros v vv Hv. apply (Hvars (v, vv)). apply list_elem_of_In.
    by apply elem_of_map_to_list. }
  split.
  - done.
  - intros o. split.
    + intros Ho. apply list_elem_of_In in Ho. apply Hlive in Ho.
      by apply bool_decide_eq_true in Ho.
    + intros [oo Ho]. apply Hop in Ho. unfold op_edges_ok in Ho.
      apply andb_true_iff in Ho as [Ho _]. by apply bool_decide_eq_true in Ho.
  - intros o oo v Ho Hv. apply Hop in Ho. unfold op_edges_ok in Ho.
    apply andb_true_iff in Ho as [_ Ho]. rewrite forallb_forall in Ho.
    apply list_elem_of_In in Hv. apply Ho in Hv. by destruct (var f v).
  - intros o oo v vv Ho Hv.
    destruct (decide (v ∈ o_inputs oo)) as [Hin|Hin].
    + apply Hop in Ho. unfold op_edges_ok in Ho.
      apply andb_true_iff in Ho as [_ Ho]. rewrite forallb_forall in Ho.
      apply list_elem_of_In in Hin. apply Ho in Hin. rewrite Hv in Hin.
      by apply Nat.eqb_eq in Hin.
    + apply count_zero in Hin as Hz. rewrite Hz.
      destruct (decide (o ∈ v_consumers vv)) as [Hc|Hc]; [|by apply count_zero].
      apply Hvar in Hv. unfold var_edges_ok in Hv. rewrite forallb_forall in Hv.
      apply list_elem_of_In in Hc. apply Hv in Hc. rewrite Ho in Hc.
      apply Nat.eqb_eq in Hc. lia.
Qed.

End Graph.

Module EliminateFacts.
Import Flow Graph Transformers.

Lemma set_o_inputs_id oo : set_o_inputs (o_inputs oo) oo = oo.
Proof. by destruct oo. Qed.

Lemma op_DeleteOperation p f o :
  op (DeleteOperation p f) o = if decide (p = o) then None else op f o.
Proof. unfold op, DeleteOperation. simpl. apply lookup_delete. Qed.

Lemma var_DeleteOperation p f v : var (DeleteOperation p f) v = var f v.
Proof. done. Qed.

Lemma op_update_op_ne o o' g f : o <> o' -> op (update_op o g f) o' = op f o'.
Proof. intros Hne. unfold op, update_op. simpl. by rewrite lookup_alter_ne. Qed.

Lemma op_update_op_eq o g f : op (update_op o g f) o = g <$> op f o.
Proof. unfold op, update_op. simpl. by rewrite lookup_alter_eq. Qed.

Lemma var_update_op o g f v : var (update_op o g f) v = var f v.
Proof. done. Qed.

Lemma ops_update_op o g f : ops_ (update_op o g f) = ops_ f.
Proof. done. Qed.

(** A producer [p] with the single input [x] and the single output [w],
    which is input [idx] of its only consumer [c] and is not visible. *)
Record Bypass (f : Flow.t) (idx : nat) (c p : OpPtr) (w x : VarPtr)
    (co po : Operation) (wv xv : Var) : Prop := mkBypass {
  by_c : op f c = Some co;
  by_w : o_inputs co !! idx = Some w;
  by_wv : var f w = Some wv;
  by_p : v_producer wv = Some p;
  by_po : op f p = Some po;
  by_in : o_inputs po = [x];
  by_out : o_outputs po = [w];
  by_xv : var f x = Some xv;
  by_usages : length (v_consumers wv) = 1%nat;
  by_hidden : v_out wv = false;
  by_ne : c <> p;
}.

Section Bypass.
Context (f : Flow.t) (idx : nat) (c p : OpPtr) (w x : VarPtr)
        (co po : Operation) (wv xv : Var).
Hypothesis Hwf : WF f.
Hypothesis Hby : Bypass f idx c p w x co po wv xv.

Lemma bypass_consumers : v_consumers wv = [c].
Proof.
  (pose proof Hby as Hb; destruct Hb). apply single_consumer; [done|].
  rewrite (wf_edges f Hwf c co w wv) by done.
  apply count_pos. by eapply list_elem_of_lookup_2.
Qed.

Lemma bypass_distinct : x <> w.
Proof.
  intros Heq. pose proof Hby as Hb. destruct Hb.
  pose proof (wf_edges f Hwf p po w wv by_po0 by_wv0) as He.
  rewrite bypass_consumers, by_in0, Heq, !count_cons, !count_nil in He.
  rewrite (bool_decide_eq_true_2 (w = w)) in He by done.
  rewrite bool_decide_eq_false_2 in He by done. lia.
Qed.

Lemma bypass_once : count w (o_inputs co) = 1%nat.
Proof.
  (pose proof Hby as Hb; destruct Hb). rewrite <- (wf_edges f Hwf c co w wv) by done.
  rewrite bypass_consumers, count_cons, count_nil.
  by rewrite bool_decide_eq_true_2.
Qed.

Lemma bypass_others o oo : op f o = Some oo -> o <> c -> count w (o_inputs oo) = 0%nat.
Proof.
  intros Ho Hne. (pose proof Hby as Hb; destruct Hb). rewrite <- (wf_edges f Hwf o oo w wv) by done.
  rewrite bypass_consumers, count_cons, count_nil.
  by rewrite bool_decide_eq_false_2.
Qed.

(** The flow after [Eliminate(p)]. *)
Definition bypassed : Flow.t :=
  DeleteOperation p
    (DeleteVariable w
       (update_var x
          (fun v => set_v_consumers (remove_first p (v_consumers v) ++ v_consumers wv) v)
          (set_op_at
             ((fun o => set_o_inputs
                 (map (fun i => if bool_decide (i = w) then x else i) (o_inputs o)) o)
              <$> op_at f) f))).

Lemma Eliminate_bypassed : Eliminate p f = Some bypassed.
Proof.
  (pose proof Hby as Hb; destruct Hb). unfold Eliminate. rewrite by_po0. cbn.
  rewrite by_in0, by_out0.
  rewrite by_wv0. cbn. rewrite by_xv0. cbn. unfold out. by rewrite by_hidden0.
Qed.

Lemma bypassed_ops : ops_ bypassed = filter (fun o => o <> p) (ops_ f).
Proof. done. Qed.

Lemma bypassed_op o :
  op bypassed o
  = if decide (p = o) then None
    else if decide (o = c) then Some (set_o_inputs (<[idx := x]> (o_inputs co)) co)
    else op f o.
Proof.
  unfold bypassed. rewrite op_DeleteOperation. destruct (decide (p = o)); [done|].
  unfold op. simpl. rewrite lookup_fmap.
  destruct (decide (o = c)) as [->|Hoc].
  - (pose proof Hby as Hb; destruct Hb). unfold op in by_c0. rewrite by_c0. simpl. f_equal. f_equal.
    apply map_subst_once; [done|apply bypass_once].
  - destruct (op_at f !! o) as [oo|] eqn:Ho; [|done]. simpl. f_equal.
    rewrite map_subst_none by by eapply bypass_others.
    apply set_o_inputs_id.
Qed.

Lemma bypassed_var v :
  var bypassed v
  = if decide (w = v) then None
    else if decide (v = x)
         then Some (set_v_consumers (remove_first p (v_consumers xv) ++ [c]) xv)
         else var f v.
Proof.
  unfold bypassed, var, DeleteOperation, DeleteVariable, update_var. simpl.
  rewrite lookup_delete. destruct (decide (w = v)); [done|].
  destruct (decide (v = x)) as [->|Hvx].
  - rewrite lookup_alter_eq. (pose proof Hby as Hb; destruct Hb).
    unfold var in by_xv0. rewrite by_xv0.
    simpl. by rewrite bypass_consumers.
  - by rewrite lookup_alter_ne.
Qed.

Lemma bypassed_memory : memory_ bypassed = memory_ f /\ heap bypassed = heap f.
Proof. done. Qed.

Lemma bypassed_WF : WF bypassed.
Proof.
  pose proof bypass_distinct as Hxw. pose proof bypass_once as Honce.
  pose proof bypass_consumers as Hcons. (pose proof Hby as Hb; destruct Hb). split.
  - rewrite bypassed_ops. apply NoDup_filter, Hwf.
  - intros o. rewrite bypassed_ops, list_elem_of_filter, bypassed_op.
    rewrite (wf_ops f Hwf).
    destruct (decide (p = o)) as [->|Hpo].
    + split; [by intros [? _]|by intros [? ?]].
    + destruct (decide (o = c)) as [->|Hoc].
      * split; [by eexists|]. intros _. split; [done|by eexists].
      * split; [by intros [_ ?]|by intros ?].
  - intros o oo v. rewrite bypassed_op, bypassed_var.
    destruct (decide (p = o)) as [->|Hpo]; [done|].
    assert (forall l, v ∈ map (fun i => if bool_decide (i = w) then x else i) l ->
                      v = x \/ (v ∈ l /\ v <> w)) as Hmap.
    { intros l Hv. apply list_elem_of_fmap in Hv as (i & -> & Hi).
      case_bool_decide; [by left|by right]. }
    destruct (decide (o = c)) as [->|Hoc].
    + intros [= <-]. simpl. rewrite <- (map_subst_once w x) by done.
      intros Hv. apply Hmap in Hv as [->|[Hv Hvw]].
      * rewrite decide_False by done. rewrite decide_True by done. by eexists.
      * rewrite decide_False by done. destruct (decide (v = x)); [by eexists|].
        exact (wf_inputs f Hwf c co v by_c0 Hv).
    + intros Ho Hv. destruct (decide (w = v)) as [<-|Hwv].
      * apply count_pos in Hv. rewrite (bypass_others o oo) in Hv by done. lia.
      * destruct (decide (v = x)); [by eexists|].
        exact (wf_inputs f Hwf o oo v Ho Hv).
  - intros o oo v vv. rewrite bypassed_op, bypassed_var.
    destruct (decide (p = o)) as [->|Hpo]; [done|].
    destruct (decide (w = v)) as [<-|Hwv]; [done|].
    assert (forall oo', op f o = Some oo' ->
              count o (v_consumers vv) =
              count v (map (fun i => if bool_decide (i = w) then x else i) (o_inputs oo'))
              -> (if decide (o = c)
                  then Some (set_o_inputs (<[idx := x]> (o_inputs co)) co)
                  else op f o) = Some oo ->
              count o (v_consumers vv) = count v (o_inputs oo)) as Hgoal.
    { intros oo' Ho Heq. destruct (decide (o = c)) as [->|Hoc].
      - intros [= <-]. simpl. rewrite <- (map_subst_once w x) by done.
        rewrite by_c0 in Ho. by simplify_eq.
      - rewrite Ho. intros [= <-]. rewrite Heq.
        by rewrite map_subst_none by by eapply bypass_others. }
    destruct (decide (v = x)) as [->|Hvx].
    + intros Ho [= <-]. simpl.
      destruct (op f o) as [oo'|] eqn:Ho'.
      2: { destruct (decide (o = c)) as [->|?]; congruence. }
      eapply Hgoal; [done| |done]. cbn [v_consumers set_v_consumers].
      rewrite count_app, count_remove_first, count_map_subst.
      rewrite bool_decide_eq_false_2 by congruence.
      rewrite (bool_decide_eq_true_2 (x = x)) by done.
      rewrite (bool_decide_eq_false_2 (x = w)) by done.
      rewrite (wf_edges f Hwf o oo' x xv) by done.
      rewrite <- Hcons. by rewrite (wf_edges f Hwf o oo' w wv).
    + intros Ho Hv.
      destruct (op f o) as [oo'|] eqn:Ho'.
      2: { destruct (decide (o = c)) as [->|?]; congruence. }
      eapply Hgoal; [done| |done].
      rewrite count_map_subst.
      rewrite bool_decide_eq_false_2 by done.
      rewrite (bool_decide_eq_false_2 (v = w)) by congruence.
      by apply (wf_edges f Hwf).
Qed.

End Bypass.

(** The change of the type of an operation and the swap of its first two
    inputs keep a flow well formed. *)
Lemma WF_set_type f o ty : WF f -> WF (update_op o (set_o_type ty) f).
Proof.
  intros Hwf.
  assert (forall o', op (update_op o (set_o_type ty) f) o'
                     = (if decide (o = o') then set_o_type ty else id) <$> op f o') as Hop.
  { intros o'. destruct (decide (o = o')) as [->|?].
    - by rewrite op_update_op_eq.
    - rewrite op_update_op_ne by done. by destruct (op f o'). }
  split.
  - apply Hwf.
  - intros o'. rewrite ops_update_op, Hop, fmap_is_Some. apply Hwf.
  - intros o' oo v. rewrite Hop, var_update_op.
    destruct (op f o') as [oo'|] eqn:Ho; [|done]. simpl. intros [= <-] Hv.
    eapply (wf_inputs f Hwf o'); [done|]. by destruct (decide (o = o')).
  - intros o' oo v vv. rewrite Hop, var_update_op.
    destruct (op f o') as [oo'|] eqn:Ho; [|done]. simpl. intros [= <-] Hv.
    rewrite (wf_edges f Hwf o' oo' v vv) by done. by destruct (decide (o = o')).
Qed.

Lemma count_swap01 x l l' : swap01 l = Some l' -> count x l' = count x l.
Proof.
  destruct l as [|a [|b l]]; simpl; try done. intros [= <-].
  rewrite !count_cons. lia.
Qed.

Lemma elem_of_swap01 x l l' : swap01 l = Some l' -> x ∈ l' -> x ∈ l.
Proof.
  intros Hs Hx. apply count_pos. rewrite <- (count_swap01 _ _ _ Hs). by apply count_pos.
Qed.

Lemma WF_swap_inputs f o oo ins :
  WF f -> op f o = Some oo -> swap01 (o_inputs oo) = Some ins ->
  WF (update_op o (set_o_inputs ins) f).
Proof.
  intros Hwf Ho Hs.
  split.
  - apply Hwf.
  - intros o'. rewrite ops_update_op. rewrite (wf_ops f Hwf).
    destruct (decide (o = o')) as [->|?].
    + rewrite op_update_op_eq, fmap_is_Some. done.
    + by rewrite op_update_op_ne.
  - intros o' oo' v. rewrite var_update_op.
    destruct (decide (o = o')) as [->|?].
    + rewrite op_update_op_eq, Ho. simpl. intros [= <-]. simpl. intros Hv.
      eapply (wf_inputs f Hwf o'); [done|]. by eapply elem_of_swap01.
    + rewrite op_update_op_ne by done. apply Hwf.
  - intros o' oo' v vv. rewrite var_update_op.
    destruct (decide (o = o')) as [->|?].
    + rewrite op_update_op_eq, Ho. simpl. intros [= <-] Hv. simpl.
      rewrite (count_swap01 _ _ _ Hs). by apply (wf_edges f Hwf).
    + rewrite op_update_op_ne by done. apply Hwf.
Qed.

End EliminateFacts.

Module PatternFacts.
Import Flow Graph Transformers EliminateFacts.

Lemma bind_get_op {B} o oo (k : Operation -> FlowM B) f :
  op f o = Some oo -> (get_op o ≫= k) f = k oo f.
Proof. intros H. unfold mbind, StErr_bind, get_op. by rewrite H. Qed.

Lemma bind_get_var {B} v vv (k : Var -> FlowM B) f :
  var f v = Some vv -> (get_var v ≫= k) f = k vv f.
Proof. intros H. unfold mbind, StErr_bind, get_var. by rewrite H. Qed.

Lemma bind_call {B} g f' (k : unit -> FlowM B) f :
  g f = Some f' -> (call g ≫= k) f = k tt f'.
Proof. intros H. unfold mbind, StErr_bind, call. by rewrite H. Qed.

(** The test of the transformers on the output of a producer: it has a
    single consumer and is not visible outside the flow. *)
Definition hidden_single (v : Var) : bool := (usages v =? 1) && negb (out v).

(** Variables that differ at most in their consumers, of which they have
    the same number. *)
Definition same_edges (v v' : Var) : Prop :=
  v' = set_v_consumers (v_consumers v') v
  /\ length (v_consumers v') = length (v_consumers v).

Lemma same_edges_refl v : same_edges v v.
Proof. split; [by destruct v|done]. Qed.

Lemma same_edges_trans v1 v2 v3 : same_edges v1 v2 -> same_edges v2 v3 -> same_edges v1 v3.
Proof.
  intros [H1 ?] [H2 ?]. split; [|congruence].
  rewrite H2 at 1. rewrite H1 at 1. done.
Qed.

Lemma same_edges_producer v v' : same_edges v v' -> v_producer v' = v_producer v.
Proof. intros [-> _]. done. Qed.

Lemma same_edges_hidden v v' : same_edges v v' -> hidden_single v' = hidden_single v.
Proof.
  intros [H1 H2]. unfold hidden_single, usages, out. rewrite H2. by rewrite H1 at 1.
Qed.

Lemma length_remove_first x l :
  x ∈ l -> S (length (remove_first x l)) = length l.
Proof.
  induction l as [|y l IH]; simpl; [by intros ?%elem_of_nil|].
  intros Hx. case_bool_decide; [done|]. simpl.
  apply elem_of_cons in Hx as [->|Hx]; [done|]. by rewrite IH.
Qed.

Section Pattern.
Variables (idx : nat) (tP tC tN : string) (perm : list VarPtr -> list VarPtr).
Hypothesis HPC : tP <> tC.
Hypothesis HPN : tP <> tN.

(** Input [idx] of the operation [c] of type [tC] is output 0 of the
    operation [p] of type [tP]. *)
Record Match (f : Flow.t) (c : OpPtr) (co : Operation) (w : VarPtr) (wv : Var)
    (p : OpPtr) (po : Operation) : Prop := mkMatch {
  m_c : op f c = Some co;
  m_type : o_type co = tC;
  m_w : o_inputs co !! idx = Some w;
  m_wv : var f w = Some wv;
  m_p : v_producer wv = Some p;
  m_po : op f p = Some po;
  m_ptype : o_type po = tP;
  m_out : o_outputs po !! 0%nat = Some w;
}.

Definition Matched (f : Flow.t) (c : OpPtr) : Prop :=
  exists co w wv p po, Match f c co w wv p po.

(** The operations of type [tP] have one input and one output. *)
Definition Arity (f : Flow.t) : Prop :=
  forall o oo, op f o = Some oo -> o_type oo = tP ->
    exists x w, o_inputs oo = [x] /\ o_outputs oo = [w].

(** The consumer after the rewrite. *)
Definition rewritten (co : Operation) (x : VarPtr) : Operation :=
  set_o_inputs (perm (<[idx := x]> (o_inputs co))) (set_o_type tN co).

(** The flow after the producer [p] of [w] is bypassed and its consumer
    [c] rewritten. *)
Record Stepped (f f1 : Flow.t) (c p : OpPtr) (w x : VarPtr) (co : Operation)
    (xv : Var) : Prop := mkStepped {
  st_wf : WF f1;
  st_op : forall o,
    op f1 o = if decide (o = p) then None
              else if decide (o = c) then Some (rewritten co x) else op f o;
  st_var : forall v,
    var f1 v = if decide (v = w) then None
               else if decide (v = x)
                    then Some (set_v_consumers (remove_first p (v_consumers xv) ++ [c]) xv)
                    else var f v;
  st_heap : heap f1 = heap f;
  st_memory : memory_ f1 = memory_ f;
}.

(** What the body of a loop over the matches does. *)
Definition StepOK (body : OpPtr -> Z -> FlowM Z) : Prop :=
  forall f c acc co w wv p po x xv,
    WF f -> Match f c co w wv p po ->
    o_inputs po = [x] -> o_outputs po = [w] -> var f x = Some xv ->
    if hidden_single wv
    then exists f1, body c acc f = Some (acc + 1, f1) /\ Stepped f f1 c p w x co xv
    else body c acc f = Some (acc, f).

Lemma Match_inj f c co w wv p po co' w' wv' p' po' :
  Match f c co w wv p po -> Match f c co' w' wv' p' po' ->
  co' = co /\ w' = w /\ wv' = wv /\ p' = p /\ po' = po.
Proof.
  intros [] []. assert (co' = co) as -> by congruence.
  assert (w' = w) as -> by congruence. assert (wv' = wv) as -> by congruence.
  assert (p' = p) as -> by congruence. assert (po' = po) as -> by congruence. done.
Qed.

Lemma Match_consumer f c co w wv p po :
  WF f -> Match f c co w wv p po -> c ∈ v_consumers wv.
Proof.
  intros Hwf []. apply count_pos. rewrite (wf_edges f Hwf c co w wv) by done.
  apply count_pos. by eapply list_elem_of_lookup_2.
Qed.

Lemma Match_ne f c co w wv p po : Match f c co w wv p po -> c <> p.
Proof. intros [] ->. congruence. Qed.

Lemma Match_arity f c co w wv p po :
  WF f -> Arity f -> Match f c co w wv p po ->
  exists x xv, o_inputs po = [x] /\ o_outputs po = [w] /\ var f x = Some xv.
Proof.
  intros Hwf Har Hm. pose proof Hm as [].
  destruct (Har p po) as (x & w' & Hi & Ho); [done..|].
  rewrite Ho in m_out0. simpl in m_out0. simplify_eq.
  destruct (wf_inputs f Hwf p po x) as [xv Hx]; [done|rewrite Hi; by left|].
  by exists x, xv.
Qed.

Lemma hidden_single_spec v :
  hidden_single v = true <-> length (v_consumers v) = 1%nat /\ v_out v = false.
Proof.
  unfold hidden_single, usages, out. rewrite andb_true_iff, negb_true_iff, Z.eqb_eq.
  split; intros [? ?]; split; [lia|done|lia|done].
Qed.

Lemma Match_Bypass f c co w wv p po x xv :
  Match f c co w wv p po -> o_inputs po = [x] -> o_outputs po = [w] ->
  var f x = Some xv -> hidden_single wv = true ->
  Bypass f idx c p w x co po wv xv.
Proof.
  intros Hm Hi Ho Hx Hg. pose proof (Match_ne _ _ _ _ _ _ _ Hm).
  destruct Hm. apply hidden_single_spec in Hg as [? ?]. by split.
Qed.

(** ** One step *)
Section Step.
Context (f f1 : Flow.t) (c0 p0 : OpPtr) (w0 x0 : VarPtr)
        (co0 po0 : Operation) (wv0 xv0 : Var).
Hypothesis Hwf : WF f.
Hypothesis Har : Arity f.
Hypothesis Hm0 : Match f c0 co0 w0 wv0 p0 po0.
Hypothesis Hin0 : o_inputs po0 = [x0].
Hypothesis Hout0 : o_outputs po0 = [w0].
Hypothesis Hx0 : var f x0 = Some xv0.
Hypothesis Hg0 : hidden_single wv0 = true.
Hypothesis Hst : Stepped f f1 c0 p0 w0 x0 co0 xv0.

Lemma step_bypass : Bypass f idx c0 p0 w0 x0 co0 po0 wv0 xv0.
Proof. by apply Match_Bypass. Qed.

Lemma step_arity : Arity f1.
Proof.
  intros o oo. rewrite (st_op _ _ _ _ _ _ _ _ Hst).
  destruct (decide (o = p0)); [done|]. destruct (decide (o = c0)).
  - intros [= <-]. simpl. by intros <-.
  - apply Har.
Qed.

Lemma step_var v vv :
  v <> w0 -> var f v = Some vv -> exists vv1, var f1 v = Some vv1 /\ same_edges vv vv1.
Proof.
  intros Hv Hvv. rewrite (st_var _ _ _ _ _ _ _ _ Hst).
  rewrite decide_False by done. destruct (decide (v = x0)) as [->|].
  - eexists. split; [done|]. assert (vv = xv0) as -> by congruence.
    assert (p0 ∈ v_consumers xv0) as Hp.
    { pose proof Hm0 as [].
      apply count_pos. rewrite (wf_edges f Hwf p0 po0 x0 xv0) by done.
      rewrite Hin0, count_cons, count_nil.
      rewrite bool_decide_eq_true_2 by done. lia. }
    split; [done|]. cbn [v_consumers set_v_consumers].
    pose proof (length_remove_first p0 (v_consumers xv0) Hp) as Hlen.
    rewrite length_app. unfold OpPtr in *. simpl. lia.
  - exists vv. split; [done|apply same_edges_refl].
Qed.

Lemma step_gone v : var f v = None -> var f1 v = None.
Proof.
  intros Hv. rewrite (st_var _ _ _ _ _ _ _ _ Hst).
  destruct (decide (v = w0)); [done|]. destruct (decide (v = x0)); [congruence|done].
Qed.

Lemma step_match c co w wv p po :
  c <> c0 -> Match f c co w wv p po ->
  exists wv1, Match f1 c co w wv1 p po /\ same_edges wv wv1.
Proof.
  intros Hc Hm. pose proof (Match_consumer _ _ _ _ _ _ _ Hwf Hm) as Hcons.
  pose proof (bypass_consumers _ _ _ _ _ _ _ _ _ _ Hwf step_bypass) as Hcons0.
  pose proof Hm0 as []. pose proof Hm as [].
  assert (w <> w0) as Hw.
  { intros ->. assert (wv = wv0) as -> by congruence.
    rewrite Hcons0 in Hcons. by apply list_elem_of_singleton in Hcons. }
  assert (c <> p0) as Hcp by (intros ->; congruence).
  assert (p <> p0) as Hpp.
  { intros ->. assert (po = po0) as -> by congruence.
    rewrite Hout0 in m_out1. simpl in m_out1. congruence. }
  assert (p <> c0) as Hpc by (intros ->; congruence).
  destruct (step_var w wv Hw m_wv1) as (wv1 & Hwv1 & Hsame).
  exists wv1. split; [|done]. apply same_edges_producer in Hsame as Hprod.
  split; try done.
  - rewrite (st_op _ _ _ _ _ _ _ _ Hst). by rewrite !decide_False.
  - congruence.
  - rewrite (st_op _ _ _ _ _ _ _ _ Hst). by rewrite !decide_False.
Qed.

End Step.

(** ** The loop over the matches *)

(** The producer [p] of [w] is bypassed by the loop over [l]. *)
Definition Hit (f : Flow.t) (l : list OpPtr) (p : OpPtr) (w : VarPtr) : Prop :=
  exists c co wv po, c ∈ l /\ Match f c co w wv p po /\ hidden_single wv = true.

Record Loop (f f' : Flow.t) (l : list OpPtr) (acc acc' : Z) : Prop := mkLoop {
  lp_wf : WF f';
  lp_arity : Arity f';
  lp_frame : forall o, o ∉ l -> (forall w, ~ Hit f l o w) -> op f' o = op f o;
  lp_gone : forall v, var f v = None -> var f' v = None;
  lp_var : forall v vv, var f v = Some vv -> (forall p, ~ Hit f l p v) ->
    exists vv', var f' v = Some vv' /\ same_edges vv vv';
  lp_done : forall c co w wv p po x,
    c ∈ l -> Match f c co w wv p po -> o_inputs po = [x] -> hidden_single wv = true ->
    op f' c = Some (rewritten co x) /\ op f' p = None /\ var f' w = None;
  lp_kept : forall c co w wv p po,
    c ∈ l -> Match f c co w wv p po -> hidden_single wv = false ->
    op f' c = Some co /\ op f' p = Some po;
  lp_acc : acc <= acc' /\ (forall p w, Hit f l p w -> acc < acc');
  lp_heap : heap f' = heap f;
  lp_memory : memory_ f' = memory_ f;
}.

Lemma Hit_cons f c0 l p w :
  Hit f (c0 :: l) p w ->
  (exists co wv po, Match f c0 co w wv p po /\ hidden_single wv = true) \/ Hit f l p w.
Proof.
  intros (c & co & wv & po & Hc & Hm & Hg). apply elem_of_cons in Hc as [->|Hc].
  - left. by exists co, wv, po.
  - right. by exists c, co, wv, po.
Qed.

Lemma Hit_tail f c0 l p w : Hit f l p w -> Hit f (c0 :: l) p w.
Proof.
  intros (c & co & wv & po & Hc & Hm & Hg). exists c, co, wv, po.
  split; [by apply elem_of_cons; right|done].
Qed.

Lemma Hit_head f c0 l co w wv p po :
  Match f c0 co w wv p po -> hidden_single wv = true -> Hit f (c0 :: l) p w.
Proof. intros Hm Hg. exists c0, co, wv, po. split; [by apply elem_of_cons; left|done]. Qed.

Lemma step_hit f f1 c0 p0 w0 x0 co0 po0 wv0 xv0 l p w :
  WF f -> Match f c0 co0 w0 wv0 p0 po0 -> o_inputs po0 = [x0] -> o_outputs po0 = [w0] ->
  var f x0 = Some xv0 -> hidden_single wv0 = true -> Stepped f f1 c0 p0 w0 x0 co0 xv0 ->
  (forall c, c ∈ l -> Matched f c) -> c0 ∉ l ->
  Hit f1 l p w -> Hit f l p w.
Proof.
  intros Hwf Hm0 Hi0 Ho0 Hx0 Hg0 Hst Hl Hc0 (c & co & wv & po & Hc & Hm & Hg).
  destruct (Hl c Hc) as (co' & w' & wv' & p' & po' & Hm').
  assert (c <> c0) as Hne by (intros ->; done).
  destruct (step_match f f1 c0 p0 w0 x0 co0 po0 wv0 xv0 Hwf Hm0 Hi0 Ho0 Hx0 Hg0 Hst
              c co' w' wv' p' po' Hne Hm') as (wv1 & Hm1 & Hsame).
  destruct (Match_inj _ _ _ _ _ _ _ _ _ _ _ _ Hm1 Hm) as (-> & -> & -> & -> & ->).
  exists c, co', wv', po'. split; [done|split; [done|]].
  by rewrite <- (same_edges_hidden _ _ Hsame).
Qed.

Section Loops.
Variable body : OpPtr -> Z -> FlowM Z.
Hypothesis body_ok : StepOK body.

Lemma loop_nil f acc : WF f -> Arity f -> Loop f f [] acc acc.
Proof.
  intros Hwf Har. split; try done.
  - intros v vv Hv _. exists vv. split; [done|apply same_edges_refl].
  - intros ??????? Hc. by apply elem_of_nil in Hc.
  - intros ?????? Hc. by apply elem_of_nil in Hc.
  - split; [lia|]. intros p w (c & ? & ? & ? & Hc & _). by apply elem_of_nil in Hc.
Qed.

Lemma loop_skip f f' c0 l acc acc' co0 w0 wv0 p0 po0 :
  WF f -> NoDup (c0 :: l) -> (forall c, c ∈ l -> Matched f c) ->
  Match f c0 co0 w0 wv0 p0 po0 -> o_outputs po0 = [w0] -> hidden_single wv0 = false ->
  Loop f f' l acc acc' -> Loop f f' (c0 :: l) acc acc'.
Proof.
  intros Hwf Hnd Hl Hm0 Ho0 Hg0 [].
  apply NoDup_cons in Hnd as [Hc0 Hnd].
  assert (forall p w, Hit f (c0 :: l) p w -> Hit f l p w) as Hhit.
  { intros p w [(co & wv & po & Hm & Hg)|?]%Hit_cons; [|done].
    destruct (Match_inj _ _ _ _ _ _ _ _ _ _ _ _ Hm0 Hm) as (_ & _ & -> & _ & _).
    congruence. }
  split; try done.
  - intros o Ho Hno. apply lp_frame0.
    + intros ?. apply Ho. by apply elem_of_cons; right.
    + intros w Hw. apply (Hno w). by apply Hit_tail.
  - intros v vv Hv Hno. apply lp_var0; [done|].
    intros p Hp. apply (Hno p). by apply Hit_tail.
  - intros c co w wv p po x Hc Hm Hi Hg. apply elem_of_cons in Hc as [->|Hc].
    + destruct (Match_inj _ _ _ _ _ _ _ _ _ _ _ _ Hm0 Hm) as (_ & _ & -> & _ & _).
      congruence.
    + by eapply lp_done0.
  - intros c co w wv p po Hc Hm Hg. apply elem_of_cons in Hc as [->|Hc].
    + destruct (Match_inj _ _ _ _ _ _ _ _ _ _ _ _ Hm0 Hm) as (-> & -> & -> & -> & ->).
      pose proof Hm0 as []. split.
      * rewrite lp_frame0; [done|done|].
        intros w (c & co & wv & po & _ & [] & _). congruence.
      * rewrite lp_frame0; [done| |].
        -- intros Hp. destruct (Hl p0 Hp) as (? & ? & ? & ? & ? & []). congruence.
        -- intros w (c & co & wv & po & _ & Hm' & Hg').
           pose proof Hm' as []. assert (po = po0) as -> by congruence.
           rewrite Ho0 in m_out1. simpl in m_out1. simplify_eq. congruence.
    + by eapply lp_kept0.
  - destruct lp_acc0 as [? Hlt]. split; [done|]. intros p w Hp. eapply Hlt. by apply Hhit.
Qed.

Lemma loop_step f f1 f' c0 l acc acc' co0 w0 wv0 p0 po0 x0 xv0 :
  WF f -> NoDup (c0 :: l) -> (forall c, c ∈ l -> Matched f c) ->
  Match f c0 co0 w0 wv0 p0 po0 -> o_inputs po0 = [x0] -> o_outputs po0 = [w0] ->
  var f x0 = Some xv0 -> hidden_single wv0 = true ->
  Stepped f f1 c0 p0 w0 x0 co0 xv0 ->
  Loop f1 f' l (acc + 1) acc' -> Loop f f' (c0 :: l) acc acc'.
Proof.
  intros Hwf Hnd Hl Hm0 Hi0 Ho0 Hx0 Hg0 Hst [].
  apply NoDup_cons in Hnd as [Hc0 Hnd].
  pose proof (fun p w => step_hit f f1 c0 p0 w0 x0 co0 po0 wv0 xv0 l p w
                            Hwf Hm0 Hi0 Ho0 Hx0 Hg0 Hst Hl Hc0) as Hhit.
  pose proof (step_match f f1 c0 p0 w0 x0 co0 po0 wv0 xv0 Hwf Hm0 Hi0 Ho0 Hx0 Hg0 Hst)
    as Hmatch.
  assert (forall c, c ∈ l -> c <> c0) as Hne by (intros c Hc ->; done).
  split; try done.
  - intros o Ho Hno. apply not_elem_of_cons in Ho as [Ho1 Ho2].
    rewrite lp_frame0; [|done|].
    + rewrite (st_op _ _ _ _ _ _ _ _ Hst). rewrite decide_False; [by rewrite decide_False|].
      intros ->. apply (Hno w0). by eapply Hit_head.
    + intros w Hw. apply (Hno w). apply Hit_tail. by eapply Hhit.
  - intros v Hv. apply lp_gone0.
    by eapply (step_gone f f1 c0 p0 w0 x0 co0 xv0).
  - intros v vv Hv Hno.
    assert (v <> w0) as Hvw.
    { intros ->. apply (Hno p0). by eapply Hit_head. }
    destruct (step_var f f1 c0 p0 w0 x0 co0 po0 wv0 xv0 Hwf Hm0 Hi0 Hx0 Hst v vv Hvw Hv)
      as (vv1 & Hv1 & Hs1).
    destruct (lp_var0 v vv1 Hv1) as (vv' & Hv' & Hs').
    { intros p Hp. apply (Hno p). apply Hit_tail. by eapply Hhit. }
    exists vv'. split; [done|]. by eapply same_edges_trans.
  - intros c co w wv p po x Hc Hm Hi Hg. apply elem_of_cons in Hc as [->|Hc].
    + destruct (Match_inj _ _ _ _ _ _ _ _ _ _ _ _ Hm0 Hm) as (-> & -> & -> & -> & ->).
      assert (x = x0) as -> by congruence.
      pose proof (st_op _ _ _ _ _ _ _ _ Hst) as Hop.
      pose proof (Match_ne _ _ _ _ _ _ _ Hm0) as Hcp.
      split; [|split].
      * rewrite lp_frame0; [|done|].
        -- rewrite Hop. rewrite decide_False by done. by rewrite decide_True.
        -- intros w (c & co & wv & po & _ & [] & _). rewrite Hop in m_po0.
           rewrite decide_False in m_po0 by done. rewrite decide_True in m_po0 by done.
           simplify_eq.
      * rewrite lp_frame0; [|..].
        -- rewrite Hop. by rewrite decide_True.
        -- intros Hp. destruct (Hl p0 Hp) as (? & ? & ? & ? & ? & []).
           pose proof Hm0 as []. congruence.
        -- intros w (c & co & wv & po & _ & [] & _). rewrite Hop in m_po0.
           by rewrite decide_True in m_po0.
      * apply lp_gone0. rewrite (st_var _ _ _ _ _ _ _ _ Hst). by rewrite decide_True.
    + destruct (Hmatch c co w wv p po (Hne c Hc) Hm) as (wv1 & Hm1 & Hs).
      eapply lp_done0; [done|done|done|]. by rewrite (same_edges_hidden _ _ Hs).
  - intros c co w wv p po Hc Hm Hg. apply elem_of_cons in Hc as [->|Hc].
    + destruct (Match_inj _ _ _ _ _ _ _ _ _ _ _ _ Hm0 Hm) as (_ & _ & -> & _ & _).
      congruence.
    + destruct (Hmatch c co w wv p po (Hne c Hc) Hm) as (wv1 & Hm1 & Hs).
      eapply lp_kept0; [done|done|]. by rewrite (same_edges_hidden _ _ Hs).
  - destruct lp_acc0 as [? Hlt]. split; [lia|]. intros; lia.
  - rewrite lp_heap0. apply Hst.
  - rewrite lp_memory0. apply Hst.
Qed.

Lemma loop_ok l : forall f acc,
  WF f -> Arity f -> NoDup l -> (forall c, c ∈ l -> Matched f c) ->
  exists acc' f', for_each l body acc f = Some (acc', f') /\ Loop f f' l acc acc'.
Proof.
  induction l as [|c0 l IH]; intros f acc Hwf Har Hnd Hl.
  - exists acc, f. split; [done|by apply loop_nil].
  - destruct (Hl c0) as (co0 & w0 & wv0 & p0 & po0 & Hm0); [by apply elem_of_cons; left|].
    destruct (Match_arity _ _ _ _ _ _ _ Hwf Har Hm0) as (x0 & xv0 & Hi0 & Ho0 & Hx0).
    pose proof (body_ok f c0 acc co0 w0 wv0 p0 po0 x0 xv0 Hwf Hm0 Hi0 Ho0 Hx0) as Hb.
    pose proof Hnd as [Hc0 Hnd']%NoDup_cons.
    assert (forall c, c ∈ l -> Matched f c) as Hl'.
    { intros c Hc. apply Hl. by apply elem_of_cons; right. }
    simpl. destruct (hidden_single wv0) eqn:Hg0.
    + destruct Hb as (f1 & Hb & Hst). rewrite (bind_Some _ _ _ _ _ Hb).
      destruct (IH f1 (acc + 1)) as (acc' & f' & Hrun & Hloop).
      * apply Hst.
      * by eapply (step_arity f f1 c0 p0 w0 x0 co0 xv0).
      * done.
      * intros c Hc. destruct (Hl' c Hc) as (co & w & wv & p & po & Hm).
        assert (c <> c0) as Hne by (intros ->; done).
        destruct (step_match f f1 c0 p0 w0 x0 co0 po0 wv0 xv0 Hwf Hm0 Hi0 Ho0 Hx0 Hg0 Hst
                    c co w wv p po Hne Hm) as (wv1 & Hm1 & _).
        by exists co, w, wv1, p, po.
      * exists acc', f'. split; [done|]. by eapply loop_step.
    + rewrite (bind_Some _ _ _ _ _ Hb).
      destruct (IH f acc Hwf Har Hnd' Hl') as (acc' & f' & Hrun & Hloop).
      exists acc', f'. split; [done|]. by eapply loop_skip.
Qed.

End Loops.

End Pattern.

(** ** The bodies of the loops of the transformers *)

Definition swapped (l : list VarPtr) : list VarPtr := default l (swap01 l).

Lemma stepped_plain idx tN f c p w x co po wv xv :
  WF f -> Bypass f idx c p w x co po wv xv ->
  Stepped idx tN (fun l => l) f
    (update_op c (set_o_type tN) (bypassed f p w x wv)) c p w x co xv.
Proof.
  intros Hwf Hby. split.
  - apply WF_set_type. by eapply bypassed_WF.
  - intros o. destruct (decide (o = c)) as [->|Hoc].
    + rewrite op_update_op_eq, (bypassed_op f idx c p w x co po wv xv Hwf Hby).
      destruct (decide (c = p)) as [->|?]; [by rewrite decide_True|].
      rewrite decide_False by done. by rewrite decide_True.
    + rewrite op_update_op_ne by done.
      rewrite (bypassed_op f idx c p w x co po wv xv Hwf Hby).
      destruct (decide (o = p)) as [->|?]; [by rewrite decide_True|].
      rewrite decide_False by done. by rewrite decide_False.
  - intros v. rewrite var_update_op.
    rewrite (bypassed_var f idx c p w x co po wv xv Hwf Hby).
    destruct (decide (v = w)) as [->|?]; [by rewrite decide_True|].
    by rewrite decide_False.
  - done.
  - done.
Qed.

Lemma swap01_insert x l w :
  l !! 1%nat = Some w -> swap01 (<[1%nat := x]> l) = Some (swapped (<[1%nat := x]> l)).
Proof. by destruct l as [|a [|b l]]. Qed.

Lemma stepped_swap tN f c p w x co po wv xv :
  WF f -> Bypass f 1 c p w x co po wv xv ->
  Stepped 1 tN swapped f
    (update_op c (set_o_inputs (swapped (<[1%nat := x]> (o_inputs co))))
       (update_op c (set_o_type tN) (bypassed f p w x wv))) c p w x co xv.
Proof.
  intros Hwf Hby.
  pose proof (stepped_plain 1 tN f c p w x co po wv xv Hwf Hby)
    as [Hwf1 Hop1 Hvar1 Hheap1 Hmem1].
  pose proof Hby as [].
  split.
  - eapply WF_swap_inputs; [done| |].
    + rewrite Hop1. rewrite decide_False by done. by rewrite decide_True.
    + simpl. by eapply swap01_insert.
  - intros o. destruct (decide (o = c)) as [->|Hoc].
    + rewrite op_update_op_eq, Hop1. destruct (decide (c = p)); [done|].
      by rewrite decide_True.
    + rewrite op_update_op_ne by done. rewrite Hop1.
      destruct (decide (o = p)); [done|]. by rewrite !decide_False.
  - intros v. rewrite var_update_op. apply Hvar1.
  - done.
  - done.
Qed.

Ltac match_prefix Hm :=
  pose proof Hm as [Hc Hty Hw Hwv Hp Hpo Hpty Hout];
  rewrite (bind_get_op _ _ _ _ Hc), Hw, bind_lift, (bind_get_var _ _ _ _ Hwv), Hp,
    bind_lift, (bind_get_op _ _ _ _ Hpo), Hout, bind_lift, (bind_get_var _ _ _ _ Hwv).

Lemma AddNegToSub_body_ok : StepOK 1 "Neg" "Add" "Sub" (fun l => l) AddNegToSub_body.
Proof.
  intros f c acc co w wv p po x xv Hwf Hm Hi Ho Hx. unfold AddNegToSub_body.
  match_prefix Hm. fold (hidden_single wv). destruct (hidden_single wv) eqn:Hg; [|done].
  assert (Bypass f 1 c p w x co po wv xv) as Hby
    by (by eapply (Match_Bypass 1 "Neg" "Add")).
  rewrite (bind_call _ _ _ _ (Eliminate_bypassed f 1 c p w x co po wv xv Hby)).
  rewrite bind_modify. eexists. split; [done|]. by eapply stepped_plain.
Qed.

Lemma LogicTransformer_and0_ok :
  StepOK 0 "Not" "And" "AndNot" (fun l => l) LogicTransformer_and0.
Proof.
  intros f c acc co w wv p po x xv Hwf Hm Hi Ho Hx. unfold LogicTransformer_and0.
  match_prefix Hm. fold (hidden_single wv). destruct (hidden_single wv) eqn:Hg; [|done].
  assert (Bypass f 0 c p w x co po wv xv) as Hby
    by (by eapply (Match_Bypass 0 "Not" "And")).
  rewrite (bind_call _ _ _ _ (Eliminate_bypassed f 0 c p w x co po wv xv Hby)).
  rewrite bind_modify. eexists. split; [done|]. by eapply stepped_plain.
Qed.

Lemma LogicTransformer_and1_ok :
  StepOK 1 "Not" "And" "AndNot" swapped LogicTransformer_and1.
Proof.
  intros f c acc co w wv p po x xv Hwf Hm Hi Ho Hx. unfold LogicTransformer_and1.
  match_prefix Hm. fold (hidden_single wv). destruct (hidden_single wv) eqn:Hg; [|done].
  assert (Bypass f 1 c p w x co po wv xv) as Hby
    by (by eapply (Match_Bypass 1 "Not" "And")).
  rewrite (bind_call _ _ _ _ (Eliminate_bypassed f 1 c p w x co po wv xv Hby)).
  rewrite bind_modify.
  pose proof (stepped_plain 1 "AndNot" f c p w x co po wv xv Hwf Hby) as [_ Hop1 _ _ _].
  specialize (Hop1 c). rewrite decide_False in Hop1 by by apply Match_ne in Hm.
  rewrite decide_True in Hop1 by done.
  rewrite (bind_get_op _ _ _ _ Hop1). simpl.
  rewrite (swap01_insert x (o_inputs co) w Hw), bind_lift, bind_modify.
  eexists. split; [done|]. by eapply stepped_swap.
Qed.

Lemma DivTransformer_rsqrt_ok :
  StepOK 0 "Sqrt" "Reciprocal" "Rsqrt" (fun l => l) DivTransformer_rsqrt.
Proof.
  intros f c acc co w wv p po x xv Hwf Hm Hi Ho Hx. unfold DivTransformer_rsqrt.
  match_prefix Hm.
  assert ((usages wv >? 1) = negb (usages wv =? 1)) as Hu.
  { pose proof (Match_consumer _ _ _ _ _ _ _ _ _ _ Hwf Hm) as Hin. unfold usages.
    destruct (v_consumers wv); [by apply elem_of_nil in Hin|]. simpl length.
    destruct (Z.gtb_spec (Z.of_nat (S (length l))) 1), (Z.eqb_spec (Z.of_nat (S (length l))) 1);
      simpl; lia. }
  rewrite Hu. unfold hidden_single.
  destruct (usages wv =? 1) eqn:Hu1; simpl; [|done].
  destruct (out wv) eqn:Hout1; simpl; [done|].
  assert (hidden_single wv = true) as Hg by (unfold hidden_single; by rewrite Hu1, Hout1).
  assert (Bypass f 0 c p w x co po wv xv) as Hby
    by (by eapply (Match_Bypass 0 "Sqrt" "Reciprocal")).
  rewrite (bind_call _ _ _ _ (Eliminate_bypassed f 0 c p w x co po wv xv Hby)).
  rewrite bind_modify. eexists. split; [done|]. by eapply stepped_plain.
Qed.


(** ** The matches found by [Find] *)

Lemma matches_Matched idx tP tC f c :
  matches f [mkNode 0 tP 0; mkNode idx tC 0] c = true <-> Matched idx tP tC f c.
Proof.
  unfold matches. simpl. split.
  - destruct (op f c) as [co|] eqn:Hc; [|done].
    rewrite andb_true_iff, bool_decide_eq_true. intros [Hty Hb].
    destruct (o_inputs co !! idx) as [w|] eqn:Hw; [|done].
    destruct (var f w) as [wv|] eqn:Hwv; [|done]. simpl in Hb.
    destruct (v_producer wv) as [p|] eqn:Hp; [|done].
    destruct (op f p) as [po|] eqn:Hpo; [|done].
    rewrite !andb_true_iff, !bool_decide_eq_true in Hb. destruct Hb as [[Hpty Hout] _].
    by exists co, w, wv, p, po.
  - intros (co & w & wv & p & po & []).
    rewrite m_c0, m_w0, m_wv0. simpl. rewrite m_p0, m_po0.
    by rewrite !bool_decide_eq_true_2.
Qed.

Lemma Find_Matched pathexpr idx tP tC f c :
  ParsePath pathexpr = [mkNode 0 tP 0; mkNode idx tC 0] ->
  c ∈ Find f pathexpr <-> c ∈ ops_ f /\ Matched idx tP tC f c.
Proof.
  intros Hpath. unfold Find. rewrite list_elem_of_filter, Hpath, matches_Matched. tauto.
Qed.

Lemma Find_NoDup f pathexpr : WF f -> NoDup (Find f pathexpr).
Proof. intros Hwf. apply NoDup_filter, Hwf. Qed.

(** Every operation of type [ty] has one input and one output. *)
Definition unary (ty : string) (f : Flow.t) : bool :=
  forallb (fun e => negb (bool_decide (o_type (snd e) = ty))
                    || (bool_decide (length (o_inputs (snd e)) = 1%nat)
                        && bool_decide (length (o_outputs (snd e)) = 1%nat)))
          (map_to_list (op_at f)).

Lemma unary_Arity ty f : unary ty f = true -> Arity ty f.
Proof.
  unfold unary. rewrite forallb_forall. intros Hall o oo Ho Hty.
  specialize (Hall (o, oo)). simpl in Hall.
  rewrite bool_decide_eq_true_2 in Hall by done. simpl in Hall.
  assert (In (o, oo) (map_to_list (op_at f))) as Hin.
  { apply list_elem_of_In. by apply elem_of_map_to_list. }
  apply Hall in Hin. rewrite andb_true_iff, !bool_decide_eq_true in Hin.
  destruct Hin as [Hi Ho'].
  destruct (o_inputs oo) as [|x [|??]]; try done.
  destruct (o_outputs oo) as [|w [|??]]; try done. by exists x, w.
Qed.

(** A loop over the operations found for a pattern. *)
Lemma find_loop_ok pathexpr idx tP tC tN perm body f acc :
  tP <> tC -> tP <> tN -> StepOK idx tP tC tN perm body ->
  ParsePath pathexpr = [mkNode 0 tP 0; mkNode idx tC 0] ->
  WF f -> Arity tP f ->
  exists acc' f',
    for_each (Find f pathexpr) body acc f = Some (acc', f')
    /\ Loop idx tP tC tN perm f f' (Find f pathexpr) acc acc'.
Proof.
  intros HPC HPN Hbody Hpath Hwf Har.
  apply (loop_ok idx tP tC tN perm HPC HPN body Hbody); [done|done|by apply Find_NoDup|].
  intros c Hc. by apply (Find_Matched pathexpr idx tP tC) in Hc as [_ ?].
Qed.

End PatternFacts.

(** ** AddNegToSubTransformer *)
Section AddNegToSub.
Import Flow Graph Transformers EliminateFacts PatternFacts.

(** The flow [s = Add(a, Neg(b))]: the variables are [a], [b], the output
    [w] of [Neg] and [s] (pointers 0 to 3), the operations [Neg] and [Add]
    (pointers 0 and 1); [visible] tells whether [w] is an output of the
    flow. *)
Definition add_neg_flow (visible : bool) : Flow.t :=
  let v o p c := mkVariable "" DT_FLOAT [8%Z] None 32%Z o p c in
  mkFlow [0; 1; 2; 3]%nat [0; 1]%nat
    (list_to_map
       [(0, v false None [1]); (1, v false None [0]);
        (2, v visible (Some 0) [1]); (3, v true (Some 1) [])]%nat)
    (list_to_map
       [(0, mkOperation "n" "Neg" [1] [2] [] []);
        (1, mkOperation "s" "Add" [0; 2] [3] [] [])]%nat)
    [] ∅.

(** C6, as stated, fails: in the flow [s = Add(a, Neg(b))] in which the
    output of [Neg] has the single consumer [Add] and is also an output of
    the flow, the transformer changes nothing. *)
Lemma AddNegToSub_keeps_visible_neg :
  well_formed (add_neg_flow true) = true
  /\ op (add_neg_flow true) 1%nat = Some (mkOperation "s" "Add" [0; 2]%nat [3%nat] [] [])
  /\ op (add_neg_flow true) 0%nat = Some (mkOperation "n" "Neg" [1%nat] [2%nat] [] [])
  /\ (v_producer <$> var (add_neg_flow true) 2%nat) = Some (Some 0%nat)
  /\ (usages <$> var (add_neg_flow true) 2%nat) = Some 1
  /\ AddNegToSubTransformer_Transform (add_neg_flow true)
     = Some (false, add_neg_flow true).
Proof. vm_compute. repeat split; reflexivity. Qed.

(** C6 (amended). In a well-formed flow whose [Neg] operations have one
    input and one output, for every [Add(a, Neg(b))] in which the output
    of [Neg] is input 1 of [Add], has a single consumer and is not an
    output of the flow, [AddNegToSubTransformer] returns true, removes
    [Neg] and its output, and changes [Add] into [Sub(a, b)]. *)
Theorem AddNegToSub_rewrites (f : Flow.t) (add neg : OpPtr) (a w b : VarPtr)
    (ao no : Operation) (wv : Var) :
  well_formed f = true -> unary "Neg" f = true ->
  op f add = Some ao -> o_type ao = "Add" -> o_inputs ao = [a; w] ->
  var f w = Some wv -> v_producer wv = Some neg ->
  op f neg = Some no -> o_type no = "Neg" -> o_inputs no = [b] -> o_outputs no = [w] ->
  usages wv = 1 -> out wv = false ->
  exists f', AddNegToSubTransformer_Transform f = Some (true, f')
    /\ op f' add = Some (set_o_inputs [a; b] (set_o_type "Sub" ao))
    /\ op f' neg = None /\ var f' w = None.
Proof.
  intros Hwf%well_formed_WF Har%unary_Arity Hadd Hty Hins Hw Hprod Hneg Hnty Hnin Hnout
    Hu Hout.
  assert (Match 1 "Neg" "Add" f add ao w wv neg no) as Hm.
  { split; try done; [by rewrite Hins|by rewrite Hnout]. }
  assert (hidden_single wv = true) as Hg.
  { unfold hidden_single. by rewrite Hu, Hout. }
  assert (add ∈ Find f "Neg|1:Add") as Hfound.
  { apply (Find_Matched _ 1 "Neg" "Add"); [done|]. split.
    - apply (wf_ops f Hwf). by eexists.
    - by exists ao, w, wv, neg, no. }
  destruct (find_loop_ok "Neg|1:Add" 1 "Neg" "Add" "Sub" (fun l => l) AddNegToSub_body f 0)
    as (acc' & f' & Hrun & Hloop); [done|done|apply AddNegToSub_body_ok|done|done|done|].
  destruct (lp_done _ _ _ _ _ _ _ _ _ _ Hloop add ao w wv neg no b Hfound Hm Hnin Hg)
    as (Hadd' & Hneg' & Hw').
  assert (0 < acc') as Hpos.
  { apply (proj2 (lp_acc _ _ _ _ _ _ _ _ _ _ Hloop) neg w).
    by exists add, ao, wv, no. }
  exists f'. split; [|split; [|done]].
  - unfold AddNegToSubTransformer_Transform.
    rewrite bind_gets, (bind_Some _ _ _ _ _ Hrun).
    unfold mret, StErr_ret. do 2 f_equal. by apply Z.gtb_lt.
  - rewrite Hadd'. unfold rewritten. by rewrite Hins.
Qed.

Lemma AddNegToSub_rewrites_witness :
  exists f', AddNegToSubTransformer_Transform (add_neg_flow false) = Some (true, f')
    /\ op f' 1%nat = Some (mkOperation "s" "Sub" [0; 1]%nat [3%nat] [] [])
    /\ op f' 0%nat = None /\ var f' 2%nat = None.
Proof.
  refine (AddNegToSub_rewrites (add_neg_flow false) 1%nat 0%nat 0%nat 2%nat 1%nat
            (mkOperation "s" "Add" [0; 2]%nat [3%nat] [] [])
            (mkOperation "n" "Neg" [1%nat] [2%nat] [] [])
            (mkVariable "" DT_FLOAT [8%Z] None 32%Z false (Some 0%nat) [1%nat])
            _ _ _ _ _ _ _ _ _ _ _ _ _); vm_compute; reflexivity.
Defined.

End AddNegToSub.

(** ** LogicTransformer: negated operands of a logical and *)
Section AndNot.
Import Flow Graph Transformers EliminateFacts PatternFacts.

(** The flow [z = And(Not(x), y)], or [z = And(y, Not(x))] when [first]
    is false: the variables are [x], [y], the output [w] of [Not] and [z]
    (pointers 0 to 3), the operations [Not] and [And] (pointers 0 and
    1). *)
Definition and_not_flow (first : bool) : Flow.t :=
  let v o p c := mkVariable "" DT_FLOAT [8%Z] None 32%Z o p c in
  mkFlow [0; 1; 2; 3]%nat [0; 1]%nat
    (list_to_map
       [(0, v false None [0]); (1, v false None [1]);
        (2, v false (Some 0) [1]); (3, v true (Some 1) [])]%nat)
    (list_to_map
       [(0, mkOperation "n" "Not" [0] [2] [] []);
        (1, mkOperation "z" "And" (if first then [2; 1] else [1; 2]) [3] [] [])]%nat)
    [] ∅.

(** The variable is output 0 of a [Not] operation, has a single consumer
    and is not an output of the flow: the first loop of the merging step
    removes this [Not] when the variable is input 0 of an [And]. *)
Definition negated (f : Flow.t) (v : VarPtr) : bool :=
  match var f v with
  | Some vv =>
      match v_producer vv with
      | Some p =>
          match op f p with
          | Some po =>
              bool_decide (o_type po = "Not")
              && bool_decide (o_outputs po !! 0%nat = Some v)
              && hidden_single vv
          | None => false
          end
      | None => false
      end
  | None => false
  end.

(** The single consumer of a matched variable. *)
Lemma Match_single idx tP tC f c co w wv p po :
  WF f -> Match idx tP tC f c co w wv p po -> hidden_single wv = true ->
  v_consumers wv = [c] /\ count w (o_inputs co) = 1%nat.
Proof.
  intros Hwf Hm [Hlen _]%hidden_single_spec.
  pose proof (Match_consumer _ _ _ _ _ _ _ _ _ _ Hwf Hm) as Hc.
  assert (v_consumers wv = [c]) as Hcs.
  { apply single_consumer; [done|]. by apply count_pos. }
  split; [done|]. destruct Hm.
  rewrite <- (wf_edges f Hwf c co w wv) by done. rewrite Hcs.
  rewrite count_cons, count_nil. by rewrite bool_decide_eq_true_2.
Qed.

(** C3, as stated, fails: for [And(Not(x), y)] and for [And(y, Not(x))],
    with [x] and [y] the variables 0 and 1, [LogicTransformer] makes
    [AndNot] with the operands [x], [y] in this order: the negated operand
    is the first one. *)
Lemma AndNot_negated_operand_first :
  (o_inputs <$> op (and_not_flow true) 1%nat) = Some [2; 1]%nat
  /\ (o_inputs <$> op (and_not_flow false) 1%nat) = Some [1; 2]%nat
  /\ op (and_not_flow true) 0%nat = Some (mkOperation "n" "Not" [0%nat] [2%nat] [] [])
  /\ op (and_not_flow false) 0%nat = Some (mkOperation "n" "Not" [0%nat] [2%nat] [] [])
  /\ (hidden_single <$> var (and_not_flow true) 2%nat) = Some true
  /\ (hidden_single <$> var (and_not_flow false) 2%nat) = Some true
  /\ ((LogicTransformer_Transform 1 (and_not_flow true)) ≫= fun r => op (snd r) 1%nat)
     = Some (mkOperation "z" "AndNot" [0; 1]%nat [3%nat] [] [])
  /\ ((LogicTransformer_Transform 1 (and_not_flow false)) ≫= fun r => op (snd r) 1%nat)
     = Some (mkOperation "z" "AndNot" [0; 1]%nat [3%nat] [] []).
Proof. vm_compute. repeat split; reflexivity. Qed.

(** The merging step (lines 803-822) on an [And] with a negated input. *)
Lemma merge_AndNot (f : Flow.t) (num_updates : Z) (logand logneg : OpPtr)
    (w x y : VarPtr) (ao no : Operation) (wv : Var) :
  WF f -> Arity "Not" f ->
  op f logand = Some ao -> o_type ao = "And" ->
  o_inputs ao = [w; y] \/ (o_inputs ao = [y; w] /\ negated f y = false) ->
  var f w = Some wv -> v_producer wv = Some logneg ->
  op f logneg = Some no -> o_type no = "Not" -> o_inputs no = [x] -> o_outputs no = [w] ->
  usages wv = 1 -> out wv = false ->
  exists num_updates' f', LogicTransformer_merge num_updates f = Some (num_updates', f')
    /\ num_updates < num_updates'
    /\ op f' logand = Some (set_o_inputs [x; y] (set_o_type "AndNot" ao))
    /\ op f' logneg = None.
Proof.
  intros Hwf Har Hand Hty Hins Hw Hprod Hneg Hnty Hnin Hnout Hu Hout.
  assert (hidden_single wv = true) as Hg.
  { unfold hidden_single. by rewrite Hu, Hout. }
  destruct (find_loop_ok "Not|0:And" 0 "Not" "And" "AndNot" (fun l => l)
              LogicTransformer_and0 f num_updates)
    as (u1 & f1 & Hrun1 & Hloop1);
    [done|done|apply LogicTransformer_and0_ok|done|done|done|].
  pose proof (lp_wf _ _ _ _ _ _ _ _ _ _ Hloop1) as Hwf1.
  pose proof (lp_arity _ _ _ _ _ _ _ _ _ _ Hloop1) as Har1.
  destruct (find_loop_ok "Not|1:And" 1 "Not" "And" "AndNot" swapped
              LogicTransformer_and1 f1 u1)
    as (u2 & f2 & Hrun2 & Hloop2);
    [done|done|apply LogicTransformer_and1_ok|done|done|done|].
  exists u2, f2. split.
  { unfold LogicTransformer_merge.
    by rewrite bind_gets, (bind_Some _ _ _ _ _ Hrun1), bind_gets. }
  destruct Hins as [Hins|[Hins Hy]].
  - (* the negation is input 0: the first loop merges it *)
    assert (Match 0 "Not" "And" f logand ao w wv logneg no) as Hm.
    { split; try done; [by rewrite Hins|by rewrite Hnout]. }
    assert (logand ∈ Find f "Not|0:And") as Hfound.
    { apply (Find_Matched _ 0 "Not" "And"); [done|]. split.
      - apply (wf_ops f Hwf). by eexists.
      - by exists ao, w, wv, logneg, no. }
    destruct (lp_done _ _ _ _ _ _ _ _ _ _ Hloop1 logand ao w wv logneg no x
                Hfound Hm Hnin Hg) as (Hand1 & Hneg1 & _).
    split.
    { pose proof (proj2 (lp_acc _ _ _ _ _ _ _ _ _ _ Hloop1) logneg w) as Hlt.
      pose proof (proj1 (lp_acc _ _ _ _ _ _ _ _ _ _ Hloop2)).
      assert (num_updates < u1); [|lia]. apply Hlt. by exists logand, ao, wv, no. }
    split.
    + rewrite (lp_frame _ _ _ _ _ _ _ _ _ _ Hloop2).
      * rewrite Hand1. unfold rewritten. by rewrite Hins.
      * intros [_ (? & ? & ? & ? & ? & [])]%(Find_Matched _ 1 "Not" "And"); [|done].
        rewrite Hand1 in m_c0. by simplify_eq.
      * intros w' (? & ? & ? & ? & _ & [] & _). rewrite Hand1 in m_po0. by simplify_eq.
    + rewrite (lp_frame _ _ _ _ _ _ _ _ _ _ Hloop2); [done| |].
      * intros [_ (? & ? & ? & ? & ? & [])]%(Find_Matched _ 1 "Not" "And"); [|done].
        congruence.
      * intros w' (? & ? & ? & ? & _ & [] & _). congruence.
  - (* the negation is input 1: the first loop keeps it, the second merges it *)
    assert (Match 1 "Not" "And" f logand ao w wv logneg no) as Hm.
    { split; try done; [by rewrite Hins|by rewrite Hnout]. }
    destruct (Match_single _ _ _ _ _ _ _ _ _ _ Hwf Hm Hg) as [Hcons Hone].
    assert (y <> w) as Hyw.
    { intros ->. rewrite Hins, !count_cons, count_nil in Hone.
      rewrite bool_decide_eq_true_2 in Hone by done. lia. }
    assert (forall c co wv' p po, Match 0 "Not" "And" f c co w wv' p po -> False) as Hnot0.
    { intros c co wv' p po Hm0.
      pose proof (Match_consumer _ _ _ _ _ _ _ _ _ _ Hwf Hm0) as Hc. destruct Hm0.
      assert (wv' = wv) as -> by congruence. rewrite Hcons in Hc.
      apply list_elem_of_singleton in Hc as ->.
      assert (co = ao) as -> by congruence. rewrite Hins in m_w0. simpl in m_w0.
      congruence. }
    assert (op f1 logand = Some ao) as Hand1.
    { destruct (decide (logand ∈ Find f "Not|0:And")) as [Hin|Hin].
      - pose proof Hin as [_ (co & w' & wv' & p & po & Hm0)]%(Find_Matched _ 0 "Not" "And");
          [|done].
        pose proof Hm0 as [].
        assert (co = ao) as -> by congruence.
        assert (w' = y) as -> by (rewrite Hins in m_w0; simpl in m_w0; congruence).
        assert (hidden_single wv' = false) as Hg'.
        { unfold negated in Hy. rewrite m_wv0, m_p0, m_po0 in Hy.
          by rewrite !bool_decide_eq_true_2 in Hy. }
        by destruct (lp_kept _ _ _ _ _ _ _ _ _ _ Hloop1 logand ao y wv' p po Hin Hm0 Hg').
      - rewrite (lp_frame _ _ _ _ _ _ _ _ _ _ Hloop1); [done|done|].
        intros w' (? & ? & ? & ? & _ & [] & _). congruence. }
    assert (op f1 logneg = Some no) as Hneg1.
    { rewrite (lp_frame _ _ _ _ _ _ _ _ _ _ Hloop1); [done| |].
      - intros [_ (? & ? & ? & ? & ? & [])]%(Find_Matched _ 0 "Not" "And"); [|done].
        congruence.
      - intros w' (c & co & wv' & po & _ & Hm0 & _). pose proof Hm0 as [].
        assert (po = no) as -> by congruence. rewrite Hnout in m_out0. simpl in m_out0.
        simplify_eq. by eapply Hnot0. }
    destruct (lp_var _ _ _ _ _ _ _ _ _ _ Hloop1 w wv Hw) as (wv1 & Hw1 & Hsame).
    { intros p (c & co & wv' & po & _ & Hm0 & _). by eapply Hnot0. }
    assert (Match 1 "Not" "And" f1 logand ao w wv1 logneg no) as Hm1.
    { apply same_edges_producer in Hsame as Hp1.
      split; try done; [by rewrite Hins|congruence|by rewrite Hnout]. }
    assert (logand ∈ Find f1 "Not|1:And") as Hfound.
    { apply (Find_Matched _ 1 "Not" "And"); [done|]. split.
      - apply (wf_ops f1 Hwf1). by eexists.
      - by exists ao, w, wv1, logneg, no. }
    assert (hidden_single wv1 = true) as Hg1 by by rewrite (same_edges_hidden _ _ Hsame).
    destruct (lp_done _ _ _ _ _ _ _ _ _ _ Hloop2 logand ao w wv1 logneg no x
                Hfound Hm1 Hnin Hg1) as (Hand2 & Hneg2 & _).
    split.
    { pose proof (proj2 (lp_acc _ _ _ _ _ _ _ _ _ _ Hloop2) logneg w) as Hlt.
      pose proof (proj1 (lp_acc _ _ _ _ _ _ _ _ _ _ Hloop1)).
      assert (u1 < u2); [|lia]. apply Hlt. by exists logand, ao, wv1, no. }
    split; [|done]. rewrite Hand2. unfold rewritten. by rewrite Hins.
Qed.

(** The loop that folds negations counts upwards. *)
Lemma negations_count fuel : forall u f r f',
  LogicTransformer_negations fuel u f = Some (r, f') -> u <= fst r.
Proof.
  induction fuel as [|n IH]; intros u f r f' H; simpl in H.
  - apply ret_inv in H. injection H as -> _. simpl. lia.
  - rewrite bind_gets in H. inv_bind H again f1 H1. destruct again.
    + apply IH in H. lia.
    + apply ret_inv in H. injection H as -> _. simpl. lia.
Qed.

(** C3 (amended). When the loop of [LogicTransformer] that folds
    negations has ended and left a well-formed flow whose [Not] operations
    have one input and one output, for every [And] of this flow with two
    inputs of which one is the output of a [Not(x)], with a single
    consumer and not an output of the flow, and the other is [y],
    [LogicTransformer] returns true, removes the [Not] and changes the
    [And] into [AndNot] with the operands [x], [y] in this order, the
    negated operand first: the inputs are swapped when the [Not] was
    input 1.  When the [Not] is input 1, [y] must not itself be the output
    of a [Not] that is merged as input 0. *)
Theorem LogicTransformer_AndNot (fuel : nat) (f f1 : Flow.t) (num_updates : Z)
    (logand logneg : OpPtr) (w x y : VarPtr) (ao no : Operation) (wv : Var) :
  LogicTransformer_negations fuel 0 f = Some ((num_updates, true), f1) ->
  well_formed f1 = true -> unary "Not" f1 = true ->
  op f1 logand = Some ao -> o_type ao = "And" ->
  o_inputs ao = [w; y] \/ (o_inputs ao = [y; w] /\ negated f1 y = false) ->
  var f1 w = Some wv -> v_producer wv = Some logneg ->
  op f1 logneg = Some no -> o_type no = "Not" -> o_inputs no = [x] -> o_outputs no = [w] ->
  usages wv = 1 -> out wv = false ->
  exists f', LogicTransformer_Transform fuel f = Some (true, f')
    /\ op f' logand = Some (set_o_inputs [x; y] (set_o_type "AndNot" ao))
    /\ op f' logneg = None.
Proof.
  intros Hfold Hwf%well_formed_WF Har%unary_Arity Hand Hty Hins Hw Hprod Hneg Hnty Hnin
    Hnout Hu Hout.
  destruct (merge_AndNot f1 num_updates logand logneg w x y ao no wv)
    as (u' & f' & Hmerge & Hlt & Hres); [done..|].
  apply negations_count in Hfold as Hpos. simpl in Hpos.
  exists f'. split; [|done]. unfold LogicTransformer_Transform.
  rewrite (bind_Some _ _ _ _ _ Hfold). cbn [fst snd].
  rewrite bind_check, (bind_Some _ _ _ _ _ Hmerge).
  unfold mret, StErr_ret. do 2 f_equal. apply Z.gtb_lt. lia.
Qed.

Lemma LogicTransformer_AndNot_witness :
  exists f', LogicTransformer_Transform 1 (and_not_flow false) = Some (true, f')
    /\ op f' 1%nat = Some (mkOperation "z" "AndNot" [0; 1]%nat [3%nat] [] [])
    /\ op f' 0%nat = None.
Proof.
  refine (LogicTransformer_AndNot 1 (and_not_flow false) (and_not_flow false) 0
            1%nat 0%nat 2%nat 0%nat 1%nat
            (mkOperation "z" "And" [1; 2]%nat [3%nat] [] [])
            (mkOperation "n" "Not" [0%nat] [2%nat] [] [])
            (mkVariable "" DT_FLOAT [8%Z] None 32%Z false (Some 0%nat) [1%nat])
            _ _ _ _ _ (or_intror (conj _ _)) _ _ _ _ _ _ _ _); vm_compute; reflexivity.
Defined.

End AndNot.

(** ** The loop of [DivTransformer] over the operations *)
Module DivFacts.
Import Flow Graph Transformers EliminateFacts PatternFacts.

Lemma get_var_inv v f r f' : get_var v f = Some (r, f') -> var f v = Some r /\ f' = f.
Proof.
  unfold get_var. destruct (var f v); simpl; [|done]. by intros [= <- <-].
Qed.

Lemma get_block_inv a f r f' :
  get_block a f = Some (r, f') -> heap f !! a = Some r /\ f' = f.
Proof.
  unfold get_block. destruct (heap f !! a); simpl; [|done]. by intros [= <- <-].
Qed.

Lemma set_v_consumers_id vv : set_v_consumers (v_consumers vv) vv = vv.
Proof. by destruct vv. Qed.

(** Well-formedness depends on the edges only. *)
Lemma WF_ext f g :
  ops_ g = ops_ f ->
  (forall o, o_inputs <$> op g o = o_inputs <$> op f o) ->
  (forall v, v_consumers <$> var g v = v_consumers <$> var f v) ->
  WF f -> WF g.
Proof.
  intros Hops Hop Hvar Hwf.
  assert (forall o oo, op g o = Some oo ->
            exists oo', op f o = Some oo' /\ o_inputs oo' = o_inputs oo) as Hop'.
  { intros o oo Ho. specialize (Hop o). rewrite Ho in Hop.
    destruct (op f o) as [oo'|]; [|done]. exists oo'. by simplify_eq/=. }
  assert (forall v vv, var g v = Some vv ->
            exists vv', var f v = Some vv' /\ v_consumers vv' = v_consumers vv) as Hvar'.
  { intros v vv Hv. specialize (Hvar v). rewrite Hv in Hvar.
    destruct (var f v) as [vv'|]; [|done]. exists vv'. by simplify_eq/=. }
  split.
  - rewrite Hops. apply Hwf.
  - intros o. rewrite Hops, (wf_ops f Hwf). rewrite <- !(fmap_is_Some o_inputs).
    by rewrite Hop.
  - intros o oo v Ho Hv. destruct (Hop' o oo Ho) as (oo' & Ho' & Hi).
    rewrite <- Hi in Hv. pose proof (wf_inputs f Hwf o oo' v Ho' Hv) as Hs.
    rewrite <- (fmap_is_Some v_consumers). rewrite Hvar. by rewrite fmap_is_Some.
  - intros o oo v vv Ho Hv. destruct (Hop' o oo Ho) as (oo' & Ho' & Hi).
    destruct (Hvar' v vv Hv) as (vv' & Hv' & Hc). rewrite <- Hi, <- Hc.
    by apply (wf_edges f Hwf).
Qed.

Lemma elem_of_remove_first x y l : x ∈ remove_first y l -> x ∈ l.
Proof.
  rewrite !count_pos, count_remove_first. case_bool_decide; lia.
Qed.

Lemma remove_first_absent x l : x ∉ l -> remove_first x l = l.
Proof.
  induction l as [|y l IH]; simpl; [done|]. intros [? ?]%not_elem_of_cons.
  rewrite bool_decide_eq_false_2 by done. f_equal. by apply IH.
Qed.

Lemma op_RemoveInput o v f o' :
  op (RemoveInput o v f) o'
  = if decide (o' = o)
    then (fun x => set_o_inputs (remove_first v (o_inputs x)) x) <$> op f o
    else op f o'.
Proof.
  unfold RemoveInput. change (op (update_var ?a ?b ?c) o') with (op c o').
  destruct (decide (o' = o)) as [->|?].
  - by rewrite op_update_op_eq.
  - by rewrite op_update_op_ne.
Qed.

Lemma var_RemoveInput o v f v' :
  var (RemoveInput o v f) v'
  = if decide (v' = v)
    then (fun x => set_v_consumers (remove_first o (v_consumers x)) x) <$> var f v
    else var f v'.
Proof.
  unfold RemoveInput, var, update_var. simpl.
  destruct (decide (v' = v)) as [->|?].
  - by rewrite lookup_alter_eq.
  - by rewrite lookup_alter_ne.
Qed.

Lemma WF_RemoveInput f o v oo :
  WF f -> op f o = Some oo -> v ∈ o_inputs oo -> WF (RemoveInput o v f).
Proof.
  intros Hwf Ho Hv. destruct (wf_inputs f Hwf o oo v Ho Hv) as [vv Hvv]. split.
  - apply Hwf.
  - intros o'. rewrite op_RemoveInput. change (ops_ (RemoveInput o v f)) with (ops_ f).
    rewrite (wf_ops f Hwf). destruct (decide (o' = o)) as [->|?]; [|done].
    by rewrite fmap_is_Some.
  - intros o' oo' v'. rewrite op_RemoveInput, var_RemoveInput.
    assert (is_Some (var f v') ->
            is_Some (if decide (v' = v)
                     then (fun x => set_v_consumers (remove_first o (v_consumers x)) x)
                            <$> var f v
                     else var f v')) as Hs.
    { destruct (decide (v' = v)) as [->|?]; [|done]. by rewrite fmap_is_Some. }
    destruct (decide (o' = o)) as [->|?].
    + rewrite Ho. simpl. intros [= <-]. simpl. intros Hin%elem_of_remove_first.
      apply Hs. by apply (wf_inputs f Hwf o oo).
    + intros Ho' Hin. apply Hs. by apply (wf_inputs f Hwf o' oo').
  - intros o' oo' v' vv'. rewrite op_RemoveInput, var_RemoveInput.
    destruct (decide (o' = o)) as [->|Hne]; destruct (decide (v' = v)) as [->|Hnv].
    + rewrite Ho, Hvv. simpl. intros [= <-] [= <-]. simpl.
      rewrite !count_remove_first, !bool_decide_eq_true_2 by done.
      by rewrite (wf_edges f Hwf o oo v vv).
    + rewrite Ho. simpl. intros [= <-] Hv'. simpl.
      rewrite count_remove_first, bool_decide_eq_false_2 by done.
      by apply (wf_edges f Hwf).
    + rewrite Hvv. simpl. intros Ho' [= <-]. simpl.
      rewrite count_remove_first, bool_decide_eq_false_2 by done.
      by apply (wf_edges f Hwf).
    + apply (wf_edges f Hwf).
Qed.

Definition is_div (oo : Operation) : Prop := o_type oo = "Div" \/ o_type oo = "RealDiv".

(** What one iteration of the loop over [flow->ops()] may change. *)
Record DivStep (g g' : Flow.t) (o : OpPtr) : Prop := mkDivStep {
  ds_ops : ops_ g' = ops_ g;
  ds_op : forall o', o' <> o -> op g' o' = op g o';
  ds_op_o : op g' o = op g o \/
    exists oo oo', op g o = Some oo /\ is_div oo /\ op g' o = Some oo'
                   /\ (o_type oo' = "Mul" \/ o_type oo' = "Reciprocal");
  ds_var_data : forall v vv, var g v = Some vv -> v_data vv = None -> var g' v = Some vv;
  ds_var_cons : forall v vv,
    WF g -> var g v = Some vv -> o ∉ v_consumers vv -> var g' v = Some vv;
  ds_heap : forall a bs, heap g !! a = Some bs -> heap g' !! a = Some bs;
  ds_memory : forall a, a ∈ memory_ g -> a ∈ memory_ g';
  ds_wf : WF g -> WF g';
}.

Lemma DivStep_refl g o : DivStep g g o.
Proof. split; try done. by left. Qed.

Lemma div_step o u g u' g' :
  DivTransformer_div o u g = Some (u', g') -> u <= u' /\ DivStep g g' o.
Proof.
  unfold DivTransformer_div. intros H.
  inv_bind H oo g1 H1. apply get_op_inv in H1 as [Ho ->].
  destruct (bool_decide (o_type oo ≠ "Div") && bool_decide (o_type oo ≠ "RealDiv"))
    eqn:Hdiv.
  { apply ret_inv in H. injection H as -> ->. split; [lia|apply DivStep_refl]. }
  assert (is_div oo) as Hisdiv.
  { apply andb_false_iff in Hdiv as [Hd|Hd]; apply bool_decide_eq_false in Hd.
    - left. by destruct (decide (o_type oo = "Div")).
    - right. by destruct (decide (o_type oo = "RealDiv")). }
  destruct (negb (indegree oo =? 2)) eqn:Hdeg.
  { apply ret_inv in H. injection H as -> ->. split; [lia|apply DivStep_refl]. }
  inv_bind H in0 g1 H1. apply lift_inv in H1 as [Hfirst Hg1]. simpl in Hfirst, Hg1.
  subst g1.
  inv_bind H in1 g1 H1. apply lift_inv in H1 as [Hsecond Hg1]. simpl in Hsecond, Hg1.
  subst g1.
  inv_bind H fv g1 H1. apply get_var_inv in H1 as [Hfv ->].
  inv_bind H sv g1 H1. apply get_var_inv in H1 as [Hsv ->].
  destruct (bool_decide (v_type sv = DT_FLOAT) && (elements sv =? 1)
            && constant sv && (usages sv =? 1)) eqn:Hc1.
  - (* Div(x,c) to Mul(x,1/c) *)
    apply andb_true_iff in Hc1 as [[_ Hconst]%andb_true_iff _].
    unfold constant in Hconst. apply bool_decide_eq_true in Hconst.
    inv_bind H u0 g1 H1. apply check_inv in H1 as [_ Hg1]. simpl in Hg1. subst g1.
    inv_bind H u1 g1 H1. apply modify_inv in H1. injection H1 as _ ->.
    inv_bind H a g1 H1. apply lift_inv in H1 as [Ha Hg1]. simpl in Ha, Hg1. subst g1.
    inv_bind H bs g1 H1. apply get_block_inv in H1 as [Hbs ->].
    inv_bind H c g1 H1. apply lift_inv in H1 as [Hc Hg1]. simpl in Hc, Hg1. subst g1.
    inv_bind H buffer g1 H1. unfold allocate, AllocateMemory in H1.
    injection H1 as <- <-.
    inv_bind H blk g1 H1. apply get_block_inv in H1 as [Hblk ->].
    inv_bind H blk' g1 H1. apply lift_inv in H1 as [Hblk' Hg1]. simpl in Hblk', Hg1.
    subst g1.
    inv_bind H u2 g1 H1. apply modify_inv in H1. injection H1 as _ ->.
    inv_bind H u3 g1 H1. apply modify_inv in H1. injection H1 as _ ->.
    apply ret_inv in H. injection H as -> ->. split; [lia|].
    set (buffer := fresh (dom (heap (update_op o (set_o_type "Mul") g)))).
    assert (heap g !! buffer = None) as Hfresh.
    { apply not_elem_of_dom. apply (is_fresh (dom (heap g))). }
    assert (forall v, var (update_var in1 (set_v_data (Some buffer)) g) v
                      = if decide (v = in1) then set_v_data (Some buffer) <$> var g v
                        else var g v) as Hvar.
    { intros v. unfold var, update_var. simpl. destruct (decide (v = in1)) as [->|?].
      - by rewrite lookup_alter_eq.
      - by rewrite lookup_alter_ne. }
    split.
    + done.
    + intros o' Hne. apply (op_update_op_ne o o' (set_o_type "Mul") g). done.
    + right. exists oo, (set_o_type "Mul" oo). split; [done|split; [done|]].
      split; [|by left].
      change (op (update_op o (set_o_type "Mul") g) o = Some (set_o_type "Mul" oo)).
      by rewrite op_update_op_eq, Ho.
    + intros v vv Hv Hd.
      change (var (update_var in1 (set_v_data (Some buffer)) g) v = Some vv).
      rewrite Hvar. destruct (decide (v = in1)) as [->|?]; [|done]. congruence.
    + intros v vv Hwf Hv Hcons.
      change (var (update_var in1 (set_v_data (Some buffer)) g) v = Some vv).
      rewrite Hvar. destruct (decide (v = in1)) as [->|?]; [|done].
      destruct Hcons. apply count_pos.
      rewrite (wf_edges g Hwf o oo in1 vv) by done. apply count_pos.
      by eapply list_elem_of_lookup_2.
    + intros a' bs' Ha'. cbn [heap set_heap update_var set_var_at]. fold buffer.
      assert (a' <> buffer) by (intros ->; congruence).
      rewrite lookup_insert_ne by done. by rewrite lookup_insert_ne.
    + intros a' Ha'. cbn [memory_ set_heap update_var set_var_at].
      apply elem_of_app. by left.
    + intros Hwf. eapply WF_ext; [| | |exact Hwf]; [done| |].
      * intros o'. change (o_inputs <$> op (update_op o (set_o_type "Mul") g) o'
                           = o_inputs <$> op g o').
        destruct (decide (o = o')) as [->|?].
        -- rewrite op_update_op_eq. by destruct (op g o').
        -- by rewrite op_update_op_ne.
      * intros v.
        change (v_consumers <$> var (update_var in1 (set_v_data (Some buffer)) g) v
                = v_consumers <$> var g v).
        rewrite Hvar. destruct (decide (v = in1)); [|done]. by destruct (var g v).
  - destruct (bool_decide (v_type fv = DT_FLOAT) && (elements fv =? 1) && constant fv)
      eqn:Hc2.
    2: { apply ret_inv in H. injection H as -> ->. split; [lia|apply DivStep_refl]. }
    apply andb_true_iff in Hc2 as [_ Hconst].
    unfold constant in Hconst. apply bool_decide_eq_true in Hconst.
    inv_bind H val g1 H1. apply gets_inv in H1. injection H1 as -> ->.
    destruct (GetData_float g fv) as [x|].
    2: { apply ret_inv in H. injection H as -> ->. split; [lia|apply DivStep_refl]. }
    destruct (Float.deq (Float.to_double x) Float.d_one).
    2: { apply ret_inv in H. injection H as -> ->. split; [lia|apply DivStep_refl]. }
    (* Div(1,x) to Reciprocal(x) *)
    inv_bind H u1 g1 H1. apply modify_inv in H1. injection H1 as _ ->.
    inv_bind H u2 g1 H1. apply modify_inv in H1. injection H1 as _ ->.
    apply ret_inv in H. injection H as -> ->. split; [lia|].
    assert (op (update_op o (set_o_type "Reciprocal") g) o
            = Some (set_o_type "Reciprocal" oo)) as Ho1.
    { by rewrite op_update_op_eq, Ho. }
    split.
    + done.
    + intros o' Hne. rewrite op_RemoveInput. rewrite decide_False by done.
      by rewrite op_update_op_ne.
    + right. eexists oo, _. split; [done|split; [done|]].
      rewrite op_RemoveInput, decide_True, Ho1 by done. split; [done|by right].
    + intros v vv Hv Hd. rewrite var_RemoveInput.
      destruct (decide (v = in0)) as [->|?]; [|done].
      change (var (update_op o (set_o_type "Reciprocal") g) in0) with (var g in0).
      congruence.
    + intros v vv _ Hv Hcons. rewrite var_RemoveInput.
      destruct (decide (v = in0)) as [->|?]; [|done].
      change (var (update_op o (set_o_type "Reciprocal") g) in0) with (var g in0).
      rewrite Hv. simpl. rewrite remove_first_absent by done.
      by rewrite set_v_consumers_id.
    + done.
    + done.
    + intros Hwf. eapply WF_RemoveInput; [by apply WF_set_type|done|].
      simpl. by eapply list_elem_of_lookup_2.
Qed.


(** What the loop over a list of operations may change. *)
Record DivLoop (g g' : Flow.t) (l : list OpPtr) : Prop := mkDivLoop {
  dl_op : forall o', o' ∉ l -> op g' o' = op g o';
  dl_keep : forall o' oo, op g o' = Some oo -> ~ is_div oo -> op g' o' = Some oo;
  dl_back : forall o' oo', op g' o' = Some oo' ->
    o_type oo' <> "Mul" -> o_type oo' <> "Reciprocal" -> op g o' = Some oo';
  dl_var_data : forall v vv, var g v = Some vv -> v_data vv = None -> var g' v = Some vv;
  dl_var_cons : forall v vv,
    var g v = Some vv -> (forall o, o ∈ l -> o ∉ v_consumers vv) -> var g' v = Some vv;
  dl_heap : forall a bs, heap g !! a = Some bs -> heap g' !! a = Some bs;
  dl_memory : forall a, a ∈ memory_ g -> a ∈ memory_ g';
  dl_wf : WF g';
}.

Lemma div_loop l : forall u g u' g',
  WF g -> for_each l DivTransformer_div u g = Some (u', g') -> u <= u' /\ DivLoop g g' l.
Proof.
  induction l as [|o l IH]; intros u g u' g' Hwf H; simpl in H.
  { apply ret_inv in H. injection H as -> ->. split; [lia|]. split; try done. }
  inv_bind H u1 g1 H1. apply div_step in H1 as [Hu1 []].
  apply IH in H as [Hu' []]; [|by apply ds_wf0]. split; [lia|]. split.
  - intros o' [? ?]%not_elem_of_cons. rewrite dl_op0 by done. by apply ds_op0.
  - intros o' oo Ho Hnd. apply dl_keep0; [|done].
    destruct (decide (o' = o)) as [->|?]; [|by rewrite ds_op0].
    destruct ds_op_o0 as [->|(oo1 & oo2 & Ho1 & Hd & _)]; [done|]. congruence.
  - intros o' oo' Ho' Hm Hr. apply dl_back0 in Ho'; [|done..].
    destruct (decide (o' = o)) as [->|?]; [|by rewrite <- ds_op0].
    destruct ds_op_o0 as [<-|(oo1 & oo2 & _ & _ & Ho2 & [?|?])]; [done|congruence..].
  - intros v vv Hv Hd. apply dl_var_data0; [|done]. by apply ds_var_data0.
  - intros v vv Hv Hcons. apply dl_var_cons0.
    + apply ds_var_cons0; [done..|]. apply Hcons. by apply elem_of_cons; left.
    + intros o' Ho'. apply Hcons. by apply elem_of_cons; right.
  - intros a bs Ha. by apply dl_heap0, ds_heap0.
  - intros a Ha. by apply dl_memory0, ds_memory0.
  - done.
Qed.

Lemma for_each_app {A} (l1 l2 : list A) body : forall u g r,
  for_each (l1 ++ l2) body u g = Some r ->
  exists u1 g1, for_each l1 body u g = Some (u1, g1) /\ for_each l2 body u1 g1 = Some r.
Proof.
  induction l1 as [|x l1 IH]; intros u g r H; simpl in *.
  - by exists u, g.
  - inv_bind H u1 g1 H1. destruct (IH _ _ _ H) as (u2 & g2 & H2 & H3).
    exists u2, g2. split; [|done]. by rewrite (bind_Some _ _ _ _ _ H1).
Qed.

End DivFacts.

(** ** DivTransformer: reciprocal of a square root *)
Section Rsqrt.
Import Flow Graph Transformers EliminateFacts PatternFacts DivFacts.

(** The flow [y = Reciprocal(Sqrt(x))]: the variables are [x], the output
    [w] of [Sqrt] and [y] (pointers 0 to 2), the operations [Sqrt] and
    [Reciprocal] (pointers 0 and 1); [visible] tells whether [w] is an
    output of the flow. *)
Definition rsqrt_flow (visible : bool) : Flow.t :=
  let v o p c := mkVariable "" DT_FLOAT [8%Z] None 32%Z o p c in
  mkFlow [0; 1; 2]%nat [0; 1]%nat
    (list_to_map
       [(0, v false None [0]); (1, v visible (Some 0) [1]); (2, v true (Some 1) [])]%nat)
    (list_to_map
       [(0, mkOperation "s" "Sqrt" [0] [1] [] []);
        (1, mkOperation "r" "Reciprocal" [1] [2] [] [])]%nat)
    [] ∅.

(** The loop over the patterns [Reciprocal(Sqrt(x))]. *)
Lemma rsqrts_spec (f : Flow.t) (updates : Z) (rcp sqrt : OpPtr) (w x : VarPtr)
    (ro so : Operation) (wv : Var) :
  WF f -> Arity "Sqrt" f ->
  op f rcp = Some ro -> o_type ro = "Reciprocal" -> o_inputs ro = [w] ->
  var f w = Some wv -> v_producer wv = Some sqrt ->
  op f sqrt = Some so -> o_type so = "Sqrt" -> o_inputs so = [x] -> o_outputs so = [w] ->
  exists updates' f', DivTransformer_rsqrts updates f = Some (updates', f')
    /\ ((op f' rcp = Some (set_o_inputs [x] (set_o_type "Rsqrt" ro)) /\ op f' sqrt = None)
        <-> (usages wv = 1 /\ out wv = false))
    /\ (~ (usages wv = 1 /\ out wv = false) -> op f' rcp = Some ro /\ op f' sqrt = Some so).
Proof.
  intros Hwf Har Hrcp Hty Hins Hw Hprod Hsqrt Hsty Hsin Hsout.
  assert (Match 0 "Sqrt" "Reciprocal" f rcp ro w wv sqrt so) as Hm.
  { split; try done; [by rewrite Hins|by rewrite Hsout]. }
  assert (rcp ∈ Find f "Sqrt|Reciprocal") as Hfound.
  { apply (Find_Matched _ 0 "Sqrt" "Reciprocal"); [done|]. split.
    - apply (wf_ops f Hwf). by eexists.
    - by exists ro, w, wv, sqrt, so. }
  destruct (find_loop_ok "Sqrt|Reciprocal" 0 "Sqrt" "Reciprocal" "Rsqrt" (fun l => l)
              DivTransformer_rsqrt f updates)
    as (acc' & f' & Hrun & Hloop);
    [done|done|apply DivTransformer_rsqrt_ok|done|done|done|].
  exists acc', f'. split; [by unfold DivTransformer_rsqrts; rewrite bind_gets|].
  assert (hidden_single wv = true <-> usages wv = 1 /\ out wv = false) as Hiff.
  { unfold hidden_single. rewrite andb_true_iff, negb_true_iff, Z.eqb_eq. done. }
  destruct (hidden_single wv) eqn:Hg.
  - destruct (lp_done _ _ _ _ _ _ _ _ _ _ Hloop rcp ro w wv sqrt so x Hfound Hm Hsin Hg)
      as (Hrcp' & Hsqrt' & _).
    assert (op f' rcp = Some (set_o_inputs [x] (set_o_type "Rsqrt" ro))) as Hr.
    { rewrite Hrcp'. unfold rewritten. by rewrite Hins. }
    split; [|intros Hn; destruct Hn; by apply Hiff].
    split; [intros _; by apply Hiff|done].
  - destruct (lp_kept _ _ _ _ _ _ _ _ _ _ Hloop rcp ro w wv sqrt so Hfound Hm Hg)
      as (Hrcp' & Hsqrt').
    split; [|done]. split.
    + intros [_ Hnone]. congruence.
    + intros Hc. apply Hiff in Hc. done.
Qed.

(** C5. In a well-formed flow whose [Sqrt] operations have one input and
    one output, for every [Reciprocal(Sqrt(x))] in which the output of
    [Sqrt] is not a constant, [DivTransformer], when its loop over the
    divisions does not abort, returns, and it has removed [Sqrt] and
    changed [Reciprocal] into [Rsqrt(x)] if and only if the output of
    [Sqrt] has one consumer and is not an output of the flow; otherwise
    both operations are as they were. *)
Theorem Rsqrt_collapse_iff (f : Flow.t) (rcp sqrt : OpPtr) (w x : VarPtr)
    (ro so : Operation) (wv : Var) :
  well_formed f = true -> unary "Sqrt" f = true ->
  op f rcp = Some ro -> o_type ro = "Reciprocal" -> o_inputs ro = [w] ->
  var f w = Some wv -> v_producer wv = Some sqrt -> v_data wv = None ->
  op f sqrt = Some so -> o_type so = "Sqrt" -> o_inputs so = [x] -> o_outputs so = [w] ->
  is_Some (DivTransformer_divs 0 f) ->
  exists (changed : bool) (f' : Flow.t), DivTransformer_Transform f = Some (changed, f')
    /\ ((op f' rcp = Some (set_o_inputs [x] (set_o_type "Rsqrt" ro)) /\ op f' sqrt = None)
        <-> (usages wv = 1 /\ out wv = false))
    /\ (~ (usages wv = 1 /\ out wv = false) -> op f' rcp = Some ro /\ op f' sqrt = Some so).
Proof.
  intros Hwf%well_formed_WF Har%unary_Arity Hrcp Hty Hins Hw Hprod Hdata Hsqrt Hsty
    Hsin Hsout [[u1 f1] Hdivs].
  assert (for_each (Flow.ops_ f) DivTransformer_div 0 f = Some (u1, f1)) as Hrun1 by done.
  apply div_loop in Hrun1 as [_ Hloop1]; [|done].
  assert (Arity "Sqrt" f1) as Har1.
  { intros o oo Ho Hoty. apply (Har o oo); [|done].
    apply (dl_back _ _ _ Hloop1); [done|by rewrite Hoty..]. }
  assert (op f1 rcp = Some ro) as Hrcp1.
  { apply (dl_keep _ _ _ Hloop1); [done|]. intros [?|?]; congruence. }
  assert (op f1 sqrt = Some so) as Hsqrt1.
  { apply (dl_keep _ _ _ Hloop1); [done|]. intros [?|?]; congruence. }
  assert (var f1 w = Some wv) as Hw1 by by apply (dl_var_data _ _ _ Hloop1).
  destruct (rsqrts_spec f1 u1 rcp sqrt w x ro so wv) as (u2 & f2 & Hrun2 & Hres);
    [apply Hloop1|done..|].
  exists (u2 >? 0), f2. split; [|done].
  unfold DivTransformer_Transform.
  by rewrite (bind_Some _ _ _ _ _ Hdivs), (bind_Some _ _ _ _ _ Hrun2).
Qed.

Lemma Rsqrt_collapse_iff_witness :
  exists (changed : bool) (f' : Flow.t),
    DivTransformer_Transform (rsqrt_flow false) = Some (changed, f')
    /\ ((op f' 1%nat = Some (mkOperation "r" "Rsqrt" [0%nat] [2%nat] [] [])
         /\ op f' 0%nat = None)
        <-> (1 = 1 /\ false = false))
    /\ (~ (1 = 1 /\ false = false) ->
        op f' 1%nat = Some (mkOperation "r" "Reciprocal" [1%nat] [2%nat] [] [])
        /\ op f' 0%nat = Some (mkOperation "s" "Sqrt" [0%nat] [1%nat] [] [])).
Proof.
  refine (Rsqrt_collapse_iff (rsqrt_flow false) 1%nat 0%nat 1%nat 0%nat
            (mkOperation "r" "Reciprocal" [1%nat] [2%nat] [] [])
            (mkOperation "s" "Sqrt" [0%nat] [1%nat] [] [])
            (mkVariable "" DT_FLOAT [8%Z] None 32%Z false (Some 0%nat) [1%nat])
            _ _ _ _ _ _ _ _ _ _ _ _ _); vm_compute; eauto.
Defined.

End Rsqrt.

(** ** Values of constants *)
Module FloatFacts.
Import Float.

(** A NaN keeps its mantissa field, with the quiet bit, through the
    conversion to [double], a division and the conversion back. *)
Lemma quiet_round_trip (m : Z) :
  0 <= m -> quiet 23 (Z.shiftr (quiet 52 (Z.shiftl (quiet 23 m) 29)) 29) = quiet 23 m.
Proof.
  intros Hm. unfold quiet. apply Z.bits_inj'. intros n Hn.
  rewrite !Z.lor_spec, Z.shiftr_spec, Z.lor_spec, Z.shiftl_spec, Z.lor_spec by lia.
  replace (n + 29 - 29) with n by lia.
  rewrite !Z.pow2_bits_eqb by lia.
  destruct (Z.eqb_spec (23 - 1) n), (Z.eqb_spec (52 - 1) (n + 29)); try lia;
    by destruct (Z.testbit m n).
Qed.

(** [1.0 / c] of a NaN [c] is [c] with the quiet bit set. *)
Lemma reciprocal_of_NaN (s : bool) (m : Z) :
  0 <= m ->
  to_float (ddiv d_one (to_double (NaN s m))) = NaN s (Z.lor m (2 ^ 22)).
Proof.
  intros Hm. cbn [to_double ddiv d_one to_float]. by rewrite quiet_round_trip.
Qed.

(** The sign, exponent and mantissa fields of a 32-bit word. *)
Lemma word_fields (w : Z) :
  0 <= w < 2 ^ 32 ->
  exists s e m, (s = 0 \/ s = 1) /\ 0 <= e < 256 /\ 0 <= m < 2 ^ 23
    /\ w = s * 2 ^ 31 + e * 2 ^ 23 + m
    /\ Z.testbit w 31 = (s =? 1)
    /\ Z.land (Z.shiftr w 23) (2 ^ 8 - 1) = e
    /\ Z.land w (2 ^ 23 - 1) = m.
Proof.
  intros Hw. exists (w / 2 ^ 31), ((w / 2 ^ 23) mod 2 ^ 8), (w mod 2 ^ 23).
  change (2 ^ 8 - 1) with (Z.ones 8). change (2 ^ 23 - 1) with (Z.ones 23).
  rewrite !Z.land_ones, Z.shiftr_div_pow2 by lia.
  rewrite Z.testbit_eqb by lia.
  assert (0 <= w / 2 ^ 31 < 2) by (split; [apply Z.div_pos; lia|apply Z.div_lt_upper_bound; lia]).
  rewrite (Z.mod_small (w / 2 ^ 31)) by lia.
  pose proof (Z.mod_pos_bound (w / 2 ^ 23) (2 ^ 8)).
  pose proof (Z.mod_pos_bound w (2 ^ 23)).
  pose proof (Z.div_mod w (2 ^ 23)).
  pose proof (Z.div_mod (w / 2 ^ 23) (2 ^ 8)).
  assert (w / 2 ^ 23 / 2 ^ 8 = w / 2 ^ 31) as Hd.
  { rewrite Z.div_div by lia. done. }
  rewrite Hd in *.
  repeat split; try lia.
Qed.

(** A [float] is stored as the word it was read from. *)
Lemma encode_decode_float (w : Z) :
  0 <= w < 2 ^ 32 -> encode 23 8 (decode 23 8 w) = w.
Proof.
  intros (s & e & m & Hs & He & Hm & Hw & Hsign & Hexp & Hman)%word_fields.
  unfold decode. change (23 + 8) with 31. rewrite Hsign, Hexp, Hman.
  assert ((if s =? 1 then 2 ^ (23 + 8) else 0) = s * 2 ^ 31) as Hsg.
  { destruct Hs as [-> | ->]; done. }
  destruct (Z.eqb_spec e (2 ^ 8 - 1)) as [->|Hne].
  - destruct (Z.eqb_spec m 0) as [->|Hm0]; cbn [encode]; rewrite Hsg; lia.
  - destruct (Z.eqb_spec e 0) as [->|He0].
    + destruct m as [|p|p]; cbn [encode]; [rewrite Hsg; lia| |lia].
      destruct (Z.ltb_spec (Z.pos p) (2 ^ 23)); [|lia]. rewrite Hsg. lia.
    + cbn [encode]. rewrite Z2Pos.id by lia.
      destruct (Z.ltb_spec (m + 2 ^ 23) (2 ^ 23)); [lia|]. rewrite Hsg. lia.
Qed.

(** A NaN is read with the sign bit and the mantissa field of its word. *)
Lemma decode_NaN (w : Z) (s : bool) (m : Z) :
  decode 23 8 w = NaN s m -> s = Z.testbit w 31 /\ m = Z.land w (2 ^ 23 - 1) /\ 0 <= m.
Proof.
  unfold decode. change (23 + 8) with 31. intros H.
  assert (0 <= Z.land w (2 ^ 23 - 1)).
  { change (2 ^ 23 - 1) with (Z.ones 23). rewrite Z.land_ones by lia.
    apply Z.mod_pos_bound. lia. }
  repeat case_match; by simplify_eq.
Qed.

(** [1.0 / c], computed in [double] and stored as a [float], of the
    [float] with the word [w]. *)
Definition reciprocal_word (w : Z) : Z :=
  encode 23 8 (to_float (ddiv d_one (to_double (decode 23 8 w)))).

(** Reciprocals of numbers, zeros, infinities, subnormal numbers and NaNs,
    as SSE2 computes them. *)
Lemma reciprocal_word_samples :
  map reciprocal_word
    [0x40000000; 0x3f800000; 0x00000000; 0x80000000; 0x7f800000; 0xff800000;
     0x00000001; 0x00200000; 0x80200000; 0x00400000; 0x7f7fffff; 0x7e800000;
     0x7e800001; 0x7fc00000; 0xffc00001; 0x7f800001; 0xff800001; 0x7fffffff;
     0xffbfffff]
  = [0x3f000000; 0x3f800000; 0x7f800000; 0xff800000; 0x00000000; 0x80000000;
     0x7f800000; 0x7f800000; 0xff800000; 0x7f000000; 0x00200000; 0x00800000;
     0x007fffff; 0x7fc00000; 0xffc00001; 0x7fc00001; 0xffc00001; 0x7fffffff;
     0xffffffff].
Proof. by vm_compute. Qed.

End FloatFacts.

(** ** DivTransformer: division by a constant *)
Section DivByConstant.
Import Flow Graph Transformers EliminateFacts PatternFacts DivFacts.

Lemma bind_get_block {B} a bs (k : list byte -> FlowM B) f :
  heap f !! a = Some bs -> (get_block a ≫= k) f = k bs f.
Proof. intros H. unfold mbind, StErr_bind, get_block. by rewrite H. Qed.

Lemma bind_allocate {B} size (k : Addr -> FlowM B) f :
  (allocate size ≫= k) f = k (fst (AllocateMemory size f)) (snd (AllocateMemory size f)).
Proof. reflexivity. Qed.

(** The flow [y = Div(x, c)] with the constant [c = 2]: the variables are
    [x], [c] and [y] (pointers 0 to 2), the operation is [Div] (pointer
    0), and the block at address 7 holds the value of [c]. *)
Definition div_flow : Flow.t :=
  let v sh d size o p c := mkVariable "" DT_FLOAT sh d size o p c in
  mkFlow [0; 1; 2]%nat [0%nat]
    (list_to_map
       [(0, v [8%Z] None 32%Z false None [0]); (1, v [] (Some 7) 4%Z false None [0]);
        (2, v [8%Z] None 32%Z true (Some 0) [])]%nat)
    (list_to_map [(0%nat, mkOperation "y" "Div" [0; 1]%nat [2%nat] [] [])])
    [] (list_to_map [(7%nat, Float.bytes_of_bits 4 0x40000000)]).

(** The same flow with a NaN as the constant: the word [0xffc00001]. *)
Definition div_nan_flow : Flow.t :=
  let v sh d size o p c := mkVariable "" DT_FLOAT sh d size o p c in
  mkFlow [0; 1; 2]%nat [0%nat]
    (list_to_map
       [(0, v [8%Z] None 32%Z false None [0]); (1, v [] (Some 7) 4%Z false None [0]);
        (2, v [8%Z] None 32%Z true (Some 0) [])]%nat)
    (list_to_map [(0%nat, mkOperation "y" "Div" [0; 1]%nat [2%nat] [] [])])
    [] (list_to_map [(7%nat, Float.bytes_of_bits 4 0xffc00001)]).

(** The float [1.0 / c], computed in double precision, as 4 bytes. *)
Definition reciprocal_bytes (c : Float.fp) : list byte :=
  Float.bytes_of_bits 4
    (Float.encode 23 8 (Float.to_float (Float.ddiv Float.d_one (Float.to_double c)))).

(** For a NaN these are the bytes of the same NaN, sign and mantissa
    field, with the quiet bit set. *)
Lemma reciprocal_bytes_NaN (s : bool) (m : Z) :
  0 <= m ->
  reciprocal_bytes (Float.NaN s m)
  = Float.bytes_of_bits 4 (Float.encode 23 8 (Float.NaN s (Z.lor m (2 ^ 22)))).
Proof. intros Hm. unfold reciprocal_bytes. by rewrite FloatFacts.reciprocal_of_NaN. Qed.

(** One iteration of the loop, at a division by a constant. *)
Lemma div_mul_step (g : Flow.t) (updates : Z) (o : OpPtr) (oo : Operation)
    (in0 in1 : VarPtr) (fv sv : Var) (a : Addr) (bs : list byte) (c : Float.fp) :
  op g o = Some oo -> is_div oo -> o_inputs oo = [in0; in1] ->
  var g in0 = Some fv -> var g in1 = Some sv ->
  v_type sv = DT_FLOAT -> elements sv = 1 -> usages sv = 1 -> v_size sv = 4 ->
  v_data sv = Some a -> heap g !! a = Some bs -> Float.load_float bs = Some c ->
  exists (buffer : Addr) (g' : Flow.t),
    DivTransformer_div o updates g = Some (updates + 1, g')
    /\ op g' o = Some (set_o_type "Mul" oo)
    /\ heap g !! buffer = None
    /\ memory_ g' = memory_ g ++ [buffer]
    /\ heap g' !! buffer = Some (reciprocal_bytes c)
    /\ var g' in1 = Some (set_v_data (Some buffer) sv)
    /\ heap g' !! a = Some bs.
Proof.
  intros Ho Hty Hins Hfirst Hsecond Hfloat Hel Hu Hsize Hdata Hblock Hc.
  set (buffer := fresh (dom (heap g))).
  assert (heap g !! buffer = None) as Hfresh.
  { apply not_elem_of_dom. apply is_fresh. }
  assert (buffer <> a) as Hne.
  { intros ->. by rewrite Hblock in Hfresh. }
  exists buffer. eexists. split; [|split; [|split; [done|]]].
  - unfold DivTransformer_div. rewrite (bind_get_op _ _ _ _ Ho).
    assert (bool_decide (o_type oo ≠ "Div") && bool_decide (o_type oo ≠ "RealDiv") = false)
      as ->.
    { destruct Hty as [-> | ->]; by vm_compute. }
    unfold indegree. rewrite Hins.
    change (negb (Z.of_nat (length [in0; in1]) =? 2)) with false. cbv iota.
    change ([in0; in1] !! 0%nat) with (Some in0).
    change ([in0; in1] !! 1%nat) with (Some in1).
    rewrite !bind_lift, (bind_get_var _ _ _ _ Hfirst), (bind_get_var _ _ _ _ Hsecond).
    unfold constant. rewrite Hfloat, Hel, Hu, Hdata, Hsize.
    rewrite bool_decide_eq_true_2 by done. rewrite bool_decide_eq_true_2 by done.
    cbn [Z.eqb Pos.eqb andb].
    rewrite bind_check, bind_modify, bind_lift.
    rewrite (bind_get_block a bs) by done. rewrite Hc, bind_lift, bind_allocate.
    cbn [AllocateMemory fst snd].
    erewrite bind_get_block; [|apply lookup_insert_eq].
    cbn [Float.store_float replicate length Nat.leb drop app]. rewrite bind_lift.
    unfold set_block. rewrite bind_modify, bind_modify. reflexivity.
  - unfold op, update_op, update_var. cbn. rewrite lookup_alter_eq.
    unfold op in Ho. by rewrite Ho.
  - split; [done|]. split.
    + cbn [heap set_heap update_var set_var_at update_op set_op_at]. fold buffer.
      rewrite lookup_insert_eq. by rewrite app_nil_r.
    + split.
      * unfold var, update_var. cbn. rewrite lookup_alter_eq.
        unfold var in Hsecond. by rewrite Hsecond.
      * cbn [heap set_heap update_var set_var_at update_op set_op_at]. fold buffer.
        rewrite lookup_insert_ne by done. by rewrite lookup_insert_ne.
Qed.

(** C4. In a well-formed flow, for every [Div] or [RealDiv] operation
    with two inputs whose second input is a constant of type float with
    one element, of 4 bytes, with the value [c], a number or a NaN, and
    exactly one consumer, [DivTransformer], when its loop over the
    operations does not abort (the [Sqrt] operations having one input and
    one output), returns true and leaves a flow in which the type of the
    operation is [Mul] with the same inputs, a block of 4 bytes owned by
    the flow, at an address no block had, holds the float [1.0 / c]
    computed in double precision (for a NaN [c], the same NaN with the
    quiet bit set), and the second input is the same variable with this
    block as its data; the block that held [c] is as it was. *)
Theorem Div_by_constant (f : Flow.t) (o : OpPtr) (oo : Operation)
    (in0 in1 : VarPtr) (sv : Var) (a : Addr) (bs : list byte) (c : Float.fp) :
  well_formed f = true -> unary "Sqrt" f = true ->
  op f o = Some oo -> o_type oo = "Div" \/ o_type oo = "RealDiv" ->
  o_inputs oo = [in0; in1] -> var f in1 = Some sv ->
  v_type sv = DT_FLOAT -> elements sv = 1 -> usages sv = 1 -> v_size sv = 4 ->
  v_data sv = Some a -> heap f !! a = Some bs -> Float.load_float bs = Some c ->
  is_Some (DivTransformer_divs 0 f) ->
  exists (buffer : Addr) (f' : Flow.t),
    DivTransformer_Transform f = Some (true, f')
    /\ op f' o = Some (set_o_type "Mul" oo)
    /\ heap f !! buffer = None
    /\ buffer ∈ memory_ f'
    /\ heap f' !! buffer = Some (reciprocal_bytes c)
    /\ var f' in1 = Some (set_v_data (Some buffer) sv)
    /\ heap f' !! a = Some bs.
Proof.
  intros Hwf%well_formed_WF Har%unary_Arity Ho Hty Hins Hsv Hfloat Hel Hu Hsize Hdata
    Hblock Hc [[u1 f1] Hdivs].
  assert (for_each (Flow.ops_ f) DivTransformer_div 0 f = Some (u1, f1)) as Hrun by done.
  (* the consumers of the constant *)
  assert (forall g vv oo', WF g -> var g in1 = Some vv -> length (v_consumers vv) = 1%nat ->
            op g o = Some oo' -> o_inputs oo' = [in0; in1] -> v_consumers vv = [o])
    as Hsingle.
  { intros g vv oo' Hg Hvv Hlen Hoo' Hi. apply single_consumer; [done|].
    rewrite (wf_edges g Hg o oo' in1 vv) by done. apply count_pos.
    rewrite Hi. apply elem_of_cons; right. by apply elem_of_cons; left. }
  assert (length (v_consumers sv) = 1%nat) as Hlen by (unfold usages in Hu; lia).
  pose proof (Hsingle f sv oo Hwf Hsv Hlen Ho Hins) as Hcons.
  (* the iterations before and after the one at [o] *)
  assert (o ∈ Flow.ops_ f) as Hin by (apply (wf_ops f Hwf); by eexists).
  apply list_elem_of_split in Hin as (l1 & l2 & Hsplit).
  pose proof (wf_nodup f Hwf) as Hnd. rewrite Hsplit in Hnd.
  apply NoDup_app in Hnd as (_ & Hl1 & [Hl2 _]%NoDup_cons).
  pose proof (div_loop _ _ _ _ _ Hwf Hrun) as [_ Lall].
  rewrite Hsplit in Hrun. apply for_each_app in Hrun as (ua & ga & Ha & Hrun).
  simpl in Hrun. inv_bind Hrun ub gb Hb.
  apply div_loop in Ha as [Hua La]; [|done].
  assert (op ga o = Some oo) as Hoa.
  { rewrite (dl_op _ _ _ La); [done|]. intros ?. eapply Hl1; [done|]. by left. }
  assert (var ga in1 = Some sv) as Hsva.
  { apply (dl_var_cons _ _ _ La); [done|]. intros o' Ho'. rewrite Hcons.
    intros ->%list_elem_of_singleton. eapply Hl1; [done|]. by left. }
  destruct (wf_inputs ga (dl_wf _ _ _ La) o oo in0 Hoa) as [fv Hfv].
  { rewrite Hins. by left. }
  destruct (div_mul_step ga ua o oo in0 in1 fv sv a bs c)
    as (buffer & gb' & Hb' & Hob & Hfresh & Hmem & Hbuf & Hsvb & Hblockb);
    [done|done|done|done|done|done|done|done|done|done|by apply (dl_heap _ _ _ La)|done|].
  rewrite Hb' in Hb. injection Hb as <- <-.
  apply div_step in Hb' as [_ Sb]. pose proof (ds_wf _ _ _ Sb (dl_wf _ _ _ La)) as Hwfb.
  apply div_loop in Hrun as [Hub Lb]; [|done].
  assert (op f1 o = Some (set_o_type "Mul" oo)) as Ho1.
  { by rewrite (dl_op _ _ _ Lb). }
  assert (var f1 in1 = Some (set_v_data (Some buffer) sv)) as Hsv1.
  { apply (dl_var_cons _ _ _ Lb); [done|]. intros o' Ho'. simpl. rewrite Hcons.
    intros ->%list_elem_of_singleton. done. }
  (* the loop over the reciprocals of square roots *)
  assert (Arity "Sqrt" f1) as Har1.
  { intros o' oo' Ho' Hoty. apply (Har o' oo'); [|done].
    apply (dl_back _ _ _ Lall); [done|by rewrite Hoty..]. }
  pose proof (dl_wf _ _ _ Lb) as Hwf1.
  destruct (find_loop_ok "Sqrt|Reciprocal" 0 "Sqrt" "Reciprocal" "Rsqrt" (fun l => l)
              DivTransformer_rsqrt f1 u1)
    as (u2 & f2 & Hrun2 & L2);
    [done|done|apply DivTransformer_rsqrt_ok|done|done|done|].
  assert (op f2 o = Some (set_o_type "Mul" oo)) as Ho2.
  { rewrite (lp_frame _ _ _ _ _ _ _ _ _ _ L2); [done| |].
    - intros [_ (? & ? & ? & ? & ? & [])]%(Find_Matched _ 0 "Sqrt" "Reciprocal"); [|done].
      rewrite Ho1 in m_c0. by simplify_eq.
    - intros w' (? & ? & ? & ? & _ & [] & _). rewrite Ho1 in m_po0. by simplify_eq. }
  destruct (lp_var _ _ _ _ _ _ _ _ _ _ L2 in1 _ Hsv1) as (sv2 & Hsv2 & Hsame & Hlen2).
  { intros p (c' & co & wv' & po & _ & Hm & _).
    pose proof (Match_consumer _ _ _ _ _ _ _ _ _ _ Hwf1 Hm) as Hc'. destruct Hm.
    rewrite Hsv1 in m_wv0. injection m_wv0 as <-. simpl in Hc'. rewrite Hcons in Hc'.
    apply list_elem_of_singleton in Hc' as ->. rewrite Ho1 in m_c0. by simplify_eq. }
  assert (v_consumers sv2 = [o]) as Hcons2.
  { apply (Hsingle f2 sv2 (set_o_type "Mul" oo)); try done.
    - apply L2.
    - rewrite Hlen2. simpl. by rewrite Hcons. }
  exists buffer, f2. split; [|split; [done|split; [|split; [|split; [|split]]]]].
  - unfold DivTransformer_Transform.
    assert (DivTransformer_rsqrts u1 f1 = Some (u2, f2)) as Hrsqrts.
    { unfold DivTransformer_rsqrts. by rewrite bind_gets. }
    rewrite (bind_Some _ _ _ _ _ Hdivs), (bind_Some _ _ _ _ _ Hrsqrts).
    unfold mret, StErr_ret. do 2 f_equal. apply Z.gtb_lt.
    pose proof (proj1 (lp_acc _ _ _ _ _ _ _ _ _ _ L2)). lia.
  - destruct (heap f !! buffer) as [x|] eqn:Hx; [|done].
    apply (dl_heap _ _ _ La) in Hx. congruence.
  - rewrite (lp_memory _ _ _ _ _ _ _ _ _ _ L2). apply (dl_memory _ _ _ Lb).
    rewrite Hmem. apply elem_of_app; right. by left.
  - rewrite (lp_heap _ _ _ _ _ _ _ _ _ _ L2). by apply (dl_heap _ _ _ Lb).
  - by rewrite Hsv2, Hsame, Hcons2, <- Hcons.
  - rewrite (lp_heap _ _ _ _ _ _ _ _ _ _ L2). by apply (dl_heap _ _ _ Lb).
Qed.

Lemma Div_by_constant_witness :
  (exists (buffer : Addr) (f' : Flow.t),
    DivTransformer_Transform div_flow = Some (true, f')
    /\ op f' 0%nat = Some (mkOperation "y" "Mul" [0; 1]%nat [2%nat] [] [])
    /\ heap div_flow !! buffer = None
    /\ buffer ∈ memory_ f'
    /\ heap f' !! buffer = Some (Float.bytes_of_bits 4 0x3f000000)
    /\ var f' 1%nat = Some (mkVariable "" DT_FLOAT [] (Some buffer) 4 false None [0%nat])
    /\ heap f' !! 7%nat = Some (Float.bytes_of_bits 4 0x40000000))
  /\ (exists (buffer : Addr) (f' : Flow.t),
    DivTransformer_Transform div_nan_flow = Some (true, f')
    /\ op f' 0%nat = Some (mkOperation "y" "Mul" [0; 1]%nat [2%nat] [] [])
    /\ heap div_nan_flow !! buffer = None
    /\ buffer ∈ memory_ f'
    /\ heap f' !! buffer = Some (Float.bytes_of_bits 4 0xffc00001)
    /\ var f' 1%nat = Some (mkVariable "" DT_FLOAT [] (Some buffer) 4 false None [0%nat])
    /\ heap f' !! 7%nat = Some (Float.bytes_of_bits 4 0xffc00001)).
Proof.
  split.
  - refine (Div_by_constant div_flow 0%nat
              (mkOperation "y" "Div" [0; 1]%nat [2%nat] [] []) 0%nat 1%nat
              (mkVariable "" DT_FLOAT [] (Some 7%nat) 4 false None [0%nat])
              7%nat (Float.bytes_of_bits 4 0x40000000)
              (Float.Finite false 8388608 (-22))
              _ _ _ (or_introl _) _ _ _ _ _ _ _ _ _ _); vm_compute; eauto.
  - refine (Div_by_constant div_nan_flow 0%nat
              (mkOperation "y" "Div" [0; 1]%nat [2%nat] [] []) 0%nat 1%nat
              (mkVariable "" DT_FLOAT [] (Some 7%nat) 4 false None [0%nat])
              7%nat (Float.bytes_of_bits 4 0xffc00001)
              (Float.NaN true 0x400001)
              _ _ _ (or_introl _) _ _ _ _ _ _ _ _ _ _); vm_compute; eauto.
Defined.

End DivByConstant.

(** * Further code and properties *)

(** ** Element addresses ([compute.h]) *)
Section ElementAddresses.
Import Compute.

Lemma wrap_int_range z : int_range (wrap_int z).
Proof.
  unfold int_range, int_min, int_max, wrap_int.
  pose proof (Z.mod_pos_bound (z + 2 ^ 31) (2 ^ 32)). lia.
Qed.

(** The value of an access, when the checks pass and the offsets are in
    the range of [int]. *)
Lemma Get_rc_value st T inst mem p t r c s0 s1 :
  st !! p = Some t -> IsConstant t = false -> T = type_ t ->
  stride t 0 = Some s0 -> stride t 1 = Some s1 ->
  int_range (r * s0) -> int_range (c * s1) -> int_range (r * s0 + c * s1) ->
  Get_rc T st (Some p) r c (inst, mem)
  = Some (inst_data_ inst + offset t + (r * s0 + c * s1), (inst, mem)).
Proof.
  intros Hp Hc HT H0 H1 Hr Hcs Hs.
  unfold Get_rc, DCHECK, get_data, offset_rc, int_add, int_mul.
  run. rewrite Hp. cbn. rewrite Hc. cbn.
  rewrite bool_decide_eq_true_2 by done. cbn.
  rewrite H0, H1. cbn.
  rewrite (wrap_int_id (r * s0)), (wrap_int_id (c * s1)), wrap_int_id by done.
  done.
Qed.

(** X1. The three overloads of [Get] agree: column 0 of row [r] is row [r],
    and row 0 is the tensor, whatever the outcome of the checks. *)
Theorem Get_overloads_agree (T : Type_) (st : TensorStore) (p : TensorPtr) (t : Tensor)
    (r : Z) (state : Instance * Memory) :
  st !! p = Some t -> is_Some (stride t 1) ->
  Get_rc T st (Some p) r 0 state = Get_r T st (Some p) r state
  /\ Get_r T st (Some p) 0 state = Get T st (Some p) state.
Proof.
  intros Hp [s1 H1].
  assert (is_Some (stride t 0)) as [s0 H0].
  { unfold stride, dim in *. apply lookup_lt_is_Some. apply lookup_lt_Some in H1. lia. }
  unfold Get_rc, Get_r, Get, DCHECK, get_data, offset_rc, offset_r.
  run. rewrite Hp. cbn. destruct (IsConstant t); cbn; [done|].
  case_bool_decide; cbn; [|done]. rewrite H0, H1. cbn.
  unfold int_add, int_mul. rewrite !Z.mul_0_l.
  change (wrap_int 0) with 0. rewrite !Z.add_0_r.
  rewrite (wrap_int_id (wrap_int _)) by apply wrap_int_range. done.
Qed.

Definition matrix_tensor : Tensor :=
  {| offset_ := 64; device_offset_ := -1; type_ := DT_FLOAT; ref_ := false;
     shape_ := [4; 8]; stride_ := [32; 4]; size_ := 128; shared_ := None;
     link_ := None; data_ := None; device_data_ := DEVICE_NULL |}.

Lemma Get_overloads_agree_witness :
  Get_rc DT_FLOAT {[1%nat := matrix_tensor]} (Some 1%nat) 3 0
    ({| inst_data_ := 4096; inst_cell_ := 0 |}, ∅)
  = Get_r DT_FLOAT {[1%nat := matrix_tensor]} (Some 1%nat) 3
      ({| inst_data_ := 4096; inst_cell_ := 0 |}, ∅).
Proof.
  refine (proj1 (Get_overloads_agree DT_FLOAT {[1%nat := matrix_tensor]} 1%nat
                   matrix_tensor 3 _ _ _)); [reflexivity|by eexists].
Defined.

(** X2. Distinct elements of a matrix have distinct addresses: when a row
    holds [n] columns of [s1 > 0] bytes and rows are at least [n * s1]
    bytes apart, two accesses in range that return the same address have
    the same row and column. *)
Theorem Get_distinct_elements (T : Type_) (st : TensorStore) (p : TensorPtr) (t : Tensor)
    (state : Instance * Memory) (n s0 s1 r c r' c' a : Z) :
  st !! p = Some t -> stride t 0 = Some s0 -> stride t 1 = Some s1 ->
  0 < s1 -> n * s1 <= s0 ->
  0 <= c < n -> 0 <= c' < n ->
  int_range (r * s0) -> int_range (c * s1) -> int_range (r * s0 + c * s1) ->
  int_range (r' * s0) -> int_range (c' * s1) -> int_range (r' * s0 + c' * s1) ->
  Get_rc T st (Some p) r c state = Some (a, state) ->
  Get_rc T st (Some p) r' c' state = Some (a, state) ->
  r = r' /\ c = c'.
Proof.
  intros Hp H0 H1 Hs1 Hrow Hc Hc' R1 R2 R3 R1' R2' R3' HG HG'.
  destruct state as [inst mem].
  assert (IsConstant t = false /\ T = type_ t) as [Hconst HT].
  { unfold Get_rc, DCHECK in HG. run. rewrite Hp in HG. cbn in HG.
    destruct (IsConstant t); [done|]. cbn in HG. case_bool_decide; [done|]. done. }
  rewrite (Get_rc_value st T inst mem p t r c s0 s1) in HG by done.
  rewrite (Get_rc_value st T inst mem p t r' c' s0 s1) in HG' by done.
  assert (r * s0 + c * s1 = r' * s0 + c' * s1) as Heq.
  { injection HG as HG. injection HG' as HG'. lia. }
  assert (0 <= c * s1 < n * s1 /\ 0 <= c' * s1 < n * s1) as [Hb Hb'] by nia.
  assert (r = r') as ->; [|split; [done|nia]].
  destruct (Z.lt_trichotomy r r') as [Hlt|[?|Hlt]]; [|done|].
  - assert (s0 <= (r' - r) * s0) by nia. lia.
  - assert (s0 <= (r - r') * s0) by nia. lia.
Qed.

Lemma Get_distinct_elements_witness : (3 : Z) = 3 /\ (5 : Z) = 5.
Proof.
  refine (Get_distinct_elements DT_FLOAT {[1%nat := matrix_tensor]} 1%nat matrix_tensor
            ({| inst_data_ := 4096; inst_cell_ := 0 |}, ∅) 8 32 4 3 5 3 5 (4096 + 64 + 116)
            _ _ _ _ _ _ _ _ _ _ _ _ _ _ _);
    try reflexivity; unfold int_range, int_min, int_max; lia.
Defined.

End ElementAddresses.

(** ** Channels and links ([compute.h])

    A connector holds the tensor that describes its elements; a channel
    is an array of such elements at [data_]. *)
Module Channels.
Import Compute.

Record Connector := mkConnector {
  c_type_ : Tensor;                 (* Tensor *type_ *)
  c_links_ : list TensorPtr;        (* tensors linked to the connector *)
  c_alignment_ : Z;                 (* connector array alignment (in bytes) *)
}.

Record Channel := mkChannel {
  ch_data_ : Z;                     (* char *data_ *)
  ch_size_ : Z;                     (* number of elements in channel *)
  ch_capacity_ : Z;                 (* number of allocated elements *)
  ch_connector_ : Connector;        (* const Connector *connector_ *)
}.

(** [int size() const { return type_->size(); }] *)
Definition Connector_size (c : Connector) : Z := size_ (c_type_ c).

(** [char *at(int index) const
       { return data_ + (index * connector_->size()); }] *)
Definition at_ (ch : Channel) (index : Z) : Z :=
  ch_data_ ch + int_mul index (Connector_size (ch_connector_ ch)).

(** [void Set(Tensor *param, Channel *channel, int index = 0)
       { *reinterpret_cast<char **>(data_ + param->offset()) = channel->at(index); }] *)
Definition Set_channel (st : TensorStore) (param : TensorPtr) (channel : Channel) (index : Z) :
    M unit :=
  Set_ st param (at_ channel index).

(** [*reinterpret_cast<char **>(a)]: the pointer stored at an address. *)
Definition load_pointer (mem : Memory) (a : Z) : option Z :=
  bs ← mapM (fun i => mem !! (a + Z.of_nat i)) (seq 0 8);
  Some (Float.bits_of_bytes bs).

End Channels.

Module ChannelFacts.
Import Compute Channels.

(** The memory after [bs] is stored at [a]. *)
Definition stored (a : Z) (bs : list byte) (m : gmap Z byte) : gmap Z byte :=
  fold_right (fun ib m => <[a + Z.of_nat (fst ib) := snd ib]> m) m
             (imap (fun i b => (i, b)) bs).

Lemma stored_shift a (m : gmap Z byte) (l : list byte) : forall g : nat -> nat,
  fold_right (fun ib m0 => <[a + Z.of_nat (fst ib) := snd ib]> m0) m
    (imap (fun i b => (S (g i), b)) l)
  = fold_right (fun ib m0 => <[a + 1 + Z.of_nat (fst ib) := snd ib]> m0) m
      (imap (fun i b => (g i, b)) l).
Proof.
  induction l as [|x l IH]; intros g; [done|].
  cbn [imap fold_right fst snd].
  replace (a + Z.of_nat (S (g 0%nat))) with (a + 1 + Z.of_nat (g 0%nat)) by lia.
  f_equal. apply (IH (fun i => g (S i))).
Qed.

Lemma stored_cons a b bs m : stored a (b :: bs) m = <[a := b]> (stored (a + 1) bs m).
Proof.
  unfold stored. cbn [imap fold_right fst snd]. rewrite Z.add_0_r. f_equal.
  apply (stored_shift a m bs (fun i => i)).
Qed.

Lemma stored_outside bs : forall a m k,
  ~ (a <= k < a + Z.of_nat (length bs)) -> stored a bs m !! k = m !! k.
Proof.
  induction bs as [|b bs IH]; intros a m k Hk; [done|].
  rewrite stored_cons. simpl length in Hk. rewrite lookup_insert_ne by lia.
  apply IH. lia.
Qed.

Lemma stored_inside bs : forall a m i b,
  bs !! i = Some b -> stored a bs m !! (a + Z.of_nat i) = Some b.
Proof.
  induction bs as [|x bs IH]; intros a m i b Hi; [done|].
  rewrite stored_cons. destruct i as [|i]; simpl in Hi.
  - simplify_eq. rewrite Z.add_0_r. apply lookup_insert_eq.
  - rewrite lookup_insert_ne by lia.
    replace (a + Z.of_nat (S i)) with (a + 1 + Z.of_nat i) by lia. by apply IH.
Qed.


Lemma byte_of_value x :
  0 <= x < 256 -> Z.of_N (Byte.to_N (default x00 (Byte.of_N (Z.to_N x)))) = x.
Proof.
  intros Hx. destruct (Byte.of_N (Z.to_N x)) as [b|] eqn:Hb.
  - apply Byte.to_of_N in Hb. simpl. rewrite Hb. lia.
  - apply Byte.of_N_None_iff in Hb. lia.
Qed.

Lemma bits_of_little_endian p n : forall k,
  0 <= p ->
  Float.bits_of_bytes
    (map (fun i => default x00 (Byte.of_N (Z.to_N ((p / 2 ^ (8 * Z.of_nat i)) mod 256))))
         (seq k n))
  = (p / 2 ^ (8 * Z.of_nat k)) mod 2 ^ (8 * Z.of_nat n).
Proof.
  induction n as [|n IH]; intros k Hp; simpl seq; simpl map.
  - simpl. by rewrite Z.mod_1_r.
  - unfold Float.bits_of_bytes in *. simpl fold_right. rewrite IH by done.
    rewrite byte_of_value by (apply Z.mod_pos_bound; lia).
    replace (8 * Z.of_nat (S n)) with (8 + 8 * Z.of_nat n) by lia.
    replace (8 * Z.of_nat (S k)) with (8 * Z.of_nat k + 8) by lia.
    rewrite !Z.pow_add_r by lia. change (2 ^ 8) with 256.
    rewrite <- Z.div_div by lia.
    rewrite (Z.rem_mul_r _ 256) by lia. done.
Qed.

Lemma pointer_round_trip p :
  0 <= p < 2 ^ 64 -> Float.bits_of_bytes (pointer_bytes p) = p.
Proof.
  intros Hp. unfold pointer_bytes. rewrite bits_of_little_endian by lia.
  simpl. rewrite Z.div_1_r. apply Z.mod_small. lia.
Qed.

Lemma pointer_bytes_length p : length (pointer_bytes p) = 8%nat.
Proof. done. Qed.

Lemma load_stored_pointer a p m :
  load_pointer (stored a (pointer_bytes p) m) a = Some (Float.bits_of_bytes (pointer_bytes p)).
Proof.
  unfold load_pointer. apply stdpp.option.bind_Some.
  exists (pointer_bytes p). split; [|done].
  apply mapM_Some. apply Forall2_same_length_lookup_2; [done|].
  intros i x y Hx Hy. apply lookup_seq in Hx as [-> ?]. simpl. by apply stored_inside.
Qed.

End ChannelFacts.

Section Links.
Import Compute Channels ChannelFacts.

(** X3. [Set] links a tensor to a channel element: it does not fail on a
    tensor of the network, leaves the instance as it is, and stores the
    address [channel->at(index)] (a pointer of 64 bits) in the eight bytes
    at the offset of the tensor in the instance block, whatever the index
    and whether or not the tensor is a constant; no other byte of the
    memory is changed. *)
Theorem Set_stores_link (st : TensorStore) (param : TensorPtr) (t : Tensor)
    (channel : Channel) (index : Z) (inst : Instance) (mem : Memory) :
  st !! param = Some t -> 0 <= at_ channel index < 2 ^ 64 ->
  exists mem',
    Set_channel st param channel index (inst, mem) = Some (tt, (inst, mem'))
    /\ load_pointer mem' (inst_data_ inst + offset t)
       = Some (ch_data_ channel + int_mul index (size_ (c_type_ (ch_connector_ channel))))
    /\ forall k, ~ (inst_data_ inst + offset t <= k < inst_data_ inst + offset t + 8) ->
                 mem' !! k = mem !! k.
Proof.
  intros Hp Hrange.
  exists (stored (inst_data_ inst + offset t) (pointer_bytes (at_ channel index)) mem).
  split; [|split].
  - unfold Set_channel, Set_, get_data, store_bytes. run. by rewrite Hp.
  - rewrite load_stored_pointer, pointer_round_trip by done. done.
  - intros k Hk. apply stored_outside. by rewrite pointer_bytes_length.
Qed.

Definition sample_channel : Channel :=
  mkChannel 8192 4 4 (mkConnector matrix_tensor [1%nat] 8).

Lemma Set_stores_link_witness :
  exists mem',
    Set_channel {[1%nat := matrix_tensor]} 1%nat sample_channel 2
      ({| inst_data_ := 4096; inst_cell_ := 0 |}, ∅)
    = Some (tt, ({| inst_data_ := 4096; inst_cell_ := 0 |}, mem'))
    /\ load_pointer mem' (4096 + 64) = Some (8192 + 2 * 128)
    /\ forall k, ~ (4096 + 64 <= k < 4096 + 64 + 8) -> mem' !! k = (∅ : Memory) !! k.
Proof.
  refine (Set_stores_link {[1%nat := matrix_tensor]} 1%nat matrix_tensor sample_channel 2
            {| inst_data_ := 4096; inst_cell_ := 0 |} ∅ _ _); [reflexivity|].
  vm_compute. split; [by intros ?|reflexivity].
Defined.

End Links.

(** ** The result of the pattern transformers

    A transformer returns whether it has changed the flow.  The pattern
    transformers count their updates; the lemmas below follow the counter
    through their loops. *)
Module ResultFacts.
Import Flow Transformers CombineFacts.

(** A loop body that counts its updates: it leaves the counter and the
    flow as they are, or counts one update. *)
Definition counts (body : Z -> FlowM Z) : Prop :=
  forall u f u' f', body u f = Some (u', f') -> (u' = u /\ f' = f) \/ u' = u + 1.

Lemma for_each_counts {A} (l : list A) (body : A -> Z -> FlowM Z) :
  (forall x, counts (body x)) ->
  forall u f u' f',
    for_each l body u f = Some (u', f') -> u <= u' /\ (u' = u -> f' = f).
Proof.
  intros Hbody. induction l as [|x l IH]; intros u f u' f' H; simpl in H.
  - inv_ret H. split; [lia|done].
  - inv_bind H u1 f1 H1. apply Hbody in H1. apply IH in H as [Hle Heq].
    destruct H1 as [[-> ->]| ->]; [done|]. split; lia.
Qed.

(** The first step of a computation reads the flow. *)
Ltac read H :=
  let a := fresh "a" in
  let s := fresh "s" in
  let H1 := fresh "Hread" in
  apply bind_inv in H as (a & s & H1 & H); cbv beta zeta in H;
  first [apply ro_get_op in H1 | apply ro_get_var in H1
        | apply ro_lift in H1 | apply ro_gets in H1];
  subst s.

(** The value of a computation that ends in [mret]. *)
Ltac last_ret H :=
  repeat (apply bind_inv in H as (? & ? & _ & H); cbv beta zeta in H);
  apply ret_inv in H.

Ltac unchanged H := apply ret_inv in H; left; split; congruence.
Ltac counted H := last_ret H; right; congruence.

Lemma DivTransformer_div_counts o : counts (DivTransformer_div o).
Proof.
  intros u f u' f' H. unfold DivTransformer_div in H.
  read H. destruct (_ && _); [unchanged H|].
  destruct (negb _); [unchanged H|].
  do 4 read H.
  destruct (_ && _); [counted H|].
  destruct (_ && _); [|unchanged H].
  read H.
  match type of H with (match ?x with _ => _ end) _ = _ => destruct x as [x|] end;
    [|unchanged H].
  destruct (Float.deq _ _); [counted H|unchanged H].
Qed.

Lemma DivTransformer_rsqrt_counts rcp : counts (DivTransformer_rsqrt rcp).
Proof.
  intros u f u' f' H. unfold DivTransformer_rsqrt in H.
  do 7 read H.
  destruct (_ >? _); [unchanged H|].
  destruct (out _); [unchanged H|counted H].
Qed.

Lemma AddNegToSub_body_counts add : counts (AddNegToSub_body add).
Proof.
  intros u f u' f' H. unfold AddNegToSub_body in H.
  do 7 read H.
  destruct (_ && _); [counted H|unchanged H].
Qed.

Lemma LogicTransformer_and0_counts logand : counts (LogicTransformer_and0 logand).
Proof.
  intros u f u' f' H. unfold LogicTransformer_and0 in H.
  do 7 read H.
  destruct (_ && _); [counted H|unchanged H].
Qed.

Lemma LogicTransformer_and1_counts logand : counts (LogicTransformer_and1 logand).
Proof.
  intros u f u' f' H. unfold LogicTransformer_and1 in H.
  do 7 read H.
  destruct (_ && _); [counted H|unchanged H].
Qed.

(** A fold reports whether it has changed the flow. *)
Definition reports (m : FlowM bool) : Prop :=
  forall f f', m f = Some (false, f') -> f' = f.

Lemma FoldNotCompare_reports cmp neg replacement :
  reports (FoldNotCompare cmp neg replacement).
Proof.
  intros f f' H. unfold FoldNotCompare in H.
  do 3 read H.
  destruct (negb _); [by inv_ret H|].
  destruct (out _); [by inv_ret H|].
  last_ret H. congruence.
Qed.

Lemma EliminateDoubleNegation_true neg1 neg2 f b f' :
  EliminateDoubleNegation neg1 neg2 f = Some (b, f') -> b = true.
Proof. intros H. unfold EliminateDoubleNegation in H. last_ret H. congruence. Qed.

Lemma LogicTransformer_fold_reports o : reports (LogicTransformer_fold o).
Proof.
  intros f f' H. unfold LogicTransformer_fold in H.
  read H. destruct (_ || _); [by inv_ret H|].
  do 2 read H. destruct (v_producer _) as [producer|]; [|by inv_ret H].
  read H.
  destruct (bool_decide _); [by apply EliminateDoubleNegation_true in H|].
  repeat (destruct (bool_decide _); [by apply FoldNotCompare_reports in H|]).
  by inv_ret H.
Qed.

Lemma LogicTransformer_pass_reports ops : reports (LogicTransformer_pass ops).
Proof.
  induction ops as [|o ops IH]; intros f f' H; simpl in H; [by inv_ret H|].
  inv_bind H again s Hfold. destruct again; [by inv_ret H|].
  apply LogicTransformer_fold_reports in Hfold as ->. by apply IH.
Qed.

Lemma LogicTransformer_negations_counts fuel : forall u f r f',
  LogicTransformer_negations fuel u f = Some (r, f') ->
  u <= fst r /\ (fst r = u -> f' = f).
Proof.
  induction fuel as [|fuel IH]; intros u f r f' H; simpl in H.
  - inv_ret H. split; [lia|done].
  - rewrite bind_gets in H. inv_bind H again s Hpass. destruct again.
    + apply IH in H as [Hle _]. split; lia.
    + apply LogicTransformer_pass_reports in Hpass as ->. inv_ret H. split; [lia|done].
Qed.

Lemma LogicTransformer_merge_counts u f u' f' :
  LogicTransformer_merge u f = Some (u', f') -> u <= u' /\ (u' = u -> f' = f).
Proof.
  intros H. unfold LogicTransformer_merge in H. rewrite bind_gets in H.
  inv_bind H u1 f1 H1. rewrite bind_gets in H.
  apply for_each_counts in H1 as [Hle1 Heq1]; [|apply LogicTransformer_and0_counts].
  apply for_each_counts in H as [Hle Heq]; [|apply LogicTransformer_and1_counts].
  split; [lia|]. intros ->. assert (u1 = u) as -> by lia. rewrite Heq by done. by apply Heq1.
Qed.

End ResultFacts.

Section Results.
Import Flow Transformers ResultFacts.

(** X4. [DivTransformer::Transform] returns false only if it has left the
    flow as it was: operations, variables, edges and constant data. *)
Theorem DivTransformer_false_unchanged (f f' : Flow.t) :
  DivTransformer_Transform f = Some (false, f') -> f' = f.
Proof.
  intros H. unfold DivTransformer_Transform, DivTransformer_divs, DivTransformer_rsqrts in H.
  inv_bind H u1 f1 H1. rewrite bind_gets in H1.
  inv_bind H u2 f2 H2. rewrite bind_gets in H2.
  apply for_each_counts in H1 as [Hle1 Heq1]; [|apply DivTransformer_div_counts].
  apply for_each_counts in H2 as [Hle2 Heq2]; [|apply DivTransformer_rsqrt_counts].
  apply ret_inv in H. injection H as Hu <-.
  assert (u2 = 0) by lia. assert (u1 = 0) by lia. subst. rewrite Heq2 by done. by apply Heq1.
Qed.

Lemma DivTransformer_false_unchanged_witness : rsqrt_flow true = rsqrt_flow true.
Proof.
  apply (DivTransformer_false_unchanged (rsqrt_flow true) (rsqrt_flow true)).
  vm_compute. reflexivity.
Defined.

(** X5. [AddNegToSubTransformer::Transform] returns false only if it has left
    the flow as it was. *)
Theorem AddNegToSubTransformer_false_unchanged (f f' : Flow.t) :
  AddNegToSubTransformer_Transform f = Some (false, f') -> f' = f.
Proof.
  intros H. unfold AddNegToSubTransformer_Transform in H. rewrite bind_gets in H.
  inv_bind H u1 f1 H1.
  apply for_each_counts in H1 as [Hle1 Heq1]; [|apply AddNegToSub_body_counts].
  apply ret_inv in H. injection H as Hu <-.
  apply Heq1. lia.
Qed.

Lemma AddNegToSubTransformer_false_unchanged_witness :
  add_neg_flow true = add_neg_flow true.
Proof.
  apply (AddNegToSubTransformer_false_unchanged (add_neg_flow true) (add_neg_flow true)).
  vm_compute. reflexivity.
Defined.

(** X6. [LogicTransformer::Transform] returns false only if it has left the
    flow as it was: no negation was folded, bypassed or merged. *)
Theorem LogicTransformer_false_unchanged (fuel : nat) (f f' : Flow.t) :
  LogicTransformer_Transform fuel f = Some (false, f') -> f' = f.
Proof.
  intros H. unfold LogicTransformer_Transform in H.
  inv_bind H r f1 H1. inv_bind H u0 s Hc. apply check_inv in Hc as [_ ?].
  cbn [fst snd] in *. subst s.
  inv_bind H u2 f2 H2.
  apply LogicTransformer_negations_counts in H1 as [Hle1 Heq1].
  apply LogicTransformer_merge_counts in H2 as [Hle2 Heq2].
  apply ret_inv in H. injection H as Hu <-.
  assert (u2 = 0) by lia. assert (fst r = 0) by lia. subst.
  rewrite Heq2 by done. by apply Heq1.
Qed.

Lemma LogicTransformer_false_unchanged_witness :
  add_neg_flow false = add_neg_flow false.
Proof.
  apply (LogicTransformer_false_unchanged 1 (add_neg_flow false) (add_neg_flow false)).
  vm_compute. reflexivity.
Defined.

End Results.

(** ** The result of [ExpressionTransformer::Transform] *)
Module AccountFacts.
Import Flow Transformers CombineFacts TerminationFacts.

(** [k] successful combinations lead from the flow [f] to the flow [f']. *)
Definition combines (f : Flow.t) (k : nat) (f' : Flow.t) : Prop :=
  (num_ops f' + k = num_ops f)%nat /\ (k = 0%nat -> f' = f).

Lemma combines_refl f : combines f 0 f.
Proof. split; [lia|done]. Qed.

Lemma combines_trans f k f1 k' f' :
  combines f k f1 -> combines f1 k' f' -> combines f (k + k') f'.
Proof.
  intros [Hn Hz] [Hn' Hz']. split; [lia|]. intros Hk.
  rewrite Hz' by lia. apply Hz. lia.
Qed.

Lemma combined_combines f ok f' :
  combined f ok f' -> combines f (if ok then 1 else 0) f'.
Proof.
  unfold combined. destruct ok; intros H; split; subst; try lia; intros ?; (lia || done).
Qed.

(** A pass over the candidates counts its combinations, and sets [again]
    when there is one. *)
Lemma candidates_pass_account wanted attempt :
  (forall o inputs f ok f', attempt o inputs f = Some (ok, f') -> combined f ok f') ->
  forall todo visited n again f r f',
    candidates_pass wanted attempt visited todo n again f = Some (r, f') ->
    exists k : nat,
      num_combines (fst r) = n + Z.of_nat k /\ combines f k f'
      /\ (k = 0%nat -> snd r = again).
Proof.
  intros Hatt. induction todo as [|[o|] todo IH]; intros visited n again f r f' H;
    simpl in H.
  - inv_ret H. exists 0%nat. split; [lia|]. split; [apply combines_refl|done].
  - inv_bind H oo s Ho. apply ro_get_op in Ho as ->.
    destruct (negb (wanted oo)); [by eapply IH|].
    inv_bind H ok s Hok. apply Hatt, combined_combines in Hok. destruct ok.
    + apply IH in H as (k & Hn & Hk & _). exists (1 + k)%nat.
      split; [lia|]. split; [by eapply combines_trans|lia].
    + destruct Hok as [_ Hs]. rewrite (Hs eq_refl) in H. by eapply IH.
  - by eapply IH.
Qed.

(** A [while (again)] loop whose passes count their combinations. *)
Lemma while_state_account {C} (count : C -> Z) (body : C -> StErr Flow.t (C * bool)) :
  (forall c f r f', body c f = Some (r, f') ->
     exists k : nat, count (fst r) = count c + Z.of_nat k /\ combines f k f') ->
  forall fuel c f r f',
    while_state fuel body c f = Some (r, f') ->
    exists k : nat, count (fst r) = count c + Z.of_nat k /\ combines f k f'.
Proof.
  intros Hbody. induction fuel as [|fuel IH]; intros c f r f' H; simpl in H.
  - inv_ret H. exists 0%nat. split; [lia|apply combines_refl].
  - inv_bind H r1 f1 H1. apply Hbody in H1 as (k1 & Hn1 & Hk1).
    destruct (snd r1).
    + apply IH in H as (k & Hn & Hk). exists (k1 + k)%nat.
      split; [lia|by eapply combines_trans].
    + inv_ret H. by exists k1.
Qed.

End AccountFacts.

Section Accounting.
Import Flow Transformers CombineFacts TerminationFacts AccountFacts.

(** X7. The result of [ExpressionTransformer::Transform] tells whether the
    flow has changed: when it returns true the flow has lost operations,
    one for each combination, and when it returns false the flow is as it
    was. *)
Theorem ExpressionTransformer_result (fuel : nat) (f f' : Flow.t) (changed : bool) :
  ExpressionTransformer_Transform fuel f = Some (Some changed, f') ->
  if changed then (num_ops f' < num_ops f)%nat else f' = f.
Proof.
  intros H. unfold ExpressionTransformer_Transform in H. rewrite bind_gets in H.
  inv_bind H cands s Hc. apply ro_lift in Hc as ->.
  inv_bind H r1 f1 H1.
  apply (while_state_account num_combines) in H1 as (k1 & Hn1 & Hk1).
  2: { intros c g r g' Hp.
       apply (candidates_pass_account _ _ absorb_inputs_combined) in Hp as (k & ? & ? & _).
       by exists k. }
  destruct (negb (snd r1)); [by inv_ret H|].
  inv_bind H r2 f2 H2.
  apply (while_state_account num_combines) in H2 as (k2 & Hn2 & Hk2).
  2: { intros c g r g' Hp.
       apply (candidates_pass_account _ _ merge_inputs_combined) in Hp as (k & ? & ? & _).
       by exists k. }
  destruct (negb (snd r2)); [by inv_ret H|].
  inv_bind H r3 f3 H3.
  apply (while_state_account (fun n : Z => n)) in H3 as (k3 & Hn3 & Hk3).
  2: { intros c g r g' Hp. rewrite bind_gets in Hp.
       inv_bind Hp ok s Hs. apply sharing_pass_combined, combined_combines in Hs.
       inv_ret Hp. exists (if ok then 1 else 0)%nat. split; [destruct ok; lia|done]. }
  destruct (negb (snd r3)); [by inv_ret H|].
  apply ret_inv in H. injection H as Hb <-.
  pose proof (combines_trans _ _ _ _ _ (combines_trans _ _ _ _ _ Hk1 Hk2) Hk3) as [Hn Hz].
  cbn [num_combines] in *.
  destruct (Z.gtb_spec (fst r3) 0) as [Hgt|Hle]; subst changed; [lia|].
  apply Hz. lia.
Qed.

Lemma ExpressionTransformer_result_witness :
  (num_ops assign_flow_combined < num_ops assign_flow)%nat.
Proof.
  apply (ExpressionTransformer_result 3 assign_flow assign_flow_combined true).
  vm_compute. reflexivity.
Defined.

End Accounting.

(** ** A double negation whose result is an output of the flow *)
Section VisibleDoubleNegation.
Import Flow Transformers PatternFacts.

(** The loop that folds negations passes over the operation: it is not a
    [Not] with one input, or its input has no producer. *)
Definition skipped (f : Flow.t) (o : OpPtr) : Prop :=
  exists oo, op f o = Some oo
    /\ (o_type oo ≠ "Not" \/ indegree oo ≠ 1
        \/ exists i iv, o_inputs oo !! 0%nat = Some i /\ var f i = Some iv
                        /\ v_producer iv = None).

Lemma LogicTransformer_fold_skipped f o :
  skipped f o -> LogicTransformer_fold o f = Some (false, f).
Proof.
  intros (oo & Ho & Hcase). unfold LogicTransformer_fold.
  rewrite (bind_get_op _ _ _ _ Ho).
  destruct (decide (o_type oo = "Not")) as [Hty|Hty];
    [|by rewrite bool_decide_eq_true_2].
  rewrite bool_decide_eq_false_2 by (by intros ?). cbn [orb].
  destruct (indegree oo =? 1) eqn:Hdeg; [|done]. cbn [negb].
  apply Z.eqb_eq in Hdeg.
  destruct Hcase as [?|[?|(i & iv & Hi & Hiv & Hp)]]; [done|done|].
  rewrite Hi, bind_lift, (bind_get_var _ _ _ _ Hiv), Hp. done.
Qed.

Lemma LogicTransformer_pass_skipped f pre rest :
  Forall (skipped f) pre ->
  LogicTransformer_pass (pre ++ rest) f = LogicTransformer_pass rest f.
Proof.
  induction 1 as [|o pre Ho _ IH]; [done|]. simpl.
  by rewrite (bind_Some _ _ _ _ _ (LogicTransformer_fold_skipped _ _ Ho)).
Qed.

(** X8. [LogicTransformer::Transform] does not end on a flow in which the
    first [Not] the folding loop stops at, [neg2], negates the output of
    another [Not], [neg1], and the result of [neg2] is an output of the
    flow that no operation reads: [EliminateDoubleNegation] returns true
    and removes nothing, as the result is visible and the output of [neg1]
    is still read, so every pass counts one more update and finds the
    flow as it was; whatever the fuel, the loop has not ended when the
    fuel is used up. *)
Theorem LogicTransformer_visible_double_negation (f : Flow.t) (pre rest : list OpPtr)
    (neg1 neg2 : OpPtr) (n1 n2 : Operation) (x a result : VarPtr) (av rv : Var) :
  ops_ f = pre ++ neg2 :: rest -> Forall (skipped f) pre ->
  op f neg2 = Some n2 -> o_type n2 = "Not" -> o_inputs n2 = [a] ->
  o_outputs n2 !! 0%nat = Some result ->
  var f a = Some av -> v_producer av = Some neg1 -> v_consumers av ≠ [] ->
  op f neg1 = Some n1 -> o_type n1 = "Not" -> o_inputs n1 !! 0%nat = Some x ->
  o_outputs n1 !! 0%nat = Some a ->
  var f result = Some rv -> v_consumers rv = [] -> out rv = true ->
  EliminateDoubleNegation neg1 neg2 f = Some (true, f)
  /\ (forall (fuel : nat) (num_updates : Z),
        LogicTransformer_negations fuel num_updates f
        = Some ((num_updates + Z.of_nat fuel, false), f))
  /\ (forall fuel : nat, LogicTransformer_Transform fuel f = None).
Proof.
  intros Hops Hpre Hn2 Hty2 Hin2 Hout2 Ha Hprod Hcons Hn1 Hty1 Hin1 Hout1 Hr Hrc Hro.
  assert (EliminateDoubleNegation neg1 neg2 f = Some (true, f)) as Helim.
  { unfold EliminateDoubleNegation.
    rewrite (bind_get_op _ _ _ _ Hn2), (bind_get_op _ _ _ _ Hn1).
    rewrite Hout2, bind_lift, (bind_get_var _ _ _ _ Hr), Hin1, bind_lift, Hrc.
    cbn [replace_in_consumers]. rewrite bind_ret, (bind_get_var _ _ _ _ Hr).
    rewrite Hro, andb_false_r, bind_ret, (bind_get_op _ _ _ _ Hn1).
    rewrite Hout1, bind_lift, (bind_get_var _ _ _ _ Ha).
    assert ((usages av =? 0) = false) as ->.
    { apply Z.eqb_neq. unfold usages. destruct (v_consumers av); [done|]. simpl. lia. }
    done. }
  assert (LogicTransformer_pass (ops_ f) f = Some (true, f)) as Hpass.
  { rewrite Hops, LogicTransformer_pass_skipped by done. simpl.
    assert (LogicTransformer_fold neg2 f = Some (true, f)) as Hfold.
    { unfold LogicTransformer_fold. rewrite (bind_get_op _ _ _ _ Hn2).
      rewrite bool_decide_eq_false_2 by (by intros ?).
      unfold indegree. rewrite Hin2.
      change (negb (Z.of_nat (length [a]) =? 1)) with false. cbn [orb].
      change ([a] !! 0%nat) with (Some a).
      rewrite bind_lift, (bind_get_var _ _ _ _ Ha), Hprod, (bind_get_op _ _ _ _ Hn1).
      by rewrite bool_decide_eq_true_2. }
    by rewrite (bind_Some _ _ _ _ _ Hfold). }
  assert (forall fuel u, LogicTransformer_negations fuel u f
                         = Some ((u + Z.of_nat fuel, false), f)) as Hloop.
  { induction fuel as [|fuel IH]; intros u; simpl LogicTransformer_negations.
    - by rewrite Z.add_0_r.
    - rewrite bind_gets, (bind_Some _ _ _ _ _ Hpass), IH. do 3 f_equal. lia. }
  split; [done|]. split; [done|]. intros fuel. unfold LogicTransformer_Transform.
  by rewrite (bind_Some _ _ _ _ _ (Hloop fuel 0)).
Qed.

(** The flow [y = Not(Not(x))] with the output [y]. *)
Definition not_not_flow : Flow.t :=
  let v o p c := mkVariable "" DT_FLOAT [8%Z] None 32%Z o p c in
  mkFlow [0; 1; 2]%nat [0; 1]%nat
    (list_to_map
       [(0, v false None [0]); (1, v false (Some 0) [1]); (2, v true (Some 1) [])]%nat)
    (list_to_map
       [(0, mkOperation "a" "Not" [0] [1] [] []);
        (1, mkOperation "y" "Not" [1] [2] [] [])]%nat)
    [] ∅.

Lemma LogicTransformer_visible_double_negation_witness :
  LogicTransformer_Transform 1000 not_not_flow = None.
Proof.
  refine (proj2 (proj2 (LogicTransformer_visible_double_negation not_not_flow [0%nat] []
            0%nat 1%nat (mkOperation "a" "Not" [0%nat] [1%nat] [] [])
            (mkOperation "y" "Not" [1%nat] [2%nat] [] []) 0%nat 1%nat 2%nat
            (mkVariable "" DT_FLOAT [8%Z] None 32%Z false (Some 0%nat) [1%nat])
            (mkVariable "" DT_FLOAT [8%Z] None 32%Z true (Some 1%nat) [])
            _ _ _ _ _ _ _ _ _ _ _ _ _ _ _ _)) 1000%nat).
  all: try reflexivity.
  all: try (intros ?; discriminate).
  constructor; [|constructor].
  eexists. split; [reflexivity|]. right. right.
  exists 0%nat, (mkVariable "" DT_FLOAT [8%Z] None 32%Z false None [0%nat]).
  split; [reflexivity|]. split; reflexivity.
Defined.

End VisibleDoubleNegation.

(** ** What the pattern transformers keep *)
Section Preservation.
Import Flow Graph Transformers EliminateFacts PatternFacts DivFacts.

(** X9. On a well-formed flow whose [Neg] operations have one input and one
    output, [AddNegToSubTransformer::Transform] does not abort, and the
    flow it leaves is well-formed, has the same data blocks with the same
    content, and has every operation that is neither an [Add] nor a [Neg]
    as it was; it creates no operation. *)
Theorem AddNegToSubTransformer_preserves (f : Flow.t) :
  well_formed f = true -> unary "Neg" f = true ->
  exists (changed : bool) (f' : Flow.t),
    AddNegToSubTransformer_Transform f = Some (changed, f')
    /\ WF f' /\ heap f' = heap f /\ memory_ f' = memory_ f
    /\ (forall o oo, op f o = Some oo -> o_type oo <> "Add" -> o_type oo <> "Neg" ->
                     op f' o = Some oo)
    /\ (forall o, op f o = None -> op f' o = None).
Proof.
  intros Hwf%well_formed_WF Har%unary_Arity.
  destruct (find_loop_ok "Neg|1:Add" 1 "Neg" "Add" "Sub" (fun l => l) AddNegToSub_body f 0)
    as (acc' & f' & Hrun & Hloop); [done|done|apply AddNegToSub_body_ok|done|done|done|].
  exists (acc' >? 0), f'. split; [|split; [|split; [|split; [|split]]]].
  - unfold AddNegToSubTransformer_Transform.
    by rewrite bind_gets, (bind_Some _ _ _ _ _ Hrun).
  - apply Hloop.
  - apply Hloop.
  - apply Hloop.
  - intros o oo Ho Hadd Hneg. rewrite (lp_frame _ _ _ _ _ _ _ _ _ _ Hloop); [done| |].
    + intros [_ (? & ? & ? & ? & ? & [])]%(Find_Matched _ 1 "Neg" "Add"); [|done].
      congruence.
    + intros w (? & ? & ? & ? & _ & [] & _). congruence.
  - intros o Ho. rewrite (lp_frame _ _ _ _ _ _ _ _ _ _ Hloop); [done| |].
    + intros [_ (? & ? & ? & ? & ? & [])]%(Find_Matched _ 1 "Neg" "Add"); [|done].
      congruence.
    + intros w (? & ? & ? & ? & _ & [] & _). congruence.
Qed.

Lemma AddNegToSubTransformer_preserves_witness :
  exists (changed : bool) (f' : Flow.t),
    AddNegToSubTransformer_Transform (add_neg_flow false) = Some (changed, f')
    /\ WF f' /\ heap f' = heap (add_neg_flow false)
    /\ memory_ f' = memory_ (add_neg_flow false)
    /\ (forall o oo, op (add_neg_flow false) o = Some oo ->
                     o_type oo <> "Add" -> o_type oo <> "Neg" -> op f' o = Some oo)
    /\ (forall o, op (add_neg_flow false) o = None -> op f' o = None).
Proof.
  apply (AddNegToSubTransformer_preserves (add_neg_flow false)); vm_compute; reflexivity.
Defined.

(** X10. On a well-formed flow whose [Sqrt] operations have one input and one
    output, [DivTransformer::Transform], when its loop over the divisions
    does not abort, returns and leaves a well-formed flow in which every
    data block of the flow is still owned by the flow and holds what it
    held (the reciprocal of a constant is written to a new block), and
    every operation other than a [Div], [RealDiv], [Sqrt] or [Reciprocal]
    is as it was. *)
Theorem DivTransformer_preserves (f : Flow.t) :
  well_formed f = true -> unary "Sqrt" f = true ->
  is_Some (DivTransformer_divs 0 f) ->
  exists (changed : bool) (f' : Flow.t),
    DivTransformer_Transform f = Some (changed, f')
    /\ WF f'
    /\ (forall a bs, heap f !! a = Some bs -> heap f' !! a = Some bs)
    /\ (forall a, a ∈ memory_ f -> a ∈ memory_ f')
    /\ (forall o oo, op f o = Some oo ->
          o_type oo <> "Div" -> o_type oo <> "RealDiv" ->
          o_type oo <> "Sqrt" -> o_type oo <> "Reciprocal" -> op f' o = Some oo).
Proof.
  intros Hwf%well_formed_WF Har%unary_Arity [[u1 f1] Hdivs].
  assert (for_each (Flow.ops_ f) DivTransformer_div 0 f = Some (u1, f1)) as Hrun1 by done.
  apply div_loop in Hrun1 as [_ L1]; [|done].
  assert (Arity "Sqrt" f1) as Har1.
  { intros o oo Ho Hoty. apply (Har o oo); [|done].
    apply (dl_back _ _ _ L1); [done|by rewrite Hoty..]. }
  destruct (find_loop_ok "Sqrt|Reciprocal" 0 "Sqrt" "Reciprocal" "Rsqrt" (fun l => l)
              DivTransformer_rsqrt f1 u1)
    as (u2 & f2 & Hrun2 & L2);
    [done|done|apply DivTransformer_rsqrt_ok|done|apply L1|done|].
  exists (u2 >? 0), f2. split; [|split; [|split; [|split]]].
  - unfold DivTransformer_Transform.
    assert (DivTransformer_rsqrts u1 f1 = Some (u2, f2)) as Hrsqrts.
    { unfold DivTransformer_rsqrts. by rewrite bind_gets. }
    by rewrite (bind_Some _ _ _ _ _ Hdivs), (bind_Some _ _ _ _ _ Hrsqrts).
  - apply L2.
  - intros a bs Ha. rewrite (lp_heap _ _ _ _ _ _ _ _ _ _ L2). by apply (dl_heap _ _ _ L1).
  - intros a Ha. rewrite (lp_memory _ _ _ _ _ _ _ _ _ _ L2). by apply (dl_memory _ _ _ L1).
  - intros o oo Ho Hdiv Hreal Hsqrt Hrcp.
    assert (op f1 o = Some oo) as Ho1.
    { apply (dl_keep _ _ _ L1); [done|]. by intros [?|?]. }
    rewrite (lp_frame _ _ _ _ _ _ _ _ _ _ L2); [done| |].
    + intros [_ (? & ? & ? & ? & ? & [])]%(Find_Matched _ 0 "Sqrt" "Reciprocal"); [|done].
      congruence.
    + intros w (? & ? & ? & ? & _ & [] & _). congruence.
Qed.

Lemma DivTransformer_preserves_witness :
  exists (changed : bool) (f' : Flow.t),
    DivTransformer_Transform div_flow = Some (changed, f')
    /\ WF f'
    /\ (forall a bs, heap div_flow !! a = Some bs -> heap f' !! a = Some bs)
    /\ (forall a, a ∈ memory_ div_flow -> a ∈ memory_ f')
    /\ (forall o oo, op div_flow o = Some oo ->
          o_type oo <> "Div" -> o_type oo <> "RealDiv" ->
          o_type oo <> "Sqrt" -> o_type oo <> "Reciprocal" -> op f' o = Some oo).
Proof.
  apply (DivTransformer_preserves div_flow); vm_compute; eauto.
Defined.

End Preservation.

(** ** DivTransformer: division of one *)
Section DivOne.
Import Flow Graph Transformers EliminateFacts PatternFacts DivFacts.

(** One iteration of the loop, at a division of the constant one by a
    variable that is not a constant. *)
Lemma div_one_step (g : Flow.t) (updates : Z) (o : OpPtr) (oo : Operation)
    (in0 in1 : VarPtr) (fv sv : Var) (x : Float.fp) :
  op g o = Some oo -> is_div oo -> o_inputs oo = [in0; in1] ->
  var g in0 = Some fv -> var g in1 = Some sv -> v_data sv = None ->
  v_type fv = DT_FLOAT -> elements fv = 1 -> is_Some (v_data fv) ->
  GetData_float g fv = Some x -> Float.deq (Float.to_double x) Float.d_one = true ->
  DivTransformer_div o updates g
  = Some (updates + 1, RemoveInput o in0 (update_op o (set_o_type "Reciprocal") g)).
Proof.
  intros Ho Hty Hins Hfirst Hsecond Hdata Hfloat Hel [a Ha] Hval Hone.
  unfold DivTransformer_div. rewrite (bind_get_op _ _ _ _ Ho).
  assert (bool_decide (o_type oo ≠ "Div") && bool_decide (o_type oo ≠ "RealDiv") = false)
    as ->.
  { destruct Hty as [-> | ->]; by vm_compute. }
  unfold indegree. rewrite Hins.
  change (negb (Z.of_nat (length [in0; in1]) =? 2)) with false. cbv iota.
  change ([in0; in1] !! 0%nat) with (Some in0).
  change ([in0; in1] !! 1%nat) with (Some in1).
  rewrite !bind_lift, (bind_get_var _ _ _ _ Hfirst), (bind_get_var _ _ _ _ Hsecond).
  unfold constant. rewrite Hdata, Hfloat, Hel, Ha.
  rewrite (bool_decide_eq_false_2 (None ≠ None)) by (by intros ?).
  rewrite andb_false_r. cbn [andb].
  rewrite !bool_decide_eq_true_2 by done. cbn [Z.eqb Pos.eqb andb].
  rewrite bind_gets, Hval, Hone. by rewrite !bind_modify.
Qed.

(** The loop over the operations, on a flow with a division of the
    constant one that no other operation reads. *)
Lemma divs_div_one (f f1 : Flow.t) (u1 : Z) (o : OpPtr) (oo : Operation)
    (in0 in1 : VarPtr) (fv sv : Var) (a : Addr) (bs : list byte) (x : Float.fp) :
  WF f -> op f o = Some oo -> is_div oo -> o_inputs oo = [in0; in1] ->
  var f in0 = Some fv -> var f in1 = Some sv -> v_data sv = None ->
  v_type fv = DT_FLOAT -> elements fv = 1 -> v_consumers fv = [o] ->
  v_data fv = Some a -> heap f !! a = Some bs -> Float.load_float bs = Some x ->
  Float.deq (Float.to_double x) Float.d_one = true ->
  DivTransformer_divs 0 f = Some (u1, f1) ->
  0 < u1 /\ DivLoop f f1 (ops_ f)
  /\ op f1 o = Some (set_o_inputs [in1] (set_o_type "Reciprocal" oo))
  /\ var f1 in0 = Some (set_v_consumers [] fv)
  /\ var f1 in1 = Some sv.
Proof.
  intros Hwf Ho Hty Hins Hfv Hsv Hdata Hfloat Hel Hcons Ha Hblock Hx Hone Hdivs.
  assert (for_each (Flow.ops_ f) DivTransformer_div 0 f = Some (u1, f1)) as Hrun by done.
  assert (in1 <> in0) as Hne by (intros ->; congruence).
  assert (o ∈ Flow.ops_ f) as Hin by (apply (wf_ops f Hwf); by eexists).
  apply list_elem_of_split in Hin as (l1 & l2 & Hsplit).
  pose proof (wf_nodup f Hwf) as Hnd. rewrite Hsplit in Hnd.
  apply NoDup_app in Hnd as (_ & Hl1 & [Hl2 _]%NoDup_cons).
  pose proof (div_loop _ _ _ _ _ Hwf Hrun) as [_ Lall].
  rewrite Hsplit in Hrun. apply for_each_app in Hrun as (ua & ga & Hra & Hrun).
  simpl in Hrun. inv_bind Hrun ub gb Hb.
  apply div_loop in Hra as [Hua La]; [|done].
  assert (op ga o = Some oo) as Hoa.
  { rewrite (dl_op _ _ _ La); [done|]. intros ?. eapply Hl1; [done|]. by left. }
  assert (var ga in0 = Some fv) as Hfva.
  { apply (dl_var_cons _ _ _ La); [done|]. intros o' Ho'. rewrite Hcons.
    intros ->%list_elem_of_singleton. eapply Hl1; [done|]. by left. }
  assert (var ga in1 = Some sv) as Hsva by by apply (dl_var_data _ _ _ La).
  assert (GetData_float ga fv = Some x) as Hval.
  { unfold GetData_float. rewrite Ha. cbn. rewrite Hfloat, Hel.
    rewrite bool_decide_eq_true_2 by done. cbn.
    rewrite (dl_heap _ _ _ La a bs Hblock). done. }
  rewrite (div_one_step ga ua o oo in0 in1 fv sv x) in Hb
    by (try done; rewrite Ha; eauto).
  injection Hb as <- <-.
  set (gb := RemoveInput o in0 (update_op o (set_o_type "Reciprocal") ga)) in *.
  assert (WF gb) as Hwfb.
  { eapply WF_RemoveInput; [apply WF_set_type, La| |].
    - by rewrite op_update_op_eq, Hoa.
    - simpl. rewrite Hins. by left. }
  assert (op gb o = Some (set_o_inputs [in1] (set_o_type "Reciprocal" oo))) as Hob.
  { unfold gb. rewrite op_RemoveInput, decide_True by done.
    rewrite op_update_op_eq, Hoa. simpl. rewrite Hins. simpl.
    by rewrite bool_decide_eq_true_2. }
  assert (var gb in0 = Some (set_v_consumers [] fv)) as Hfvb.
  { unfold gb. rewrite var_RemoveInput, decide_True by done.
    rewrite var_update_op, Hfva. simpl. rewrite Hcons. simpl.
    by rewrite bool_decide_eq_true_2. }
  assert (var gb in1 = Some sv) as Hsvb.
  { unfold gb. rewrite var_RemoveInput, decide_False by done. by rewrite var_update_op. }
  apply div_loop in Hrun as [Hub Lb]; [|done].
  split; [lia|]. split; [done|]. split; [|split].
  - by rewrite (dl_op _ _ _ Lb).
  - apply (dl_var_cons _ _ _ Lb); [done|]. intros o' _. simpl. by intros ?%elem_of_nil.
  - by apply (dl_var_data _ _ _ Lb).
Qed.

(** X11. In a well-formed flow whose [Sqrt] operations have one input and one
    output, for every [Div] or [RealDiv] of a constant float [1.0] that
    only this operation reads by a variable that is neither a constant
    nor the output of a [Sqrt], [DivTransformer], when its loop over the
    divisions does not abort, returns true and leaves the operation as a
    [Reciprocal] of its second input; the constant is left without
    consumers. *)
Theorem Div_of_one (f : Flow.t) (o : OpPtr) (oo : Operation) (in0 in1 : VarPtr)
    (fv sv : Var) (a : Addr) (bs : list byte) (x : Float.fp) :
  well_formed f = true -> unary "Sqrt" f = true ->
  op f o = Some oo -> o_type oo = "Div" \/ o_type oo = "RealDiv" ->
  o_inputs oo = [in0; in1] ->
  var f in0 = Some fv -> var f in1 = Some sv -> v_data sv = None ->
  (forall p po, v_producer sv = Some p -> op f p = Some po -> o_type po <> "Sqrt") ->
  v_type fv = DT_FLOAT -> elements fv = 1 -> v_consumers fv = [o] ->
  v_data fv = Some a -> heap f !! a = Some bs -> Float.load_float bs = Some x ->
  Float.deq (Float.to_double x) Float.d_one = true ->
  is_Some (DivTransformer_divs 0 f) ->
  exists f' : Flow.t,
    DivTransformer_Transform f = Some (true, f')
    /\ op f' o = Some (set_o_inputs [in1] (set_o_type "Reciprocal" oo))
    /\ var f' in0 = Some (set_v_consumers [] fv).
Proof.
  intros Hwf%well_formed_WF Har%unary_Arity Ho Hty Hins Hfv Hsv Hdata Hprod Hfloat Hel
    Hcons Ha Hblock Hx Hone [[u1 f1] Hdivs].
  destruct (divs_div_one f f1 u1 o oo in0 in1 fv sv a bs x)
    as (Hu1 & L1 & Ho1 & Hfv1 & Hsv1); [done..|].
  assert (Arity "Sqrt" f1) as Har1.
  { intros o' oo' Ho' Hoty. apply (Har o' oo'); [|done].
    apply (dl_back _ _ _ L1); [done|by rewrite Hoty..]. }
  pose proof (dl_wf _ _ _ L1) as Hwf1.
  destruct (find_loop_ok "Sqrt|Reciprocal" 0 "Sqrt" "Reciprocal" "Rsqrt" (fun l => l)
              DivTransformer_rsqrt f1 u1)
    as (u2 & f2 & Hrun2 & L2);
    [done|done|apply DivTransformer_rsqrt_ok|done|done|done|].
  exists f2. split; [|split].
  - unfold DivTransformer_Transform.
    assert (DivTransformer_rsqrts u1 f1 = Some (u2, f2)) as Hrsqrts.
    { unfold DivTransformer_rsqrts. by rewrite bind_gets. }
    rewrite (bind_Some _ _ _ _ _ Hdivs), (bind_Some _ _ _ _ _ Hrsqrts).
    unfold mret, StErr_ret. do 2 f_equal. apply Z.gtb_lt.
    pose proof (proj1 (lp_acc _ _ _ _ _ _ _ _ _ _ L2)). lia.
  - rewrite (lp_frame _ _ _ _ _ _ _ _ _ _ L2); [done| |].
    + intros [_ (co & w & wv & p & po & [])]%(Find_Matched _ 0 "Sqrt" "Reciprocal");
        [|done].
      rewrite Ho1 in m_c0. injection m_c0 as <-. simpl in m_w0. injection m_w0 as <-.
      rewrite Hsv1 in m_wv0. injection m_wv0 as <-.
      apply (Hprod p po); [done| |done].
      apply (dl_back _ _ _ L1); [done|by rewrite m_ptype0..].
    + intros w' (? & ? & ? & ? & _ & [] & _). rewrite Ho1 in m_po0. by simplify_eq.
  - destruct (lp_var _ _ _ _ _ _ _ _ _ _ L2 in0 _ Hfv1) as (fv2 & Hfv2 & Hsame & Hlen).
    { intros p (c' & co & wv' & po & _ & Hm & _).
      pose proof (Match_consumer _ _ _ _ _ _ _ _ _ _ Hwf1 Hm) as Hc'. destruct Hm.
      rewrite Hfv1 in m_wv0. injection m_wv0 as <-. simpl in Hc'.
      by apply elem_of_nil in Hc'. }
    rewrite Hfv2, Hsame. simpl in Hlen. destruct (v_consumers fv2); [done|by simpl in Hlen].
Qed.

(** The flow [y = Div(c, x)] with the constant [c = 1]. *)
Definition div_one_flow : Flow.t :=
  let v sh d size o p c := mkVariable "" DT_FLOAT sh d size o p c in
  mkFlow [0; 1; 2]%nat [0%nat]
    (list_to_map
       [(0, v [] (Some 7) 4%Z false None [0]); (1, v [8%Z] None 32%Z false None [0]);
        (2, v [8%Z] None 32%Z true (Some 0) [])]%nat)
    (list_to_map [(0%nat, mkOperation "y" "Div" [0; 1]%nat [2%nat] [] [])])
    [] (list_to_map [(7%nat, Float.bytes_of_bits 4 0x3f800000)]).

Lemma Div_of_one_witness :
  exists f' : Flow.t,
    DivTransformer_Transform div_one_flow = Some (true, f')
    /\ op f' 0%nat = Some (mkOperation "y" "Reciprocal" [1%nat] [2%nat] [] [])
    /\ var f' 0%nat = Some (mkVariable "" DT_FLOAT [] (Some 7%nat) 4 false None []).
Proof.
  refine (Div_of_one div_one_flow 0%nat
            (mkOperation "y" "Div" [0; 1]%nat [2%nat] [] []) 0%nat 1%nat
            (mkVariable "" DT_FLOAT [] (Some 7%nat) 4 false None [0%nat])
            (mkVariable "" DT_FLOAT [8%Z] None 32 false None [0%nat])
            7%nat (Float.bytes_of_bits 4 0x3f800000)
            (Float.Finite false 8388608 (-23))
            _ _ _ (or_introl _) _ _ _ _ _ _ _ _ _ _ _ _ _); try (vm_compute; eauto; fail).
  intros p po Hp. discriminate Hp.
Defined.

(** X12. The two loops of [DivTransformer] compose: in a well-formed flow
    whose [Sqrt] operations have one input and one output, a [Div] or
    [RealDiv] of a constant float [1.0] that only this operation reads by
    the output of a [Sqrt], when that output has one consumer and is
    neither an output of the flow nor a constant, is left as an [Rsqrt]
    of the input of the [Sqrt], and the [Sqrt] is removed; the
    transformer returns true, when its loop over the divisions does not
    abort. *)
Theorem Div_of_one_by_Sqrt (f : Flow.t) (o sqrt : OpPtr) (oo so : Operation)
    (in0 w y : VarPtr) (fv wv : Var) (a : Addr) (bs : list byte) (x : Float.fp) :
  well_formed f = true -> unary "Sqrt" f = true ->
  op f o = Some oo -> o_type oo = "Div" \/ o_type oo = "RealDiv" ->
  o_inputs oo = [in0; w] ->
  var f in0 = Some fv -> var f w = Some wv -> v_data wv = None ->
  v_producer wv = Some sqrt -> usages wv = 1 -> out wv = false ->
  op f sqrt = Some so -> o_type so = "Sqrt" -> o_inputs so = [y] -> o_outputs so = [w] ->
  v_type fv = DT_FLOAT -> elements fv = 1 -> v_consumers fv = [o] ->
  v_data fv = Some a -> heap f !! a = Some bs -> Float.load_float bs = Some x ->
  Float.deq (Float.to_double x) Float.d_one = true ->
  is_Some (DivTransformer_divs 0 f) ->
  exists f' : Flow.t,
    DivTransformer_Transform f = Some (true, f')
    /\ op f' o = Some (set_o_inputs [y] (set_o_type "Rsqrt" oo))
    /\ op f' sqrt = None.
Proof.
  intros Hwf%well_formed_WF Har%unary_Arity Ho Hty Hins Hfv Hw Hdata Hprod Hu Hout
    Hsqrt Hsty Hsin Hsout Hfloat Hel Hcons Ha Hblock Hx Hone [[u1 f1] Hdivs].
  destruct (divs_div_one f f1 u1 o oo in0 w fv wv a bs x)
    as (Hu1 & L1 & Ho1 & Hfv1 & Hw1); [done..|].
  assert (Arity "Sqrt" f1) as Har1.
  { intros o' oo' Ho' Hoty. apply (Har o' oo'); [|done].
    apply (dl_back _ _ _ L1); [done|by rewrite Hoty..]. }
  assert (op f1 sqrt = Some so) as Hsqrt1.
  { apply (dl_keep _ _ _ L1); [done|]. intros [?|?]; congruence. }
  destruct (rsqrts_spec f1 u1 o sqrt w y
              (set_o_inputs [w] (set_o_type "Reciprocal" oo)) so wv)
    as (u2 & f2 & Hrun2 & Hiff & _); [apply L1|done..|].
  destruct (proj2 Hiff (conj Hu Hout)) as [Ho2 Hsqrt2].
  exists f2. split; [|by split].
  unfold DivTransformer_Transform.
  rewrite (bind_Some _ _ _ _ _ Hdivs), (bind_Some _ _ _ _ _ Hrun2).
  unfold mret, StErr_ret. do 2 f_equal. apply Z.gtb_lt.
  unfold DivTransformer_rsqrts in Hrun2. rewrite bind_gets in Hrun2.
  apply ResultFacts.for_each_counts in Hrun2 as [Hle _];
    [lia|apply ResultFacts.DivTransformer_rsqrt_counts].
Qed.

(** The flow [r = Div(c, Sqrt(x))] with the constant [c = 1]. *)
Definition div_sqrt_flow : Flow.t :=
  let v sh d size o p c := mkVariable "" DT_FLOAT sh d size o p c in
  mkFlow [0; 1; 2; 3]%nat [0; 1]%nat
    (list_to_map
       [(0, v [8%Z] None 32%Z false None [0]); (1, v [8%Z] None 32%Z false (Some 0) [1]);
        (2, v [] (Some 7) 4%Z false None [1]);
        (3, v [8%Z] None 32%Z true (Some 1) [])]%nat)
    (list_to_map
       [(0, mkOperation "s" "Sqrt" [0] [1] [] []);
        (1, mkOperation "r" "Div" [2; 1] [3] [] [])]%nat)
    [] (list_to_map [(7%nat, Float.bytes_of_bits 4 0x3f800000)]).

Lemma Div_of_one_by_Sqrt_witness :
  exists f' : Flow.t,
    DivTransformer_Transform div_sqrt_flow = Some (true, f')
    /\ op f' 1%nat = Some (mkOperation "r" "Rsqrt" [0%nat] [3%nat] [] [])
    /\ op f' 0%nat = None.
Proof.
  refine (Div_of_one_by_Sqrt div_sqrt_flow 1%nat 0%nat
            (mkOperation "r" "Div" [2; 1]%nat [3%nat] [] [])
            (mkOperation "s" "Sqrt" [0%nat] [1%nat] [] []) 2%nat 1%nat 0%nat
            (mkVariable "" DT_FLOAT [] (Some 7%nat) 4 false None [1%nat])
            (mkVariable "" DT_FLOAT [8%Z] None 32 false (Some 0%nat) [1%nat])
            7%nat (Float.bytes_of_bits 4 0x3f800000)
            (Float.Finite false 8388608 (-23))
            _ _ _ (or_introl _) _ _ _ _ _ _ _ _ _ _ _ _ _ _ _ _ _ _ _);
    vm_compute; eauto.
Defined.

End DivOne.

(** ** LogicTransformer: negated comparisons *)
Section NotCompare.
Import Flow Graph Transformers EliminateFacts PatternFacts.

(** The comparison that replaces the negation of a comparison (lines
    776-793). *)
Definition complement (ty : string) : option string :=
  if bool_decide (ty = "Equal") then Some "NotEqual"
  else if bool_decide (ty = "NotEqual") then Some "Equal"
  else if bool_decide (ty = "Less") then Some "GreaterEqual"
  else if bool_decide (ty = "LessEqual") then Some "Greater"
  else if bool_decide (ty = "Greater") then Some "LessEqual"
  else if bool_decide (ty = "GreaterEqual") then Some "Less"
  else None.

Lemma complement_involutive ty repl : complement ty = Some repl -> complement repl = Some ty.
Proof.
  unfold complement. repeat case_bool_decide; intros [= <-]; subst; done.
Qed.

(** The flow after [Eliminate] has removed an operation with the input
    [x] and the output [y]. *)
Lemma Eliminate_unary (f : Flow.t) (o : OpPtr) (oo : Operation) (x y : VarPtr)
    (xv yv : Var) :
  op f o = Some oo -> o_inputs oo = [x] -> o_outputs oo = [y] ->
  var f x = Some xv -> var f y = Some yv -> x <> y ->
  exists f', Eliminate o f = Some f'
    /\ op f' o = None /\ var f' y = None
    /\ var f' x = Some (set_v_consumers (remove_first o (v_consumers xv) ++ v_consumers yv)
                          (if out yv then set_v_out true xv else xv))
    /\ (forall c co, c <> o -> op f c = Some co -> y ∉ o_inputs co -> op f' c = Some co).
Proof.
  intros Ho Hin Hout Hx Hy Hne. unfold Eliminate. rewrite Ho. cbn. rewrite Hin, Hout, Hy.
  cbn. rewrite Hx. cbn. eexists. split; [done|]. split; [|split; [|split]].
  - rewrite op_DeleteOperation. by rewrite decide_True.
  - unfold var, DeleteOperation, DeleteVariable, update_var. cbn.
    apply lookup_delete_eq.
  - unfold var, DeleteOperation, DeleteVariable, update_var. cbn.
    rewrite lookup_delete_ne by done. rewrite lookup_alter_eq.
    destruct (out yv).
    + cbn. rewrite lookup_alter_eq. unfold var in Hx. by rewrite Hx.
    + unfold var in Hx. by rewrite Hx.
  - intros c co Hc Hco Hnot. rewrite op_DeleteOperation, decide_False by done.
    unfold op, DeleteVariable, update_var. unfold op in Hco.
    destruct (out yv); cbn; rewrite lookup_fmap, Hco; cbn; f_equal;
      (rewrite map_subst_none by (by apply count_zero)); apply set_o_inputs_id.
Qed.

(** X13. The folding loop replaces the negation of a comparison by the
    complementary comparison: when a [Not] reads output 0 of a comparison
    that has no other consumer and is not an output of the flow, the
    iteration at the [Not] removes it together with its output, gives the
    comparison the complementary type (which has the comparison as its
    own complement), and the output of the comparison takes over the
    consumers of the output of the [Not] and is an output of the flow if
    that one was. *)
Theorem Not_of_comparison (f : Flow.t) (neg cmp : OpPtr) (no co : Operation)
    (w y : VarPtr) (wv yv : Var) (repl : string) :
  well_formed f = true ->
  op f neg = Some no -> o_type no = "Not" -> o_inputs no = [w] -> o_outputs no = [y] ->
  var f w = Some wv -> var f y = Some yv -> w <> y ->
  v_producer wv = Some cmp -> op f cmp = Some co ->
  complement (o_type co) = Some repl -> o_outputs co !! 0%nat = Some w ->
  y ∉ o_inputs co -> usages wv = 1 -> out wv = false ->
  exists f' : Flow.t,
    LogicTransformer_fold neg f = Some (true, f')
    /\ op f' cmp = Some (set_o_type repl co)
    /\ complement repl = Some (o_type co)
    /\ op f' neg = None /\ var f' y = None
    /\ var f' w = Some (set_v_consumers (v_consumers yv) (set_v_out (out yv) wv)).
Proof.
  intros Hwf%well_formed_WF Hneg Hnty Hnin Hnout Hw Hy Hwy Hprod Hcmp Hcompl Hcout
    Hfree Hu Hout.
  assert (cmp <> neg) as Hne.
  { intros ->. assert (co = no) as -> by congruence.
    rewrite Hnty in Hcompl. by vm_compute in Hcompl. }
  assert (v_consumers wv = [neg]) as Hcons.
  { apply single_consumer; [unfold usages, OpPtr in *; lia|].
    rewrite (wf_edges f Hwf neg no w wv) by done. apply count_pos.
    rewrite Hnin. by apply elem_of_cons; left. }
  destruct (Eliminate_unary f neg no w y wv yv) as (g & Helim & Hgneg & Hgy & Hgw & Hgop);
    [done..|].
  assert (FoldNotCompare cmp neg repl f
          = Some (true, update_op cmp (set_o_type repl) g)) as Hfold.
  { unfold FoldNotCompare. rewrite (bind_get_op _ _ _ _ Hcmp), Hcout, bind_lift.
    rewrite (bind_get_var _ _ _ _ Hw), Hu, Hout. cbn [Z.eqb Pos.eqb negb].
    by rewrite (bind_call _ _ _ _ Helim), bind_modify. }
  exists (update_op cmp (set_o_type repl) g). split; [|split; [|split; [|split; [|split]]]].
  - unfold LogicTransformer_fold. rewrite (bind_get_op _ _ _ _ Hneg).
    rewrite bool_decide_eq_false_2 by (by intros ?).
    unfold indegree. rewrite Hnin.
    change (negb (Z.of_nat (length [w]) =? 1)) with false. cbn [orb].
    change ([w] !! 0%nat) with (Some w).
    rewrite bind_lift, (bind_get_var _ _ _ _ Hw), Hprod, (bind_get_op _ _ _ _ Hcmp).
    rewrite <- Hfold. unfold complement in Hcompl.
    destruct (decide (o_type co = "Not")) as [Hnot|Hnot].
    { rewrite Hnot in Hcompl. by vm_compute in Hcompl. }
    rewrite (bool_decide_eq_false_2 (o_type co = "Not")) by done.
    repeat (case_bool_decide; [by injection Hcompl as <-|]). done.
  - rewrite op_update_op_eq, (Hgop cmp co) by done. done.
  - by apply complement_involutive.
  - rewrite op_update_op_ne by done. done.
  - by rewrite var_update_op.
  - rewrite var_update_op, Hgw, Hcons. f_equal. cbn [remove_first].
    rewrite bool_decide_eq_true_2 by done. cbn [app].
    unfold out in *. destruct (v_out yv); destruct wv; cbn in *; by subst.
Qed.

(** The flow [z = Not(Less(a, b))] with the output [z]. *)
Definition not_less_flow : Flow.t :=
  let v o p c := mkVariable "" DT_FLOAT [8%Z] None 32%Z o p c in
  mkFlow [0; 1; 2; 3]%nat [0; 1]%nat
    (list_to_map
       [(0, v false None [0]); (1, v false None [0]);
        (2, v false (Some 0) [1]); (3, v true (Some 1) [])]%nat)
    (list_to_map
       [(0, mkOperation "c" "Less" [0; 1] [2] [] []);
        (1, mkOperation "z" "Not" [2] [3] [] [])]%nat)
    [] ∅.

Lemma Not_of_comparison_witness :
  exists f' : Flow.t,
    LogicTransformer_fold 1%nat not_less_flow = Some (true, f')
    /\ op f' 0%nat = Some (mkOperation "c" "GreaterEqual" [0; 1]%nat [2%nat] [] [])
    /\ complement "GreaterEqual" = Some "Less"
    /\ op f' 1%nat = None /\ var f' 3%nat = None
    /\ var f' 2%nat = Some (mkVariable "" DT_FLOAT [8%Z] None 32%Z true (Some 0%nat) []).
Proof.
  refine (Not_of_comparison not_less_flow 1%nat 0%nat
            (mkOperation "z" "Not" [2%nat] [3%nat] [] [])
            (mkOperation "c" "Less" [0; 1]%nat [2%nat] [] []) 2%nat 3%nat
            (mkVariable "" DT_FLOAT [8%Z] None 32%Z false (Some 0%nat) [1%nat])
            (mkVariable "" DT_FLOAT [8%Z] None 32%Z true (Some 1%nat) [])
            "GreaterEqual" _ _ _ _ _ _ _ _ _ _ _ _ _ _ _); try reflexivity.
  - intros H. discriminate H.
  - intros H. apply elem_of_cons in H as [H|H]; [discriminate H|].
    apply elem_of_cons in H as [H|H]; [discriminate H|]. by apply elem_of_nil in H.
Defined.

End NotCompare.

(** ** Operations that [ExpressionTransformer] leaves alone *)
Module FrameFacts.
Import Flow Graph Transformers EliminateFacts CombineFacts TerminationFacts DivFacts.

(** The operations other than [first] and [second] are the same in both
    flows. *)
Definition others (first second : OpPtr) (f f' : Flow.t) : Prop :=
  forall o, o <> first -> o <> second -> op f' o = op f o.

Lemma others_refl first second f : others first second f f.
Proof. by intros o _ _. Qed.

Lemma others_trans first second f g h :
  others first second f g -> others first second g h -> others first second f h.
Proof. intros H1 H2 o ? ?. rewrite H2, H1; done. Qed.

Lemma op_RemoveInput_ne o v f o' : o' <> o -> op (RemoveInput o v f) o' = op f o'.
Proof. intros. by rewrite op_RemoveInput, decide_False. Qed.

Lemma op_RemoveOutput_ne o v f o' : o' <> o -> op (RemoveOutput o v f) o' = op f o'.
Proof.
  intros. unfold RemoveOutput. change (op (update_var ?a ?b ?c) o') with (op c o').
  by rewrite op_update_op_ne.
Qed.

Lemma op_MoveInput_ne second first v f o' :
  o' <> first -> o' <> second -> op (MoveInput second first v f) o' = op f o'.
Proof.
  intros. unfold MoveInput. change (op (update_var ?a ?b ?c) o') with (op c o').
  rewrite op_update_op_ne by done. by apply op_RemoveInput_ne.
Qed.

Lemma op_MoveOutput_ne second first v f o' :
  o' <> first -> o' <> second -> op (MoveOutput second first v f) o' = op f o'.
Proof.
  intros. unfold MoveOutput. change (op (update_var ?a ?b ?c) o') with (op c o').
  rewrite op_update_op_ne by done. by apply op_RemoveOutput_ne.
Qed.

Lemma op_DeleteVariable v f o : op (DeleteVariable v f) o = op f o.
Proof. done. Qed.

Lemma others_fuse_input first second m g v f' :
  fuse_input first second m g v = Some f' ->
  exists f, g = Some f /\ others first second f f'.
Proof.
  unfold fuse_input. destruct g as [f|]; [|done]. cbn.
  destruct (op f first) as [fo|]; [|done]. cbn.
  destruct (m && IsInput fo v).
  { intros [= <-]. exists f. split; [done|]. intros o ? ?. by apply op_RemoveInput_ne. }
  destruct (IsOutput fo v).
  - destruct (var (RemoveInput second v f) v) as [vv|]; [|done]. cbn.
    destruct ((usages vv =? 0) && negb (out vv)); intros [= <-]; exists f;
      (split; [done|]); intros o ? ?.
    + rewrite op_DeleteVariable, op_RemoveOutput_ne by done. by apply op_RemoveInput_ne.
    + by apply op_RemoveInput_ne.
  - intros [= <-]. exists f. split; [done|]. intros o ? ?. by apply op_MoveInput_ne.
Qed.

Lemma others_fuse_output first second g v f' :
  fuse_output first second g v = Some f' ->
  exists f, g = Some f /\ others first second f f'.
Proof.
  unfold fuse_output. destruct g as [f|]; [|done]. cbn.
  destruct (op f first) as [fo|]; [|done]. cbn.
  destruct (var f v) as [vv|]; [|done]. cbn.
  destruct (IsInput fo v).
  { destruct ((usages vv =? 1) && negb (out vv)); intros [= <-]; exists f;
      (split; [done|]); intros o ? ?.
    - rewrite op_DeleteVariable, op_RemoveOutput_ne by done. by apply op_RemoveInput_ne.
    - rewrite op_MoveOutput_ne by done. by apply op_RemoveInput_ne. }
  destruct (IsOutput fo v); intros [= <-]; exists f; (split; [done|]); intros o ? ?.
  - by apply op_RemoveOutput_ne.
  - by apply op_MoveOutput_ne.
Qed.

Lemma others_fold {A} first second (step : option Flow.t -> A -> option Flow.t) l :
  (forall g v f', step g v = Some f' -> exists f, g = Some f /\ others first second f f') ->
  forall g f', fold_left step l g = Some f' ->
               exists f, g = Some f /\ others first second f f'.
Proof.
  intros Hstep. induction l as [|v l IH]; intros g f' H; simpl in H.
  - subst. exists f'. split; [done|apply others_refl].
  - apply IH in H as (f1 & H1 & Hl). apply Hstep in H1 as (f & -> & Hl').
    exists f. split; [done|by eapply others_trans].
Qed.

(** [Fuse] changes no operation other than the two it merges. *)
Lemma Fuse_others first second ty m f r f' :
  Fuse first second ty m f = Some (r, f') -> r = first /\ others first second f f'.
Proof.
  unfold Fuse. destruct (op f second) as [so|] eqn:Hso; [|done]. cbn.
  destruct (op f first) as [fo|]; [|done]. cbn.
  destruct (fold_left _ (o_inputs so) _) as [f1|] eqn:H1; [|done]. cbn.
  destruct (fold_left _ (o_outputs so) _) as [f2|] eqn:H2; [|done]. cbn.
  intros [= <- <-]. split; [done|].
  apply (others_fold first second) in H1 as (? & [= <-] & Hl1); [|apply others_fuse_input].
  apply (others_fold first second) in H2 as (? & [= <-] & Hl2); [|apply others_fuse_output].
  intros o ? ?. rewrite op_DeleteOperation, decide_False by done.
  rewrite op_update_op_ne by done. rewrite Hl2, Hl1; done.
Qed.

(** [Combine] goes ahead only if neither operation has the attribute
    [nomerge]. *)
Lemma can_combine_nomerge first second f f' :
  can_combine first second f = Some (true, f') ->
  exists fo so, op f first = Some fo /\ op f second = Some so
    /\ GetAttrBool fo "nomerge" false = false /\ GetAttrBool so "nomerge" false = false.
Proof.
  intros H. unfold can_combine in H.
  inv_bind H fo s Hfo. apply get_op_inv in Hfo as [Hfo ->].
  destruct (GetAttrBool fo "nomerge" false) eqn:Hnf; [by inv_ret H|].
  inv_bind H so s Hso. apply get_op_inv in Hso as [Hso ->].
  destruct (GetAttrBool so "nomerge" false) eqn:Hns; [by inv_ret H|].
  by exists fo, so.
Qed.

(** The operations with the attribute [nomerge] are the same in both
    flows. *)
Definition kept (f f' : Flow.t) : Prop :=
  forall o oo, op f o = Some oo -> GetAttrBool oo "nomerge" false = true ->
               op f' o = Some oo.

Lemma kept_refl f : kept f f.
Proof. by intros o oo. Qed.

Lemma kept_trans f g h : kept f g -> kept g h -> kept f h.
Proof. intros H1 H2 o oo Ho Ha. apply H2; [|done]. by apply H1. Qed.

(** [Combine] changes no operation other than the two it is given. *)
Lemma Combine_others first second f ok f' :
  Combine first second f = Some (ok, f') -> others first second f f'.
Proof.
  intros H. pose proof (Combine_combined _ _ _ _ _ H) as Hc.
  destruct ok; [|unfold combined in Hc; subst; apply others_refl].
  intros o Hne1 Hne2. unfold Combine in H.
  inv_bind H ok1 s Hcan. pose proof (ro_can_combine _ _ _ _ _ Hcan) as ->.
  destruct ok1; cbn [negb] in H; [|by inv_ret H].
  rewrite bind_gets in H. inv_bind H recipe s Hfuse. apply ro_lift in Hfuse as ->.
  destruct (Express.empty recipe); [by inv_ret H|].
  inv_bind H so1 s Hso1. apply ro_get_op in Hso1 as ->.
  unfold fuse_ops in H.
  inv_bind H so2 s Hso2. apply ro_get_op in Hso2 as ->.
  inv_bind H target s Ht.
  assert (s = f) as ->.
  { destruct (IsAssignmentOp so1); [by apply ro_lift in Ht|by inv_ret Ht]. }
  inv_bind H fused f1 HF. apply Fuse_others in HF as (-> & Hoth).
  inv_bind H fu1 s Hfu1. apply ro_get_op in Hfu1 as ->.
  inv_bind H in0 s Hin0.
  assert (s = f1) as ->.
  { destruct (IsAssignmentOp so1); [by apply ro_lift in Hin0|by inv_ret Hin0]. }
  inv_bind H r f2 Hr.
  assert (op f2 o = op f1 o) as Ho2.
  { destruct (IsAssignmentOp so1 && bool_decide (in0 ≠ target)).
    - cbv zeta in Hr.
      inv_bind Hr u s Hck. apply check_inv in Hck as [_ ?]. cbn [fst snd] in *. subst s.
      inv_bind Hr r1 s Hsw. apply ro_lift in Hsw as ->.
      inv_bind Hr ins s Hins. apply ro_lift in Hins as ->.
      rewrite bind_modify in Hr. apply ret_inv in Hr.
      assert (f2 = update_op first (set_o_inputs ins) f1) as -> by congruence.
      by apply op_update_op_ne.
    - apply ret_inv in Hr. congruence. }
  inv_bind H fu2 s Hfu2. apply ro_get_op in Hfu2 as ->.
  rewrite bind_modify in H. apply ret_inv in H.
  assert (f' = update_op first (set_o_expr r) f2) as -> by congruence.
  rewrite op_update_op_ne by done. rewrite Ho2, Hoth; done.
Qed.

Lemma Combine_kept first second f ok f' :
  Combine first second f = Some (ok, f') -> kept f f'.
Proof.
  intros H. pose proof (Combine_combined _ _ _ _ _ H) as Hc.
  pose proof (Combine_others _ _ _ _ _ H) as Hoth.
  destruct ok; [|unfold combined in Hc; subst; apply kept_refl].
  intros o oo Ho Hattr. unfold Combine in H.
  inv_bind H ok1 s Hcan. pose proof (ro_can_combine _ _ _ _ _ Hcan) as ->.
  destruct ok1; cbn [negb] in H; [|by inv_ret H].
  apply can_combine_nomerge in Hcan as (fo & so & Hfo & Hso & Hnf & Hns).
  rewrite Hoth; [done| |]; intros ->; congruence.
Qed.

(** A relation between the flow before and the flow after that every
    [Combine] keeps holds for the transformer. *)
Section Invariant.
Variable R : Flow.t -> Flow.t -> Prop.
Hypothesis R_refl : forall f, R f f.
Hypothesis R_trans : forall f g h, R f g -> R g h -> R f h.
Hypothesis R_Combine :
  forall first second f ok f', Combine first second f = Some (ok, f') -> R f f'.

Lemma absorb_inputs_inv o inputs : forall f ok f',
  absorb_inputs o inputs f = Some (ok, f') -> R f f'.
Proof.
  induction inputs as [|input rest IH]; intros f ok f' H; simpl in H.
  - inv_ret H. apply R_refl.
  - inv_bind H iv s Hiv. apply ro_get_var in Hiv as ->.
    destruct (v_producer iv) as [producer|]; [|by eapply IH].
    inv_bind H p s Hp. apply ro_get_op in Hp as ->.
    destruct (negb (IsCalculateOp p)); [by eapply IH|].
    destruct (GetAttrBool p "strict" false); [by eapply IH|].
    inv_bind H c s Hc. apply ro_contained_in in Hc as ->.
    destruct (negb c); [by eapply IH|].
    inv_bind H b s Hb. apply R_Combine in Hb.
    destruct b; [by inv_ret H|]. eapply R_trans; [done|by eapply IH].
Qed.

Lemma merge_inputs_inv o inputs : forall f ok f',
  merge_inputs o inputs f = Some (ok, f') -> R f f'.
Proof.
  induction inputs as [|input rest IH]; intros f ok f' H; simpl in H.
  - inv_ret H. apply R_refl.
  - inv_bind H iv s Hiv. apply ro_get_var in Hiv as ->.
    destruct (v_producer iv) as [producer|]; [|by eapply IH].
    inv_bind H p s Hp. apply ro_get_op in Hp as ->.
    destruct (negb (IsCalculateOp p)); [by eapply IH|].
    destruct (GetAttrBool p "strict" false); [by eapply IH|].
    inv_bind H b s Hb. apply R_Combine in Hb.
    destruct b; [by inv_ret H|]. eapply R_trans; [done|by eapply IH].
Qed.

Lemma candidates_pass_inv wanted attempt :
  (forall o inputs f ok f', attempt o inputs f = Some (ok, f') -> R f f') ->
  forall todo visited n again f r f',
    candidates_pass wanted attempt visited todo n again f = Some (r, f') -> R f f'.
Proof.
  intros Hatt. induction todo as [|[o|] todo IH]; intros visited n again f r f' H;
    simpl in H.
  - inv_ret H. apply R_refl.
  - inv_bind H oo s Ho. apply ro_get_op in Ho as ->.
    destruct (negb (wanted oo)); [by eapply IH|].
    inv_bind H ok s Hok. apply Hatt in Hok.
    destruct ok; (eapply R_trans; [done|by eapply IH]).
  - by eapply IH.
Qed.

Lemma sharing_pass_inv vs : forall f ok f',
  sharing_pass vs f = Some (ok, f') -> R f f'.
Proof.
  induction vs as [|v vs IH]; intros f ok f' H; simpl in H.
  - inv_ret H. apply R_refl.
  - inv_bind H vv s Hv. apply ro_get_var in Hv as ->.
    destruct (usages vv <? 2); [by eapply IH|].
    destruct (elements vv <? 2); [by eapply IH|].
    inv_bind H pr s Hpr. apply ro_sharing_pair in Hpr as ->.
    destruct pr as [[first|] [second|]]; try by eapply IH.
    inv_bind H b s Hb. apply R_Combine in Hb.
    destruct b; [by inv_ret H|]. eapply R_trans; [done|by eapply IH].
Qed.

Lemma while_state_inv {C} (body : C -> StErr Flow.t (C * bool)) :
  (forall c f r f', body c f = Some (r, f') -> R f f') ->
  forall fuel c f r f', while_state fuel body c f = Some (r, f') -> R f f'.
Proof.
  intros Hbody. induction fuel as [|fuel IH]; intros c f r f' H; simpl in H.
  - inv_ret H. apply R_refl.
  - inv_bind H r1 f1 H1. apply Hbody in H1.
    destruct (snd r1); [eapply R_trans; [done|by eapply IH]|by inv_ret H].
Qed.

Lemma ExpressionTransformer_inv fuel f r f' :
  ExpressionTransformer_Transform fuel f = Some (r, f') -> R f f'.
Proof.
  intros H. unfold ExpressionTransformer_Transform in H. rewrite bind_gets in H.
  inv_bind H cands s Hc. apply ro_lift in Hc as ->.
  inv_bind H r1 f1 H1. apply while_state_inv in H1.
  2: { intros c g r0 g' Hp.
       by apply (candidates_pass_inv _ _ absorb_inputs_inv) in Hp. }
  destruct (negb (snd r1)); [by inv_ret H|].
  inv_bind H r2 f2 H2. apply while_state_inv in H2.
  2: { intros c g r0 g' Hp.
       by apply (candidates_pass_inv _ _ merge_inputs_inv) in Hp. }
  destruct (negb (snd r2)); [inv_ret H; eauto|].
  inv_bind H r3 f3 H3. apply while_state_inv in H3.
  2: { intros c g r0 g' Hp. rewrite bind_gets in Hp.
       inv_bind Hp ok s Hs. apply sharing_pass_inv in Hs. by inv_ret Hp. }
  assert (f' = f3) as ->.
  { destruct (negb (snd r3)); by inv_ret H. }
  eauto.
Qed.

End Invariant.

End FrameFacts.

Section NoMerge.
Import Flow Transformers FrameFacts.

(** X14. [ExpressionTransformer::Transform] leaves every operation with the
    attribute [nomerge] as it is: it is not deleted, and its type, inputs,
    outputs, attributes and recipe are the ones it had. *)
Theorem ExpressionTransformer_keeps_nomerge (fuel : nat) (f f' : Flow.t)
    (r : option bool) (o : OpPtr) (oo : Operation) :
  ExpressionTransformer_Transform fuel f = Some (r, f') ->
  op f o = Some oo -> GetAttrBool oo "nomerge" false = true ->
  op f' o = Some oo.
Proof.
  intros H. revert o oo. change (kept f f').
  eapply (ExpressionTransformer_inv kept); [apply kept_refl|apply kept_trans| |exact H].
  apply Combine_kept.
Qed.

(** The flow [y = a + b; z = Neg(y); t = Abs(y)] in which [Neg] has the
    attribute [nomerge]: [Add] and [Abs] are combined. *)
Definition nomerge_flow : Flow.t :=
  let v p c o := mkVariable "" DT_FLOAT [32%Z] None 128 o p c in
  mkFlow [0; 1; 2; 3; 4]%nat [0; 1; 2]%nat
    (list_to_map
       [(0, v None [0] false); (1, v None [0] false); (2, v (Some 0) [1; 2] false);
        (3, v (Some 1) [] true); (4, v (Some 2) [] true)]%nat)
    (list_to_map
       [(0, mkOperation "y" "Add" [0; 1] [2] [] []);
        (1, mkOperation "z" "Neg" [2] [3] [("nomerge", "1")] []);
        (2, mkOperation "t" "Abs" [2] [4] [] [])]%nat)
    [] ∅.

Definition nomerge_flow_transformed : option (option bool * Flow.t) :=
  Eval vm_compute in ExpressionTransformer_Transform 4 nomerge_flow.

Lemma ExpressionTransformer_keeps_nomerge_witness :
  op (default nomerge_flow (snd <$> nomerge_flow_transformed)) 1%nat
  = Some (mkOperation "z" "Neg" [2%nat] [3%nat] [("nomerge", "1")] []).
Proof.
  apply (ExpressionTransformer_keeps_nomerge 4 nomerge_flow
           (default nomerge_flow (snd <$> nomerge_flow_transformed))
           (Some true) 1%nat); vm_compute; reflexivity.
Defined.

End NoMerge.

(** ** The number of elements an expression computes *)
Section CommonElements.
Import Compute Kernel.

(** X15. The number of elements that the constructor of [Expression] passes
    to the selection of the generator is the minimum of the number of
    elements of the prototype and of the common sizes of the prototype
    and the inputs that do not have exactly one element: it is at most
    each of them, and it is one of them. *)
Theorem Expression_elements (st : TensorStore) (step : Step) (x : Expression)
    (pt : Tensor) :
  Expression_init st step = Some x -> st !! prototype x = Some pt ->
  elements_ x <= elements pt
  /\ (forall i input, i ∈ s_inputs step -> st !! i = Some input -> elements input <> 1 ->
        elements_ x <= Shapes.CommonSize (shape_ pt) (shape_ input))
  /\ (elements_ x = elements pt
      \/ exists i input, i ∈ s_inputs step /\ st !! i = Some input /\ elements input <> 1
           /\ elements_ x = Shapes.CommonSize (shape_ pt) (shape_ input)).
Proof.
  unfold Expression_init. intros H Hpt.
  destruct (GetPrototype st step) as [p|]; [|done]. simpl in H.
  destruct (st !! p) as [pt'|] eqn:Hp; [|done]. simpl in H.
  destruct (common_elements st pt' (s_inputs step) (elements pt')) as [n|] eqn:Hn;
    [|done]. simpl in H.
  destruct (InitExpression st step Express.new 0%nat) as [r|]; [|done]. simpl in H.
  injection H as <-. simpl in *. assert (pt' = pt) as -> by congruence.
  by apply KernelFacts.common_elements_min.
Qed.

Definition sample_expression : Expression :=
  Eval vm_compute in
    default (mkExpression 0%nat DT_INVALID 0 Express.new)
            (Expression_init sample_tensors sample_step).

Lemma Expression_elements_witness :
  elements_ sample_expression <= elements (sample_tensor 64 None).
Proof.
  refine (proj1 (Expression_elements sample_tensors sample_step sample_expression
                   (sample_tensor 64 None) _ _)); vm_compute; reflexivity.
Defined.

End CommonElements.

(** ** What [ExpressionTransformer] does not touch *)
Module UntouchedFacts.
Import Flow Graph Transformers EliminateFacts CombineFacts TerminationFacts FrameFacts.

(** Variables that differ at most in their producer and consumers. *)
Definition same_value (v v' : Var) : Prop :=
  v' = set_v_consumers (v_consumers v') (set_v_producer (v_producer v') v).

Lemma same_value_refl v : same_value v v.
Proof. by destruct v. Qed.

Lemma same_value_trans v1 v2 v3 : same_value v1 v2 -> same_value v2 v3 -> same_value v1 v3.
Proof. unfold same_value. intros H1 H2. rewrite H2 at 1. rewrite H1 at 1. done. Qed.

(** Operations with the same name and the same attributes other than
    [expr]. *)
Definition same_attrs (o o' : Operation) : Prop :=
  o_name o' = o_name o /\ o_attrs o' = o_attrs o.

(** The second flow has the data blocks of the first, no operation and
    no variable that the first has not, its operations have the name and
    the attributes other than [expr], and its variables the name, type,
    shape, data, size and visibility that they have in the first. *)
Record untouched (f f' : Flow.t) : Prop := mkUntouched {
  un_heap : heap f' = heap f;
  un_memory : memory_ f' = memory_ f;
  un_op : forall o oo', op f' o = Some oo' ->
    exists oo, op f o = Some oo /\ same_attrs oo oo';
  un_var : forall v vv', var f' v = Some vv' ->
    exists vv, var f v = Some vv /\ same_value vv vv';
}.

Lemma untouched_refl f : untouched f f.
Proof.
  split; try done.
  - intros o oo' Ho. by exists oo'.
  - intros v vv' Hv. exists vv'. split; [done|apply same_value_refl].
Qed.

Lemma untouched_trans f g h : untouched f g -> untouched g h -> untouched f h.
Proof.
  intros [] []. split.
  - congruence.
  - congruence.
  - intros o oo' Ho. destruct (un_op1 o oo' Ho) as (oo1 & Ho1 & Hn1 & Ha1).
    destruct (un_op0 o oo1 Ho1) as (oo & Ho0 & Hn0 & Ha0).
    exists oo. split; [done|]. split; congruence.
  - intros v vv' Hv. destruct (un_var1 v vv' Hv) as (vv1 & Hv1 & Hs1).
    destruct (un_var0 v vv1 Hv1) as (vv & Hv0 & Hs0).
    exists vv. split; [done|by eapply same_value_trans].
Qed.

Lemma untouched_update_op o g f :
  (forall x, same_attrs x (g x)) -> untouched f (update_op o g f).
Proof.
  intros Hg. split; try done.
  - intros o' oo'. destruct (decide (o = o')) as [->|?].
    + rewrite op_update_op_eq. destruct (op f o') as [oo|]; [|done].
      intros [= <-]. by exists oo.
    + rewrite op_update_op_ne by done. intros Ho'. by exists oo'.
  - intros v vv' Hv. exists vv'. split; [done|apply same_value_refl].
Qed.

Lemma untouched_update_var v g f :
  (forall x, same_value x (g x)) -> untouched f (update_var v g f).
Proof.
  intros Hg. split; try done; [intros o oo' Ho; by exists oo'|].
  intros v' vv'. unfold var, update_var. simpl. destruct (decide (v' = v)) as [->|?].
  - rewrite lookup_alter_eq. destruct (var_at f !! v) as [vv|]; [|done].
    intros [= <-]. by exists vv.
  - rewrite lookup_alter_ne by done. intros Hv. exists vv'.
    split; [done|apply same_value_refl].
Qed.

Lemma untouched_DeleteVariable v f : untouched f (DeleteVariable v f).
Proof.
  split; try done; [intros o oo' Ho; by exists oo'|].
  intros v' vv'. unfold var, DeleteVariable. simpl.
  intros [_ Hv]%lookup_delete_Some. exists vv'. split; [done|apply same_value_refl].
Qed.

Lemma untouched_DeleteOperation o f : untouched f (DeleteOperation o f).
Proof.
  split; try done.
  - intros o' oo'. rewrite op_DeleteOperation. destruct (decide (o = o')); [done|].
    intros Ho'. by exists oo'.
  - intros v vv' Hv. exists vv'. split; [done|apply same_value_refl].
Qed.

Lemma same_value_consumers c x : same_value x (set_v_consumers c x).
Proof. by destruct x. Qed.

Lemma same_value_producer p x : same_value x (set_v_producer p x).
Proof. by destruct x. Qed.

Lemma untouched_RemoveInput o v f : untouched f (RemoveInput o v f).
Proof.
  unfold RemoveInput.
  eapply untouched_trans;
    [|apply untouched_update_var; intros x; apply same_value_consumers].
  by apply untouched_update_op.
Qed.

Lemma untouched_RemoveOutput o v f : untouched f (RemoveOutput o v f).
Proof.
  unfold RemoveOutput.
  eapply untouched_trans;
    [|apply untouched_update_var; intros x; apply same_value_producer].
  by apply untouched_update_op.
Qed.

Lemma untouched_MoveInput second first v f : untouched f (MoveInput second first v f).
Proof.
  unfold MoveInput.
  eapply untouched_trans;
    [|apply untouched_update_var; intros x; apply same_value_consumers].
  eapply untouched_trans; [|by apply untouched_update_op].
  apply untouched_RemoveInput.
Qed.

Lemma untouched_MoveOutput second first v f : untouched f (MoveOutput second first v f).
Proof.
  unfold MoveOutput.
  eapply untouched_trans;
    [|apply untouched_update_var; intros x; apply same_value_producer].
  eapply untouched_trans; [|by apply untouched_update_op].
  apply untouched_RemoveOutput.
Qed.

Ltac untouched :=
  repeat first
    [ apply untouched_refl | apply untouched_RemoveInput | apply untouched_RemoveOutput
    | apply untouched_MoveInput | apply untouched_MoveOutput
    | apply untouched_DeleteVariable | apply untouched_DeleteOperation
    | eapply untouched_trans; [|first [ apply untouched_DeleteVariable
                                      | apply untouched_DeleteOperation
                                      | apply untouched_RemoveOutput
                                      | apply untouched_MoveOutput ]] ].

Lemma untouched_fuse_input first second m g v f' :
  fuse_input first second m g v = Some f' -> exists f, g = Some f /\ untouched f f'.
Proof.
  unfold fuse_input. destruct g as [f|]; [|done]. cbn.
  destruct (op f first) as [fo|]; [|done]. cbn.
  destruct (m && IsInput fo v).
  { intros [= <-]. exists f. split; [done|]. untouched. }
  destruct (IsOutput fo v).
  - destruct (var (RemoveInput second v f) v) as [vv|]; [|done]. cbn.
    destruct ((usages vv =? 0) && negb (out vv)); intros [= <-]; exists f;
      (split; [done|]); untouched.
  - intros [= <-]. exists f. split; [done|]. untouched.
Qed.

Lemma untouched_fuse_output first second g v f' :
  fuse_output first second g v = Some f' -> exists f, g = Some f /\ untouched f f'.
Proof.
  unfold fuse_output. destruct g as [f|]; [|done]. cbn.
  destruct (op f first) as [fo|]; [|done]. cbn.
  destruct (var f v) as [vv|]; [|done]. cbn.
  destruct (IsInput fo v).
  { destruct ((usages vv =? 1) && negb (out vv)); intros [= <-]; exists f;
      (split; [done|]); untouched. }
  destruct (IsOutput fo v); intros [= <-]; exists f; (split; [done|]); untouched.
Qed.

Lemma untouched_fold {A} (step : option Flow.t -> A -> option Flow.t) l :
  (forall g v f', step g v = Some f' -> exists f, g = Some f /\ untouched f f') ->
  forall g f', fold_left step l g = Some f' -> exists f, g = Some f /\ untouched f f'.
Proof.
  intros Hstep. induction l as [|v l IH]; intros g f' H; simpl in H.
  - subst. exists f'. split; [done|apply untouched_refl].
  - apply IH in H as (f1 & H1 & Hl). apply Hstep in H1 as (f & -> & Hl').
    exists f. split; [done|by eapply untouched_trans].
Qed.

Lemma Fuse_untouched first second ty m f r f' :
  Fuse first second ty m f = Some (r, f') -> untouched f f'.
Proof.
  unfold Fuse. destruct (op f second) as [so|] eqn:Hso; [|done]. cbn.
  destruct (op f first) as [fo|]; [|done]. cbn.
  destruct (fold_left _ (o_inputs so) _) as [f1|] eqn:H1; [|done]. cbn.
  destruct (fold_left _ (o_outputs so) _) as [f2|] eqn:H2; [|done]. cbn.
  intros [= <- <-].
  apply untouched_fold in H1 as (? & [= <-] & Hl1); [|apply untouched_fuse_input].
  apply untouched_fold in H2 as (? & [= <-] & Hl2); [|apply untouched_fuse_output].
  eapply untouched_trans; [exact Hl1|]. eapply untouched_trans; [exact Hl2|].
  eapply untouched_trans; [|apply untouched_DeleteOperation].
  by apply untouched_update_op.
Qed.

Lemma Combine_untouched first second f ok f' :
  Combine first second f = Some (ok, f') -> untouched f f'.
Proof.
  intros H. unfold Combine in H.
  inv_bind H ok1 s Hcan. pose proof (ro_can_combine _ _ _ _ _ Hcan) as ->.
  destruct ok1; cbn [negb] in H; [|inv_ret H; apply untouched_refl].
  rewrite bind_gets in H. inv_bind H recipe s Hfuse. apply ro_lift in Hfuse as ->.
  destruct (Express.empty recipe); [inv_ret H; apply untouched_refl|].
  inv_bind H so1 s Hso1. apply ro_get_op in Hso1 as ->.
  unfold fuse_ops in H.
  inv_bind H so2 s Hso2. apply ro_get_op in Hso2 as ->.
  inv_bind H target s Ht.
  assert (s = f) as ->.
  { destruct (IsAssignmentOp so1); [by apply ro_lift in Ht|by inv_ret Ht]. }
  inv_bind H fused f1 HF. apply Fuse_untouched in HF.
  inv_bind H fu1 s Hfu1. apply ro_get_op in Hfu1 as ->.
  inv_bind H in0 s Hin0.
  assert (s = f1) as ->.
  { destruct (IsAssignmentOp so1); [by apply ro_lift in Hin0|by inv_ret Hin0]. }
  inv_bind H r f2 Hr.
  assert (untouched f1 f2) as H12.
  { destruct (IsAssignmentOp so1 && bool_decide (in0 ≠ target)).
    - cbv zeta in Hr.
      inv_bind Hr u s Hck. apply check_inv in Hck as [_ ?]. cbn [fst snd] in *. subst s.
      inv_bind Hr r1 s Hsw. apply ro_lift in Hsw as ->.
      inv_bind Hr ins s Hins. apply ro_lift in Hins as ->.
      rewrite bind_modify in Hr. apply ret_inv in Hr.
      assert (f2 = update_op fused (set_o_inputs ins) f1) as -> by congruence.
      by apply untouched_update_op.
    - apply ret_inv in Hr. assert (f2 = f1) as -> by congruence. apply untouched_refl. }
  inv_bind H fu2 s Hfu2. apply ro_get_op in Hfu2 as ->.
  rewrite bind_modify in H. apply ret_inv in H.
  assert (f' = update_op fused (set_o_expr r) f2) as -> by congruence.
  eapply untouched_trans; [exact HF|]. eapply untouched_trans; [exact H12|].
  by apply untouched_update_op.
Qed.

End UntouchedFacts.

Section Untouched.
Import Flow Transformers FrameFacts UntouchedFacts.

(** X16. [ExpressionTransformer::Transform] rewires the flow and writes
    recipes, and nothing else: the data blocks of the flow and their
    content are as they were, no operation and no variable is created,
    every operation that is left has the name it had (its type, its
    inputs and outputs and its attributes, where the fused recipe is
    written, may have changed), and every variable that is left has the
    name, type, shape, data, size and visibility it had (its producer and
    its consumers may have changed). *)
Theorem ExpressionTransformer_rewires_only (fuel : nat) (f f' : Flow.t)
    (r : option bool) :
  ExpressionTransformer_Transform fuel f = Some (r, f') ->
  heap f' = heap f /\ memory_ f' = memory_ f
  /\ (forall o oo', op f' o = Some oo' ->
        exists oo, op f o = Some oo /\ o_name oo' = o_name oo)
  /\ (forall v vv', var f' v = Some vv' ->
        exists vv, var f v = Some vv
          /\ vv' = set_v_consumers (v_consumers vv') (set_v_producer (v_producer vv') vv)).
Proof.
  intros H.
  assert (untouched f f') as [Hheap Hmem Hop Hvar].
  { eapply (ExpressionTransformer_inv untouched);
      [apply untouched_refl|apply untouched_trans| |exact H].
    apply Combine_untouched. }
  split; [done|]. split; [done|]. split; [|done].
  intros o oo' Ho. destruct (Hop o oo' Ho) as (oo & Hoo & Hname & _). by exists oo.
Qed.

Lemma ExpressionTransformer_rewires_only_witness :
  heap assign_flow_combined = heap assign_flow
  /\ memory_ assign_flow_combined = memory_ assign_flow
  /\ (forall o oo', op assign_flow_combined o = Some oo' ->
        exists oo, op assign_flow o = Some oo /\ o_name oo' = o_name oo)
  /\ (forall v vv', var assign_flow_combined v = Some vv' ->
        exists vv, var assign_flow v = Some vv
          /\ vv' = set_v_consumers (v_consumers vv') (set_v_producer (v_producer vv') vv)).
Proof.
  apply (ExpressionTransformer_rewires_only 3 assign_flow assign_flow_combined (Some true)).
  vm_compute. reflexivity.
Defined.

End Untouched.

(** ** Strict operations *)
Module StrictFacts.
Import Flow Graph Transformers EliminateFacts CombineFacts TerminationFacts FrameFacts
  UntouchedFacts.

(** [op->GetAttr("strict", false)] *)
Definition strict (oo : Operation) : bool := GetAttrBool oo "strict" false.

(** The operation [o], if the flow has it, is not strict. *)
Definition lenient (g : Flow.t) (o : OpPtr) : Prop :=
  forall oo, op g o = Some oo -> strict oo = false.

Definition all_lenient (g : Flow.t) (l : list (option OpPtr)) : Prop :=
  forall o, Some o ∈ l -> lenient g o.

(** The strict operations are the same in both flows. *)
Definition kept_strict (f f' : Flow.t) : Prop :=
  forall o oo, op f o = Some oo -> strict oo = true -> op f' o = Some oo.

Lemma kept_strict_refl f : kept_strict f f.
Proof. by intros o oo. Qed.

Lemma kept_strict_trans f g h : kept_strict f g -> kept_strict g h -> kept_strict f h.
Proof. intros H1 H2 o oo Ho Ha. apply H2; [|done]. by apply H1. Qed.

Lemma strict_same_attrs oo oo' : same_attrs oo oo' -> strict oo' = strict oo.
Proof. unfold strict, GetAttrBool. by intros [_ ->]. Qed.

Lemma lenient_untouched g g' o : untouched g g' -> lenient g o -> lenient g' o.
Proof.
  intros Hu Hl oo' Ho'. destruct (un_op _ _ Hu o oo' Ho') as (oo & Ho & Hs).
  rewrite (strict_same_attrs _ _ Hs). by apply Hl.
Qed.

Lemma all_lenient_untouched g g' l l' :
  untouched g g' -> (forall o, Some o ∈ l' -> Some o ∈ l) ->
  all_lenient g l -> all_lenient g' l'.
Proof. intros Hu Hsub Hl o Ho. eapply lenient_untouched; [done|]. by apply Hl, Hsub. Qed.

Lemma lenient_op g o oo : op g o = Some oo -> strict oo = false -> lenient g o.
Proof. intros Ho Hs oo' Ho'. congruence. Qed.

Lemma Combine_strict first second g ok g' :
  lenient g first -> lenient g second ->
  Combine first second g = Some (ok, g') -> kept_strict g g'.
Proof.
  intros H1 H2 H o oo Ho Hs. rewrite (Combine_others _ _ _ _ _ H); [done| |]; intros ->.
  - specialize (H1 oo Ho). congruence.
  - specialize (H2 oo Ho). congruence.
Qed.

Lemma absorb_inputs_strict o inputs : forall g ok g',
  lenient g o -> absorb_inputs o inputs g = Some (ok, g') -> kept_strict g g'.
Proof.
  induction inputs as [|input rest IH]; intros g ok g' Hl H; simpl in H.
  - inv_ret H. apply kept_strict_refl.
  - inv_bind H iv s Hiv. apply ro_get_var in Hiv as ->.
    destruct (v_producer iv) as [producer|]; [|by eapply IH].
    inv_bind H p s Hp. apply get_op_inv in Hp as [Hp ->].
    destruct (negb (IsCalculateOp p)); [by eapply IH|].
    destruct (GetAttrBool p "strict" false) eqn:Hs; [by eapply IH|].
    inv_bind H c s Hc. apply ro_contained_in in Hc as ->.
    destruct (negb c); [by eapply IH|].
    inv_bind H b s Hb. pose proof (Combine_combined _ _ _ _ _ Hb) as Hcomb.
    apply Combine_strict in Hb; [|by eapply lenient_op|done].
    destruct b; [by inv_ret H|]. unfold combined in Hcomb. subst s. by eapply IH.
Qed.

Lemma merge_inputs_strict o inputs : forall g ok g',
  lenient g o -> merge_inputs o inputs g = Some (ok, g') -> kept_strict g g'.
Proof.
  induction inputs as [|input rest IH]; intros g ok g' Hl H; simpl in H.
  - inv_ret H. apply kept_strict_refl.
  - inv_bind H iv s Hiv. apply ro_get_var in Hiv as ->.
    destruct (v_producer iv) as [producer|]; [|by eapply IH].
    inv_bind H p s Hp. apply get_op_inv in Hp as [Hp ->].
    destruct (negb (IsCalculateOp p)); [by eapply IH|].
    destruct (GetAttrBool p "strict" false) eqn:Hs; [by eapply IH|].
    inv_bind H b s Hb. pose proof (Combine_combined _ _ _ _ _ Hb) as Hcomb.
    apply Combine_strict in Hb; [|by eapply lenient_op|done].
    destruct b; [by inv_ret H|]. unfold combined in Hcomb. subst s. by eapply IH.
Qed.

Lemma visited_none (visited todo : list (option OpPtr)) (c : option OpPtr) (o : OpPtr) :
  Some o ∈ (visited ++ [None]) ++ todo -> Some o ∈ visited ++ c :: todo.
Proof.
  rewrite <- app_assoc. cbn [app]. rewrite !elem_of_app, !elem_of_cons.
  intros [?|[?|?]]; [by left|done|by right; right].
Qed.

Section Candidates.
Variables (wanted : Operation -> bool) (attempt : OpPtr -> list VarPtr -> FlowM bool).
Hypothesis attempt_strict : forall o inputs g ok g',
  lenient g o -> attempt o inputs g = Some (ok, g') -> kept_strict g g'.
Hypothesis attempt_untouched : forall o inputs g ok g',
  attempt o inputs g = Some (ok, g') -> untouched g g'.

Lemma candidates_pass_strict : forall todo visited n again g r g',
  all_lenient g (visited ++ todo) ->
  candidates_pass wanted attempt visited todo n again g = Some (r, g') ->
  kept_strict g g' /\ untouched g g' /\ all_lenient g' (candidates (fst r)).
Proof.
  induction todo as [|[o|] todo IH]; intros visited n again g r g' Hl H; simpl in H.
  - inv_ret H. rewrite app_nil_r in Hl.
    split; [apply kept_strict_refl|]. split; [apply untouched_refl|done].
  - inv_bind H oo s Ho. apply ro_get_op in Ho as ->.
    destruct (negb (wanted oo)).
    { eapply IH; [|exact H]. by rewrite <- app_assoc. }
    inv_bind H ok s Hok.
    pose proof (attempt_untouched _ _ _ _ _ Hok) as Hu.
    apply attempt_strict in Hok as Hk.
    2: { apply Hl. apply elem_of_app. right. by apply elem_of_cons; left. }
    assert (kept_strict s g' /\ untouched s g' /\ all_lenient g' (candidates (fst r)))
      as (Hk' & Hu' & Hl').
    { destruct ok; (eapply IH; [|exact H]);
        (eapply all_lenient_untouched; [exact Hu| |exact Hl]); intros o'.
      - apply visited_none.
      - by rewrite <- app_assoc. }
    split; [by eapply kept_strict_trans|]. split; [by eapply untouched_trans|done].
  - eapply IH; [|exact H]. intros o' Ho'. apply Hl. by apply visited_none.
Qed.

Lemma while_candidates_strict : forall fuel c g r g',
  all_lenient g (candidates c) ->
  while_state fuel
    (fun c => candidates_pass wanted attempt [] (candidates c) (num_combines c) false) c g
  = Some (r, g') ->
  kept_strict g g' /\ untouched g g' /\ all_lenient g' (candidates (fst r)).
Proof.
  induction fuel as [|fuel IH]; intros c g r g' Hl H; simpl in H.
  - inv_ret H. split; [apply kept_strict_refl|]. split; [apply untouched_refl|done].
  - inv_bind H r1 g1 H1. apply candidates_pass_strict in H1 as (Hk1 & Hu1 & Hl1); [|done].
    destruct (snd r1).
    + apply IH in H as (Hk & Hu & Hl'); [|done].
      split; [by eapply kept_strict_trans|]. split; [by eapply untouched_trans|done].
    + by inv_ret H.
Qed.

End Candidates.

Lemma sharing_pair_lenient cs : forall first g pr g',
  (forall a, first = Some a -> lenient g a) ->
  sharing_pair cs first g = Some (pr, g') ->
  (forall a, fst pr = Some a -> lenient g a) /\ (forall b, snd pr = Some b -> lenient g b).
Proof.
  induction cs as [|o cs IH]; intros first g pr g' Hf H; simpl in H.
  - inv_ret H. by split.
  - inv_bind H oo s Ho. apply get_op_inv in Ho as [Ho ->].
    destruct (negb (IsCalculateOp oo)); [by eapply IH|].
    destruct (GetAttrBool oo "strict" false) eqn:Hs; [by eapply IH|].
    destruct first as [a|].
    + inv_ret H. split; [done|]. intros b [= <-]. by eapply lenient_op.
    + eapply IH; [|exact H]. intros a [= <-]. by eapply lenient_op.
Qed.

Lemma sharing_pass_strict vs : forall g ok g',
  sharing_pass vs g = Some (ok, g') -> kept_strict g g'.
Proof.
  induction vs as [|v vs IH]; intros g ok g' H; simpl in H.
  - inv_ret H. apply kept_strict_refl.
  - inv_bind H vv s Hv. apply ro_get_var in Hv as ->.
    destruct (usages vv <? 2); [by eapply IH|].
    destruct (elements vv <? 2); [by eapply IH|].
    inv_bind H pr s Hpr. pose proof (ro_sharing_pair _ _ _ _ _ Hpr) as ->.
    apply sharing_pair_lenient in Hpr as [Hl1 Hl2]; [|done].
    destruct pr as [[first|] [second|]]; try by eapply IH.
    inv_bind H b s Hb. pose proof (Combine_combined _ _ _ _ _ Hb) as Hcomb.
    apply Combine_strict in Hb; [|by apply Hl1|by apply Hl2].
    destruct b; [by inv_ret H|]. unfold combined in Hcomb. subst s. by eapply IH.
Qed.

Lemma candidates_of_lenient f l : forall cands,
  candidates_of f l = Some cands -> all_lenient f cands.
Proof.
  induction l as [|o l IH]; intros cands H; simpl in H.
  - injection H as <-. by intros o ?%elem_of_nil.
  - destruct (op f o) as [oo|] eqn:Ho; [|done]. simpl in H.
    destruct (candidates_of f l) as [rest|]; [|done]. simpl in H.
    specialize (IH rest eq_refl).
    destruct (IsCalculateOp oo || IsAssignmentOp oo); simpl in H;
      [|injection H as <-; done].
    destruct (GetAttrBool oo "strict" false) eqn:Hs; simpl in H; injection H as <-; [done|].
    intros o' [[= ->]|Ho']%elem_of_cons; [by eapply lenient_op|by apply IH].
Qed.

End StrictFacts.

Section Strict.
Import Flow Transformers CombineFacts FrameFacts UntouchedFacts StrictFacts.

(** X17. [ExpressionTransformer::Transform] leaves every operation with the
    attribute [strict] as it is: it is not deleted, and its type, inputs,
    outputs, attributes and recipe are the ones it had. *)
Theorem ExpressionTransformer_keeps_strict (fuel : nat) (f f' : Flow.t)
    (r : option bool) (o : OpPtr) (oo : Operation) :
  ExpressionTransformer_Transform fuel f = Some (r, f') ->
  op f o = Some oo -> GetAttrBool oo "strict" false = true ->
  op f' o = Some oo.
Proof.
  intros H. revert o oo. change (kept_strict f f').
  unfold ExpressionTransformer_Transform in H. rewrite bind_gets in H.
  inv_bind H cands s Hc. apply lift_inv in Hc as [Hc ?]. cbn [fst snd] in *. subst s.
  apply candidates_of_lenient in Hc.
  inv_bind H r1 f1 H1.
  apply while_candidates_strict in H1 as (Hk1 & Hu1 & Hl1);
    [|apply absorb_inputs_strict
     |intros ?????; by apply (absorb_inputs_inv untouched untouched_refl untouched_trans
                                Combine_untouched)
     |done].
  destruct (negb (snd r1)); [by inv_ret H|].
  inv_bind H r2 f2 H2.
  apply while_candidates_strict in H2 as (Hk2 & Hu2 & Hl2);
    [|apply merge_inputs_strict
     |intros ?????; by apply (merge_inputs_inv untouched untouched_refl untouched_trans
                                Combine_untouched)
     |done].
  pose proof (kept_strict_trans _ _ _ Hk1 Hk2) as Hk12.
  destruct (negb (snd r2)); [by inv_ret H|].
  inv_bind H r3 f3 H3.
  apply (while_state_inv kept_strict kept_strict_refl kept_strict_trans) in H3.
  2: { intros c g r0 g' Hp. rewrite bind_gets in Hp.
       inv_bind Hp ok s Hs. apply sharing_pass_strict in Hs. by inv_ret Hp. }
  assert (f' = f3) as ->.
  { destruct (negb (snd r3)); by inv_ret H. }
  by eapply kept_strict_trans.
Qed.

(** The flow [y = a + b; z = Neg(y); t = Abs(y)] in which [Neg] has the
    attribute [strict]: [Add] and [Abs] are combined. *)
Definition strict_flow : Flow.t :=
  let v p c o := mkVariable "" DT_FLOAT [32%Z] None 128 o p c in
  mkFlow [0; 1; 2; 3; 4]%nat [0; 1; 2]%nat
    (list_to_map
       [(0, v None [0] false); (1, v None [0] false); (2, v (Some 0) [1; 2] false);
        (3, v (Some 1) [] true); (4, v (Some 2) [] true)]%nat)
    (list_to_map
       [(0, mkOperation "y" "Add" [0; 1] [2] [] []);
        (1, mkOperation "z" "Neg" [2] [3] [("strict", "1")] []);
        (2, mkOperation "t" "Abs" [2] [4] [] [])]%nat)
    [] ∅.

Definition strict_flow_transformed : option (option bool * Flow.t) :=
  Eval vm_compute in ExpressionTransformer_Transform 4 strict_flow.

Lemma ExpressionTransformer_keeps_strict_witness :
  op (default strict_flow (snd <$> strict_flow_transformed)) 1%nat
  = Some (mkOperation "z" "Neg" [2%nat] [3%nat] [("strict", "1")] []).
Proof.
  apply (ExpressionTransformer_keeps_strict 4 strict_flow
           (default strict_flow (snd <$> strict_flow_transformed))
           (Some true) 1%nat); vm_compute; reflexivity.
Defined.

End Strict.

(** ** AddNegToSubTransformer: the additions it rewrites *)
Section AddNegToSubOnly.
Import Flow Graph Transformers EliminateFacts PatternFacts.

(** X18. [AddNegToSubTransformer::Transform] rewrites no other addition: in a
    well-formed flow whose [Neg] operations have one input and one
    output, every [Add] is after the transformer as it was, unless its
    input 1 is output 0 of a [Neg], has a single consumer and is not an
    output of the flow; then it is a [Sub] whose input 1 is the input of
    that [Neg]. *)
Theorem AddNegToSub_only (f f' : Flow.t) (changed : bool) (add : OpPtr) (ao : Operation) :
  well_formed f = true -> unary "Neg" f = true ->
  AddNegToSubTransformer_Transform f = Some (changed, f') ->
  op f add = Some ao -> o_type ao = "Add" ->
  op f' add = Some ao
  \/ exists (w b : VarPtr) (wv : Var) (neg : OpPtr) (no : Operation),
       o_inputs ao !! 1%nat = Some w /\ var f w = Some wv /\ v_producer wv = Some neg
       /\ op f neg = Some no /\ o_type no = "Neg" /\ o_inputs no = [b]
       /\ o_outputs no !! 0%nat = Some w
       /\ usages wv = 1 /\ out wv = false
       /\ op f' add = Some (set_o_inputs (<[1%nat := b]> (o_inputs ao)) (set_o_type "Sub" ao))
       /\ op f' neg = None.
Proof.
  intros Hwf%well_formed_WF Har%unary_Arity H Hadd Hty.
  destruct (find_loop_ok "Neg|1:Add" 1 "Neg" "Add" "Sub" (fun l => l) AddNegToSub_body f 0)
    as (acc' & g & Hrun & Hloop); [done|done|apply AddNegToSub_body_ok|done|done|done|].
  unfold AddNegToSubTransformer_Transform in H.
  rewrite bind_gets, (bind_Some _ _ _ _ _ Hrun) in H. injection H as _ <-.
  destruct (decide (add ∈ Find f "Neg|1:Add")) as [Hin|Hnot].
  - pose proof Hin as [_ (co & w & wv & neg & no & Hm)]%(Find_Matched _ 1 "Neg" "Add");
      [|done].
    pose proof Hm as []. assert (co = ao) as -> by congruence.
    destruct (Match_arity 1 "Neg" "Add" _ _ _ _ _ _ _ Hwf Har Hm) as (b & bv & Hi & Ho & Hb).
    destruct (hidden_single wv) eqn:Hg.
    + right. exists w, b, wv, neg, no.
      destruct (lp_done _ _ _ _ _ _ _ _ _ _ Hloop add ao w wv neg no b Hin Hm Hi Hg)
        as (Hadd' & Hneg' & _).
      apply andb_true_iff in Hg as [Hu%Z.eqb_eq Hout%negb_true_iff].
      done.
    + left. by destruct (lp_kept _ _ _ _ _ _ _ _ _ _ Hloop add ao w wv neg no Hin Hm Hg).
  - left. rewrite (lp_frame _ _ _ _ _ _ _ _ _ _ Hloop); [done|done|].
    intros w (? & ? & ? & ? & _ & [] & _). congruence.
Qed.

Lemma AddNegToSub_only_witness :
  op (add_neg_flow true) 1%nat = Some (mkOperation "s" "Add" [0; 2]%nat [3%nat] [] [])
  \/ exists (w b : VarPtr) (wv : Var) (neg : OpPtr) (no : Operation),
       [0; 2]%nat !! 1%nat = Some w /\ var (add_neg_flow true) w = Some wv
       /\ v_producer wv = Some neg
       /\ op (add_neg_flow true) neg = Some no /\ o_type no = "Neg" /\ o_inputs no = [b]
       /\ o_outputs no !! 0%nat = Some w
       /\ usages wv = 1 /\ out wv = false
       /\ op (add_neg_flow true) 1%nat
          = Some (set_o_inputs (<[1%nat := b]> [0; 2]%nat)
                    (set_o_type "Sub" (mkOperation "s" "Add" [0; 2]%nat [3%nat] [] [])))
       /\ op (add_neg_flow true) neg = None.
Proof.
  apply (AddNegToSub_only (add_neg_flow true) (add_neg_flow true) false 1%nat
           (mkOperation "s" "Add" [0; 2]%nat [3%nat] [] [])); vm_compute; reflexivity.
Defined.

End AddNegToSubOnly.

(** ** The operations that [ExpressionTransformer] changes *)
Module ExpressedFacts.
Import Flow Graph Transformers EliminateFacts CombineFacts RecipeFacts TerminationFacts
  FrameFacts.

(** An operation of the second flow is as it was in the first, or it is
    a [Calculate] or an [Assign] with a recipe. *)
Definition expressed (f f' : Flow.t) : Prop :=
  forall o oo', op f' o = Some oo' ->
    op f o = Some oo'
    \/ ((o_type oo' = "Calculate" \/ o_type oo' = "Assign") /\ o_expr oo' <> []).

Lemma expressed_refl f : expressed f f.
Proof. intros o oo' Ho. by left. Qed.

Lemma expressed_trans f g h : expressed f g -> expressed g h -> expressed f h.
Proof.
  intros H1 H2 o oo' Ho. destruct (H2 o oo' Ho) as [Hg|?]; [|by right]. by apply H1.
Qed.

(** The operation that [Fuse] returns has the type [combined]; the one it
    merges into it is deleted. *)
Lemma Fuse_type first second ty m f r f' oo :
  Fuse first second ty m f = Some (r, f') -> op f' first = Some oo -> o_type oo = ty.
Proof.
  unfold Fuse. destruct (op f second) as [so|]; [|done]. cbn.
  destruct (op f first) as [fo|]; [|done]. cbn.
  destruct (fold_left _ (o_inputs so) _) as [f1|]; [|done]. cbn.
  destruct (fold_left _ (o_outputs so) _) as [f2|]; [|done]. cbn.
  intros [= <- <-]. rewrite op_DeleteOperation. destruct (decide (second = first)); [done|].
  rewrite op_update_op_eq. destruct (op f2 first); [|done]. by intros [= <-].
Qed.

Lemma Fuse_deletes first second ty m f r f' :
  Fuse first second ty m f = Some (r, f') -> op f' second = None.
Proof.
  intros (_ & _ & Hlive)%Fuse_live. apply not_elem_of_dom.
  unfold live_ops in Hlive. rewrite Hlive. intros [_ Hn]%elem_of_difference.
  apply Hn. by apply elem_of_singleton.
Qed.

Lemma Combine_expressed first second f ok f' :
  Combine first second f = Some (ok, f') -> expressed f f'.
Proof.
  intros H. pose proof (Combine_combined _ _ _ _ _ H) as Hc.
  pose proof (Combine_others _ _ _ _ _ H) as Hoth.
  destruct ok; [|unfold combined in Hc; subst; apply expressed_refl].
  intros o oo' Ho. unfold Combine in H.
  inv_bind H ok1 s Hcan. pose proof (ro_can_combine _ _ _ _ _ Hcan) as ->.
  destruct ok1; cbn [negb] in H; [|by inv_ret H].
  rewrite bind_gets in H. inv_bind H recipe s Hfuse. apply ro_lift in Hfuse as ->.
  destruct (Express.empty recipe) eqn:Hempty; [by inv_ret H|].
  assert (recipe <> []) as Hrecipe by (by intros ->).
  inv_bind H so1 s Hso1. apply ro_get_op in Hso1 as ->.
  unfold fuse_ops in H.
  inv_bind H so2 s Hso2. apply ro_get_op in Hso2 as ->.
  inv_bind H target s Ht.
  assert (s = f) as ->.
  { destruct (IsAssignmentOp so1); [by apply ro_lift in Ht|by inv_ret Ht]. }
  inv_bind H fused f1 HF.
  pose proof (Fuse_deletes _ _ _ _ _ _ _ HF) as Hgone.
  pose proof (Fuse_others _ _ _ _ _ _ _ HF) as [-> _].
  inv_bind H fu1 s Hfu1. apply get_op_inv in Hfu1 as [Hfu1 ->].
  pose proof (Fuse_type _ _ _ _ _ _ _ _ HF Hfu1) as Hty.
  inv_bind H in0 s Hin0.
  assert (o_inputs fu1 !! 0%nat = Some in0 \/ IsAssignmentOp so1 = false) as Hin0'.
  { destruct (IsAssignmentOp so1); [|by right]. left. by apply lift_inv in Hin0 as [? _]. }
  assert (s = f1) as ->.
  { destruct (IsAssignmentOp so1); [by apply ro_lift in Hin0|by inv_ret Hin0]. }
  inv_bind H r f2 Hr.
  assert (r <> [] /\ exists fu2, op f2 first = Some fu2 /\ o_type fu2 = o_type fu1
                                 /\ forall o', o' <> first -> op f2 o' = op f1 o')
    as (Hr' & fu2 & Hfu2 & Hty2 & Hoth2).
  { destruct (IsAssignmentOp so1 && bool_decide (in0 ≠ target)) eqn:Hswap.
    - apply andb_true_iff in Hswap as [Hassign Hne%bool_decide_eq_true].
      destruct Hin0' as [Hin0'|?]; [|congruence].
      cbv zeta in Hr.
      inv_bind Hr u s Hck. apply check_inv in Hck as [Hck ?]. cbn [fst snd] in *. subst s.
      inv_bind Hr r1 s Hsw. apply lift_inv in Hsw as [Hsw ?]. cbn [fst snd] in *. subst s.
      inv_bind Hr ins s Hins. apply ro_lift in Hins as ->.
      rewrite bind_modify in Hr. apply ret_inv in Hr.
      assert (r = r1 /\ f2 = update_op first (set_o_inputs ins) f1) as [-> ->]
        by (split; congruence).
      split.
      + unfold InputIndex in *.
        destruct (index_of target (o_inputs fu1)) as [i|] eqn:Hidx; [|done].
        pose proof (index_of_lookup _ _ _ Hidx) as Hi.
        assert (i <> 0%nat) as Hi0 by (intros ->; congruence).
        apply swap_target_exchange in Hsw; [|lia..]. subst r1.
        unfold exchange_inputs. by destruct recipe.
      + exists (set_o_inputs ins fu1). split; [by rewrite op_update_op_eq, Hfu1|].
        split; [done|]. intros o' Hne'. by apply op_update_op_ne.
    - apply ret_inv in Hr. assert (r = recipe /\ f2 = f1) as [-> ->] by (split; congruence).
      split; [done|]. by exists fu1. }
  inv_bind H fu3 s Hfu3. apply ro_get_op in Hfu3 as ->.
  rewrite bind_modify in H. apply ret_inv in H.
  assert (f' = update_op first (set_o_expr r) f2) as -> by congruence.
  destruct (decide (o = first)) as [->|Hne].
  - right. rewrite op_update_op_eq, Hfu2 in Ho. injection Ho as <-. cbn.
    split; [|done]. rewrite Hty2, Hty. destruct (IsAssignmentOp so1); [by right|by left].
  - left. destruct (decide (o = second)) as [->|Hne2].
    + rewrite op_update_op_ne, Hoth2 in Ho by done. congruence.
    + by rewrite Hoth in Ho.
Qed.

End ExpressedFacts.

Section Expressed.
Import Flow Transformers FrameFacts ExpressedFacts.

(** X19. Every operation that [ExpressionTransformer::Transform] has changed
    is an expression: an operation of the flow it leaves is as it was
    before, or it is a [Calculate] or an [Assign] with a recipe that is
    not empty. *)
Theorem ExpressionTransformer_expressions (fuel : nat) (f f' : Flow.t)
    (r : option bool) (o : OpPtr) (oo' : Operation) :
  ExpressionTransformer_Transform fuel f = Some (r, f') ->
  op f' o = Some oo' ->
  op f o = Some oo'
  \/ ((o_type oo' = "Calculate" \/ o_type oo' = "Assign") /\ o_expr oo' <> []).
Proof.
  intros H. revert o oo'. change (expressed f f').
  eapply (ExpressionTransformer_inv expressed);
    [apply expressed_refl|apply expressed_trans| |exact H].
  apply Combine_expressed.
Qed.

Definition nomerge_flow_combined : Operation :=
  Eval vm_compute in
    default (mkOperation "" "" [] [] [] [])
      (nomerge_flow_transformed ≫= fun r => op (snd r) 0%nat).

Lemma ExpressionTransformer_expressions_witness :
  op nomerge_flow 0%nat = Some nomerge_flow_combined
  \/ ((o_type nomerge_flow_combined = "Calculate"
       \/ o_type nomerge_flow_combined = "Assign")
      /\ o_expr nomerge_flow_combined <> []).
Proof.
  apply (ExpressionTransformer_expressions 4 nomerge_flow
           (default nomerge_flow (snd <$> nomerge_flow_transformed))
           (Some true) 0%nat); vm_compute; reflexivity.
Defined.

End Expressed.

(** ** A second run of a pattern loop *)
Module StableFacts.
Import Flow Graph Transformers EliminateFacts PatternFacts.

Section Stable.
Variables (idx : nat) (tP tC tN : string) (perm : list VarPtr -> list VarPtr).
Hypothesis HPC : tP <> tC.
Hypothesis HPN : tP <> tN.
Hypothesis HCN : tC <> tN.
Variables (f f' : Flow.t) (l : list OpPtr) (acc acc' : Z).
Hypothesis Hwf : WF f.
Hypothesis Har : Arity tP f.
Hypothesis Hall : forall c, c ∈ l <-> c ∈ ops_ f /\ Matched idx tP tC f c.
Hypothesis Hloop : Loop idx tP tC tN perm f f' l acc acc'.

(** Whether the loop bypasses an operation can be decided. *)
Lemma Hit_dec (o : OpPtr) : forall l',
  (forall c, c ∈ l' -> Matched idx tP tC f c) ->
  (exists w, Hit idx tP tC f l' o w) \/ (forall w, ~ Hit idx tP tC f l' o w).
Proof.
  induction l' as [|c l' IH]; intros Hl'.
  - right. intros w (c & ? & ? & ? & Hc & _). by apply elem_of_nil in Hc.
  - destruct IH as [[w Hw]|Hno].
    { intros c' Hc'. apply Hl'. by apply elem_of_cons; right. }
    { left. exists w. by apply Hit_tail. }
    destruct (Hl' c) as (co & w & wv & p & po & Hm); [by apply elem_of_cons; left|].
    destruct (decide (p = o)) as [->|Hne].
    + destruct (hidden_single wv) eqn:Hg.
      * left. exists w. by eapply Hit_head.
      * right. intros w' [(co' & wv' & po' & Hm' & Hg')|Ht]%Hit_cons; [|by eapply Hno].
        destruct (Match_inj _ _ _ _ _ _ _ _ _ _ _ _ _ _ _ Hm Hm') as (_ & _ & -> & _ & _).
        congruence.
    + right. intros w' [(co' & wv' & po' & Hm' & Hg')|Ht]%Hit_cons; [|by eapply Hno].
      destruct (Match_inj _ _ _ _ _ _ _ _ _ _ _ _ _ _ _ Hm Hm') as (_ & _ & _ & ? & _).
      congruence.
Qed.

(** An operation that the loop leaves is as it was, or it was rewritten. *)
Lemma loop_op_back o oo' :
  op f' o = Some oo' -> op f o = Some oo' \/ o_type oo' = tN.
Proof.
  intros Ho. destruct (decide (o ∈ l)) as [Hin|Hnot].
  - pose proof (proj1 (Hall o) Hin) as (_ & co & w & wv & p & po & Hm).
    destruct (Match_arity idx tP tC _ _ _ _ _ _ _ Hwf Har Hm) as (x & xv & Hi & Hou & Hx).
    destruct (hidden_single wv) eqn:Hg.
    + destruct (lp_done _ _ _ _ _ _ _ _ _ _ Hloop o co w wv p po x Hin Hm Hi Hg)
        as (Ho' & _). rewrite Ho' in Ho. injection Ho as <-. by right.
    + destruct (lp_kept _ _ _ _ _ _ _ _ _ _ Hloop o co w wv p po Hin Hm Hg) as (Ho' & _).
      left. destruct Hm. congruence.
  - destruct (Hit_dec o l) as [[w (c & co & wv & po & Hc & Hm & Hg)]|Hno].
    { intros c Hc. by apply Hall. }
    + destruct (Match_arity idx tP tC _ _ _ _ _ _ _ Hwf Har Hm) as (x & xv & Hi & Hou & Hx).
      destruct (lp_done _ _ _ _ _ _ _ _ _ _ Hloop c co w wv o po x Hc Hm Hi Hg)
        as (_ & Ho' & _). congruence.
    + left. by rewrite <- (lp_frame _ _ _ _ _ _ _ _ _ _ Hloop o Hnot Hno).
Qed.

(** A variable that the loop leaves differs at most in its consumers. *)
Lemma loop_var_back v vv' :
  var f' v = Some vv' -> exists vv, var f v = Some vv /\ same_edges vv vv'.
Proof.
  intros Hv. destruct (var f v) as [vv|] eqn:Hvv.
  - destruct (lp_var _ _ _ _ _ _ _ _ _ _ Hloop v vv Hvv) as (vv1 & Hv1 & Hs).
    + intros p (c & co & wv & po & Hc & Hm & Hg).
      destruct (Match_arity idx tP tC _ _ _ _ _ _ _ Hwf Har Hm)
        as (x & xv & Hi & Hou & Hx).
      destruct (lp_done _ _ _ _ _ _ _ _ _ _ Hloop c co v wv p po x Hc Hm Hi Hg)
        as (_ & _ & Hgone). congruence.
    + exists vv. split; [done|]. congruence.
  - apply (lp_gone _ _ _ _ _ _ _ _ _ _ Hloop) in Hvv. congruence.
Qed.

(** What the loop leaves of the pattern is not rewritten by a second
    loop. *)
Lemma loop_stable c co w wv' p po :
  Match idx tP tC f' c co w wv' p po -> hidden_single wv' = false.
Proof.
  intros [].
  destruct (loop_op_back c co m_c0) as [Hc|?]; [|congruence].
  destruct (loop_op_back p po m_po0) as [Hp|?]; [|congruence].
  destruct (loop_var_back w wv' m_wv0) as (wv & Hw & Hs).
  assert (Match idx tP tC f c co w wv p po) as Hm.
  { split; try done. by rewrite <- (same_edges_producer _ _ Hs). }
  assert (c ∈ l) as Hin.
  { apply Hall. split; [apply (wf_ops f Hwf); by eexists|]. by exists co, w, wv, p, po. }
  rewrite (same_edges_hidden _ _ Hs).
  destruct (hidden_single wv) eqn:Hg; [|done].
  destruct (Match_arity idx tP tC _ _ _ _ _ _ _ Hwf Har Hm) as (x & xv & Hi & Hou & Hx).
  destruct (lp_done _ _ _ _ _ _ _ _ _ _ Hloop c co w wv p po x Hin Hm Hi Hg) as (Hc' & _).
  rewrite Hc' in m_c0. injection m_c0 as Heq.
  assert (o_type co = tN) by (by rewrite <- Heq). congruence.
Qed.

(** The second loop changes nothing. *)
Lemma second_loop body l' acc0 :
  StepOK idx tP tC tN perm body ->
  (forall c, c ∈ l' -> Matched idx tP tC f' c) ->
  for_each l' body acc0 f' = Some (acc0, f').
Proof.
  intros Hbody. induction l' as [|c l' IH]; intros Hl'; [done|].
  destruct (Hl' c) as (co & w & wv & p & po & Hm); [by apply elem_of_cons; left|].
  destruct (Match_arity idx tP tC _ _ _ _ _ _ _ (lp_wf _ _ _ _ _ _ _ _ _ _ Hloop)
              (lp_arity _ _ _ _ _ _ _ _ _ _ Hloop) Hm) as (x & xv & Hi & Hou & Hx).
  pose proof (Hbody f' c acc0 co w wv p po x xv (lp_wf _ _ _ _ _ _ _ _ _ _ Hloop)
                Hm Hi Hou Hx) as Hb.
  rewrite (loop_stable _ _ _ _ _ _ Hm) in Hb.
  simpl. rewrite (bind_Some _ _ _ _ _ Hb). apply IH.
  intros c' Hc'. apply Hl'. by apply elem_of_cons; right.
Qed.

End Stable.

End StableFacts.

Section Idempotent.
Import Flow Graph Transformers EliminateFacts PatternFacts StableFacts.

(** X20. [AddNegToSubTransformer::Transform] does all its work in one run:
    on a well-formed flow whose [Neg] operations have one input and one
    output, a second run on the flow that the first run leaves returns
    false and changes nothing. *)
Theorem AddNegToSubTransformer_idempotent (f f' : Flow.t) (changed : bool) :
  well_formed f = true -> unary "Neg" f = true ->
  AddNegToSubTransformer_Transform f = Some (changed, f') ->
  AddNegToSubTransformer_Transform f' = Some (false, f').
Proof.
  intros Hwf%well_formed_WF Har%unary_Arity H.
  destruct (find_loop_ok "Neg|1:Add" 1 "Neg" "Add" "Sub" (fun l => l) AddNegToSub_body f 0)
    as (acc' & g & Hrun & Hloop); [done|done|apply AddNegToSub_body_ok|done|done|done|].
  unfold AddNegToSubTransformer_Transform in H.
  rewrite bind_gets, (bind_Some _ _ _ _ _ Hrun) in H. injection H as _ <-.
  assert (for_each (Find g "Neg|1:Add") AddNegToSub_body 0 g = Some (0, g)) as Hagain.
  { eapply (second_loop 1 "Neg" "Add" "Sub" (fun l => l)); try done; try exact Hloop.
    - intros c. by apply (Find_Matched _ 1 "Neg" "Add").
    - apply AddNegToSub_body_ok.
    - intros c Hc. by apply (Find_Matched _ 1 "Neg" "Add") in Hc as [_ ?]. }
  unfold AddNegToSubTransformer_Transform.
  by rewrite bind_gets, (bind_Some _ _ _ _ _ Hagain).
Qed.

Definition add_neg_flow_transformed : Flow.t :=
  Eval vm_compute in
    default (add_neg_flow false)
            (snd <$> AddNegToSubTransformer_Transform (add_neg_flow false)).

Lemma AddNegToSubTransformer_idempotent_witness :
  AddNegToSubTransformer_Transform add_neg_flow_transformed
  = Some (false, add_neg_flow_transformed).
Proof.
  apply (AddNegToSubTransformer_idempotent (add_neg_flow false) add_neg_flow_transformed
           true); vm_compute; reflexivity.
Defined.

End Idempotent.

(** ** DivTransformer: when the loop over the divisions does not abort *)
Module TotalFacts.
Import Flow Graph Transformers EliminateFacts PatternFacts DivFacts.

(** The constants of type float with one element have 4 bytes of data in
    a block of the flow. *)
Definition readable (g : Flow.t) : bool :=
  forallb (fun e =>
             let vv := snd e in
             negb (bool_decide (v_type vv = DT_FLOAT) && (elements vv =? 1))
             || match v_data vv with
                | Some a =>
                    (v_size vv =? 4)
                    && match heap g !! a with
                       | Some bs => (4 <=? length bs)%nat
                       | None => false
                       end
                | None => true
                end)
          (map_to_list (var_at g)).

Definition Readable (g : Flow.t) : Prop :=
  forall v vv a, var g v = Some vv -> v_type vv = DT_FLOAT -> elements vv = 1 ->
    v_data vv = Some a ->
    v_size vv = 4 /\ exists bs, heap g !! a = Some bs /\ (4 <= length bs)%nat.

Lemma readable_Readable g : readable g = true -> Readable g.
Proof.
  unfold readable. rewrite forallb_forall. intros Hall v vv a Hv Hty Hel Ha.
  specialize (Hall (v, vv)). simpl in Hall.
  rewrite Hty, Hel, Ha in Hall. rewrite bool_decide_eq_true_2 in Hall by done.
  simpl in Hall.
  assert (In (v, vv) (map_to_list (var_at g))) as Hin.
  { apply list_elem_of_In. by apply elem_of_map_to_list. }
  apply Hall in Hin. apply andb_true_iff in Hin as [Hsize%Z.eqb_eq Hblock].
  split; [done|]. destruct (heap g !! a) as [bs|]; [|done].
  exists bs. split; [done|]. by apply Nat.leb_le.
Qed.

Lemma two_inputs oo :
  negb (indegree oo =? 2) = false -> exists in0 in1, o_inputs oo = [in0; in1].
Proof.
  intros Hdeg%negb_false_iff%Z.eqb_eq. unfold indegree in Hdeg.
  destruct (o_inputs oo) as [|in0 [|in1 [|in2 l]]]; simpl in Hdeg; try lia.
  by exists in0, in1.
Qed.

(** One iteration of the loop does not abort, and keeps the constants
    readable. *)
Lemma div_total g u o :
  WF g -> Readable g -> o ∈ ops_ g ->
  exists u' g', DivTransformer_div o u g = Some (u', g') /\ Readable g'.
Proof.
  intros Hwf Hr Ho. apply (wf_ops g Hwf) in Ho as [oo Ho].
  unfold DivTransformer_div. rewrite (bind_get_op _ _ _ _ Ho).
  destruct (bool_decide (o_type oo ≠ "Div") && bool_decide (o_type oo ≠ "RealDiv")).
  { by exists u, g. }
  destruct (negb (indegree oo =? 2)) eqn:Hdeg.
  { by exists u, g. }
  destruct (two_inputs oo Hdeg) as (in0 & in1 & Hins). rewrite Hins.
  change ([in0; in1] !! 0%nat) with (Some in0).
  change ([in0; in1] !! 1%nat) with (Some in1).
  destruct (wf_inputs g Hwf o oo in0 Ho) as [fv Hfv]; [rewrite Hins; by left|].
  destruct (wf_inputs g Hwf o oo in1 Ho) as [sv Hsv].
  { rewrite Hins. apply elem_of_cons; right. by left. }
  rewrite !bind_lift, (bind_get_var _ _ _ _ Hfv), (bind_get_var _ _ _ _ Hsv).
  destruct (bool_decide (v_type sv = DT_FLOAT) && (elements sv =? 1)
            && constant sv && (usages sv =? 1)) eqn:Hc1.
  - (* Div(x,c) to Mul(x,1/c) *)
    apply andb_true_iff in Hc1 as [[[Hty%bool_decide_eq_true Hel%Z.eqb_eq]%andb_true_iff
                                      Hconst]%andb_true_iff _].
    unfold constant in Hconst. apply bool_decide_eq_true in Hconst.
    destruct (v_data sv) as [a|] eqn:Ha; [|done].
    destruct (Hr in1 sv a Hsv Hty Hel Ha) as (Hsize & bs & Hbs & Hlen).
    rewrite Hsize. cbn [Z.eqb Pos.eqb]. rewrite bind_check, bind_modify, bind_lift.
    rewrite (bind_get_block a bs) by done.
    assert (exists c, Float.load_float bs = Some c) as [c Hc].
    { unfold Float.load_float. apply Nat.leb_le in Hlen. rewrite Hlen. eauto. }
    rewrite Hc, bind_lift, bind_allocate.
    cbn [AllocateMemory fst snd].
    set (buffer := fresh (dom (heap (update_op o (set_o_type "Mul") g)))).
    assert (heap g !! buffer = None) as Hfresh.
    { apply not_elem_of_dom. apply (is_fresh (dom (heap g))). }
    erewrite bind_get_block; [|apply lookup_insert_eq].
    cbn [Float.store_float replicate length Nat.leb drop app]. rewrite bind_lift.
    unfold set_block. rewrite bind_modify, bind_modify.
    eexists _, _. split; [reflexivity|].
    intros v vv' a' Hv Hty' Hel' Ha'.
    unfold var, update_var in Hv. cbn in Hv.
    destruct (decide (v = in1)) as [->|Hne].
    + rewrite lookup_alter_eq in Hv. unfold var in Hsv. rewrite Hsv in Hv.
      injection Hv as <-. cbn in Ha'. injection Ha' as <-. split; [done|].
      eexists. cbn [heap set_heap update_var set_var_at]. fold buffer.
      rewrite lookup_insert_eq. split; [done|]. rewrite length_app. simpl. lia.
    + rewrite lookup_alter_ne in Hv by done.
      destruct (Hr v vv' a' Hv Hty' Hel' Ha') as (Hsize' & bs' & Hbs'' & Hlen').
      split; [done|]. exists bs'. split; [|done].
      cbn [heap set_heap update_var set_var_at]. fold buffer.
      assert (a' <> buffer) by (intros ->; congruence).
      rewrite lookup_insert_ne by done. by rewrite lookup_insert_ne.
  - destruct (bool_decide (v_type fv = DT_FLOAT) && (elements fv =? 1) && constant fv).
    2: { by exists u, g. }
    rewrite bind_gets. destruct (GetData_float g fv) as [x|]; [|by exists u, g].
    destruct (Float.deq (Float.to_double x) Float.d_one); [|by exists u, g].
    rewrite !bind_modify. eexists _, _. split; [reflexivity|].
    intros v vv' a' Hv Hty' Hel' Ha'. rewrite var_RemoveInput in Hv.
    change (heap (RemoveInput o in0 (update_op o (set_o_type "Reciprocal") g)))
      with (heap g).
    destruct (decide (v = in0)) as [->|Hne].
    + rewrite var_update_op, Hfv in Hv. injection Hv as <-.
      by apply (Hr in0 fv a').
    + rewrite var_update_op in Hv. by apply (Hr v vv' a').
Qed.

Lemma divs_total l : forall u g,
  WF g -> Readable g -> (forall o, o ∈ l -> o ∈ ops_ g) ->
  is_Some (for_each l DivTransformer_div u g).
Proof.
  induction l as [|o l IH]; intros u g Hwf Hr Hl; simpl; [eauto|].
  destruct (div_total g u o Hwf Hr) as (u1 & g1 & H1 & Hr1).
  { apply Hl. by apply elem_of_cons; left. }
  rewrite (bind_Some _ _ _ _ _ H1). apply div_step in H1 as [_ []].
  apply IH; [by apply ds_wf0|done|].
  intros o' Ho'. rewrite ds_ops0. apply Hl. by apply elem_of_cons; right.
Qed.

End TotalFacts.

Section Total.
Import Flow Graph Transformers EliminateFacts PatternFacts DivFacts TotalFacts.

(** X21. [DivTransformer::Transform] returns on every well-formed flow whose
    [Sqrt] operations have one input and one output and whose constants
    of type float with one element have 4 bytes of data in a block of the
    flow: no check of the loop over the divisions fails and no data is
    read outside a block. *)
Theorem DivTransformer_total (f : Flow.t) :
  well_formed f = true -> unary "Sqrt" f = true -> readable f = true ->
  is_Some (DivTransformer_divs 0 f) /\ is_Some (DivTransformer_Transform f).
Proof.
  intros Hwf%well_formed_WF Har%unary_Arity Hr%readable_Readable.
  assert (is_Some (DivTransformer_divs 0 f)) as Hdivs.
  { unfold DivTransformer_divs. rewrite bind_gets. by apply divs_total. }
  split; [done|]. destruct Hdivs as [[u1 f1] Hdivs].
  assert (for_each (Flow.ops_ f) DivTransformer_div 0 f = Some (u1, f1)) as Hrun1 by done.
  apply div_loop in Hrun1 as [_ L1]; [|done].
  assert (Arity "Sqrt" f1) as Har1.
  { intros o oo Ho Hoty. apply (Har o oo); [|done].
    apply (dl_back _ _ _ L1); [done|by rewrite Hoty..]. }
  destruct (find_loop_ok "Sqrt|Reciprocal" 0 "Sqrt" "Reciprocal" "Rsqrt" (fun l => l)
              DivTransformer_rsqrt f1 u1)
    as (u2 & f2 & Hrun2 & L2);
    [done|done|apply DivTransformer_rsqrt_ok|done|apply L1|done|].
  unfold DivTransformer_Transform.
  assert (DivTransformer_rsqrts u1 f1 = Some (u2, f2)) as Hrsqrts.
  { unfold DivTransformer_rsqrts. by rewrite bind_gets. }
  rewrite (bind_Some _ _ _ _ _ Hdivs), (bind_Some _ _ _ _ _ Hrsqrts). eauto.
Qed.

Lemma DivTransformer_total_witness :
  is_Some (DivTransformer_divs 0 div_sqrt_flow)
  /\ is_Some (DivTransformer_Transform div_sqrt_flow).
Proof.
  apply (DivTransformer_total div_sqrt_flow); vm_compute; reflexivity.
Defined.

End Total.
